(** * The syzkaller executor core (executor/executor.h)

    A shallow embedding of the program interpreter, the result table, the
    worker slots, the completion handler, signal extraction and the dedup
    table, together with the properties stated for them.

    Conventions.
    - A [uintN_t] value is a [Z] in [0, 2^N); the wrap-around of every
      arithmetic operation is written out with [u32] and [u64].
    - A C array is a [list] read and updated by index.
    - A pointer into [input_data] is the index of a 64-bit word.
    - [fail(...)] and [exitf(...)] end the process; a function that may
      reach one returns a [result]. *)

From Stdlib Require Import ZArith Zquot Lia List Bool String Sorted Permutation.
From stdpp Require Import base numbers list.

Local Open Scope Z_scope.

(** ** Machine integers *)

Definition u32 (x : Z) : Z := x mod 2 ^ 32.
Definition u64 (x : Z) : Z := x mod 2 ^ 64.

(** ** Constants *)

Definition kMaxInput : Z := Z.shiftl 2 20.
Definition kMaxOutput : Z := Z.shiftl 16 20.
Definition kCoverSize : Z := Z.shiftl 64 10.
Definition kMaxArgs : Z := 9.
Definition kMaxThreads : Z := 16.
Definition kMaxCommands : Z := 1000.

Definition instr_eof : Z := u64 (-1).
Definition instr_copyin : Z := u64 (-2).
Definition instr_copyout : Z := u64 (-3).

Definition arg_const : Z := 0.
Definition arg_result : Z := 1.
Definition arg_data : Z := 2.
Definition arg_csum : Z := 3.

Definition no_copyout : Z := u64 (-1).
Definition default_value : Z := u64 (-1).

Definition arg_csum_inet : Z := 0.
Definition arg_csum_chunk_data : Z := 0.
Definition arg_csum_chunk_const : Z := 1.

(** ** Outcomes of a function that may end the process *)

Inductive result (A : Type) : Type :=
| Ok (a : A)
| Fail (msg : string)
| Exitf (msg : string)
| OutOfFuel.
Arguments Ok {A} a.
Arguments Fail {A} msg.
Arguments Exitf {A} msg.
Arguments OutOfFuel {A}.

#[global] Instance result_ret : MRet result := fun _ a => Ok a.
#[global] Instance result_bind : MBind result := fun _ _ k r =>
  match r with
  | Ok a => k a
  | Fail m => Fail m
  | Exitf m => Exitf m
  | OutOfFuel => OutOfFuel
  end.

Definition is_fail {A} (r : result A) : Prop :=
  match r with Fail _ => True | _ => False end.

(** ** Input stream *)

(** [input_data] is a zero-initialised buffer of [kMaxInput] bytes whose
    first words are the program: a word beyond the list reads as 0. *)
Definition input_word (input_data : list Z) (pos : Z) : Z :=
  u64 (default 0 (input_data !! Z.to_nat pos)).

Definition read_input (input_data : list Z) (input_pos : Z) (peek : bool)
  : result (Z * Z) :=
  if kMaxInput <=? 8 * input_pos then Fail "input command overflows input"
  else Ok (input_word input_data input_pos,
           if peek then input_pos else input_pos + 1).

(** ** Result table *)

Record res_t : Type := mk_res { executed : bool; val : Z }.

Definition res_at (results : list res_t) (idx : Z) : res_t :=
  default (mk_res false 0) (results !! Z.to_nat idx).

Definition results_init : list res_t :=
  replicate (Z.to_nat kMaxCommands) (mk_res false 0).

Definition read_result (input_data : list Z) (results : list res_t)
  (input_pos : Z) : result (Z * Z) :=
  '(idx, input_pos) ← read_input input_data input_pos false;
  '(op_div, input_pos) ← read_input input_data input_pos false;
  '(op_add, input_pos) ← read_input input_data input_pos false;
  if kMaxCommands <=? idx then Fail "command refers to bad result"
   else
     let arg := default_value in
     let arg :=
       if executed (res_at results idx) then
         let arg := val (res_at results idx) in
         let arg := if negb (op_div =? 0) then arg / op_div else arg in
         u64 (arg + op_add)
       else arg in
    Ok (arg, input_pos).

(** ** Signal hash and dedup table *)

Definition hash (a : Z) : Z :=
  let a := Z.lxor (Z.lxor a 61) (Z.shiftr a 16) in
  let a := u32 (a + u32 (Z.shiftl a 3)) in
  let a := Z.lxor a (Z.shiftr a 4) in
  let a := u32 (a * 0x27d4eb2d) in
  let a := Z.lxor a (Z.shiftr a 15) in
  a.

Definition dedup_table_size : Z := Z.shiftl 8 10.

Definition tbl_at (tbl : list Z) (pos : Z) : Z :=
  default 0 (tbl !! Z.to_nat pos).

Definition tbl_set (tbl : list Z) (pos v : Z) : list Z :=
  <[Z.to_nat pos := v]> tbl.

Definition dedup_table_init : list Z :=
  replicate (Z.to_nat dedup_table_size) 0.

(** The loop [for (i = 0; i < 4; i++)], with [n] iterations left. *)
Fixpoint dedup_loop (n : nat) (i : Z) (sig : Z) (dedup_table : list Z)
  : bool * list Z :=
  match n with
  | O => (false, tbl_set dedup_table (sig mod dedup_table_size) sig)
  | S n' =>
      let pos := u32 (sig + i) mod dedup_table_size in
      if tbl_at dedup_table pos =? sig then (true, dedup_table)
      else if tbl_at dedup_table pos =? 0 then
             (false, tbl_set dedup_table pos sig)
      else dedup_loop n' (i + 1) sig dedup_table
  end.

Definition dedup (sig : Z) (dedup_table : list Z) : bool * list Z :=
  dedup_loop 4 0 sig dedup_table.

(** ** Comparison records *)

Definition KCOV_CMP_CONST : Z := 1.
Definition KCOV_CMP_SIZE1 : Z := 0.
Definition KCOV_CMP_SIZE2 : Z := 2.
Definition KCOV_CMP_SIZE4 : Z := 4.
Definition KCOV_CMP_SIZE8 : Z := 6.
Definition KCOV_CMP_SIZE_MASK : Z := 6.

Record kcov_comparison_t : Type := mk_cmp {
  cmp_type : Z;
  cmp_arg1 : Z;
  cmp_arg2 : Z;
  cmp_pc : Z
}.

(** [(uint64_t)(int64_t)(intN_t)x]: keep the low [n] bits of [x] and copy
    bit [n-1] into the bits above. *)
Definition sign_extend (n : Z) (x : Z) : Z :=
  let low := x mod 2 ^ n in
  if Z.testbit low (n - 1) then u64 (low - 2 ^ n) else low.

(** [kcov_comparison_t::write]: the words handed to [write_output], in
    order, and the record with its arguments as the function leaves them. *)
Definition cmp_write (c : kcov_comparison_t) : list Z * kcov_comparison_t :=
  let type := cmp_type c in
  let w0 := u32 type in
  let sz := Z.land type KCOV_CMP_SIZE_MASK in
  let ext (a : Z) : Z :=
    if sz =? KCOV_CMP_SIZE1 then sign_extend 8 a
    else if sz =? KCOV_CMP_SIZE2 then sign_extend 16 a
    else if sz =? KCOV_CMP_SIZE4 then sign_extend 32 a
    else a in
  let arg1 := ext (cmp_arg1 c) in
  let arg2 := ext (cmp_arg2 c) in
  let c' := mk_cmp type arg1 arg2 (cmp_pc c) in
  let is_size_8 := sz =? KCOV_CMP_SIZE8 in
  if negb is_size_8 then ([w0; u32 arg1; u32 arg2], c')
  else ([w0; u32 (Z.land arg1 0xFFFFFFFF); u32 (Z.shiftr arg1 32);
         u32 (Z.land arg2 0xFFFFFFFF); u32 (Z.shiftr arg2 32)], c').

(** [operator==] *)
Definition cmp_eqb (a b : kcov_comparison_t) : bool :=
  (cmp_type a =? cmp_type b) && (cmp_arg1 a =? cmp_arg1 b)
  && (cmp_arg2 a =? cmp_arg2 b).

(** [operator<] *)
Definition cmp_ltb (a b : kcov_comparison_t) : bool :=
  if negb (cmp_type a =? cmp_type b) then cmp_type a <? cmp_type b
  else if negb (cmp_arg1 a =? cmp_arg1 b) then cmp_arg1 a <? cmp_arg1 b
  else cmp_arg2 a <? cmp_arg2 b.

(** The coverage buffer read as an array of comparison records: record
    [i] is the four words from [4 * i]. *)
Definition cmp_at (cover_data : list Z) (i : nat) : kcov_comparison_t :=
  let w (k : nat) := default 0 (cover_data !! (4 * i + k)%nat) in
  mk_cmp (w 0%nat) (w 1%nat) (w 2%nat) (w 3%nat).

Definition cmp_array (cover_data : list Z) (n : nat) : list kcov_comparison_t :=
  map (cmp_at cover_data) (seq 0 n).

(** ** [std::sort] and [std::unique] *)

Section Algorithms.
Context {A : Type} (ltb eqb : A -> A -> bool).

Fixpoint sort_insert (x : A) (l : list A) : list A :=
  match l with
  | [] => [x]
  | y :: l' => if ltb y x then y :: sort_insert x l' else x :: l
  end.

(** [std::sort] orders a range by [operator<] and leaves open which of
    several equivalent elements comes first; this insertion sort is one
    such ordering. *)
Fixpoint std_sort (l : list A) : list A :=
  match l with
  | [] => []
  | x :: l' => sort_insert x (std_sort l')
  end.

(** [std::unique]: of every run of consecutive equal elements the first
    is kept; [x] is the last element kept so far. *)
Fixpoint unique_from (x : A) (l : list A) : list A :=
  match l with
  | [] => [x]
  | y :: l' => if eqb x y then unique_from x l' else x :: unique_from y l'
  end.

Definition std_unique (l : list A) : list A :=
  match l with
  | [] => []
  | x :: l' => unique_from x l'
  end.

(** [b] is not smaller than [a]: what [std::sort] makes true of every
    element and the one after it. *)
Definition ascending (a b : A) : Prop := ltb b a = false.
End Algorithms.

(** ** The platform

    What the file takes from the operating-system layer and the common
    helpers: the kernel and the guest memory behind [execute_syscall],
    [NONFAILING] accesses, the coverage driver, fault injection, the
    checksum helpers and the progress of the worker threads.  [W] is the
    state of all that. *)

(** How far the worker of a slot has come with the call it was given:
    it still sleeps in [event_wait(&th->ready)]; it is inside
    [execute_call], past [event_reset(&th->ready)], and the call has not
    returned; or it has come to [event_set(&th->done)]. *)
Inductive progress : Type :=
| Asleep
| InCall
| Finished.

Class Platform (W : Type) : Type := {
  syscall_count : Z;
  (** [execute_syscall(call, a0..a8)]: the [long] it returns. *)
  execute_syscall : Z -> list Z -> W -> Z * W;
  errno : W -> Z;
  cover_enable : Z -> W -> W;
  cover_reset : Z -> W -> W;
  read_cover_size : Z -> W -> Z;
  (** the words behind [th->cover_data] *)
  cover_buffer : Z -> W -> list Z;
  inject_fault : Z -> W -> Z * W;
  fault_injected_fd : Z -> W -> bool * W;
  (** [NONFAILING(STORE_BY_BITMASK(uintN_t, addr, val, bf_off, bf_len))]
      for [N = 8 * size] *)
  store_by_bitmask : Z -> Z -> Z -> Z -> Z -> W -> W;
  (** [NONFAILING(res = *(uintN_t* )addr)]; [None] when the access faults *)
  load_guest : Z -> Z -> W -> option Z;
  (** [NONFAILING(memcpy(addr, input_pos, size))] *)
  memcpy_guest : Z -> list Z -> Z -> Z -> W -> W;
  csum_inet_init : Z;
  (** [NONFAILING(csum_inet_update(&csum, (const uint8_t* )addr, size))] *)
  csum_inet_update_guest : Z -> Z -> Z -> W -> Z;
  (** [csum_inet_update(&csum, (const uint8_t* )&chunk_value, size)] *)
  csum_inet_update_const : Z -> Z -> Z -> Z;
  csum_inet_digest : Z -> Z;
  (** [kcov_comparison_t::ignore] *)
  cmp_ignore : kcov_comparison_t -> bool;
  thread_start : Z -> W -> W;
  sleep_ms : Z -> W -> W;
  (** How far the worker of a slot has come with the call it was given
      after the interpreter has waited that many milliseconds for it (0
      when it does not wait). *)
  worker_poll : Z -> Z -> W -> progress * W
}.

(** ** Worker slots and global state *)

Record thread_t : Type := mk_thread {
  th_created : bool;
  th_id : Z;
  (** the words behind the [cover_data] pointer when the call returned *)
  th_cover_data : list Z;
  th_ready : bool;
  th_done : bool;
  th_copyout_pos : Z;
  th_copyout_index : Z;
  th_handled : bool;
  th_call_index : Z;
  th_call_num : Z;
  th_num_args : Z;
  th_args : list Z;
  th_res : Z;
  th_reserrno : Z;
  th_cover_size : Z;
  th_fault_injected : bool
}.

Definition thread_zero : thread_t :=
  mk_thread false 0 [] false false 0 0 false 0 0 0
    (replicate (Z.to_nat kMaxArgs) 0) 0 0 0 false.

Definition set_th_copyout_pos (th : thread_t) (pos : Z) : thread_t :=
  mk_thread (th_created th) (th_id th) (th_cover_data th) (th_ready th)
    (th_done th) pos (th_copyout_index th) (th_handled th) (th_call_index th)
    (th_call_num th) (th_num_args th) (th_args th) (th_res th)
    (th_reserrno th) (th_cover_size th) (th_fault_injected th).

Definition set_th_ready (th : thread_t) (v : bool) : thread_t :=
  mk_thread (th_created th) (th_id th) (th_cover_data th) v
    (th_done th) (th_copyout_pos th) (th_copyout_index th) (th_handled th)
    (th_call_index th) (th_call_num th) (th_num_args th) (th_args th)
    (th_res th) (th_reserrno th) (th_cover_size th) (th_fault_injected th).

Definition set_th_handled (th : thread_t) (v : bool) : thread_t :=
  mk_thread (th_created th) (th_id th) (th_cover_data th) (th_ready th)
    (th_done th) (th_copyout_pos th) (th_copyout_index th) v
    (th_call_index th) (th_call_num th) (th_num_args th) (th_args th)
    (th_res th) (th_reserrno th) (th_cover_size th) (th_fault_injected th).

#[global] Instance thread_t_inhabited : Inhabited thread_t :=
  populate thread_zero.

Record flags_t : Type := mk_flags {
  flag_debug : bool;
  flag_collect_cover : bool;
  flag_dedup_cover : bool;
  flag_threaded : bool;
  flag_collide : bool;
  flag_collect_comps : bool;
  flag_inject_fault : bool;
  flag_fault_call : Z;
  flag_fault_nth : Z
}.

(** A store into the output region. *)
Inductive out_action : Type :=
| OutAppend (v : Z)            (* [*output_pos++ = v] *)
| OutPatch (pos : Z) (v : Z)   (* [*pos = v] through a saved pointer *)
| OutCompleted (v : Z).        (* [write_completed(v)] *)

Record state (W : Type) : Type := mk_state {
  flags : flags_t;
  running : Z;
  completed : Z;
  collide : bool;
  input_data : list Z;
  threads : list thread_t;
  results : list res_t;
  dedup_table : list Z;
  (** the words of [output_data] below [output_pos] *)
  output_data : list Z;
  (** the stores into the output region so far, oldest first *)
  output_log : list out_action;
  world : W
}.
Arguments mk_state {W}.
Arguments flags {W}.
Arguments running {W}.
Arguments completed {W}.
Arguments collide {W}.
Arguments input_data {W}.
Arguments threads {W}.
Arguments results {W}.
Arguments dedup_table {W}.
Arguments output_data {W}.
Arguments output_log {W}.
Arguments world {W}.

(** [th->cover_data[i]] *)
Definition cover_word (th : thread_t) (i : Z) : Z :=
  u64 (default 0 (th_cover_data th !! Z.to_nat i)).

(** The words [th->cover_data[0 .. n)]. *)
Definition cover_words (th : thread_t) (n : Z) : list Z :=
  map (fun i => cover_word th (Z.of_nat i)) (seq 0 (Z.to_nat n)).

(** The PCs the coverage branch writes out, before their truncation to 32
    bits: the first [cover_size] words, sorted and uniqued in place under
    [flag_dedup_cover]. *)
Definition cover_pcs (dedup_cover : bool) (th : thread_t) : list Z :=
  let cover_size := u32 (th_cover_size th) in
  let pcs := cover_words th cover_size in
  if dedup_cover then std_unique Z.eqb (std_sort Z.ltb pcs) else pcs.

(** The records the comparison branch writes, in order.  The sorting and
    uniquing happen in place in the coverage buffer, which is not read
    again before the next call resets it. *)
Definition sorted_comps (th : thread_t) : list kcov_comparison_t :=
  let ncomps := u32 (th_cover_size th) in
  std_unique cmp_eqb
    (std_sort cmp_ltb (cmp_array (th_cover_data th) (Z.to_nat ncomps))).

Section Executor.
Context {W : Type} {P : Platform W}.

Definition set_running (st : state W) (v : Z) : state W :=
  mk_state (flags st) v (completed st) (collide st) (input_data st)
    (threads st) (results st) (dedup_table st) (output_data st)
    (output_log st) (world st).

Definition set_completed (st : state W) (v : Z) : state W :=
  mk_state (flags st) (running st) v (collide st) (input_data st)
    (threads st) (results st) (dedup_table st) (output_data st)
    (output_log st) (world st).

Definition set_collide (st : state W) (v : bool) : state W :=
  mk_state (flags st) (running st) (completed st) v (input_data st)
    (threads st) (results st) (dedup_table st) (output_data st)
    (output_log st) (world st).

Definition set_threads (st : state W) (v : list thread_t) : state W :=
  mk_state (flags st) (running st) (completed st) (collide st)
    (input_data st) v (results st) (dedup_table st) (output_data st)
    (output_log st) (world st).

Definition set_results (st : state W) (v : list res_t) : state W :=
  mk_state (flags st) (running st) (completed st) (collide st)
    (input_data st) (threads st) v (dedup_table st) (output_data st)
    (output_log st) (world st).

Definition set_dedup_table (st : state W) (v : list Z) : state W :=
  mk_state (flags st) (running st) (completed st) (collide st)
    (input_data st) (threads st) (results st) v (output_data st)
    (output_log st) (world st).

Definition set_output (st : state W) (v : list Z) (l : list out_action)
  : state W :=
  mk_state (flags st) (running st) (completed st) (collide st)
    (input_data st) (threads st) (results st) (dedup_table st) v l
    (world st).

Definition set_world (st : state W) (v : W) : state W :=
  mk_state (flags st) (running st) (completed st) (collide st)
    (input_data st) (threads st) (results st) (dedup_table st)
    (output_data st) (output_log st) v.

Definition thread_at (st : state W) (i : Z) : thread_t :=
  threads st !!! Z.to_nat i.

Definition set_thread (st : state W) (i : Z) (th : thread_t) : state W :=
  set_threads st (<[Z.to_nat i := th]> (threads st)).

(** *** Output buffer *)

(** Modelled from the spec: [write_output] is defined outside
    executor.h.  The output buffer is append-only and holds
    [kMaxOutput] bytes of 32-bit words; nothing is emitted while the
    internal [collide] flag is set.  The word is stored at [output_pos],
    which then moves on; the place of the word is returned (no place
    under [collide]).  A full buffer ends the process. *)
Definition write_output (v : Z) (st : state W)
  : result (option Z * state W) :=
  if collide st then Ok (None, st)
  else
    let output_pos := Z.of_nat (length (output_data st)) in
    if kMaxOutput <=? 4 * output_pos then Fail "output overflow"
    else Ok (Some output_pos,
             set_output st (output_data st ++ [u32 v])
               (output_log st ++ [OutAppend (u32 v)])).

(** [*pos = v] for a place returned by [write_output]. *)
Definition out_store (pos : option Z) (v : Z) (st : state W)
  : result (state W) :=
  match pos with
  | Some p => Ok (set_output st (<[Z.to_nat p := u32 v]> (output_data st))
                    (output_log st ++ [OutPatch p (u32 v)]))
  | None => Fail "store through a null pointer"
  end.

(** Modelled from the spec: [write_completed] is defined outside
    executor.h.  Word 0 of the output buffer is the completed count. *)
Definition write_completed (v : Z) (st : state W) : state W :=
  set_output st (<[0%nat := u32 v]> (output_data st))
    (output_log st ++ [OutCompleted (u32 v)]).

(** *** Guest memory *)

Definition copyin (addr v size bf_off bf_len : Z) (w : W) : result W :=
  if (size =? 1) || (size =? 2) || (size =? 4) || (size =? 8) then
    Ok (store_by_bitmask size addr v bf_off bf_len w)
  else Fail "copyin: bad argument size".

Definition copyout (addr size : Z) (w : W) : result Z :=
  let res := default_value in
  if (size =? 1) || (size =? 2) || (size =? 4) || (size =? 8) then
    Ok (default res (load_guest size addr w))
  else Fail "copyout: bad argument size".

(** *** Completion *)

(** [read_input(&th->copyout_pos)] *)
Definition read_copyout_pos (i : Z) (st : state W) : result (Z * state W) :=
  let th := thread_at st i in
  '(v, pos) ← read_input (input_data st) (th_copyout_pos th) false;
  Ok (v, set_thread st i (set_th_copyout_pos th pos)).

Definition set_result (st : state W) (idx v : Z) : state W :=
  set_results st (<[Z.to_nat idx := mk_res true v]> (results st)).

(** The loop [for (bool done = false; !done;)] of [handle_completion]. *)
Fixpoint copyout_loop (fuel : nat) (i : Z) (st : state W)
  : result (state W) :=
  match fuel with
  | O => OutOfFuel
  | S fuel' =>
      '(instr, st) ← read_copyout_pos i st;
      if instr =? instr_copyout then
        '(index, st) ← read_copyout_pos i st;
        '(addr, st) ← read_copyout_pos i st;
        '(size, st) ← read_copyout_pos i st;
        v ← copyout addr size (world st);
        if kMaxCommands <=? index then
          Fail "result idx overflows kMaxCommands"
        else copyout_loop fuel' i (set_result st index v)
      else Ok st
  end.

(** Every turn of a loop over the input reads at least one word, and
    no word is read at or beyond [kMaxInput] bytes. *)
Definition input_fuel (pos : Z) : nat := S (Z.to_nat (kMaxInput / 8 - pos)).

(** *** Signals, coverage and comparisons *)

(** The loop [for (uint32_t i = 0; i < th->cover_size; i++)] over the
    feedback signals, with [n] iterations left. *)
Fixpoint signal_loop (n : nat) (th : thread_t) (i prev nsig : Z)
  (st : state W) : result (Z * state W) :=
  match n with
  | O => Ok (nsig, st)
  | S n' =>
      let pc := u32 (cover_word th i) in
      let sig := Z.lxor pc prev in
      let prev := hash pc in
      let '(dup, tbl) := dedup sig (dedup_table st) in
      let st := set_dedup_table st tbl in
      if dup then signal_loop n' th (u32 (i + 1)) prev nsig st
      else
        '(_, st) ← write_output sig st;
        signal_loop n' th (u32 (i + 1)) prev (u32 (nsig + 1)) st
  end.

Fixpoint write_words (l : list Z) (st : state W) : result (state W) :=
  match l with
  | [] => Ok st
  | v :: l' => '(_, st) ← write_output v st; write_words l' st
  end.

(** The block under [if (flag_collect_cover)]: the count written back
    and the state. *)
Definition write_cover (th : thread_t) (st : state W)
  : result (Z * state W) :=
  let cover_size := u32 (th_cover_size th) in
  let pcs := cover_pcs (flag_dedup_cover (flags st)) th in
  let cover_size :=
    if flag_dedup_cover (flags st) then u32 (Z.of_nat (length pcs))
    else cover_size in
  st ← write_words pcs st;
  Ok (cover_size, st).

(** The loop [for (uint32_t i = 0; i < ncomps; ++i)] over the sorted
    and uniqued records. *)
Fixpoint write_comps (l : list kcov_comparison_t) (comps_size : Z)
  (st : state W) : result (Z * state W) :=
  match l with
  | [] => Ok (comps_size, st)
  | c :: l' =>
      if cmp_ignore c then write_comps l' comps_size st
      else
        let comps_size := u32 (comps_size + 1) in
        st ← write_words (fst (cmp_write c)) st;
        write_comps l' comps_size st
  end.

(** The branch on [flag_collect_comps] in [handle_completion]: the
    values of [nsig], [cover_size] and [comps_size] after it, and the
    state. *)
Definition write_feedback (th : thread_t) (st : state W)
  : result (Z * Z * Z * state W) :=
  if flag_collect_comps (flags st) then
    let ncomps := u32 (th_cover_size th) in
    if kCoverSize <=? 4 * ncomps then Fail "too many comparisons"
    else
      '(comps_size, st) ← write_comps (sorted_comps th) 0 st;
      Ok (0, 0, comps_size, st)
  else
    (* [i] wraps around before it reaches a [cover_size] of 2^32 or
       more: the loop is never left. *)
    if 2 ^ 32 <=? th_cover_size th then OutOfFuel
    else
      '(nsig, st) ← signal_loop (Z.to_nat (th_cover_size th)) th 0 0 0 st;
      if flag_collect_cover (flags st) then
        '(cover_size, st) ← write_cover th st;
        Ok (nsig, cover_size, 0, st)
      else Ok (nsig, 0, 0, st).

(** The body of [if (!collide)] in [handle_completion]. *)
Definition completion_output (i : Z) (st : state W) : result (state W) :=
  let th := thread_at st i in
  '(_, st) ← write_output (th_call_index th) st;
  '(_, st) ← write_output (th_call_num th) st;
  let reserrno := if negb (th_res th =? -1) then 0 else th_reserrno th in
  '(_, st) ← write_output reserrno st;
  '(_, st) ← write_output (Z.b2z (th_fault_injected th)) st;
  '(signal_count_pos, st) ← write_output 0 st;
  '(cover_count_pos, st) ← write_output 0 st;
  '(comps_count_pos, st) ← write_output 0 st;
  '(nsig, cover_size, comps_size, st) ← write_feedback th st;
  st ← out_store cover_count_pos cover_size st;
  st ← out_store comps_count_pos comps_size st;
  st ← out_store signal_count_pos nsig st;
  let st := set_completed st (u32 (completed st + 1)) in
  Ok (write_completed (completed st) st).

Definition handle_completion (i : Z) (st : state W) : result (state W) :=
  let th := thread_at st i in
  if th_ready th || negb (th_done th) || th_handled th then
    Fail "bad thread state in completion"
  else
    st ← (if negb (th_res th =? -1) then
            st ← (if negb (th_copyout_index th =? no_copyout) then
                    if kMaxCommands <=? th_copyout_index th then
                      Fail "result idx overflows kMaxCommands"
                    else Ok (set_result st (th_copyout_index th)
                               (u64 (th_res th)))
                  else Ok st);
            copyout_loop (input_fuel (th_copyout_pos th)) i st
          else Ok st);
    st ← (if negb (collide st) then completion_output i st else Ok st);
    let st := set_thread st i (set_th_handled (thread_at st i) true) in
    Ok (set_running st (running st - 1)).

(** *** Worker slots *)

Definition thread_create (i : Z) (st : state W) : state W :=
  let th := thread_at st i in
  let st := set_thread st i
              (mk_thread true i (th_cover_data th) false true
                 (th_copyout_pos th) (th_copyout_index th) true
                 (th_call_index th) (th_call_num th) (th_num_args th)
                 (th_args th) (th_res th) (th_reserrno th)
                 (th_cover_size th) (th_fault_injected th)) in
  if flag_threaded (flags st) then set_world st (thread_start i (world st))
  else st.

Definition execute_call (i : Z) (st : state W) : result (state W) :=
  let th := thread_at st i in
  let armed := flag_inject_fault (flags st)
               && (th_call_index th =? flag_fault_call (flags st)) in
  '(fail_fd, w) ←
    (if armed then
       if collide st then
         Fail "both collide and fault injection are enabled"
       else Ok (inject_fault (flag_fault_nth (flags st)) (world st))
     else Ok (-1, world st)) : result (Z * W);
  let w := cover_reset (th_id th) w in
  let '(res, w) := execute_syscall (th_call_num th) (th_args th) w in
  let reserrno := u32 (errno w) in
  let cover_size := read_cover_size (th_id th) w in
  let '(injected, w) :=
    if armed then fault_injected_fd fail_fd w else (false, w) in
  Ok (set_world
        (set_thread st i
           (mk_thread (th_created th) (th_id th) (cover_buffer (th_id th) w)
              false true (th_copyout_pos th) (th_copyout_index th)
              (th_handled th) (th_call_index th) (th_call_num th)
              (th_num_args th) (th_args th) res reserrno cover_size
              injected))
        w).

(** The worker of a slot runs [execute_call] for every call the slot is
    given, concurrently with the interpreter: it wakes when
    [schedule_call] sets [ready], clears [ready] first and sets [done]
    last.  A created slot with [done] clear has been given a call
    ([schedule_call] is the only code that clears [done] of a slot whose
    worker runs), so its worker is about to wake or is inside
    [execute_call].  The steps of the worker are placed at the points
    where the interpreter, or a statement about the slot, can see them:
    where [schedule_call] returns and where the interpreter looks at the
    [done] event.  The platform tells how far the worker has come by
    then: no further than before, past [event_reset(&th->ready)], or to
    the end of the call. *)
Definition worker_progress (i ms : Z) (st : state W) : result (state W) :=
  let th := thread_at st i in
  if flag_threaded (flags st) && th_created th && negb (th_done th) then
    let '(p, w) := worker_poll i ms (world st) in
    let st := set_world st w in
    match p with
    | Asleep => Ok st
    | InCall => Ok (set_thread st i (set_th_ready th false))
    | Finished => execute_call i st
    end
  else Ok st.

(** [event_isset(&th->done)] *)
Definition event_isset_done (i : Z) (st : state W)
  : result (bool * state W) :=
  st ← worker_progress i 0 st;
  Ok (th_done (thread_at st i), st).

(** [event_timedwait(&th->done, timeout_ms)] *)
Definition event_timedwait_done (i timeout_ms : Z) (st : state W)
  : result (bool * state W) :=
  st ← worker_progress i timeout_ms st;
  Ok (th_done (thread_at st i), st).

(** The loop [for (i = 0; i < kMaxThreads; i++)] of [schedule_call],
    with [n] iterations left: the value of [i] when it is left. *)
Fixpoint schedule_scan (n : nat) (i : Z) (st : state W)
  : result (Z * state W) :=
  match n with
  | O => Ok (i, st)
  | S n' =>
      let st := if negb (th_created (thread_at st i))
                then thread_create i st else st in
      '(isset, st) ← event_isset_done i st;
      if isset : bool then
        st ← (if negb (th_handled (thread_at st i))
              then handle_completion i st else Ok st);
        Ok (i, st)
      else schedule_scan n' (i + 1) st
  end.

(** [uint64_t args[kMaxArgs] = {}] with the values read so far. *)
Definition args_array (vals : list Z) : list Z :=
  take (Z.to_nat kMaxArgs) (vals ++ replicate (Z.to_nat kMaxArgs) 0).

Definition schedule_call (call_index call_num copyout_index num_args : Z)
  (args : list Z) (pos : Z) (st : state W) : result (Z * state W) :=
  '(i, st) ← schedule_scan (Z.to_nat kMaxThreads) 0 st;
  if i =? kMaxThreads then Exitf "out of threads"
  else
    let th := thread_at st i in
    if th_ready th || negb (th_done th) || negb (th_handled th) then
      Fail "bad thread state in schedule"
    else
      let st := set_thread st i
                  (mk_thread (th_created th) (th_id th) (th_cover_data th)
                     true false pos copyout_index false call_index
                     call_num num_args args (th_res th) (th_reserrno th)
                     (th_cover_size th) (th_fault_injected th)) in
      let st := set_running st (running st + 1) in
      (* the worker has been woken by event_set(&th->ready) *)
      st ← worker_progress i 0 st;
      Ok (i, st).

(** *** The interpreter *)

Definition read_arg (input_pos : Z) (st : state W) : result (Z * Z) :=
  '(typ, input_pos) ← read_input (input_data st) input_pos false;
  '(size, input_pos) ← read_input (input_data st) input_pos false;
  if typ =? arg_const then
    '(arg, input_pos) ← read_input (input_data st) input_pos false;
    '(_, input_pos) ← read_input (input_data st) input_pos false;
    '(_, input_pos) ← read_input (input_data st) input_pos false;
    Ok (arg, input_pos)
  else if typ =? arg_result then
    read_result (input_data st) (results st) input_pos
  else Fail "bad argument type".

(** [for (uint64_t i = 0; i < num_args; i++) args[i] = read_arg(..)] *)
Fixpoint read_args (n : nat) (input_pos : Z) (st : state W)
  : result (list Z * Z) :=
  match n with
  | O => Ok ([], input_pos)
  | S n' =>
      '(arg, input_pos) ← read_arg input_pos st;
      '(l, input_pos) ← read_args n' input_pos st;
      Ok (arg :: l, input_pos)
  end.

(** [for (uint64_t i = 0; i < (size + 7) / 8; i++) read_input(..)] *)
Fixpoint skip_data (fuel : nat) (i n : Z) (input_pos : Z) (st : state W)
  : result Z :=
  if i <? n then
    match fuel with
    | O => OutOfFuel
    | S fuel' =>
        '(_, input_pos) ← read_input (input_data st) input_pos false;
        skip_data fuel' (i + 1) n input_pos st
    end
  else Ok input_pos.

(** [for (chunk = 0; chunk < chunks_num; chunk++)] of the inet
    checksum: the accumulator and the cursor when it is left. *)
Fixpoint csum_chunks (fuel : nat) (chunk chunks_num : Z) (csum : Z)
  (input_pos : Z) (st : state W) : result (Z * Z) :=
  if chunk <? chunks_num then
    match fuel with
    | O => OutOfFuel
    | S fuel' =>
        '(chunk_kind, input_pos) ←
          read_input (input_data st) input_pos false;
        '(chunk_value, input_pos) ←
          read_input (input_data st) input_pos false;
        '(chunk_size, input_pos) ←
          read_input (input_data st) input_pos false;
        if chunk_kind =? arg_csum_chunk_data then
          csum_chunks fuel' (chunk + 1) chunks_num
            (csum_inet_update_guest csum chunk_value chunk_size (world st))
            input_pos st
        else if chunk_kind =? arg_csum_chunk_const then
          if negb (chunk_size =? 2) && negb (chunk_size =? 4)
             && negb (chunk_size =? 8) then
            Fail "bad checksum const chunk size"
          else
            csum_chunks fuel' (chunk + 1) chunks_num
              (csum_inet_update_const csum chunk_value chunk_size)
              input_pos st
        else Fail "bad checksum chunk kind"
    end
  else Ok (csum, input_pos).

(** The [case arg_csum] of a copyin, from the word after [size]. *)
Definition copyin_csum (addr size : Z) (input_pos : Z) (st : state W)
  : result (Z * state W) :=
  let csum_addr := addr in
  let csum_size := size in
  '(csum_kind, input_pos) ← read_input (input_data st) input_pos false;
  if csum_kind =? arg_csum_inet then
    if negb (csum_size =? 2) then Fail "inet checksum must be 2 bytes"
    else
      let csum := csum_inet_init in
      '(chunks_num, input_pos) ← read_input (input_data st) input_pos false;
      '(csum, input_pos) ←
        csum_chunks (input_fuel input_pos) 0 chunks_num csum input_pos st;
      let csum_value := sign_extend 16 (csum_inet_digest csum) in
      w ← copyin csum_addr csum_value 2 0 0 (world st);
      Ok (input_pos, set_world st w)
  else Fail "bad checksum kind".

(** The body of [if (call_num == instr_copyin)]. *)
Definition execute_copyin (input_pos : Z) (st : state W)
  : result (Z * state W) :=
  '(addr, input_pos) ← read_input (input_data st) input_pos false;
  '(typ, input_pos) ← read_input (input_data st) input_pos false;
  '(size, input_pos) ← read_input (input_data st) input_pos false;
  if typ =? arg_const then
    '(arg, input_pos) ← read_input (input_data st) input_pos false;
    '(bf_off, input_pos) ← read_input (input_data st) input_pos false;
    '(bf_len, input_pos) ← read_input (input_data st) input_pos false;
    w ← copyin addr arg size bf_off bf_len (world st);
    Ok (input_pos, set_world st w)
  else if typ =? arg_result then
    '(v, input_pos) ← read_result (input_data st) (results st) input_pos;
    w ← copyin addr v size 0 0 (world st);
    Ok (input_pos, set_world st w)
  else if typ =? arg_data then
    let w := memcpy_guest addr (input_data st) input_pos size (world st) in
    input_pos ←
      skip_data (input_fuel input_pos) 0 (u64 (size + 7) / 8) input_pos st;
    Ok (input_pos, set_world st w)
  else if typ =? arg_csum then copyin_csum addr size input_pos st
  else Fail "bad argument type".

(** The sweep [for (int i = 0; i < kMaxThreads; i++)] after a wait. *)
Fixpoint sweep (n : nat) (i : Z) (st : state W) : result (state W) :=
  match n with
  | O => Ok st
  | S n' =>
      st ← (if negb (th_handled (thread_at st i)) then
              '(isset, st) ← event_isset_done i st;
              if isset : bool then handle_completion i st else Ok st
            else Ok st);
      sweep n' (i + 1) st
  end.

(** The branch [else if (flag_threaded)] after a call is scheduled. *)
Definition wait_call (th : Z) (input_pos : Z) (st : state W)
  : result (state W) :=
  let timeout_ms := if flag_debug (flags st) then 500 else 20 in
  '(isset, st) ← event_timedwait_done th timeout_ms st;
  st ← (if isset : bool then handle_completion th st else Ok st);
  if running st <? 0 then Fail "running < 0"
  else if 0 <? running st then
    '(next, _) ← read_input (input_data st) input_pos true;
    let last := next =? instr_eof in
    let st := set_world st (sleep_ms (if last then 10 else 1) (world st)) in
    sweep (Z.to_nat kMaxThreads) 0 st
  else Ok st.

(** The branch [else] after a call is scheduled: execute directly. *)
Definition execute_direct (th : Z) (st : state W) : result (state W) :=
  if negb (th =? 0) then Fail "using non-main thread in non-thread mode"
  else
    st ← execute_call th st;
    handle_completion th st.
(** The part of the loop body under [// Normal syscall]: the cursor,
    [call_index] and the state at the end of the iteration. *)
Definition execute_syscall_instr (call_num input_pos call_index : Z)
  (st : state W) : result (Z * Z * state W) :=
  if syscall_count <=? call_num then Fail "invalid command number"
  else
    '(copyout_index, input_pos) ← read_input (input_data st) input_pos false;
    '(num_args, input_pos) ← read_input (input_data st) input_pos false;
    if kMaxArgs <? num_args then Fail "command has bad number of arguments"
    else
      '(vals, input_pos) ← read_args (Z.to_nat num_args) input_pos st;
      let args := args_array vals in
      '(th, st) ← schedule_call call_index call_num copyout_index num_args
                    args input_pos st;
      let call_index := call_index + 1 in
      st ← (if collide st && (Z.rem call_index 2 =? 0) then
              (* Don't wait for every other call. *)
              Ok st
            else if flag_threaded (flags st) then wait_call th input_pos st
            else execute_direct th st);
      Ok (input_pos, call_index, st).

(** The loop [for (;;)] of [execute_one]: the value of [call_index]
    and the state when [instr_eof] is read. *)
Fixpoint execute_loop (fuel : nat) (input_pos call_index : Z)
  (st : state W) : result (Z * state W) :=
  match fuel with
  | O => OutOfFuel
  | S fuel' =>
      '(call_num, input_pos) ← read_input (input_data st) input_pos false;
      if call_num =? instr_eof then Ok (call_index, st)
      else if call_num =? instr_copyin then
        '(input_pos, st) ← execute_copyin input_pos st;
        execute_loop fuel' input_pos call_index st
      else if call_num =? instr_copyout then
        '(_, input_pos) ← read_input (input_data st) input_pos false;
        '(_, input_pos) ← read_input (input_data st) input_pos false;
        '(_, input_pos) ← read_input (input_data st) input_pos false;
        execute_loop fuel' input_pos call_index st
      else
        '(input_pos, call_index, st) ←
          execute_syscall_instr call_num input_pos call_index st;
        execute_loop fuel' input_pos call_index st
  end.

(** One pass over the program, from the label [retry] to the end of
    the loop. *)
Definition execute_pass (st : state W) : result (Z * state W) :=
  let input_pos := 0 in
  '(_, st) ← write_output 0 st;
  let st := if negb (collide st) && negb (flag_threaded (flags st))
            then set_world st (cover_enable 0 (world st)) else st in
  let call_index := 0 in
  execute_loop (input_fuel input_pos) input_pos call_index st.

(** [execute_one], with [passes] bounding the jumps to [retry]. *)
Fixpoint execute_one_retry (passes : nat) (st : state W)
  : result (state W) :=
  match passes with
  | O => OutOfFuel
  | S passes' =>
      '(_, st) ← execute_pass st;
      if flag_collide (flags st) && negb (flag_inject_fault (flags st))
         && negb (collide st) then
        execute_one_retry passes' (set_collide st true)
      else Ok st
  end.

(** The jump to [retry] sets [collide], which rules out another. *)
Definition execute_one (st : state W) : result (state W) :=
  execute_one_retry 2 st.

(** The state at the start of an execute request. *)
Definition init_state (fl : flags_t) (prog : list Z) (w : W) : state W :=
  mk_state fl 0 0 false prog
    (replicate (Z.to_nat kMaxThreads) thread_zero)
    results_init dedup_table_init [] [] w.
End Executor.

(** ** Execute request *)

Record execute_req : Type := mk_req {
  req_magic : Z;
  req_env_flags : Z;
  req_exec_flags : Z;
  req_pid : Z;
  req_fault_call : Z;
  req_fault_nth : Z;
  req_prog_size : Z
}.

(** [(int)x] for a [uint64_t] *)
Definition to_int (x : Z) : Z := (x + 2 ^ 31) mod 2 ^ 32 - 2 ^ 31.

(** The flags as [receive_execute] leaves them. *)
Definition receive_execute_flags (req : execute_req) : flags_t :=
  let env (k : Z) := negb (Z.land (req_env_flags req) (Z.shiftl 1 k) =? 0) in
  let exec (k : Z) := negb (Z.land (req_exec_flags req) (Z.shiftl 1 k) =? 0) in
  let flag_threaded := exec 4 in
  let flag_collide := exec 5 in
  let flag_collide := if negb flag_threaded then false else flag_collide in
  mk_flags (env 0) (exec 0) (exec 1) flag_threaded flag_collide (exec 3)
    (exec 2) (to_int (req_fault_call req)) (to_int (req_fault_nth req)).

(** ** Notions used in the statements *)

(** The slot [dedup] looks at in its [i]-th probe for [sig]. *)
Definition dedup_slot (sig i : Z) : Z := (sig + i) mod dedup_table_size.

(** A probed slot that holds neither [sig] nor zero. *)
Definition dedup_occupied (dedup_table : list Z) (sig i : Z) : Prop :=
  tbl_at dedup_table (dedup_slot sig i) <> sig
  /\ tbl_at dedup_table (dedup_slot sig i) <> 0.

(** Whether [dedup sig] ends in the overwriting store after its loop. *)
Definition dedup_overwrites (sig : Z) (dedup_table : list Z) : bool :=
  forallb (fun i =>
             negb (tbl_at dedup_table (dedup_slot sig i) =? sig)
             && negb (tbl_at dedup_table (dedup_slot sig i) =? 0))
    [0; 1; 2; 3].

(** The table after [dedup] has been called on each signal in turn. *)
Definition dedup_all (sigs : list Z) (dedup_table : list Z) : list Z :=
  fold_left (fun tbl sig => snd (dedup sig tbl)) sigs dedup_table.

(** None of the calls of [dedup] on [sigs], in turn, overwrites. *)
Fixpoint no_overwrite (sigs : list Z) (dedup_table : list Z) : bool :=
  match sigs with
  | [] => true
  | sig :: sigs' =>
      negb (dedup_overwrites sig dedup_table)
      && no_overwrite sigs' (snd (dedup sig dedup_table))
  end.

(** None of the calls of [dedup] on [sigs], in turn, ends in an
    overwriting store into the slot that holds [s], nor in an
    overwriting store of the zero signal. *)
Fixpoint no_displacement (s : Z) (sigs : list Z) (dedup_table : list Z)
  : bool :=
  match sigs with
  | [] => true
  | sig :: sigs' =>
      negb (dedup_overwrites sig dedup_table
            && ((tbl_at dedup_table (sig mod dedup_table_size) =? s)
                || (sig =? 0)))
      && no_displacement s sigs' (snd (dedup sig dedup_table))
  end.

(** [sig] is met by the probes before any empty slot. *)
Definition dedup_finds (tbl : list Z) (sig : Z) : Prop :=
  exists i, 0 <= i < 4
            /\ (forall j, 0 <= j < i -> dedup_occupied tbl sig j)
            /\ tbl_at tbl (dedup_slot sig i) = sig.

(** The scalar mix as the specification words it, on 32-bit values:
    [a = (a XOR 61) XOR (a >> 16); a += a << 3; a XOR= a >> 4;
     a *= 0x27d4eb2d; a XOR= a >> 15]. *)
Definition spec_hash (a : Z) : Z :=
  let a := Z.lxor (Z.lxor a 61) (a / 2 ^ 16) in
  let a := (a + a * 2 ^ 3) mod 2 ^ 32 in
  let a := Z.lxor a (a / 2 ^ 4) in
  let a := (a * 0x27d4eb2d) mod 2 ^ 32 in
  Z.lxor a (a / 2 ^ 15).

(** The signals emitted for a sequence of PCs as the specification words
    it, with the dedup table after them: [prev] starts at 0; for each PC,
    [sig] is its low 32 bits XOR [prev], [prev] becomes the hash of the
    low 32 bits, and [sig] is emitted when [dedup sig] returns false. *)
Fixpoint spec_signals (pcs : list Z) (prev : Z) (tbl : list Z)
  : list Z * list Z :=
  match pcs with
  | [] => ([], tbl)
  | pc :: pcs' =>
      let pc := pc mod 2 ^ 32 in
      let sig := Z.lxor pc prev in
      let '(dup, tbl) := dedup sig tbl in
      let '(sigs, tbl) := spec_signals pcs' (spec_hash pc) tbl in
      (if dup then sigs else sig :: sigs, tbl)
  end.

(** What a completion writes after the four leading words of its record
    (section 6.2 of the specification): the three counts, the payload
    and the dedup table afterwards. *)
Definition completion_payload (fl : flags_t)
  (ignore : kcov_comparison_t -> bool) (th : thread_t) (tbl : list Z)
  : Z * Z * Z * list Z * list Z :=
  if flag_collect_comps fl then
    let comps := List.filter (fun c => negb (ignore c)) (sorted_comps th) in
    (0, 0, Z.of_nat (length comps),
     concat (map (fun c => fst (cmp_write c)) comps), tbl)
  else
    let '(sigs, tbl') :=
      spec_signals (cover_words th (th_cover_size th)) 0 tbl in
    let cover :=
      if flag_collect_cover fl
      then map u32 (cover_pcs (flag_dedup_cover fl) th) else [] in
    (Z.of_nat (length sigs), Z.of_nat (length cover), 0, sigs ++ cover, tbl').

(** The four leading words of a completion record. *)
Definition record_head (th : thread_t) : list Z :=
  [u32 (th_call_index th); u32 (th_call_num th);
   u32 (if th_res th =? -1 then th_reserrno th else 0);
   Z.b2z (th_fault_injected th)].

(** A completion record: head, counts, payload. *)
Definition record_words (th : thread_t) (p : Z * Z * Z * list Z * list Z)
  : list Z :=
  let '(nsig, ncover, ncomps, payload, _) := p in
  record_head th ++ [nsig; ncover; ncomps] ++ payload.

(** The stores a completion makes into the output region, in order, when
    the buffer holds [len] words before it: the record with its counts
    still zero, the three counts through the saved pointers, and the
    completed counter. *)
Definition record_stores (len : Z) (th : thread_t)
  (p : Z * Z * Z * list Z * list Z) (completed' : Z) : list out_action :=
  let '(nsig, ncover, ncomps, payload, _) := p in
  map OutAppend (record_head th ++ [0; 0; 0] ++ payload)
  ++ [OutPatch (len + 5) ncover; OutPatch (len + 6) ncomps;
      OutPatch (len + 4) nsig; OutCompleted completed'].

(** The state after [ws] have been appended to the output buffer. *)
Definition appended {W : Type} (st : state W) (ws : list Z) : state W :=
  set_output st (output_data st ++ ws) (output_log st ++ map OutAppend ws).

(** The fields [operator==] and [operator<] look at. *)
Definition cmp_key (c : kcov_comparison_t) : Z * Z * Z :=
  (cmp_type c, cmp_arg1 c, cmp_arg2 c).

Definition key_ltb (a b : Z * Z * Z) : bool :=
  let '(t1, x1, y1) := a in
  let '(t2, x2, y2) := b in
  if negb (t1 =? t2) then t1 <? t2
  else if negb (x1 =? x2) then x1 <? x2
  else y1 <? y2.

Definition key_eqb (a b : Z * Z * Z) : bool :=
  let '(t1, x1, y1) := a in
  let '(t2, x2, y2) := b in
  (t1 =? t2) && (x1 =? x2) && (y1 =? y2).

(** The lexicographic order on [(type, arg1, arg2)]. *)
Definition cmp_lex_lt (a b : kcov_comparison_t) : Prop :=
  cmp_type a < cmp_type b
  \/ (cmp_type a = cmp_type b
      /\ (cmp_arg1 a < cmp_arg1 b
          \/ (cmp_arg1 a = cmp_arg1 b /\ cmp_arg2 a < cmp_arg2 b))).

(** Equality that ignores [pc]. *)
Definition cmp_same (a b : kcov_comparison_t) : Prop :=
  cmp_type a = cmp_type b /\ cmp_arg1 a = cmp_arg1 b
  /\ cmp_arg2 a = cmp_arg2 b.

(** The operand size in bytes that [type] encodes (codes 0, 2, 4, 6). *)
Definition cmp_size (type : Z) : Z :=
  2 ^ (Z.land type KCOV_CMP_SIZE_MASK / 2).

(** The value of the low [8 * size] bits of [x] read as a signed
    integer, as a 64-bit word. *)
Definition spec_sign_extend (size : Z) (x : Z) : Z :=
  let bits := 8 * size in
  ((x + 2 ^ (bits - 1)) mod 2 ^ bits - 2 ^ (bits - 1)) mod 2 ^ 64.

(** The words of a comparison record as the specification words them:
    [type] as one 32-bit word, then [arg1] and [arg2] sign-extended by
    the size class, one 32-bit word each below size 8 and two
    little-endian 32-bit words each at size 8. *)
Definition spec_cmp_words (c : kcov_comparison_t) : list Z :=
  let size := cmp_size (cmp_type c) in
  let lo (x : Z) := x mod 2 ^ 32 in
  let hi (x : Z) := (x / 2 ^ 32) mod 2 ^ 32 in
  if size <? 8 then
    [lo (cmp_type c); lo (spec_sign_extend size (cmp_arg1 c));
     lo (spec_sign_extend size (cmp_arg2 c))]
  else
    [lo (cmp_type c); lo (cmp_arg1 c); hi (cmp_arg1 c);
     lo (cmp_arg2 c); hi (cmp_arg2 c)].

(** What the copyout loop of a completion may change: the result table
    and the cursor of slot [i]. *)
Definition copyout_frame {W : Type} (i : Z) (st st1 : state W) : Prop :=
  flags st1 = flags st /\ running st1 = running st
  /\ completed st1 = completed st /\ collide st1 = collide st
  /\ input_data st1 = input_data st /\ dedup_table st1 = dedup_table st
  /\ output_data st1 = output_data st /\ output_log st1 = output_log st
  /\ world st1 = world st
  /\ exists pos,
      threads st1
      = <[Z.to_nat i := set_th_copyout_pos (thread_at st i) pos]> (threads st).

(** The slots are the sixteen elements of [threads]. *)
Definition wf_threads {W : Type} (st : state W) : Prop :=
  length (threads st) = Z.to_nat kMaxThreads.

(** ** A platform and states for examples *)

(** [(long)x] for a [uint64_t] *)
Definition to_long (x : Z) : Z := if 2 ^ 63 <=? x then x - 2 ^ 64 else x.

(** A kernel that echoes its arguments: a call returns its first
    argument, reports the second as the size of its coverage and leaves
    the other seven in the coverage buffer.  Reading guest memory at an
    address yields the address.  The worker of slot [i] has come as far
    as [poll i ms] says when the interpreter has waited [ms]
    milliseconds for it. *)
Definition echo_platform_with (poll : Z -> Z -> progress)
  : Platform (list Z) :=
  {| syscall_count := 4;
     execute_syscall := fun _ args _ => (to_long (List.nth 0 args 0), args);
     errno := fun _ => 14;
     cover_enable := fun _ w => w;
     cover_reset := fun _ w => w;
     read_cover_size := fun _ w => u32 (List.nth 1 w 0);
     cover_buffer := fun _ w => drop 2 w;
     inject_fault := fun _ w => (3, w);
     fault_injected_fd := fun _ w => (true, w);
     store_by_bitmask := fun _ _ _ _ _ w => w;
     load_guest := fun _ addr _ => Some addr;
     memcpy_guest := fun _ _ _ _ w => w;
     csum_inet_init := 0;
     csum_inet_update_guest := fun c _ _ _ => c;
     csum_inet_update_const := fun c v _ => u32 (c + v);
     csum_inet_digest := fun c => c mod 2 ^ 16;
     cmp_ignore := fun c => (cmp_arg1 c =? 0) && (cmp_arg2 c =? 0);
     thread_start := fun _ w => w;
     sleep_ms := fun _ w => w;
     worker_poll := fun i ms w => (poll i ms, w) |}.

(** Every worker has come to the end of its call whenever the
    interpreter could see it, or every call blocks in the kernel, as
    [finishes] says. *)
Definition echo_platform (finishes : bool) : Platform (list Z) :=
  echo_platform_with (fun _ _ => if finishes then Finished else InCall).

(** Slot 0 after its worker has finished call 2 with result [res],
    [cover_size] entries of coverage in [cover] and its copyout cursor
    at word [pos]. *)
Definition slot_done (cover : list Z) (cover_size res pos : Z) : thread_t :=
  mk_thread true 0 cover false true pos no_copyout false 0 2 0
    (replicate (Z.to_nat kMaxArgs) 0) res 14 cover_size false.

(** A state in which slot 0 awaits its completion, with the header word
    in the output buffer. *)
Definition completion_state (fl : flags_t) (th : thread_t) (prog : list Z)
  : state (list Z) :=
  mk_state fl 1 0 false prog
    (<[0%nat := th]> (replicate (Z.to_nat kMaxThreads) thread_zero))
    results_init dedup_table_init [0] [] [].

Definition flags_plain : flags_t :=
  mk_flags false false false false false false false 0 0.

Definition flags_comps : flags_t :=
  mk_flags false false false false false true false 0 0.

(** The state a call of a function leaves, for a call that returns. *)
Definition state_of {W A : Type} (r : result A) (f : A -> state W)
  (dflt : state W) : state W :=
  match r with Ok a => f a | _ => dflt end.

(** Slot 0 has covered five PCs, two of them twice. *)
Definition signals_state : state (list Z) :=
  completion_state flags_plain
    (slot_done [0x1000; 0x1004; 0x1000; 0x1004; 0x1000] 5 0 0) [instr_eof].

(** Slot 0 has recorded five comparisons: one twice (with another [pc])
    and one that the platform ignores. *)
Definition comps_state : state (list Z) :=
  completion_state flags_comps
    (slot_done [4; 0xffffffff; 5; 7;
                0; 0x80; 0x7f; 7;
                6; 2 ^ 64 - 1; 2 ^ 33 + 5; 9;
                4; 0xffffffff; 5; 77;
                3; 0; 0; 1] 5 0 0) [instr_eof].

(** Slot 0 has finished a call that is followed by two COPYOUT records
    and the end of the program. *)
Definition copyout_state : state (list Z) :=
  completion_state flags_plain (slot_done [] 0 0 0)
    [instr_copyout; 3; 0x2000; 4; instr_copyout; 4; 0x3000; 8; instr_eof].

(** The words of one comparison in a record, as
    [kcov_comparison_t::write] lays them out: the type word, then two
    words, or four when the type word has the size class of 8 bytes. *)
Definition is_cmp_entry (e : list Z) : Prop :=
  exists t rest,
    e = t :: rest
    /\ length rest
       = if Z.land t KCOV_CMP_SIZE_MASK =? KCOV_CMP_SIZE8
         then 4%nat else 2%nat.

(** A completion record of section 6.2: four leading words, the three
    counts, and payloads of these lengths, every comparison with its
    three or five words. *)
Definition is_record (r : list Z) : Prop :=
  exists call_index call_num err fault sigs cover (comps : list (list Z)),
    r = [call_index; call_num; err; fault; Z.of_nat (length sigs);
         Z.of_nat (length cover); Z.of_nat (length comps)]
        ++ sigs ++ cover ++ concat comps
    /\ Forall is_cmp_entry comps.

(** The output buffer is the completed counter followed by that many
    completion records. *)
Definition out_inv {W : Type} (st : state W) : Prop :=
  exists recs,
    output_data st = completed st :: concat recs
    /\ completed st = Z.of_nat (length recs)
    /\ Forall is_record recs.

(** A step that leaves the counters, the flags, the input, the output
    and both tables alone. *)
Definition silent {W : Type} (st st' : state W) : Prop :=
  flags st' = flags st /\ running st' = running st
  /\ completed st' = completed st /\ collide st' = collide st
  /\ input_data st' = input_data st /\ output_data st' = output_data st
  /\ output_log st' = output_log st /\ dedup_table st' = dedup_table st
  /\ length (threads st') = length (threads st).

(** A step of the interpreter that schedules [d] calls: under [collide]
    it leaves the output and the completed counter alone; otherwise it
    keeps the shape of the output and every scheduled call is either
    still running or has added one to the completed counter. *)
Definition step_rel {W : Type} (d : Z) (st st' : state W) : Prop :=
  flags st' = flags st /\ collide st' = collide st
  /\ input_data st' = input_data st
  /\ length (threads st') = length (threads st)
  /\ (if collide st then
        completed st' = completed st /\ output_data st' = output_data st
        /\ output_log st' = output_log st
      else
        out_inv st ->
        out_inv st'
        /\ completed st' + running st' = completed st + running st + d).

(** The state in which an execute request with the program [prog]
    starts, on the echo platform. *)
Definition echo_state (fl : flags_t) (prog : list Z) : state (list Z) :=
  mk_state fl 0 0 false prog
    (replicate (Z.to_nat kMaxThreads) thread_zero)
    results_init dedup_table_init [] [] [].

(** No call is in flight: every slot that has been created has been
    handled and waits for a call. *)
Definition idle {W : Type} (st : state W) : Prop :=
  running st = 0
  /\ forall j, 0 <= j < kMaxThreads ->
       th_created (thread_at st j) = true ->
       th_ready (thread_at st j) = false
       /\ th_done (thread_at st j) = true
       /\ th_handled (thread_at st j) = true.

Definition flags_threaded : flags_t :=
  mk_flags false false false true false false false 0 0.

Definition flags_collide : flags_t :=
  mk_flags false false false true true false false 0 0.

(** A program of one call without arguments. *)
Definition prog_one_call : list Z := [2; no_copyout; 0; instr_eof].

(** A program of two calls, the first with the constants 7 (its
    result), 2 (the size of its coverage) and two PCs as arguments and a
    COPYOUT record after it, the second with the result of the first,
    halved and plus one, as its argument. *)
Definition prog_two_calls : list Z :=
  [1; 0; 4;
   arg_const; 8; 7; 0; 0;
   arg_const; 8; 2; 0; 0;
   arg_const; 8; 0x1000; 0; 0;
   arg_const; 8; 0x1004; 0; 0;
   instr_copyout; 5; 0x2000; 4;
   2; no_copyout; 1;
   arg_result; 8; 0; 2; 1;
   instr_eof].


(** The chunk descriptor [(kind, value, size)] at word [pos] is one the
    inet checksum accepts: a data chunk, or a const chunk of 2, 4 or 8
    bytes. *)
Definition chunk_ok (input_data : list Z) (pos : Z) : Prop :=
  let chunk_kind := input_word input_data pos in
  let chunk_size := input_word input_data (pos + 2) in
  chunk_kind = arg_csum_chunk_data
  \/ (chunk_kind = arg_csum_chunk_const
      /\ (chunk_size = 2 \/ chunk_size = 4 \/ chunk_size = 8)).

(** The function has returned or has failed with [fail]. *)
Definition ok_or_fail {A : Type} (r : result A) : Prop :=
  match r with Ok _ | Fail _ => True | _ => False end.

(** A copyin of an inet checksum over a data chunk and a const chunk,
    and the end of the program. *)
Definition prog_csum : list Z :=
  [instr_copyin; 0x2000; arg_csum; 2; arg_csum_inet; 2;
   arg_csum_chunk_data; 0x3000; 20;
   arg_csum_chunk_const; 0x0800; 2;
   instr_eof].

(** The function has come to an end: it has returned or has ended the
    process. *)
Definition terminates {A : Type} (r : result A) : Prop :=
  match r with OutOfFuel => False | _ => True end.

(** The coverage driver reports sizes that fit 32 bits. *)
Definition cover_bounded {W : Type} (P : Platform W) : Prop :=
  forall id w, read_cover_size id w < 2 ^ 32.

(** The sixteen slots, each with a coverage size that fits 32 bits. *)
Definition good_threads {W : Type} (st : state W) : Prop :=
  wf_threads st
  /\ Forall (fun th => th_cover_size th < 2 ^ 32) (threads st).

(** ** Notions used in the further properties *)

(** The values [sig] takes in the signal loop for the words [pcs] of the
    coverage buffer, [prev] being what it is before the first. *)
Fixpoint edge_signals (pcs : list Z) (prev : Z) : list Z :=
  match pcs with
  | [] => []
  | pc :: pcs' =>
      let pc := u32 pc in
      Z.lxor pc prev :: edge_signals pcs' (hash pc)
  end.

(** The result table after the [k]-th COPYOUT record, [(instr_copyout,
    index, addr, size)] at word [p + 4 * k] of the input, has stored
    what it reads from guest memory. *)
Definition copyout_record_store {W : Type} {P : Platform W}
  (input : list Z) (w : W) (p : Z) (results : list res_t) (k : nat)
  : list res_t :=
  let q := p + 4 * Z.of_nat k in
  let index := input_word input (q + 1) in
  let addr := input_word input (q + 2) in
  let size := input_word input (q + 3) in
  <[Z.to_nat index := mk_res true (default default_value (load_guest size addr w))]>
    results.

(** The result table after the first [n] COPYOUT records at [p], taken
    in order. *)
Definition after_copyouts {W : Type} {P : Platform W}
  (input : list Z) (w : W) (p : Z) (n : nat) (results : list res_t)
  : list res_t :=
  fold_left (copyout_record_store input w p) (seq 0 n) results.

(** Slot 0 has finished call 2 with the result 7, to be stored as
    result 5; a COPYOUT record for result 6 follows the call, and then a
    result descriptor for result 5, halved and plus one. *)
Definition roundtrip_state : state (list Z) :=
  completion_state flags_plain
    (mk_thread true 0 [] false true 0 5 false 0 2 0
       (replicate (Z.to_nat kMaxArgs) 0) 7 0 0 false)
    [instr_copyout; 6; 0x2000; 4; 5; 2; 1; instr_eof].

(** The states of a slot: not created yet (as [threads] is when the
    process starts), idle after [thread_create] or a handled completion,
    given a call by [schedule_call] that its worker has not taken yet,
    with its worker inside [execute_call], and finished by
    [execute_call] but not handled yet. *)
Definition slot_state_ok (th : thread_t) : bool :=
  match th_created th, th_ready th, th_done th, th_handled th with
  | false, false, false, false => true
  | true, false, true, true => true
  | true, true, false, false => true
  | true, false, false, false => true
  | true, false, true, false => true
  | _, _, _, _ => false
  end.

(** A slot with a call that has been scheduled and not handled. *)
Definition slot_active (th : thread_t) : bool :=
  th_created th && negb (th_handled th).

Fixpoint active_count (l : list thread_t) : Z :=
  match l with
  | [] => 0
  | th :: l' => Z.b2z (slot_active th) + active_count l'
  end.

(** What holds of the slots and the counters whenever the interpreter
    is between two steps: every slot is in one of its five states,
    [running] is the number of calls scheduled and not handled, the
    [collide] pass is not combined with fault injection, and [collide]
    and [flag_collide] are set only in threaded mode. *)
Definition slots_inv {W : Type} (st : state W) : Prop :=
  wf_threads st
  /\ Forall (fun th => slot_state_ok th = true) (threads st)
  /\ running st = active_count (threads st)
  /\ (collide st = true -> flag_inject_fault (flags st) = false)
  /\ (flag_threaded (flags st) = false ->
      collide st = false /\ flag_collide (flags st) = false).

(** What holds between two instructions of the program: in non-threaded
    mode no call is in flight. *)
Definition exec_inv {W : Type} (st : state W) : Prop :=
  slots_inv st /\ (flag_threaded (flags st) = false -> idle st).

(** The failures that a run from such a state does not reach. *)
Definition slot_failure (msg : string) : bool :=
  existsb (String.eqb msg)
    ["bad thread state in schedule"%string;
     "bad thread state in completion"%string;
     "running < 0"%string;
     "both collide and fault injection are enabled"%string;
     "using non-main thread in non-thread mode"%string].

Definition clean {A : Type} (r : result A) : Prop :=
  match r with Fail msg => slot_failure msg = false | _ => True end.

(** A slot whose call has not come to its end. *)
Definition slot_busy (th : thread_t) : Prop :=
  th_created th = true /\ th_done th = false.

(** A slot that [schedule_call] can take: not created yet, or idle. *)
Definition slot_free (th : thread_t) : Prop :=
  th_ready th = false /\ th_handled th = th_created th
  /\ th_done th = th_created th.

(** No worker moves while the interpreter looks: there are no workers,
    or each of them is where it was. *)
Definition no_progress {W : Type} {P : Platform W} (st : state W) : Prop :=
  flag_threaded (flags st) = false
  \/ forall i ms w, fst (worker_poll i ms w) = Asleep.

(** Slot 0 with a call in progress, slot 1 as given, the other slots
    not created, and [running] calls in flight. *)
Definition scan_state (th1 : thread_t) (running : Z) : state (list Z) :=
  mk_state flags_threaded running 0 false prog_one_call
    (<[1%nat := th1]>
       (<[0%nat := mk_thread true 0 [] false false 0 no_copyout false 0 2 0
                     (replicate (Z.to_nat kMaxArgs) 0) 0 0 0 false]>
          (replicate (Z.to_nat kMaxThreads) thread_zero)))
    results_init dedup_table_init [0] [OutAppend 0] [].

(** Sixteen slots, each with a call that does not come to its end. *)
Definition busy_state (prog : list Z) : state (list Z) :=
  mk_state flags_threaded 16 0 false prog
    (replicate (Z.to_nat kMaxThreads)
       (mk_thread true 0 [] true false 0 no_copyout false 0 2 0
          (replicate (Z.to_nat kMaxArgs) 0) 0 0 0 false))
    results_init dedup_table_init [0] [OutAppend 0] [].

(** ** The control pipe *)

Definition kInMagic : Z := 0xbadc0ffeebadface.

Inductive sandbox_type : Type :=
| sandbox_none
| sandbox_setuid
| sandbox_namespace.

(** The flags that [parse_env_flags] sets. *)
Record env_flags_t : Type := mk_env_flags {
  env_flag_debug : bool;
  flag_cover : bool;
  flag_sandbox : sandbox_type;
  flag_enable_tun : bool;
  flag_enable_fault_injection : bool
}.

(** [flags & (1 << k)] as a [bool] *)
Definition flag_bit (flags k : Z) : bool :=
  negb (Z.land flags (Z.shiftl 1 k) =? 0).

Definition parse_env_flags (flags : Z) : env_flags_t :=
  let flag_sandbox := sandbox_none in
  let flag_sandbox :=
    if flag_bit flags 2 then sandbox_setuid
    else if flag_bit flags 3 then sandbox_namespace
    else flag_sandbox in
  mk_env_flags (flag_bit flags 0) (flag_bit flags 1) flag_sandbox
    (flag_bit flags 4) (flag_bit flags 5).

(** What a call of [read] on the control pipe gives: an error (a
    negative value), or the bytes it has stored, none of them at the end
    of the stream. *)
Inductive read_t : Type :=
| ReadError
| ReadBytes (bs : list Z).

(** The control pipe: what the [k]-th [read] of the program gives when
    it asks for [count] bytes. *)
Definition pipe_t : Type := nat -> Z -> read_t.

(** The bytes [bs] stored from byte [pos] of a buffer; as with
    [input_word], the bytes of the buffer beyond the list are 0. *)
Definition store_bytes (buf : list Z) (pos : Z) (bs : list Z) : list Z :=
  take (Z.to_nat pos) (buf ++ replicate (Z.to_nat pos) 0)
  ++ bs ++ drop (Z.to_nat pos + length bs) buf.

(** The loop [for (;;)] of [receive_execute], from its [k]-th [read]:
    the value of [pos] and the bytes of [input_data] when it is left. *)
Fixpoint receive_prog (fuel : nat) (pipe : pipe_t) (k : nat)
  (prog_size pos : Z) (input_bytes : list Z) : result (Z * list Z) :=
  match fuel with
  | O => OutOfFuel
  | S fuel' =>
      match pipe k (u64 (kMaxInput - pos)) with
      | ReadError => Fail "read failed"
      | ReadBytes bs =>
          let rv := Z.of_nat (length bs) in
          let input_bytes := store_bytes input_bytes pos bs in
          let pos := u64 (pos + rv) in
          if (rv =? 0) || (prog_size <=? pos) then Ok (pos, input_bytes)
          else receive_prog fuel' pipe (S k) prog_size pos input_bytes
      end
  end.

(** [receive_execute]: [n] is what the [read] of the request returns and
    [req] the request it has stored; the flags, [flag_pid] and the bytes
    of [input_data] when the function returns.  Every turn of the loop
    but the last stores at least one byte below [prog_size], which is
    the fuel of the loop. *)
Definition receive_execute (need_prog : bool) (n : Z) (req : execute_req)
  (pipe : pipe_t) (input_bytes : list Z)
  : result (flags_t * env_flags_t * Z * list Z) :=
  if negb (n =? 56) then Fail "control pipe read failed"
  else if negb (req_magic req =? kInMagic) then
    Fail "bad execute request magic"
  else if kMaxInput <? req_prog_size req then Fail "bad execute prog size"
  else
    let env := parse_env_flags (req_env_flags req) in
    let flag_pid := to_int (req_pid req) in
    let fl := receive_execute_flags req in
    if req_prog_size req =? 0 then
      if need_prog then Fail "need_prog: no program"
      else Ok (fl, env, flag_pid, input_bytes)
    else
      '(pos, input_bytes) ←
        receive_prog (Z.to_nat (req_prog_size req)) pipe 0
          (req_prog_size req) 0 input_bytes;
      if negb (pos =? req_prog_size req) then Fail "bad input size"
      else Ok (fl, env, flag_pid, input_bytes).

(** The bytes that [n] calls of [read] give, from the [k]-th call with
    [pos] bytes stored so far. *)
Fixpoint pipe_stream (pipe : pipe_t) (n k : nat) (pos : Z) : list Z :=
  match n with
  | O => []
  | S n' =>
      match pipe k (u64 (kMaxInput - pos)) with
      | ReadError => []
      | ReadBytes bs =>
          bs ++ pipe_stream pipe n' (S k) (pos + Z.of_nat (length bs))
      end
  end.

(** The pipe keeps the contract of [read]: no more bytes than asked
    for. *)
Definition pipe_ok (pipe : pipe_t) : Prop :=
  forall k count bs,
    0 <= count -> pipe k count = ReadBytes bs ->
    Z.of_nat (length bs) <= count.

(** A pipe that gives the bytes of [chunks], one chunk for every [read],
    and then is at its end. *)
Definition chunk_pipe (chunks : list (list Z)) : pipe_t :=
  fun k count =>
    ReadBytes (take (Z.to_nat count) (default [] (chunks !! k))).

(** Every worker comes to the end of its call within the time the
    interpreter waits for it, however short. *)
Definition prompt_workers {W : Type} {P : Platform W} : Prop :=
  forall i ms (w : W), 0 < ms -> fst (worker_poll i ms w) = Finished.

(** The records [recs] are the only way to read their words as a
    sequence of completion records. *)
Definition only_split (recs : list (list Z)) : Prop :=
  forall recs', Forall is_record recs' -> concat recs' = concat recs ->
                recs' = recs.

(** The output after [n] calls without timeouts: the completed counter,
    [n], and then one completion record for every call, in the order of
    the calls, the [k]-th of them with [call_index] [k]; the words of
    the output cannot be read as another sequence of records. *)
Definition ordered_records {W : Type} (st : state W) (n : Z) : Prop :=
  exists recs,
    output_data st = completed st :: concat recs
    /\ completed st = n /\ Z.of_nat (length recs) = n
    /\ Forall is_record recs
    /\ (forall (k : nat) r, recs !! k = Some r ->
          exists tl, r = u32 (Z.of_nat k) :: tl)
    /\ only_split recs.

(** The call a completion record is of: its first word, [call_index]. *)
Definition record_call (r : list Z) : Z := hd 0 r.

(** The fourth word of a completion record, [fault_injected]. *)
Definition record_fault (r : list Z) : Z := List.nth 3 r 0.

(** What the records [recs] and the slots tell of the calls when [ci]
    calls have been scheduled in a pass without [collide]: the output is
    the completed counter and the records, every call is either reported
    or in flight, no two records are of the same call, every record is
    of one of the [ci] calls, and the calls in flight are different
    calls among the [ci] that have no record yet. *)
Definition calls_tracked_by {W : Type} (recs : list (list Z)) (ci : Z)
  (st : state W) : Prop :=
  output_data st = completed st :: concat recs
  /\ completed st = Z.of_nat (length recs)
  /\ Forall is_record recs
  /\ ci = completed st + running st
  /\ List.NoDup (map record_call recs)
  /\ (forall h, List.In h (map record_call recs) -> 0 <= h < ci)
  /\ (forall j, 0 <= j < kMaxThreads ->
        slot_active (thread_at st j) = true ->
        0 <= th_call_index (thread_at st j) < ci
        /\ ~ List.In (th_call_index (thread_at st j))
               (map record_call recs))
  /\ (forall j j', 0 <= j < kMaxThreads -> 0 <= j' < kMaxThreads ->
        slot_active (thread_at st j) = true ->
        slot_active (thread_at st j') = true ->
        th_call_index (thread_at st j) = th_call_index (thread_at st j') ->
        j = j').

Definition calls_tracked {W : Type} (ci : Z) (st : state W) : Prop :=
  exists recs, calls_tracked_by recs ci st /\ only_split recs.

(** [flag_inject_fault && th->call_index == flag_fault_call] *)
Definition fault_armed (fl : flags_t) (th : thread_t) : bool :=
  flag_inject_fault fl && (th_call_index th =? flag_fault_call fl).

(** A slot whose call has come to its end and is not handled yet has
    [fault_injected] set only if the fault was armed for its call. *)
Definition slot_fault_ok (fl : flags_t) (th : thread_t) : Prop :=
  th_done th = true -> th_handled th = false ->
  th_fault_injected th = true -> fault_armed fl th = true.

(** A record reports an injected fault only for the call chosen by
    [flag_fault_call], and only under [flag_inject_fault]. *)
Definition record_fault_ok (fl : flags_t) (r : list Z) : Prop :=
  record_fault r = 0
  \/ (record_fault r = 1 /\ flag_inject_fault fl = true
      /\ record_call r = flag_fault_call fl).

(** A step that reports no call and schedules none. *)
Definition same_calls {W : Type} (st st' : state W) : Prop :=
  output_data st' = output_data st /\ completed st' = completed st
  /\ running st' = running st /\ collide st' = collide st
  /\ flags st' = flags st
  /\ forall j, 0 <= j < kMaxThreads ->
       slot_active (thread_at st' j) = slot_active (thread_at st j)
       /\ th_call_index (thread_at st' j) = th_call_index (thread_at st j)
       /\ (slot_fault_ok (flags st) (thread_at st j) ->
           slot_fault_ok (flags st) (thread_at st' j)).

(** What holds between two steps of a pass without [collide]. *)
Definition tracking_inv {W : Type} (ci : Z) (st : state W) : Prop :=
  slots_inv st /\ collide st = false
  /\ exists recs,
      calls_tracked_by recs ci st
      /\ Forall (record_fault_ok (flags st)) recs
      /\ forall j, 0 <= j < kMaxThreads ->
           slot_fault_ok (flags st) (thread_at st j).

(** What the output tells at the end of a request for a program of [n]
    calls: the completed counter, that many records, no two of them of
    the same call, each of one of the [n] calls; the words of the output
    cannot be read as another sequence of records. *)
Definition records_distinct {W : Type} (n : Z) (st : state W) : Prop :=
  exists recs,
    output_data st = completed st :: concat recs
    /\ completed st = Z.of_nat (length recs)
    /\ Forall is_record recs
    /\ List.NoDup (map record_call recs)
    /\ (forall h, List.In h (map record_call recs) -> 0 <= h < n)
    /\ only_split recs.

(** What the output tells of fault injection at the end of a request
    run with the flags [fl]: the completed counter and that many
    records, each with 0 or 1 as its [fault_injected] word, 1 only under
    [flag_inject_fault] and for the call [flag_fault_call], and at most
    one record has 1; the words of the output cannot be read as another
    sequence of records. *)
Definition faults_reported {W : Type} (fl : flags_t) (st : state W)
  : Prop :=
  exists recs,
    output_data st = completed st :: concat recs
    /\ completed st = Z.of_nat (length recs)
    /\ Forall is_record recs
    /\ Forall (record_fault_ok fl) recs
    /\ (forall (k k' : nat) r r',
          recs !! k = Some r -> recs !! k' = Some r' ->
          record_fault r = 1 -> record_fault r' = 1 -> k = k')
    /\ only_split recs.

(** Threaded mode with a fault injected into call 1. *)
Definition flags_fault : flags_t :=
  mk_flags false false false true false false true 1 0.

(** Threaded mode with collisions, comparisons collected. *)
Definition flags_collide_comps : flags_t :=
  mk_flags false false false true true true false 0 0.

(** Threaded mode with comparisons collected and a fault injected into
    call 1. *)
Definition flags_fault_comps : flags_t :=
  mk_flags false false false true false true true 1 0.

(** A program of two calls, the first of which returns 7 and leaves one
    comparison, of the 8-byte operands 5 and 9, in its buffer. *)
Definition prog_cmp : list Z :=
  [1; 0; 6;
   arg_const; 8; 7; 0; 0;
   arg_const; 8; 1; 0; 0;
   arg_const; 8; 6; 0; 0;
   arg_const; 8; 5; 0; 0;
   arg_const; 8; 9; 0; 0;
   arg_const; 8; 0x1004; 0; 0;
   2; no_copyout; 0;
   instr_eof].

(** * Properties *)

(** ** Machine integers and the input stream *)

Lemma u32_range x : 0 <= u32 x < 2 ^ 32.
Proof. unfold u32. apply Z.mod_pos_bound. lia. Qed.

Lemma u64_range x : 0 <= u64 x < 2 ^ 64.
Proof. unfold u64. apply Z.mod_pos_bound. lia. Qed.

Lemma u32_id x : 0 <= x < 2 ^ 32 -> u32 x = x.
Proof. intros. unfold u32. apply Z.mod_small. lia. Qed.

Lemma u64_id x : 0 <= x < 2 ^ 64 -> u64 x = x.
Proof. intros. unfold u64. apply Z.mod_small. lia. Qed.

Lemma read_input_ok input pos peek :
  8 * pos < kMaxInput ->
  read_input input pos peek
  = Ok (input_word input pos, if peek then pos else pos + 1).
Proof.
  intros H. unfold read_input.
  destruct (Z.leb_spec kMaxInput (8 * pos)); [lia | reflexivity].
Qed.

Lemma read_input_overflow input pos peek :
  kMaxInput <= 8 * pos ->
  read_input input pos peek = Fail "input command overflows input".
Proof.
  intros H. unfold read_input.
  destruct (Z.leb_spec kMaxInput (8 * pos)); [reflexivity | lia].
Qed.

(** ** C1: resolution of a [result] argument *)

(** C1. For a result descriptor [(idx, div, add)] read at [pos]:
    [idx >= kMaxCommands] is fatal; otherwise an executed entry resolves
    to its value, divided by [div] unless [div] is 0, plus [add] (in
    64-bit arithmetic), and an entry that is not executed resolves to
    [default_value = (uint64)-1], with neither the division nor the
    addition applied. *)
Theorem read_result_spec (input : list Z) (results : list res_t) (pos : Z) :
  8 * (pos + 2) < kMaxInput ->
  let idx := input_word input pos in
  let op_div := input_word input (pos + 1) in
  let op_add := input_word input (pos + 2) in
  let r := res_at results idx in
  default_value = 2 ^ 64 - 1
  /\ (kMaxCommands <= idx -> is_fail (read_result input results pos))
  /\ (idx < kMaxCommands -> executed r = true -> op_div <> 0 ->
      read_result input results pos
      = Ok (u64 (val r / op_div + op_add), pos + 3))
  /\ (idx < kMaxCommands -> executed r = true -> op_div = 0 ->
      read_result input results pos = Ok (u64 (val r + op_add), pos + 3))
  /\ (idx < kMaxCommands -> executed r = false ->
      read_result input results pos = Ok (default_value, pos + 3)).
Proof.
  intros Hpos idx op_div op_add r.
  assert (Hrd : read_result input results pos
                = if kMaxCommands <=? idx
                  then Fail "command refers to bad result"
                  else Ok (if executed r
                           then u64 ((if negb (op_div =? 0)
                                      then val r / op_div else val r)
                                     + op_add)
                           else default_value, pos + 3)).
  { unfold read_result.
    rewrite read_input_ok by lia. cbn [mbind result_bind].
    rewrite read_input_ok by lia. cbn [mbind result_bind].
    rewrite read_input_ok by lia. cbn [mbind result_bind].
    replace (pos + 1 + 1) with (pos + 2) by lia.
    replace (pos + 2 + 1) with (pos + 3) by lia.
    reflexivity. }
  split; [reflexivity |].
  repeat split; intros; rewrite Hrd.
  - destruct (Z.leb_spec kMaxCommands idx); [exact I | lia].
  - destruct (Z.leb_spec kMaxCommands idx); [lia |].
    rewrite H0. destruct (Z.eqb_spec op_div 0); [contradiction | reflexivity].
  - destruct (Z.leb_spec kMaxCommands idx); [lia |].
    rewrite H0, H1. reflexivity.
  - destruct (Z.leb_spec kMaxCommands idx); [lia |].
    rewrite H0. reflexivity.
Qed.

(** ** C3, C10: the dedup table *)

Lemma dedup_slot_eq sig i : u32 (sig + i) mod dedup_table_size = dedup_slot sig i.
Proof.
  unfold u32, dedup_slot, dedup_table_size.
  apply Z.mod_mod_divide. exists (2 ^ 19). reflexivity.
Qed.

Lemma dedup_slot_range sig i : 0 <= dedup_slot sig i < dedup_table_size.
Proof. unfold dedup_slot. apply Z.mod_pos_bound. reflexivity. Qed.

Lemma dedup_slot_0 sig : dedup_slot sig 0 = sig mod dedup_table_size.
Proof. unfold dedup_slot. rewrite Z.add_0_r. reflexivity. Qed.

Lemma dedup_slot_inj sig i j :
  0 <= i < 4 -> 0 <= j < 4 -> dedup_slot sig i = dedup_slot sig j -> i = j.
Proof.
  unfold dedup_slot, dedup_table_size. change (Z.shiftl 8 10) with 8192.
  intros Hi Hj H.
  pose proof (Z.div_mod (sig + i) 8192 ltac:(lia)).
  pose proof (Z.div_mod (sig + j) 8192 ltac:(lia)).
  pose proof (Z.mod_pos_bound (sig + i) 8192 ltac:(lia)).
  assert ((sig + i) / 8192 = (sig + j) / 8192 \/
          (sig + i) / 8192 < (sig + j) / 8192 \/
          (sig + j) / 8192 < (sig + i) / 8192) as [E | [E | E]] by lia; lia.
Qed.

Lemma tbl_at_set_eq tbl pos v :
  0 <= pos < Z.of_nat (length tbl) -> tbl_at (tbl_set tbl pos v) pos = v.
Proof.
  intros H. unfold tbl_at, tbl_set.
  rewrite list_lookup_insert_eq by lia. reflexivity.
Qed.

Lemma tbl_at_set_ne tbl pos pos' v :
  0 <= pos -> 0 <= pos' -> pos <> pos' ->
  tbl_at (tbl_set tbl pos v) pos' = tbl_at tbl pos'.
Proof.
  intros H H' Hne. unfold tbl_at, tbl_set.
  rewrite list_lookup_insert_ne by lia. reflexivity.
Qed.

Lemma tbl_set_length tbl pos v : length (tbl_set tbl pos v) = length tbl.
Proof. unfold tbl_set. apply length_insert. Qed.

(** The four probes of [dedup], written out. *)
Lemma dedup_unfold sig tbl :
  dedup sig tbl =
  let probe i k :=
    if tbl_at tbl (dedup_slot sig i) =? sig then (true, tbl)
    else if tbl_at tbl (dedup_slot sig i) =? 0
         then (false, tbl_set tbl (dedup_slot sig i) sig)
         else k in
  probe 0 (probe 1 (probe 2 (probe 3
    (false, tbl_set tbl (dedup_slot sig 0) sig)))).
Proof.
  unfold dedup. cbn [dedup_loop].
  rewrite !dedup_slot_eq, dedup_slot_0.
  replace (0 + 1) with 1 by reflexivity.
  replace (1 + 1) with 2 by reflexivity.
  replace (2 + 1) with 3 by reflexivity.
  reflexivity.
Qed.

Lemma dedup_length sig tbl : length (snd (dedup sig tbl)) = length tbl.
Proof.
  rewrite dedup_unfold. cbv beta zeta.
  repeat case_match; cbn [snd]; rewrite ?tbl_set_length; reflexivity.
Qed.


Ltac dedup_cases :=
  rewrite dedup_unfold; cbv beta zeta;
  repeat match goal with
         | |- context [?a =? ?b] => destruct (Z.eqb_spec a b)
         end.

Lemma dedup_found tbl sig i :
  0 <= i < 4 ->
  (forall j, 0 <= j < i -> dedup_occupied tbl sig j) ->
  tbl_at tbl (dedup_slot sig i) = sig ->
  dedup sig tbl = (true, tbl).
Proof.
  intros Hi Hocc Hi_eq.
  assert (i = 0 \/ i = 1 \/ i = 2 \/ i = 3) as [-> | [-> | [-> | ->]]] by lia.
  all: try (pose proof (Hocc 0 ltac:(lia)) as [? ?]).
  all: try (pose proof (Hocc 1 ltac:(lia)) as [? ?]).
  all: try (pose proof (Hocc 2 ltac:(lia)) as [? ?]).
  all: dedup_cases; try reflexivity; contradiction.
Qed.

Lemma dedup_stored tbl sig i :
  0 <= i < 4 ->
  (forall j, 0 <= j < i -> dedup_occupied tbl sig j) ->
  tbl_at tbl (dedup_slot sig i) <> sig ->
  tbl_at tbl (dedup_slot sig i) = 0 ->
  dedup sig tbl = (false, tbl_set tbl (dedup_slot sig i) sig).
Proof.
  intros Hi Hocc Hne Hz.
  assert (i = 0 \/ i = 1 \/ i = 2 \/ i = 3) as [-> | [-> | [-> | ->]]] by lia.
  all: try (pose proof (Hocc 0 ltac:(lia)) as [? ?]).
  all: try (pose proof (Hocc 1 ltac:(lia)) as [? ?]).
  all: try (pose proof (Hocc 2 ltac:(lia)) as [? ?]).
  all: dedup_cases; try reflexivity; contradiction.
Qed.

Lemma dedup_overwritten tbl sig :
  (forall j, 0 <= j < 4 -> dedup_occupied tbl sig j) ->
  dedup sig tbl = (false, tbl_set tbl (sig mod dedup_table_size) sig).
Proof.
  intros Hocc. rewrite <- dedup_slot_0.
  pose proof (Hocc 0 ltac:(lia)) as [? ?].
  pose proof (Hocc 1 ltac:(lia)) as [? ?].
  pose proof (Hocc 2 ltac:(lia)) as [? ?].
  pose proof (Hocc 3 ltac:(lia)) as [? ?].
  dedup_cases; try reflexivity; contradiction.
Qed.

(** After a call that returned false, the probes meet [sig]. *)
Lemma dedup_false_finds tbl sig tbl1 :
  length tbl = Z.to_nat dedup_table_size ->
  dedup sig tbl = (false, tbl1) -> dedup_finds tbl1 sig.
Proof.
  intros Hlen. rewrite dedup_unfold. cbv beta zeta.
  assert (Hr : forall i, 0 <= dedup_slot sig i < Z.of_nat (length tbl)).
  { intros i. rewrite Hlen. pose proof (dedup_slot_range sig i).
    rewrite Z2Nat.id; [assumption | discriminate]. }
  assert (Hkeep : forall i j, 0 <= i < 4 -> 0 <= j < 4 -> i <> j ->
            tbl_at (tbl_set tbl (dedup_slot sig i) sig) (dedup_slot sig j)
            = tbl_at tbl (dedup_slot sig j)).
  { intros i j Hi Hj Hij. apply tbl_at_set_ne.
    - apply dedup_slot_range.
    - apply dedup_slot_range.
    - intros E. apply Hij. eapply dedup_slot_inj; eauto. }
  assert (Hocc : forall i j, 0 <= i < 4 -> 0 <= j < 4 -> i <> j ->
            tbl_at tbl (dedup_slot sig j) <> sig ->
            tbl_at tbl (dedup_slot sig j) <> 0 ->
            dedup_occupied (tbl_set tbl (dedup_slot sig i) sig) sig j).
  { intros i j Hi Hj Hij H1 H2. unfold dedup_occupied.
    rewrite Hkeep by assumption. split; assumption. }
  destruct (Z.eqb_spec (tbl_at tbl (dedup_slot sig 0)) sig) as [|N0];
    [discriminate |].
  destruct (Z.eqb_spec (tbl_at tbl (dedup_slot sig 0)) 0) as [|Z0].
  { intros [= <-]. exists 0. split; [lia |]. split; [intros; lia |].
    apply tbl_at_set_eq, Hr. }
  destruct (Z.eqb_spec (tbl_at tbl (dedup_slot sig 1)) sig) as [|N1];
    [discriminate |].
  destruct (Z.eqb_spec (tbl_at tbl (dedup_slot sig 1)) 0) as [|Z1].
  { intros [= <-]. exists 1. split; [lia |]. split.
    - intros j Hj. assert (j = 0) as -> by lia. apply Hocc; auto; lia.
    - apply tbl_at_set_eq, Hr. }
  destruct (Z.eqb_spec (tbl_at tbl (dedup_slot sig 2)) sig) as [|N2];
    [discriminate |].
  destruct (Z.eqb_spec (tbl_at tbl (dedup_slot sig 2)) 0) as [|Z2].
  { intros [= <-]. exists 2. split; [lia |]. split.
    - intros j Hj. assert (j = 0 \/ j = 1) as [-> | ->] by lia;
        apply Hocc; auto; lia.
    - apply tbl_at_set_eq, Hr. }
  destruct (Z.eqb_spec (tbl_at tbl (dedup_slot sig 3)) sig) as [|N3];
    [discriminate |].
  destruct (Z.eqb_spec (tbl_at tbl (dedup_slot sig 3)) 0) as [|Z3].
  { intros [= <-]. exists 3. split; [lia |]. split.
    - intros j Hj. assert (j = 0 \/ j = 1 \/ j = 2) as [-> | [-> | ->]] by lia;
        apply Hocc; auto; lia.
    - apply tbl_at_set_eq, Hr. }
  intros [= <-]. exists 0. split; [lia |]. split; [intros; lia |].
  apply tbl_at_set_eq, Hr.
Qed.

Lemma dedup_finds_true tbl sig : dedup_finds tbl sig -> dedup sig tbl = (true, tbl).
Proof. intros (i & Hi & Hocc & Heq). eapply dedup_found; eauto. Qed.

(** A call that does not overwrite leaves every non-empty slot alone. *)
Lemma dedup_keeps_nonzero x tbl p :
  dedup_overwrites x tbl = false -> 0 <= p -> tbl_at tbl p <> 0 ->
  tbl_at (snd (dedup x tbl)) p = tbl_at tbl p.
Proof.
  intros Hno Hp Hnz. revert Hno. unfold dedup_overwrites. cbn [forallb].
  assert (Hset : forall i, tbl_at tbl (dedup_slot x i) = 0 ->
            tbl_at (tbl_set tbl (dedup_slot x i) x) p = tbl_at tbl p).
  { intros i Hz. apply tbl_at_set_ne; [apply dedup_slot_range | assumption |].
    intros E. apply Hnz. rewrite <- E. assumption. }
  dedup_cases; cbn [snd negb andb]; intros Hno;
    try reflexivity; try discriminate; apply Hset; assumption.
Qed.

Lemma dedup_finds_preserved tbl sig x :
  sig <> 0 -> dedup_finds tbl sig -> dedup_overwrites x tbl = false ->
  dedup_finds (snd (dedup x tbl)) sig.
Proof.
  intros Hnz (i & Hi & Hocc & Heq) Hno. exists i. split; [assumption |].
  split.
  - intros j Hj. destruct (Hocc j Hj) as [H1 H2]. unfold dedup_occupied.
    rewrite dedup_keeps_nonzero; auto. apply dedup_slot_range.
  - rewrite dedup_keeps_nonzero; auto; [apply dedup_slot_range | lia].
Qed.

Lemma dedup_all_finds sigs : forall tbl sig,
  sig <> 0 -> dedup_finds tbl sig -> no_overwrite sigs tbl = true ->
  dedup_finds (dedup_all sigs tbl) sig.
Proof.
  induction sigs as [| x sigs IH]; intros tbl sig Hnz Hf Hno; [exact Hf |].
  cbn [no_overwrite] in Hno. apply andb_prop in Hno as [Hx Hrest].
  apply negb_true_iff in Hx.
  unfold dedup_all. cbn [fold_left]. apply IH; auto.
  apply dedup_finds_preserved; auto.
Qed.

Lemma dedup_overwrites_occupied x tbl :
  dedup_overwrites x tbl = true ->
  forall j, 0 <= j < 4 -> dedup_occupied tbl x j.
Proof.
  unfold dedup_overwrites. cbn [forallb]. intros H j Hj.
  repeat match goal with
         | H : _ && _ = true |- _ => apply andb_prop in H as [? ?]
         end.
  repeat match goal with
         | H : negb _ = true |- _ => apply negb_true_iff, Z.eqb_neq in H
         end.
  assert (j = 0 \/ j = 1 \/ j = 2 \/ j = 3) as [-> | [-> | [-> | ->]]] by lia;
    split; assumption.
Qed.

(** An overwriting store that neither takes [sig] out of its slot nor
    writes the zero signal leaves [sig] where the probes meet it. *)
Lemma dedup_finds_kept tbl sig x :
  length tbl = Z.to_nat dedup_table_size ->
  dedup_finds tbl sig -> dedup_overwrites x tbl = true ->
  tbl_at tbl (x mod dedup_table_size) <> sig -> x <> 0 ->
  dedup_finds (snd (dedup x tbl)) sig.
Proof.
  intros Hlen (i & Hi & Hocc & Heq) Hov Hq Hx.
  pose proof (dedup_overwrites_occupied _ _ Hov) as Hxo.
  rewrite (dedup_overwritten _ _ Hxo). cbn [snd].
  set (q := x mod dedup_table_size) in *.
  assert (Hqr : 0 <= q < Z.of_nat (length tbl)).
  { rewrite Hlen, Z2Nat.id by discriminate. subst q.
    apply Z.mod_pos_bound. reflexivity. }
  assert (Hxs : x <> sig).
  { intros ->. destruct (Hxo i Hi) as [N _]. contradiction. }
  exists i. split; [exact Hi |]. split.
  - intros j Hj. destruct (Hocc j Hj) as [H1 H2]. unfold dedup_occupied.
    destruct (Z.eq_dec q (dedup_slot sig j)) as [E | E].
    + rewrite <- E, tbl_at_set_eq by exact Hqr. split; assumption.
    + rewrite tbl_at_set_ne; [split; assumption | lia
                              | apply dedup_slot_range | exact E].
  - rewrite tbl_at_set_ne; [exact Heq | lia | apply dedup_slot_range |].
    intros E. apply Hq. rewrite E. exact Heq.
Qed.

Lemma dedup_all_length sigs : forall tbl,
  length (dedup_all sigs tbl) = length tbl.
Proof.
  induction sigs as [| x sigs IH]; intros tbl; [reflexivity |].
  unfold dedup_all. cbn [fold_left].
  change (length (dedup_all sigs (snd (dedup x tbl))) = length tbl).
  rewrite IH. apply dedup_length.
Qed.

Lemma dedup_all_kept sigs : forall tbl sig,
  length tbl = Z.to_nat dedup_table_size ->
  sig <> 0 -> dedup_finds tbl sig -> no_displacement sig sigs tbl = true ->
  dedup_finds (dedup_all sigs tbl) sig.
Proof.
  induction sigs as [| x sigs IH]; intros tbl sig Hlen Hnz Hf Hno;
    [exact Hf |].
  cbn [no_displacement] in Hno. apply andb_prop in Hno as [Hx Hrest].
  apply negb_true_iff in Hx.
  unfold dedup_all. cbn [fold_left].
  apply IH; [rewrite dedup_length; exact Hlen | exact Hnz | | exact Hrest].
  destruct (dedup_overwrites x tbl) eqn:Hov.
  - cbn [andb] in Hx. apply orb_false_elim in Hx as [H1 H2].
    apply Z.eqb_neq in H1, H2.
    apply dedup_finds_kept; assumption.
  - apply dedup_finds_preserved; assumption.
Qed.

(** Calls that do not overwrite displace nothing. *)
Lemma no_overwrite_no_displacement s sigs : forall tbl,
  no_overwrite sigs tbl = true -> no_displacement s sigs tbl = true.
Proof.
  induction sigs as [| x sigs IH]; intros tbl H; [reflexivity |].
  cbn [no_overwrite] in H. apply andb_prop in H as [Hx Hrest].
  apply negb_true_iff in Hx. cbn [no_displacement].
  rewrite Hx. cbn [andb negb]. apply IH, Hrest.
Qed.

(** C3, amended. [dedup s] probes the slots [(s+0), (s+1), (s+2),
    (s+3)] modulo 8192 in order: it returns true at the first probed
    slot that holds [s]; at the first probed slot that is zero it stores
    [s] there and returns false; when all four hold something else it
    overwrites slot [s mod 8192] and returns false.  So a second call
    with [s] returns true right after a first call that returned false,
    and also, for [s] other than 0 (the mark of an empty slot), after
    calls in between none of which makes an overwriting store, and more
    generally after calls in between none of which makes an overwriting
    store into the slot that holds [s] or an overwriting store of the
    zero signal.  That no overwrite has displaced [s] is not enough: an
    overwriting store of the zero signal can empty a slot that [s]
    probes before its own. *)
Theorem dedup_spec (tbl : list Z) (s : Z) :
  length tbl = Z.to_nat dedup_table_size ->
  dedup_table_size = 8192
  /\ (forall i, 0 <= i < 4 ->
      (forall j, 0 <= j < i -> dedup_occupied tbl s j) ->
      tbl_at tbl (dedup_slot s i) = s ->
      dedup s tbl = (true, tbl))
  /\ (forall i, 0 <= i < 4 ->
      (forall j, 0 <= j < i -> dedup_occupied tbl s j) ->
      tbl_at tbl (dedup_slot s i) <> s ->
      tbl_at tbl (dedup_slot s i) = 0 ->
      dedup s tbl = (false, tbl_set tbl (dedup_slot s i) s))
  /\ ((forall j, 0 <= j < 4 -> dedup_occupied tbl s j) ->
      dedup s tbl = (false, tbl_set tbl (s mod dedup_table_size) s))
  /\ (forall tbl1, dedup s tbl = (false, tbl1) ->
      dedup s tbl1 = (true, tbl1))
  /\ (forall tbl1 between, s <> 0 ->
      dedup s tbl = (false, tbl1) ->
      no_overwrite between tbl1 = true ->
      dedup s (dedup_all between tbl1) = (true, dedup_all between tbl1))
  /\ (forall tbl1 between, s <> 0 ->
      dedup s tbl = (false, tbl1) ->
      no_displacement s between tbl1 = true ->
      dedup s (dedup_all between tbl1) = (true, dedup_all between tbl1)).
Proof.
  intros Hlen. split; [reflexivity |].
  split; [intros; eapply dedup_found; eauto |].
  split; [intros; eapply dedup_stored; eauto |].
  split; [intros; eapply dedup_overwritten; eauto |].
  split; [| split].
  - intros tbl1 H. apply dedup_finds_true. eapply dedup_false_finds; eauto.
  - intros tbl1 between Hnz H Hno. apply dedup_finds_true.
    apply dedup_all_finds; auto. eapply dedup_false_finds; eauto.
  - intros tbl1 between Hnz H Hno. apply dedup_finds_true.
    apply dedup_all_kept; auto.
    + replace tbl1 with (snd (dedup s tbl)) by (rewrite H; reflexivity).
      rewrite dedup_length. exact Hlen.
    + eapply dedup_false_finds; eauto.
Qed.

(** ** The signal hash *)

Lemma lxor_range n a b :
  0 <= n -> 0 <= a < 2 ^ n -> 0 <= b < 2 ^ n -> 0 <= Z.lxor a b < 2 ^ n.
Proof.
  intros Hn Ha Hb.
  assert (E : Z.lxor a b mod 2 ^ n = Z.lxor a b).
  { apply Z.bits_inj'. intros m Hm.
    destruct (Z.ltb_spec m n).
    - apply Z.mod_pow2_bits_low. lia.
    - rewrite Z.mod_pow2_bits_high by lia.
      rewrite Z.lxor_spec.
      rewrite <- (Z.mod_small a (2 ^ n)), <- (Z.mod_small b (2 ^ n))
        by assumption.
      rewrite !Z.mod_pow2_bits_high by lia. reflexivity. }
  rewrite <- E. apply Z.mod_pos_bound. lia.
Qed.

Lemma div_pow2_range n a k :
  0 <= k -> 0 <= a < 2 ^ n -> 0 <= a / 2 ^ k < 2 ^ n.
Proof.
  intros Hk Ha. assert (0 < 2 ^ k) by lia. split.
  - apply Z.div_pos; lia.
  - apply Z.le_lt_trans with a; [| lia].
    apply Z.div_le_upper_bound; [lia | nia].
Qed.

Lemma spec_hash_range a : 0 <= a < 2 ^ 32 -> 0 <= spec_hash a < 2 ^ 32.
Proof.
  intros Ha. unfold spec_hash. cbv zeta.
  apply lxor_range; [lia | apply Z.mod_pos_bound; lia |].
  apply div_pow2_range; [lia |]. apply Z.mod_pos_bound; lia.
Qed.

(** The code's hash is the specification's scalar mix. *)
Lemma hash_spec a : 0 <= a < 2 ^ 32 -> hash a = spec_hash a.
Proof.
  intros Ha. unfold hash, spec_hash, u32. cbv zeta.
  rewrite !Z.shiftr_div_pow2, !Z.shiftl_mul_pow2 by lia.
  rewrite Z.add_mod_idemp_r by lia. reflexivity.
Qed.

Lemma hash_range a : 0 <= a < 2 ^ 32 -> 0 <= hash a < 2 ^ 32.
Proof. intros Ha. rewrite hash_spec by assumption. apply spec_hash_range, Ha. Qed.

(** ** Writing to the output buffer *)

Lemma bind_ok {A B} (c : result A) (k : A -> result B) (b : B) :
  mbind k c = Ok b -> exists a, c = Ok a /\ k a = Ok b.
Proof. destruct c; cbn; intros H; try discriminate. eauto. Qed.

Lemma u32_u32 x : u32 (u32 x) = u32 x.
Proof. unfold u32. apply Z.mod_mod. lia. Qed.

Section OutputFacts.
Context {W : Type} {P : Platform W}.
Implicit Types st : state W.

Lemma appended_nil st : appended st [] = st.
Proof.
  destruct st. unfold appended, set_output. cbn.
  rewrite !app_nil_r. reflexivity.
Qed.

Lemma appended_app st a b :
  appended (appended st a) b = appended st (a ++ b).
Proof.
  unfold appended, set_output. cbn.
  rewrite map_app, !app_assoc. reflexivity.
Qed.

Lemma write_output_ok v st r :
  collide st = false -> write_output v st = Ok r ->
  r = (Some (Z.of_nat (length (output_data st))), appended st [u32 v]).
Proof.
  intros Hc. unfold write_output. rewrite Hc.
  destruct (kMaxOutput <=? _); [discriminate |].
  intros [= <-]. reflexivity.
Qed.

Lemma write_output_bound v st r :
  collide st = false -> write_output v st = Ok r ->
  4 * Z.of_nat (length (output_data st)) < kMaxOutput.
Proof.
  intros Hc. unfold write_output. rewrite Hc.
  destruct (Z.leb_spec kMaxOutput (4 * Z.of_nat (length (output_data st))));
    [discriminate | intros _; assumption].
Qed.

Lemma write_words_ok l : forall st st',
  collide st = false -> write_words l st = Ok st' ->
  st' = appended st (map u32 l).
Proof.
  induction l as [| v l IH]; intros st st' Hc H; cbn in H.
  - injection H as <-. symmetry. apply appended_nil.
  - apply bind_ok in H as ([p st1] & H1 & H2).
    apply write_output_ok in H1; [| assumption]. injection H1 as -> ->.
    apply IH in H2; [| exact Hc]. subst st'.
    rewrite appended_app. reflexivity.
Qed.

Lemma cover_from_step th i n :
  map (fun k => cover_word th (i + Z.of_nat k)) (seq 0 (S n))
  = cover_word th i
    :: map (fun k => cover_word th (i + 1 + Z.of_nat k)) (seq 0 n).
Proof.
  cbn [seq map]. rewrite Z.add_0_r. f_equal.
  rewrite <- seq_shift, map_map. apply map_ext. intros k. f_equal. lia.
Qed.

(** The signal loop computes the specification's signals. *)
Lemma signal_loop_ok n th : forall i prev nsig st nsig' st',
  collide st = false -> 0 <= prev < 2 ^ 32 -> 0 <= nsig < 2 ^ 32 ->
  0 <= i -> i + Z.of_nat n < 2 ^ 32 ->
  signal_loop n th i prev nsig st = Ok (nsig', st') ->
  let r := spec_signals
             (map (fun k => cover_word th (i + Z.of_nat k)) (seq 0 n))
             prev (dedup_table st) in
  st' = set_dedup_table (appended st (fst r)) (snd r)
  /\ nsig' = u32 (nsig + Z.of_nat (length (fst r)))
  /\ Z.of_nat (length (fst r)) <= Z.of_nat n.
Proof.
  induction n as [| n IH];
    intros i prev nsig st nsig' st' Hc Hprev Hnsig Hi Hn H.
  - cbn in H. injection H as <- <-. cbn.
    rewrite appended_nil, Z.add_0_r, u32_id by assumption.
    destruct st; cbn. unfold set_dedup_table; cbn.
    repeat split; lia.
  - rewrite cover_from_step. cbn [signal_loop] in H. cbn [spec_signals].
    set (pc := u32 (cover_word th i)) in *.
    change (cover_word th i mod 2 ^ 32) with pc.
    assert (Hpc : 0 <= pc < 2 ^ 32) by apply u32_range.
    assert (Hsig : 0 <= Z.lxor pc prev < 2 ^ 32) by (apply lxor_range; lia).
    rewrite <- hash_spec by assumption.
    destruct (dedup (Z.lxor pc prev) (dedup_table st)) as [dup tbl1] eqn:Hd.
    assert (Hi1 : u32 (i + 1) = i + 1) by (apply u32_id; lia).
    rewrite Hi1 in H.
    destruct dup.
    + apply IH in H; try assumption; try lia; [| apply hash_range, Hpc].
      cbn [dedup_table set_dedup_table] in H.
      destruct (spec_signals _ (hash pc) tbl1) as [sigs tbl2].
      cbn [fst snd] in *. destruct H as (-> & -> & Hlen).
      split; [reflexivity |]. split; [reflexivity | lia].
    + apply bind_ok in H as ([p st1] & H1 & H2).
      apply write_output_ok in H1; [| exact Hc]. injection H1 as -> ->.
      apply IH in H2; try assumption; try lia;
        [| apply hash_range, Hpc | apply u32_range].
      cbn [dedup_table set_dedup_table appended set_output] in H2.
      destruct (spec_signals _ (hash pc) tbl1) as [sigs tbl2].
      cbn [fst snd] in *. destruct H2 as (-> & -> & Hlen).
      rewrite (u32_id (Z.lxor pc prev)) by assumption.
      split; [| split].
      * unfold appended, set_dedup_table, set_output. cbn.
        rewrite <- !app_assoc. reflexivity.
      * unfold u32. rewrite Z.add_mod_idemp_l by lia.
        f_equal. cbn [length]. lia.
      * cbn [length]. lia.
Qed.
End OutputFacts.

(** ** Sorting and uniquing *)

Section AlgorithmFacts.
Context {A : Type} (ltb eqb : A -> A -> bool).

Lemma sort_insert_perm x l : Permutation (sort_insert ltb x l) (x :: l).
Proof.
  induction l as [| y l IH]; cbn; [reflexivity |].
  destruct (ltb y x); [| reflexivity].
  rewrite IH. apply perm_swap.
Qed.

Lemma std_sort_perm l : Permutation (std_sort ltb l) l.
Proof.
  induction l as [| x l IH]; cbn; [reflexivity |].
  rewrite sort_insert_perm, IH. reflexivity.
Qed.

Lemma std_sort_length l : length (std_sort ltb l) = length l.
Proof. apply Permutation_length, std_sort_perm. Qed.

Lemma unique_from_length x l : (length (unique_from eqb x l) <= S (length l))%nat.
Proof.
  revert x. induction l as [| y l IH]; intros x; cbn; [lia |].
  destruct (eqb x y); cbn; [specialize (IH x) | specialize (IH y)]; lia.
Qed.

Lemma std_unique_length l : (length (std_unique eqb l) <= length l)%nat.
Proof. destruct l as [| x l]; cbn; [lia | apply unique_from_length]. Qed.

(** Hypotheses on the order: [ltb] is a strict total order and [eqb]
    decides equality. *)
Hypothesis ltb_asym : forall a b, ltb a b = true -> ltb b a = false.
Hypothesis ltb_trans :
  forall a b c, ltb a b = true -> ltb b c = true -> ltb a c = true.
Hypothesis ltb_total :
  forall a b, ltb a b = false -> ltb b a = false -> a = b.
Hypothesis eqb_eq : forall a b, eqb a b = true <-> a = b.

Local Abbreviation ascending := (ascending ltb).

Lemma sort_insert_sorted x l :
  Sorted ascending l -> Sorted ascending (sort_insert ltb x l).
Proof.
  induction l as [| y l IH]; intros Hs; cbn.
  - repeat constructor.
  - destruct (ltb y x) eqn:E.
    + inversion Hs as [| ? ? Hs' Hhd]; subst. constructor; [auto |].
      destruct l as [| z l]; cbn.
      * constructor. apply ltb_asym, E.
      * destruct (ltb z x); constructor.
        -- inversion Hhd; assumption.
        -- apply ltb_asym, E.
    + constructor; [assumption |]. constructor. exact E.
Qed.

Lemma std_sort_sorted l : Sorted ascending (std_sort ltb l).
Proof.
  induction l as [| x l IH]; cbn; [constructor |].
  apply sort_insert_sorted, IH.
Qed.

Lemma unique_from_hd x l :
  exists l', unique_from eqb x l = x :: l'.
Proof.
  revert x. induction l as [| y l IH]; intros x; cbn; [eauto |].
  destruct (eqb x y); eauto.
Qed.

Lemma unique_from_sorted l : forall x,
  Sorted ascending (x :: l) ->
  Sorted (fun a b => ltb a b = true) (unique_from eqb x l).
Proof.
  induction l as [| y l IH]; intros x Hs; cbn.
  - repeat constructor.
  - inversion Hs as [| ? ? Hs' Hhd]; subst.
    inversion Hhd as [| ? ? Hxy]; subst. unfold ascending in Hxy.
    destruct (eqb x y) eqn:E.
    + apply eqb_eq in E. subst y. apply IH. assumption.
    + constructor; [apply IH; assumption |].
      destruct (unique_from_hd y l) as [l' ->]. constructor.
      destruct (ltb x y) eqn:L; [reflexivity |].
      exfalso. assert (x = y) by (apply ltb_total; assumption).
      apply eqb_eq in H. congruence.
Qed.

Lemma std_unique_sorted l :
  Sorted ascending l -> Sorted (fun a b => ltb a b = true) (std_unique eqb l).
Proof.
  destruct l as [| x l]; cbn; [constructor | apply unique_from_sorted].
Qed.

Lemma unique_from_In l : forall x a,
  In a (unique_from eqb x l) <-> In a (x :: l).
Proof.
  induction l as [| y l IH]; intros x a; cbn; [tauto |].
  destruct (eqb x y) eqn:E.
  - apply eqb_eq in E. subst y. rewrite IH. cbn. tauto.
  - cbn. rewrite IH. cbn. tauto.
Qed.

Lemma std_unique_In l a : In a (std_unique eqb l) <-> In a l.
Proof. destruct l as [| x l]; cbn; [tauto | apply unique_from_In]. Qed.

(** Sorting then uniquing: strictly increasing, with the elements of
    the input. *)
Lemma sort_unique_spec l :
  StronglySorted (fun a b => ltb a b = true) (std_unique eqb (std_sort ltb l))
  /\ (forall a, In a (std_unique eqb (std_sort ltb l)) <-> In a l).
Proof.
  split.
  - apply Sorted_StronglySorted.
    + intros a b c. apply ltb_trans.
    + apply std_unique_sorted, std_sort_sorted.
  - intros a. rewrite std_unique_In. split; intros H.
    + eapply Permutation_in; [apply std_sort_perm | exact H].
    + eapply Permutation_in; [symmetry; apply std_sort_perm | exact H].
Qed.
End AlgorithmFacts.

(** ** Comparison records *)

Lemma size_mask_cases t :
  Z.land t KCOV_CMP_SIZE_MASK = 0 \/ Z.land t KCOV_CMP_SIZE_MASK = 2
  \/ Z.land t KCOV_CMP_SIZE_MASK = 4 \/ Z.land t KCOV_CMP_SIZE_MASK = 6.
Proof.
  unfold KCOV_CMP_SIZE_MASK.
  change 6 with (Z.land (Z.ones 3) 6).
  rewrite Z.land_assoc, Z.land_ones by lia.
  pose proof (Z.mod_pos_bound t (2 ^ 3) ltac:(lia)) as Hb.
  change (2 ^ 3) with 8 in *.
  assert (t mod 8 = 0 \/ t mod 8 = 1 \/ t mod 8 = 2 \/ t mod 8 = 3 \/
          t mod 8 = 4 \/ t mod 8 = 5 \/ t mod 8 = 6 \/ t mod 8 = 7)
    as [E | [E | [E | [E | [E | [E | [E | E]]]]]]] by lia;
    rewrite E; cbn; tauto.
Qed.

Lemma testbit_top n low :
  0 < n -> 0 <= low < 2 ^ n -> Z.testbit low (n - 1) = (2 ^ (n - 1) <=? low).
Proof.
  intros Hn Hlow.
  assert (Hp : 2 ^ n = 2 * 2 ^ (n - 1)).
  { rewrite <- Z.pow_succ_r by lia. f_equal. lia. }
  assert (0 < 2 ^ (n - 1)) by (apply Z.pow_pos_nonneg; lia).
  destruct (Z.leb_spec (2 ^ (n - 1)) low) as [Hge | Hlt].
  - apply Z.testbit_true; [lia |].
    replace (low / 2 ^ (n - 1)) with 1; [reflexivity |].
    apply Z.div_unique with (low - 2 ^ (n - 1)); lia.
  - apply Z.testbit_false; [lia |].
    rewrite Z.div_small by lia. reflexivity.
Qed.

(** The casts through [intN_t] are the specification's sign extension. *)
Lemma sign_extend_spec size x :
  0 < size <= 8 -> sign_extend (8 * size) x = spec_sign_extend size x.
Proof.
  intros Hsz. unfold sign_extend, spec_sign_extend, u64. cbv zeta.
  set (n := 8 * size). assert (Hn : 0 < n) by lia.
  assert (Hp : 2 ^ n = 2 * 2 ^ (n - 1)).
  { rewrite <- Z.pow_succ_r by lia. f_equal. lia. }
  assert (Hh : 0 < 2 ^ (n - 1)) by (apply Z.pow_pos_nonneg; lia).
  pose proof (Z.mod_pos_bound x (2 ^ n) ltac:(lia)) as Hlow.
  rewrite testbit_top by assumption.
  pose proof (Z.div_mod x (2 ^ n) ltac:(lia)) as Hx.
  destruct (Z.leb_spec (2 ^ (n - 1)) (x mod 2 ^ n)) as [Hge | Hlt].
  - replace ((x + 2 ^ (n - 1)) mod 2 ^ n) with (x mod 2 ^ n - 2 ^ (n - 1)).
    + f_equal. lia.
    + apply Z.mod_unique with (x / 2 ^ n + 1); lia.
  - replace ((x + 2 ^ (n - 1)) mod 2 ^ n) with (x mod 2 ^ n + 2 ^ (n - 1)).
    + replace (x mod 2 ^ n + 2 ^ (n - 1) - 2 ^ (n - 1)) with (x mod 2 ^ n)
        by lia.
      symmetry. apply Z.mod_small.
      assert (2 ^ n <= 2 ^ 64) by (apply Z.pow_le_mono_r; lia).
      lia.
    + apply Z.mod_unique with (x / 2 ^ n); lia.
Qed.

(** [kcov_comparison_t::write] hands [write_output] the words of the
    specification. *)
Lemma cmp_write_spec c : fst (cmp_write c) = spec_cmp_words c.
Proof.
  unfold cmp_write, spec_cmp_words, cmp_size. cbv zeta.
  assert (Hlo : forall a, u32 (Z.land a 0xFFFFFFFF) = a mod 2 ^ 32).
  { intros a. change 0xFFFFFFFF with (Z.ones 32).
    rewrite Z.land_ones by lia. apply u32_u32. }
  assert (Hhi : forall a, u32 (Z.shiftr a 32) = (a / 2 ^ 32) mod 2 ^ 32).
  { intros a. rewrite Z.shiftr_div_pow2 by lia. reflexivity. }
  destruct (size_mask_cases (cmp_type c)) as [E | [E | [E | E]]];
    rewrite E; cbn [Z.eqb Z.div Z.pow negb fst Pos.eqb
                      KCOV_CMP_SIZE1 KCOV_CMP_SIZE2 KCOV_CMP_SIZE4
                      KCOV_CMP_SIZE8].
  - change (2 ^ (0 / 2)) with 1. cbn [Z.ltb Z.compare Pos.compare].
    rewrite <- !(sign_extend_spec 1) by lia. reflexivity.
  - change (2 ^ (2 / 2)) with 2.
    rewrite <- !(sign_extend_spec 2) by lia. reflexivity.
  - change (2 ^ (4 / 2)) with 4.
    rewrite <- !(sign_extend_spec 4) by lia. reflexivity.
  - change (2 ^ (6 / 2)) with 8. rewrite !Hlo, !Hhi. reflexivity.
Qed.

Lemma cmp_write_u32 c : map u32 (fst (cmp_write c)) = fst (cmp_write c).
Proof.
  unfold cmp_write. cbv zeta.
  destruct (negb _); cbn [fst map]; rewrite !u32_u32; reflexivity.
Qed.

Lemma cmp_ltb_key a b : cmp_ltb a b = key_ltb (cmp_key a) (cmp_key b).
Proof. reflexivity. Qed.

Lemma cmp_eqb_key a b : cmp_eqb a b = key_eqb (cmp_key a) (cmp_key b).
Proof. reflexivity. Qed.

Lemma key_ltb_true a b :
  key_ltb a b = true <->
  a.1.1 < b.1.1
  \/ (a.1.1 = b.1.1 /\ (a.1.2 < b.1.2 \/ (a.1.2 = b.1.2 /\ a.2 < b.2))).
Proof.
  destruct a as [[t1 x1] y1], b as [[t2 x2] y2]. unfold key_ltb. cbn [fst snd].
  destruct (Z.eqb_spec t1 t2); destruct (Z.eqb_spec x1 x2); cbn [negb];
    rewrite Z.ltb_lt; lia.
Qed.

Lemma key_ltb_asym a b : key_ltb a b = true -> key_ltb b a = false.
Proof.
  intros H. apply key_ltb_true in H.
  destruct (key_ltb b a) eqn:E; [| reflexivity].
  apply key_ltb_true in E. lia.
Qed.

Lemma key_ltb_trans a b c :
  key_ltb a b = true -> key_ltb b c = true -> key_ltb a c = true.
Proof. rewrite !key_ltb_true. lia. Qed.

Lemma key_ltb_total a b :
  key_ltb a b = false -> key_ltb b a = false -> a = b.
Proof.
  intros H1 H2.
  assert (N1 : ~ key_ltb a b = true) by congruence.
  assert (N2 : ~ key_ltb b a = true) by congruence.
  rewrite key_ltb_true in N1, N2.
  destruct a as [[t1 x1] y1], b as [[t2 x2] y2]. cbn [fst snd] in *.
  repeat f_equal; lia.
Qed.

Lemma key_eqb_eq a b : key_eqb a b = true <-> a = b.
Proof.
  destruct a as [[t1 x1] y1], b as [[t2 x2] y2]. unfold key_eqb.
  rewrite !andb_true_iff, !Z.eqb_eq. split.
  - intros [[-> ->] ->]. reflexivity.
  - intros [= -> -> ->]. auto.
Qed.

Lemma key_ltb_lex a b :
  key_ltb (cmp_key a) (cmp_key b) = true <-> cmp_lex_lt a b.
Proof.
  unfold key_ltb, cmp_key, cmp_lex_lt.
  destruct (Z.eqb_spec (cmp_type a) (cmp_type b));
    destruct (Z.eqb_spec (cmp_arg1 a) (cmp_arg1 b)); cbn [negb];
    rewrite Z.ltb_lt; lia.
Qed.

Lemma key_eq_same a b : cmp_key a = cmp_key b <-> cmp_same a b.
Proof.
  unfold cmp_key, cmp_same. split.
  - intros [= -> -> ->]. auto.
  - intros (-> & -> & ->). reflexivity.
Qed.

Section MapFacts.
Context {A B : Type} (f : A -> B) (ltbA eqbA : A -> A -> bool)
  (ltbB eqbB : B -> B -> bool).
Hypothesis ltb_f : forall a b, ltbA a b = ltbB (f a) (f b).
Hypothesis eqb_f : forall a b, eqbA a b = eqbB (f a) (f b).

Lemma map_sort_insert x l :
  map f (sort_insert ltbA x l) = sort_insert ltbB (f x) (map f l).
Proof.
  induction l as [| y l IH]; cbn; [reflexivity |].
  rewrite <- ltb_f. destruct (ltbA y x); cbn; [rewrite IH |]; reflexivity.
Qed.

Lemma map_std_sort l : map f (std_sort ltbA l) = std_sort ltbB (map f l).
Proof.
  induction l as [| x l IH]; cbn; [reflexivity |].
  rewrite map_sort_insert, IH. reflexivity.
Qed.

Lemma map_unique_from l : forall x,
  map f (unique_from eqbA x l) = unique_from eqbB (f x) (map f l).
Proof.
  induction l as [| y l IH]; intros x; cbn; [reflexivity |].
  rewrite <- eqb_f. destruct (eqbA x y); cbn; rewrite IH; reflexivity.
Qed.

Lemma map_std_unique l : map f (std_unique eqbA l) = std_unique eqbB (map f l).
Proof. destruct l as [| x l]; cbn; [reflexivity | apply map_unique_from]. Qed.

Lemma StronglySorted_map (R : B -> B -> Prop) l :
  StronglySorted R (map f l) -> StronglySorted (fun a b => R (f a) (f b)) l.
Proof.
  induction l as [| x l IH]; cbn; intros H; [constructor |].
  inversion H as [| ? ? Hs Hall]; subst. constructor; [auto |].
  rewrite Forall_map in Hall. exact Hall.
Qed.
End MapFacts.

(** The records that survive sorting and uniquing are strictly
    increasing in the lexicographic order on [(type, arg1, arg2)], and
    they are the records of the buffer up to [pc]. *)
Lemma sorted_comps_spec th :
  let recs := cmp_array (th_cover_data th) (Z.to_nat (u32 (th_cover_size th))) in
  StronglySorted cmp_lex_lt (sorted_comps th)
  /\ (forall c, (exists c', In c' (sorted_comps th) /\ cmp_same c c')
                <-> (exists c', In c' recs /\ cmp_same c c'))
  /\ (length (sorted_comps th) <= Z.to_nat (u32 (th_cover_size th)))%nat.
Proof.
  intros recs.
  assert (Hmap : map cmp_key (sorted_comps th)
                 = std_unique key_eqb (std_sort key_ltb (map cmp_key recs))).
  { unfold sorted_comps. cbv zeta. fold recs.
    rewrite (map_std_unique cmp_key cmp_eqb key_eqb cmp_eqb_key).
    rewrite (map_std_sort cmp_key cmp_ltb key_ltb cmp_ltb_key). reflexivity. }
  destruct (sort_unique_spec key_ltb key_eqb key_ltb_asym key_ltb_trans
              key_ltb_total key_eqb_eq (map cmp_key recs)) as [Hs Hin].
  rewrite <- Hmap in Hs, Hin.
  assert (Hkey : forall c l,
             (exists c', In c' l /\ cmp_same c c')
             <-> In (cmp_key c) (map cmp_key l)).
  { intros c l. rewrite in_map_iff. split.
    - intros (c' & Hc' & Hsame). exists c'. split; [| assumption].
      symmetry. apply key_eq_same, Hsame.
    - intros (c' & Hk & Hc'). exists c'. split; [assumption |].
      apply key_eq_same. symmetry. exact Hk. }
  split; [| split].
  - apply StronglySorted_map in Hs. clear Hmap Hin.
    induction Hs as [| x l Hs IH Hall]; [constructor |].
    constructor; [exact IH |].
    eapply Forall_impl; [exact Hall |].
    intros b Hb. apply key_ltb_lex, Hb.
  - intros c. rewrite !Hkey. apply Hin.
  - unfold sorted_comps. cbv zeta.
    etransitivity; [apply std_unique_length |].
    rewrite std_sort_length. unfold cmp_array.
    rewrite length_map, length_seq. reflexivity.
Qed.

(** ** What a completion writes *)

Section CompletionFacts.
Context {W : Type} {P : Platform W}.
Implicit Types st : state W.

Lemma write_comps_ok l : forall n st n' st',
  collide st = false -> 0 <= n ->
  n + Z.of_nat (length l) < 2 ^ 32 ->
  write_comps l n st = Ok (n', st') ->
  let kept := List.filter (fun c => negb (cmp_ignore c)) l in
  st' = appended st (concat (map (fun c => fst (cmp_write c)) kept))
  /\ n' = n + Z.of_nat (length kept)
  /\ (length kept <= length l)%nat.
Proof.
  induction l as [| c l IH]; intros n st n' st' Hc Hn Hlen H.
  - cbn in H. injection H as <- <-. cbn.
    rewrite appended_nil. repeat split; lia.
  - cbn [write_comps] in H. cbn [List.filter length] in *.
    destruct (cmp_ignore c); cbn [negb].
    + apply IH in H; try assumption; try lia.
      destruct H as (-> & -> & Hk). repeat split; lia.
    + apply bind_ok in H as (st1 & H1 & H2).
      apply write_words_ok in H1; [| exact Hc]. subst st1.
      rewrite cmp_write_u32 in H2.
      rewrite u32_id in H2 by lia.
      apply IH in H2; try assumption; try lia.
      destruct H2 as (-> & -> & Hk). cbn [map concat length].
      rewrite appended_app. repeat split; lia.
Qed.

Lemma cover_pcs_length dc th :
  Z.of_nat (length (cover_pcs dc th)) <= u32 (th_cover_size th).
Proof.
  pose proof (u32_range (th_cover_size th)).
  assert (Hw : length (cover_words th (u32 (th_cover_size th)))
               = Z.to_nat (u32 (th_cover_size th))).
  { unfold cover_words. rewrite length_map, length_seq. reflexivity. }
  unfold cover_pcs. cbv zeta. destruct dc.
  - pose proof (std_unique_length Z.eqb
                  (std_sort Z.ltb (cover_words th (u32 (th_cover_size th))))).
    rewrite std_sort_length in H0. lia.
  - lia.
Qed.

Lemma write_cover_ok th st n st' :
  collide st = false -> write_cover th st = Ok (n, st') ->
  st' = appended st (map u32 (cover_pcs (flag_dedup_cover (flags st)) th))
  /\ n = Z.of_nat (length (cover_pcs (flag_dedup_cover (flags st)) th)).
Proof.
  intros Hc H. unfold write_cover in H. cbv zeta in H.
  apply bind_ok in H as (st1 & H1 & H2).
  apply write_words_ok in H1; [| exact Hc]. subst st1.
  injection H2 as <- <-. split; [reflexivity |].
  pose proof (cover_pcs_length (flag_dedup_cover (flags st)) th) as Hl.
  pose proof (u32_range (th_cover_size th)).
  destruct (flag_dedup_cover (flags st)) eqn:E.
  - apply u32_id. lia.
  - unfold cover_pcs, cover_words. rewrite length_map, length_seq. lia.
Qed.
End CompletionFacts.

Section CompletionOutput.
Context {W : Type} {P : Platform W}.
Implicit Types st : state W.

Lemma insert_after {A} (out : list A) (k : nat) (v : A) (l : list A) p :
  p = Z.of_nat (length out) + Z.of_nat k ->
  <[Z.to_nat p := v]> (out ++ l) = out ++ <[k := v]> l.
Proof.
  intros ->.
  replace (Z.to_nat (Z.of_nat (length out) + Z.of_nat k))
    with (length out + k)%nat by lia.
  rewrite insert_app_r_alt by lia. f_equal. f_equal. lia.
Qed.

Lemma cover_words_from th n :
  map (fun k => cover_word th (0 + Z.of_nat k)) (seq 0 (Z.to_nat n))
  = cover_words th n.
Proof. unfold cover_words. apply map_ext. intros k. f_equal. Qed.

(** The feedback written is the payload of the specification. *)
Lemma write_feedback_ok th st nsig ncover ncomps st' :
  collide st = false ->
  write_feedback th st = Ok (nsig, ncover, ncomps, st') ->
  let p := completion_payload (flags st) cmp_ignore th (dedup_table st) in
  exists payload,
    p = (nsig, ncover, ncomps, payload, dedup_table st')
    /\ st' = set_dedup_table (appended st payload) (dedup_table st')
    /\ 0 <= nsig < 2 ^ 32 /\ 0 <= ncover < 2 ^ 32 /\ 0 <= ncomps < 2 ^ 32.
Proof.
  intros Hc H p. unfold write_feedback in H. subst p.
  unfold completion_payload.
  destruct (flag_collect_comps (flags st)).
  - destruct (Z.leb_spec kCoverSize (4 * u32 (th_cover_size th)));
      [discriminate |].
    apply bind_ok in H as ([n st1] & H1 & H2). injection H2 as <- <- <- <-.
    pose proof (sorted_comps_spec th) as (_ & _ & Hlen).
    pose proof (u32_range (th_cover_size th)).
    assert (Z.of_nat (length (sorted_comps th)) < 2 ^ 32).
    { unfold kCoverSize in *. change (Z.shiftl 64 10) with 65536 in *. lia. }
    apply write_comps_ok in H1; [| exact Hc | lia | lia].
    destruct H1 as (-> & -> & Hk). eexists. split; [reflexivity |].
    split; [destruct st; reflexivity |]. lia.
  - destruct (Z.leb_spec (2 ^ 32) (th_cover_size th)); [discriminate |].
    apply bind_ok in H as ([n st1] & H1 & H2).
    assert (Hcs : Z.of_nat (Z.to_nat (th_cover_size th)) < 2 ^ 32) by lia.
    apply signal_loop_ok in H1; [| exact Hc | lia | lia | lia | lia ].
    cbv zeta in H1. rewrite cover_words_from in H1.
    destruct (spec_signals (cover_words th (th_cover_size th)) 0
                (dedup_table st)) as [sigs tbl'].
    cbn [fst snd] in H1. destruct H1 as (-> & -> & Hl).
    rewrite Z.add_0_l, u32_id in H2 by lia.
    change (flags (set_dedup_table (appended st sigs) tbl'))
      with (flags st) in H2.
    destruct (flag_collect_cover (flags st)).
    + apply bind_ok in H2 as ([n st1] & H1 & H2).
      injection H2 as <- <- <- <-.
      apply write_cover_ok in H1; [| exact Hc]. destruct H1 as (-> & ->).
      change (flags (set_dedup_table (appended st sigs) tbl'))
        with (flags st).
      pose proof (cover_pcs_length (flag_dedup_cover (flags st)) th).
      pose proof (u32_range (th_cover_size th)).
      eexists. split; [rewrite length_map; reflexivity |].
      split; [| lia].
      unfold appended, set_dedup_table, set_output. cbn.
      rewrite map_app, !app_assoc. reflexivity.
    + injection H2 as <- <- <- <-.
      eexists. split; [reflexivity |]. rewrite app_nil_r.
      split; [reflexivity | lia].
Qed.

Lemma completion_output_ok i st st' :
  collide st = false -> completion_output i st = Ok st' ->
  let th := thread_at st i in
  let p := completion_payload (flags st) cmp_ignore th (dedup_table st) in
  let c := u32 (completed st + 1) in
  let len := Z.of_nat (length (output_data st)) in
  st' = mk_state (flags st) (running st) c false (input_data st)
          (threads st) (results st) (snd p)
          (<[0%nat := c]> (output_data st ++ record_words th p))
          (output_log st ++ record_stores len th p c) (world st)
  /\ 4 * len < kMaxOutput.
Proof.
  intros Hc H th p c len. unfold completion_output in H.
  fold th in H.
  apply bind_ok in H as ([p1 st1] & H1 & H).
  split; [| eapply write_output_bound; eauto].
  apply write_output_ok in H1; [| exact Hc]. injection H1 as -> ->.
  apply bind_ok in H as ([p2 st2] & H2 & H).
  apply write_output_ok in H2; [| exact Hc]. injection H2 as -> ->.
  apply bind_ok in H as ([p3 st3] & H3 & H).
  apply write_output_ok in H3; [| exact Hc]. injection H3 as -> ->.
  apply bind_ok in H as ([p4 st4] & H4 & H).
  apply write_output_ok in H4; [| exact Hc]. injection H4 as -> ->.
  apply bind_ok in H as ([p5 st5] & H5 & H).
  apply write_output_ok in H5; [| exact Hc]. injection H5 as -> ->.
  apply bind_ok in H as ([p6 st6] & H6 & H).
  apply write_output_ok in H6; [| exact Hc]. injection H6 as -> ->.
  apply bind_ok in H as ([p7 st7] & H7 & H).
  apply write_output_ok in H7; [| exact Hc]. injection H7 as -> ->.
  rewrite !appended_app in H. cbn [app] in H.
  cbn [appended set_output output_data] in H.
  rewrite !length_app in H. cbn [length] in H.
  replace (u32 (if negb (th_res th =? -1) then 0 else th_reserrno th))
    with (u32 (if th_res th =? -1 then th_reserrno th else 0)) in H
    by (destruct (th_res th =? -1); reflexivity).
  replace (u32 (Z.b2z (th_fault_injected th)))
    with (Z.b2z (th_fault_injected th)) in H
    by (destruct (th_fault_injected th); reflexivity).
  change (u32 0) with 0 in H.
  apply bind_ok in H as ([[[nsig ncover] ncomps] st0] & H0 & H).
  apply write_feedback_ok in H0; [| exact Hc].
  unfold appended at 1 2, set_output in H0.
  cbn [flags dedup_table] in H0. fold p in H0.
  destruct H0 as (payload & Hp & Hst & Hn1 & Hn2 & Hn3).
  set (tbl' := dedup_table st0) in *. clearbody tbl'. subst st0.
  cbn [out_store mbind result_bind] in H. injection H as <-.
  rewrite Hp. cbn [snd record_words record_stores].
  clear Hp. subst c len. clearbody th. clear p.
  destruct st as [fl run comp col inp ths res tbl out log w].
  cbn [collide] in Hc. subst col.
  cbv [write_completed set_completed set_output set_dedup_table appended
         flags running completed collide input_data threads results
         dedup_table output_data output_log world].
  rewrite (u32_id nsig), (u32_id ncover), (u32_id ncomps) by lia.
  rewrite !u32_u32. unfold record_head. f_equal.
  - f_equal. rewrite <- !app_assoc. cbn [app].
    rewrite (insert_after _ 5) by lia.
    rewrite (insert_after _ 6) by lia.
    rewrite (insert_after _ 4) by lia.
    reflexivity.
  - rewrite <- !app_assoc. cbn [app map]. repeat f_equal; lia.
Qed.
End CompletionOutput.

(** ** The completion handler *)

Section HandleCompletion.
Context {W : Type} {P : Platform W}.
Implicit Types st : state W.

Lemma thread_at_set_thread_eq st i th :
  (Z.to_nat i < length (threads st))%nat ->
  thread_at (set_thread st i th) i = th.
Proof.
  intros H. unfold thread_at, set_thread, set_threads. cbn [threads].
  apply list_lookup_total_insert_eq. exact H.
Qed.

Lemma thread_at_set_thread_ne st i j th :
  Z.to_nat i <> Z.to_nat j ->
  thread_at (set_thread st i th) j = thread_at st j.
Proof.
  intros H. unfold thread_at, set_thread, set_threads. cbn [threads].
  apply list_lookup_total_insert_ne. exact H.
Qed.

Lemma copyout_frame_refl i st :
  (Z.to_nat i < length (threads st))%nat -> copyout_frame i st st.
Proof.
  intros Hi. unfold copyout_frame. repeat (split; [reflexivity |]).
  exists (th_copyout_pos (thread_at st i)).
  symmetry. apply list_insert_id.
  unfold thread_at. rewrite list_lookup_lookup_total_lt by exact Hi.
  f_equal. destruct (threads st !!! Z.to_nat i); reflexivity.
Qed.

Lemma read_copyout_pos_ok i st v st1 :
  read_copyout_pos i st = Ok (v, st1) ->
  let pos := th_copyout_pos (thread_at st i) in
  8 * pos < kMaxInput /\ v = input_word (input_data st) pos
  /\ st1 = set_thread st i (set_th_copyout_pos (thread_at st i) (pos + 1)).
Proof.
  unfold read_copyout_pos, read_input. cbv zeta.
  destruct (Z.leb_spec kMaxInput (8 * th_copyout_pos (thread_at st i)));
    [discriminate |].
  cbn. intros [= <- <-]. auto.
Qed.

Lemma copyout_frame_length i st st1 :
  copyout_frame i st st1 -> length (threads st1) = length (threads st).
Proof.
  intros (_ & _ & _ & _ & _ & _ & _ & _ & _ & pos & ->).
  apply length_insert.
Qed.

Lemma copyout_frame_trans i st st1 st2 :
  (Z.to_nat i < length (threads st))%nat ->
  copyout_frame i st st1 -> copyout_frame i st1 st2 ->
  copyout_frame i st st2.
Proof.
  intros Hi (F1 & F2 & F3 & F4 & F5 & F6 & F7 & F8 & F9 & pos1 & Ht1)
         (G1 & G2 & G3 & G4 & G5 & G6 & G7 & G8 & G9 & pos2 & Ht2).
  unfold copyout_frame.
  repeat (split; [congruence |]).
  exists pos2. rewrite Ht2, Ht1. rewrite list_insert_insert_eq.
  f_equal. unfold thread_at. rewrite Ht1.
  rewrite list_lookup_total_insert_eq by exact Hi. reflexivity.
Qed.

Lemma read_copyout_pos_frame i st v st1 :
  read_copyout_pos i st = Ok (v, st1) -> copyout_frame i st st1.
Proof.
  intros H. apply read_copyout_pos_ok in H as (_ & _ & ->).
  unfold copyout_frame. repeat (split; [reflexivity |]).
  eexists. reflexivity.
Qed.

Lemma set_result_frame i st idx v :
  (Z.to_nat i < length (threads st))%nat ->
  copyout_frame i st (set_result st idx v).
Proof.
  intros Hi. destruct (copyout_frame_refl i st Hi)
    as (F1 & F2 & F3 & F4 & F5 & F6 & F7 & F8 & F9 & pos & Ht).
  unfold copyout_frame. repeat (split; [reflexivity |]).
  exists pos. exact Ht.
Qed.

Lemma copyout_loop_frame i fuel : forall st st1,
  (Z.to_nat i < length (threads st))%nat ->
  copyout_loop fuel i st = Ok st1 -> copyout_frame i st st1.
Proof.
  induction fuel as [| fuel IH]; intros st st1 Hi H; [discriminate |].
  cbn [copyout_loop] in H.
  apply bind_ok in H as ([instr sa] & Ha & H).
  pose proof (read_copyout_pos_frame _ _ _ _ Ha) as Fa.
  pose proof (copyout_frame_length _ _ _ Fa) as La.
  destruct (instr =? instr_copyout).
  - apply bind_ok in H as ([index sb] & Hb & H).
    pose proof (read_copyout_pos_frame _ _ _ _ Hb) as Fb.
    pose proof (copyout_frame_length _ _ _ Fb) as Lb.
    apply bind_ok in H as ([addr sc] & Hc & H).
    pose proof (read_copyout_pos_frame _ _ _ _ Hc) as Fc.
    pose proof (copyout_frame_length _ _ _ Fc) as Lc.
    apply bind_ok in H as ([size sd] & Hd & H).
    pose proof (read_copyout_pos_frame _ _ _ _ Hd) as Fd.
    pose proof (copyout_frame_length _ _ _ Fd) as Ld.
    apply bind_ok in H as (v & Hv & H).
    destruct (kMaxCommands <=? index); [discriminate |].
    apply IH in H; [| cbn; lia].
    assert (Fe : copyout_frame i sd (set_result sd index v))
      by (apply set_result_frame; lia).
    eapply copyout_frame_trans; [exact Hi | exact Fa |].
    eapply copyout_frame_trans; [lia | exact Fb |].
    eapply copyout_frame_trans; [lia | exact Fc |].
    eapply copyout_frame_trans; [lia | exact Fd |].
    eapply copyout_frame_trans; [lia | exact Fe | exact H].
  - injection H as <-. exact Fa.
Qed.

Lemma copyout_frame_thread i st st1 :
  (Z.to_nat i < length (threads st))%nat -> copyout_frame i st st1 ->
  exists pos, thread_at st1 i = set_th_copyout_pos (thread_at st i) pos.
Proof.
  intros Hi (_ & _ & _ & _ & _ & _ & _ & _ & _ & pos & Ht).
  exists pos. unfold thread_at at 1. rewrite Ht.
  apply list_lookup_total_insert_eq. exact Hi.
Qed.

(** What [handle_completion] does when it returns. *)
Lemma handle_completion_ok i st st' :
  (Z.to_nat i < length (threads st))%nat ->
  handle_completion i st = Ok st' ->
  let th := thread_at st i in
  (th_ready th = false /\ th_done th = true /\ th_handled th = false)
  /\ flags st' = flags st /\ collide st' = collide st
  /\ input_data st' = input_data st /\ world st' = world st
  /\ running st' = running st - 1
  /\ (exists pos,
      threads st'
      = <[Z.to_nat i := set_th_handled (set_th_copyout_pos th pos) true]>
          (threads st))
  /\ (if collide st then
        completed st' = completed st /\ output_data st' = output_data st
        /\ output_log st' = output_log st
        /\ dedup_table st' = dedup_table st
      else
        let p := completion_payload (flags st) cmp_ignore th
                   (dedup_table st) in
        let c := u32 (completed st + 1) in
        completed st' = c
        /\ output_data st' = <[0%nat := c]> (output_data st ++ record_words th p)
        /\ output_log st'
           = output_log st
             ++ record_stores (Z.of_nat (length (output_data st))) th p c
        /\ dedup_table st' = snd p
        /\ 4 * Z.of_nat (length (output_data st)) < kMaxOutput).
Proof.
  intros Hi H th. unfold handle_completion in H. fold th in H.
  destruct (th_ready th) eqn:Er; [discriminate |].
  destruct (th_done th) eqn:Ed; [| discriminate].
  destruct (th_handled th) eqn:Eh; [discriminate |].
  cbn [orb negb] in H.
  split; [auto |].
  apply bind_ok in H as (st1 & H1 & H).
  assert (F : copyout_frame i st st1).
  { destruct (negb (th_res th =? -1)).
    - apply bind_ok in H1 as (sa & Ha & H1).
      assert (Fa : copyout_frame i st sa).
      { destruct (negb (th_copyout_index th =? no_copyout)).
        - destruct (kMaxCommands <=? th_copyout_index th); [discriminate |].
          injection Ha as <-. apply set_result_frame, Hi.
        - injection Ha as <-. apply copyout_frame_refl, Hi. }
      pose proof (copyout_frame_length _ _ _ Fa).
      apply copyout_loop_frame in H1; [| lia].
      eapply copyout_frame_trans; eauto.
    - injection H1 as <-. apply copyout_frame_refl, Hi. }
  destruct (copyout_frame_thread _ _ _ Hi F) as (pos & Hth).
  destruct F as (F1 & F2 & F3 & F4 & F5 & F6 & F7 & F8 & F9 & pos' & Ht).
  apply bind_ok in H as (st2 & H2 & H). injection H as <-.
  cbn [flags collide input_data world running set_running set_thread
         set_threads threads completed output_data output_log dedup_table].
  rewrite F4 in H2.
  destruct (collide st) eqn:Ec; cbn [negb] in H2.
  - injection H2 as <-. rewrite Hth.
    repeat (split; [congruence |]).
    split.
    + exists pos. rewrite Ht, list_insert_insert_eq. reflexivity.
    + repeat split; congruence.
  - apply completion_output_ok in H2; [| congruence].
    cbv zeta in H2. rewrite Hth in H2. destruct H2 as [-> Hb].
    rewrite F7 in Hb.
    cbn [flags collide input_data world running threads completed
           output_data output_log dedup_table].
    rewrite F1, F2, F3, F5, F6, F7, F8, F9.
    unfold thread_at at 1. cbn [threads]. fold (thread_at st1 i).
    rewrite Hth.
    repeat (split; [reflexivity |]).
    split.
    + exists pos. rewrite Ht, list_insert_insert_eq. reflexivity.
    + repeat split; try reflexivity; exact Hb.
Qed.
End HandleCompletion.

(** ** C1, C3: witnesses *)

Lemma read_result_spec_witness :
  read_result [0; 2; 1] [mk_res true 10] 0 = Ok (6, 3)
  /\ read_result [0; 2; 1] [mk_res false 10] 0 = Ok (2 ^ 64 - 1, 3).
Proof.
  destruct (read_result_spec [0; 2; 1] [mk_res true 10] 0 ltac:(vm_compute; reflexivity))
    as (_ & _ & H & _).
  destruct (read_result_spec [0; 2; 1] [mk_res false 10] 0 ltac:(vm_compute; reflexivity))
    as (_ & _ & _ & _ & H').
  split.
  - apply H; vm_compute; congruence.
  - apply H'; vm_compute; congruence.
Defined.

Lemma dedup_spec_witness :
  dedup 5 dedup_table_init = (false, tbl_set dedup_table_init 5 5)
  /\ dedup 5 (tbl_set dedup_table_init 5 5)
     = (true, tbl_set dedup_table_init 5 5)
  /\ (let s := 24575 in
      let tbl := dedup_all [16383; 8192] dedup_table_init in
      let tbl1 := tbl_set tbl 1 s in
      let between := [16384; 24576; 32768] in
      let tbl2 := dedup_all between tbl1 in
      dedup s tbl = (false, tbl1)
      /\ no_overwrite between tbl1 = false
      /\ tbl_at tbl1 0 = 8192 /\ tbl_at tbl2 0 = 32768
      /\ dedup s tbl2 = (true, tbl2)).
Proof.
  destruct (dedup_spec dedup_table_init 5 eq_refl)
    as (_ & _ & Hstore & _ & Htwice & _).
  assert (H : dedup 5 dedup_table_init = (false, tbl_set dedup_table_init 5 5)).
  { apply (Hstore 0); [lia | intros; lia
                       | vm_compute; congruence | vm_compute; reflexivity]. }
  split; [exact H |]. split; [exact (Htwice _ H) |].
  cbv zeta.
  assert (H1 : dedup 24575 (dedup_all [16383; 8192] dedup_table_init)
               = (false,
                  tbl_set (dedup_all [16383; 8192] dedup_table_init) 1 24575))
    by (vm_compute; reflexivity).
  split; [exact H1 |]. do 3 (split; [vm_compute; reflexivity |]).
  destruct (dedup_spec (dedup_all [16383; 8192] dedup_table_init) 24575
              ltac:(vm_compute; reflexivity))
    as (_ & _ & _ & _ & _ & _ & Hkept').
  apply (Hkept' _ _ ltac:(lia) H1). vm_compute. reflexivity.
Defined.

(** C3 as stated fails.  The first call stores [s] in slot 1, the third
    of its probes; of the calls in between only [dedup 0] overwrites,
    and it overwrites slot 0, so that [s] is never displaced; but slot
    0, which [s] probes before slot 1, now holds the mark of an empty
    slot, and the second call stores [s] there and returns false. *)
Lemma dedup_twice_counterexample :
  let s := 24575 in
  let tbl := dedup_all [16383; 8192] dedup_table_init in
  let tbl1 := snd (dedup s tbl) in
  let tbl2 := dedup_all [16384; 24576; 0] tbl1 in
  dedup_slot s 2 = 1
  /\ dedup s tbl = (false, tbl_set tbl 1 s)
  /\ tbl_at tbl1 1 = s
  /\ tbl_at (dedup_all [16384] tbl1) 1 = s
  /\ tbl_at (dedup_all [16384; 24576] tbl1) 1 = s
  /\ tbl_at tbl2 1 = s
  /\ no_overwrite [16384; 24576] tbl1 = true
  /\ dedup 0 (dedup_all [16384; 24576] tbl1)
     = (false, tbl_set (dedup_all [16384; 24576] tbl1) 0 0)
  /\ no_displacement s [16384; 24576; 0] tbl1 = false
  /\ dedup s tbl2 = (false, tbl_set tbl2 0 s).
Proof.
  cbv zeta. do 9 (split; [vm_compute; reflexivity |]).
  vm_compute. reflexivity.
Qed.

(** ** C10: the zero signal *)

Lemma dedup_slot_small i : 0 <= i < 4 -> dedup_slot 0 i = i.
Proof.
  intros Hi. unfold dedup_slot, dedup_table_size.
  change (Z.shiftl 8 10) with 8192. rewrite Z.add_0_l.
  apply Z.mod_small. lia.
Qed.

(** C10, amended. [dedup 0] returns true and leaves the table as it is
    whenever one of the slots 0..3 is zero, in particular on a freshly
    zero-initialised table: such a zero signal is suppressed without
    being inserted.  When slots 0..3 are all non-zero, [dedup 0] writes
    0 into slot 0 and returns false.  A signal is zero exactly when the
    low 32 bits of the PC equal [prev]. *)
Theorem dedup_zero_spec (tbl : list Z) :
  dedup 0 dedup_table_init = (true, dedup_table_init)
  /\ ((exists i, 0 <= i < 4 /\ tbl_at tbl i = 0) -> dedup 0 tbl = (true, tbl))
  /\ ((forall i, 0 <= i < 4 -> tbl_at tbl i <> 0) ->
      dedup 0 tbl = (false, tbl_set tbl 0 0))
  /\ (forall pc prev, Z.lxor pc prev = 0 <-> pc = prev).
Proof.
  split; [vm_compute; reflexivity |].
  split; [| split].
  - intros (i & Hi & Hz).
    rewrite dedup_unfold. cbv beta zeta.
    rewrite !dedup_slot_small by lia.
    assert (i = 0 \/ i = 1 \/ i = 2 \/ i = 3) as [-> | [-> | [-> | ->]]] by lia;
      rewrite ?Hz;
      repeat match goal with
             | |- context [?a =? ?b] => destruct (Z.eqb_spec a b)
             end; try reflexivity; congruence.
  - intros Hnz.
    pose proof (Hnz 0 ltac:(lia)). pose proof (Hnz 1 ltac:(lia)).
    pose proof (Hnz 2 ltac:(lia)). pose proof (Hnz 3 ltac:(lia)).
    rewrite dedup_unfold. cbv beta zeta.
    rewrite !dedup_slot_small by lia.
    repeat match goal with
           | |- context [?a =? ?b] => destruct (Z.eqb_spec a b)
           end; try reflexivity; congruence.
  - intros pc prev. apply Z.lxor_eq_0_iff.
Qed.

Lemma dedup_zero_spec_witness :
  dedup 0 (tbl_set dedup_table_init 0 8192)
  = (true, tbl_set dedup_table_init 0 8192)
  /\ Z.lxor 7 7 = 0.
Proof.
  destruct (dedup_zero_spec (tbl_set dedup_table_init 0 8192))
    as (_ & H & _ & Hx).
  split.
  - apply H. exists 1. split; [lia | vm_compute; reflexivity].
  - apply Hx. reflexivity.
Defined.

(** C10 as stated fails: after four signals have filled slots 0..3,
    [dedup 0] stores 0 into slot 0, which held a signal, and returns
    false, so that the zero signal is emitted. *)
Lemma dedup_zero_counterexample :
  let tbl := dedup_all [8192; 16384; 24576; 32768] dedup_table_init in
  no_overwrite [8192; 16384; 24576; 32768] dedup_table_init = true
  /\ tbl_at tbl 0 = 8192
  /\ dedup 0 tbl = (false, tbl_set tbl 0 0)
  /\ tbl_at (snd (dedup 0 tbl)) 0 = 0
  /\ snd (dedup 0 tbl) <> tbl.
Proof.
  cbv zeta. repeat split; try (vm_compute; reflexivity).
  intros E. apply (f_equal (fun t => tbl_at t 0)) in E.
  vm_compute in E. discriminate.
Qed.

(** ** C4: the copyout cursor *)

Lemma read_input_inv input pos peek v pos' :
  read_input input pos peek = Ok (v, pos') ->
  8 * pos < kMaxInput /\ v = input_word input pos
  /\ pos' = if peek then pos else pos + 1.
Proof.
  unfold read_input.
  destruct (Z.leb_spec kMaxInput (8 * pos)); [discriminate |].
  intros [= <- <-]. auto.
Qed.

Section CopyoutCursor.
Context {W : Type} {P : Platform W}.
Implicit Types st : state W.

Lemma read_copyout_pos_step i st v st1 :
  (Z.to_nat i < length (threads st))%nat ->
  read_copyout_pos i st = Ok (v, st1) ->
  v = input_word (input_data st) (th_copyout_pos (thread_at st i))
  /\ th_copyout_pos (thread_at st1 i) = th_copyout_pos (thread_at st i) + 1
  /\ input_data st1 = input_data st
  /\ length (threads st1) = length (threads st).
Proof.
  intros Hi H. apply read_copyout_pos_ok in H as (_ & -> & ->).
  rewrite thread_at_set_thread_eq by exact Hi.
  split; [reflexivity |]. split; [reflexivity |]. split; [reflexivity |].
  unfold set_thread, set_threads. cbn [threads]. apply length_insert.
Qed.

(** The loop runs over a run of [n] COPYOUT records and leaves the
    cursor one word beyond the word that ends the run. *)
Lemma copyout_loop_cursor i (n : nat) : forall fuel st st1,
  (Z.to_nat i < length (threads st))%nat ->
  let p := th_copyout_pos (thread_at st i) in
  (forall k, (k < n)%nat ->
             input_word (input_data st) (p + 4 * Z.of_nat k) = instr_copyout) ->
  input_word (input_data st) (p + 4 * Z.of_nat n) <> instr_copyout ->
  copyout_loop fuel i st = Ok st1 ->
  th_copyout_pos (thread_at st1 i) = p + 4 * Z.of_nat n + 1.
Proof.
  induction n as [| n IH]; intros fuel st st1 Hi p Hrun Hend H;
    (destruct fuel as [| fuel]; [discriminate |]);
    cbn [copyout_loop] in H;
    apply bind_ok in H as ([instr sa] & Ha & H);
    apply read_copyout_pos_step in Ha as (-> & Pa & Ia & La);
      try exact Hi; fold p in Pa, H |- *.
  - replace (p + 4 * Z.of_nat 0) with p in Hend by lia.
    rewrite (proj2 (Z.eqb_neq _ _) Hend) in H.
    injection H as <-. lia.
  - pose proof (Hrun O ltac:(lia)) as H0.
    replace (p + 4 * Z.of_nat 0) with p in H0 by lia.
    rewrite H0, Z.eqb_refl in H.
    apply bind_ok in H as ([index sb] & Hb & H).
    apply read_copyout_pos_step in Hb as (_ & Pb & Ib & Lb); [| lia].
    apply bind_ok in H as ([addr sc] & Hc & H).
    apply read_copyout_pos_step in Hc as (_ & Pc & Ic & Lc); [| lia].
    apply bind_ok in H as ([size sd] & Hd & H).
    apply read_copyout_pos_step in Hd as (_ & Pd & Id & Ld); [| lia].
    apply bind_ok in H as (v & Hv & H).
    destruct (kMaxCommands <=? index); [discriminate |].
    assert (Pe : th_copyout_pos (thread_at (set_result sd index v) i) = p + 4)
      by (change (thread_at (set_result sd index v) i) with (thread_at sd i);
          lia).
    apply IH in H.
    + rewrite H, Pe. lia.
    + cbn [set_result set_results threads]. lia.
    + rewrite Pe. intros k Hk. cbn [set_result set_results input_data].
      rewrite Id, Ic, Ib, Ia.
      replace (p + 4 + 4 * Z.of_nat k) with (p + 4 * Z.of_nat (S k)) by lia.
      apply Hrun. lia.
    + rewrite Pe. cbn [set_result set_results input_data].
      rewrite Id, Ic, Ib, Ia.
      replace (p + 4 + 4 * Z.of_nat n) with (p + 4 * Z.of_nat (S n)) by lia.
      exact Hend.
Qed.
End CopyoutCursor.

(** ** Steps of the interpreter *)

Section Steps.
Context {W : Type} {P : Platform W}.
Implicit Types st : state W.

Lemma silent_refl st : silent st st.
Proof. unfold silent. repeat split. Qed.

Lemma silent_trans st st1 st2 : silent st st1 -> silent st1 st2 -> silent st st2.
Proof. unfold silent. intros H1 H2. intuition congruence. Qed.

Lemma silent_step st st' : silent st st' -> step_rel 0 st st'.
Proof.
  intros (F1 & F2 & F3 & F4 & F5 & F6 & F7 & F8 & F9).
  unfold step_rel. repeat (split; [assumption |]).
  destruct (collide st); [auto |].
  intros (recs & Ho & Hc & Hr). split; [| lia].
  exists recs. rewrite F6, F3. auto.
Qed.

Lemma step_rel_trans a b st st1 st2 :
  step_rel a st st1 -> step_rel b st1 st2 -> step_rel (a + b) st st2.
Proof.
  intros (F1 & F2 & F3 & F4 & F5) (G1 & G2 & G3 & G4 & G5).
  unfold step_rel. repeat (split; [congruence |]).
  rewrite F2 in G5. destruct (collide st).
  - intuition congruence.
  - intros Hi. destruct (F5 Hi) as [Hi1 E1].
    destruct (G5 Hi1) as [Hi2 E2]. split; [assumption | lia].
Qed.

Lemma set_thread_silent st i th : silent st (set_thread st i th).
Proof.
  unfold silent, set_thread, set_threads. cbn.
  repeat (split; [reflexivity |]). apply length_insert.
Qed.

Lemma set_world_silent st w : silent st (set_world st w).
Proof. unfold silent, set_world. cbn. repeat split. Qed.

Lemma thread_create_silent i st : silent st (thread_create i st).
Proof.
  unfold thread_create. cbv zeta.
  destruct (flag_threaded _).
  - eapply silent_trans; [apply set_thread_silent | apply set_world_silent].
  - apply set_thread_silent.
Qed.

Lemma execute_call_silent i st st' :
  execute_call i st = Ok st' -> silent st st'.
Proof.
  unfold execute_call. cbv zeta. intros H.
  apply bind_ok in H as ([fd w] & _ & H).
  destruct (execute_syscall _ _ _) as [res w1].
  match type of H with
  | context [let '(_, _) := ?x in _] => destruct x as [inj w2]
  end.
  injection H as <-.
  eapply silent_trans; [apply set_thread_silent | apply set_world_silent].
Qed.

(** [execute_call] clears [ready], sets [done] and the outcome of the
    call, and leaves the rest of the slot and the other slots alone. *)
Lemma execute_call_keeps i st st' :
  (Z.to_nat i < length (threads st))%nat ->
  execute_call i st = Ok st' ->
  th_created (thread_at st' i) = th_created (thread_at st i)
  /\ th_handled (thread_at st' i) = th_handled (thread_at st i)
  /\ th_copyout_pos (thread_at st' i) = th_copyout_pos (thread_at st i)
  /\ th_copyout_index (thread_at st' i) = th_copyout_index (thread_at st i)
  /\ th_call_index (thread_at st' i) = th_call_index (thread_at st i)
  /\ th_call_num (thread_at st' i) = th_call_num (thread_at st i)
  /\ th_ready (thread_at st' i) = false
  /\ th_done (thread_at st' i) = true
  /\ (forall j, Z.to_nat i <> Z.to_nat j -> thread_at st' j = thread_at st j).
Proof.
  intros Hi. unfold execute_call. cbv zeta. intros H.
  apply bind_ok in H as ([fd w] & _ & H).
  destruct (execute_syscall _ _ _) as [res w1].
  match type of H with
  | context [let '(_, _) := ?x in _] => destruct x as [inj w2]
  end.
  injection H as <-.
  change (thread_at (set_world ?s _) ?j) with (thread_at s j).
  rewrite thread_at_set_thread_eq by exact Hi. cbn.
  do 8 (split; [reflexivity |]).
  intros j Hj. change (thread_at (set_world ?s _) ?k) with (thread_at s k).
  apply thread_at_set_thread_ne, Hj.
Qed.

(** A step of the worker of a slot: it can clear [ready] of a call that
    is not done, and set [done] with [ready] clear. *)
Lemma worker_progress_keeps i ms st st' :
  (Z.to_nat i < length (threads st))%nat ->
  worker_progress i ms st = Ok st' ->
  th_created (thread_at st' i) = th_created (thread_at st i)
  /\ th_handled (thread_at st' i) = th_handled (thread_at st i)
  /\ th_copyout_pos (thread_at st' i) = th_copyout_pos (thread_at st i)
  /\ th_copyout_index (thread_at st' i) = th_copyout_index (thread_at st i)
  /\ th_call_index (thread_at st' i) = th_call_index (thread_at st i)
  /\ th_call_num (thread_at st' i) = th_call_num (thread_at st i)
  /\ ((th_ready (thread_at st' i) = th_ready (thread_at st i)
       /\ th_done (thread_at st' i) = th_done (thread_at st i))
      \/ (flag_threaded (flags st) = true
          /\ th_created (thread_at st i) = true
          /\ th_done (thread_at st i) = false
          /\ th_ready (thread_at st' i) = false))
  /\ (forall j, Z.to_nat i <> Z.to_nat j -> thread_at st' j = thread_at st j).
Proof.
  intros Hi. unfold worker_progress. cbv zeta.
  destruct (flag_threaded (flags st) && th_created (thread_at st i)
            && negb (th_done (thread_at st i))) eqn:Econd;
    [| intros [= <-]; do 6 (split; [reflexivity |]); auto].
  apply andb_true_iff in Econd as [Econd Hd].
  apply andb_true_iff in Econd as [Ht Hc]. apply negb_true_iff in Hd.
  destruct (worker_poll i ms (world st)) as [p w]. destruct p.
  - intros [= <-]. do 6 (split; [reflexivity |]). auto.
  - intros [= <-].
    change (thread_at (set_thread (set_world st w) i ?t))
      with (thread_at (set_thread st i t)).
    rewrite thread_at_set_thread_eq by exact Hi. cbn.
    do 6 (split; [reflexivity |]). split; [right; auto |].
    intros j Hj. apply thread_at_set_thread_ne, Hj.
  - intros H. apply execute_call_keeps in H; [| exact Hi].
    change (thread_at (set_world st w)) with (thread_at st) in H.
    destruct H as (? & ? & ? & ? & ? & ? & ? & ? & ?).
    do 6 (split; [assumption |]). split; [right; auto | assumption].
Qed.

Lemma worker_progress_silent i ms st st' :
  worker_progress i ms st = Ok st' -> silent st st'.
Proof.
  unfold worker_progress. cbv zeta.
  destruct (_ && _ && _).
  - destruct (worker_poll i ms (world st)) as [fin w].
    destruct fin.
    + intros [= <-]. apply set_world_silent.
    + intros [= <-].
      eapply silent_trans; [apply set_world_silent | apply set_thread_silent].
    + intros H. apply execute_call_silent in H.
      eapply silent_trans; [apply set_world_silent | exact H].
  - intros [= <-]. apply silent_refl.
Qed.

Lemma event_isset_done_silent i st b st' :
  event_isset_done i st = Ok (b, st') ->
  silent st st' /\ b = th_done (thread_at st' i).
Proof.
  unfold event_isset_done. intros H.
  apply bind_ok in H as (st1 & H1 & H). injection H as <- <-.
  split; [eapply worker_progress_silent; eauto | reflexivity].
Qed.

Lemma event_timedwait_done_silent i ms st b st' :
  event_timedwait_done i ms st = Ok (b, st') ->
  silent st st' /\ b = th_done (thread_at st' i).
Proof.
  unfold event_timedwait_done. intros H.
  apply bind_ok in H as (st1 & H1 & H). injection H as <- <-.
  split; [eapply worker_progress_silent; eauto | reflexivity].
Qed.

(** The type word that [kcov_comparison_t::write] emits tells the size
    class, and with it the number of words that follow. *)
Lemma cmp_write_entry c : is_cmp_entry (fst (cmp_write c)).
Proof.
  unfold cmp_write, is_cmp_entry. cbv zeta.
  assert (E : Z.land (u32 (cmp_type c)) KCOV_CMP_SIZE_MASK
              = Z.land (cmp_type c) KCOV_CMP_SIZE_MASK).
  { unfold u32. change (2 ^ 32) with (2 ^ 32).
    rewrite <- Z.land_ones by lia. rewrite <- Z.land_assoc.
    reflexivity. }
  destruct (Z.land (cmp_type c) KCOV_CMP_SIZE_MASK =? KCOV_CMP_SIZE8) eqn:E8;
    cbn [negb fst]; eexists _, _; (split; [reflexivity |]);
    rewrite E, E8; reflexivity.
Qed.

Lemma record_words_is_record fl ig th tbl :
  is_record (record_words th (completion_payload fl ig th tbl)).
Proof.
  unfold completion_payload, is_record.
  destruct (flag_collect_comps fl).
  - cbn [record_words record_head].
    exists (u32 (th_call_index th)), (u32 (th_call_num th)),
      (u32 (if th_res th =? -1 then th_reserrno th else 0)),
      (Z.b2z (th_fault_injected th)), [], [],
      (map (fun c => fst (cmp_write c))
         (List.filter (fun c => negb (ig c)) (sorted_comps th))).
    rewrite length_map. split; [reflexivity |].
    apply Forall_map, Forall_forall. intros c _. apply cmp_write_entry.
  - destruct (spec_signals _ 0 tbl) as [sigs tbl'].
    cbn [record_words record_head].
    exists (u32 (th_call_index th)), (u32 (th_call_num th)),
      (u32 (if th_res th =? -1 then th_reserrno th else 0)),
      (Z.b2z (th_fault_injected th)), sigs,
      (if flag_collect_cover fl
       then map u32 (cover_pcs (flag_dedup_cover fl) th) else []), [].
    cbn [concat length]. rewrite app_nil_r. split; [reflexivity |].
    constructor.
Qed.

Lemma records_length recs :
  Forall is_record recs -> (length recs <= length (concat recs))%nat.
Proof.
  induction 1 as [| r recs Hr _ IH]; cbn [concat length]; [lia |].
  rewrite length_app.
  destruct Hr as (a & b & c & d & e & f & g & -> & _).
  cbn [length app]. lia.
Qed.

Lemma handle_completion_step i st st' :
  (Z.to_nat i < length (threads st))%nat ->
  handle_completion i st = Ok st' -> step_rel 0 st st'.
Proof.
  intros Hi H. apply handle_completion_ok in H; [| exact Hi].
  destruct H as (_ & F1 & F2 & F3 & F4 & F5 & (pos & F6) & F7).
  unfold step_rel. repeat (split; [assumption |]).
  split; [rewrite F6; apply length_insert |].
  destruct (collide st).
  - destruct F7 as (G1 & G2 & G3 & _). auto.
  - cbv zeta in F7. destruct F7 as (G1 & G2 & _ & _ & G5).
    intros (recs & Ho & Hc & Hr).
    pose proof (records_length recs Hr) as Hl.
    assert (Hlen : Z.of_nat (length (output_data st))
                   = 1 + Z.of_nat (length (concat recs))).
    { rewrite Ho. cbn [length]. lia. }
    assert (Hk : kMaxOutput = 2 ^ 24) by reflexivity.
    assert (Hu : u32 (completed st + 1) = completed st + 1).
    { apply u32_id. lia. }
    split; [| lia].
    exists (recs ++ [record_words (thread_at st i)
                       (completion_payload (flags st) cmp_ignore
                          (thread_at st i) (dedup_table st))]).
    rewrite G2, G1, Hu, Ho. split; [| split].
    + cbn [app insert list_insert]. rewrite concat_app. cbn [concat].
      rewrite app_nil_r. reflexivity.
    + rewrite length_app. cbn [length]. lia.
    + apply Forall_app. split; [exact Hr |].
      constructor; [apply record_words_is_record | constructor].
Qed.

Lemma step_rel_flags d st st' : step_rel d st st' -> flags st' = flags st.
Proof. intros H. apply H. Qed.

Lemma step_rel_length d st st' :
  step_rel d st st' -> length (threads st') = length (threads st).
Proof. intros (_ & _ & _ & H & _). exact H. Qed.

Lemma silent_length st st' :
  silent st st' -> length (threads st') = length (threads st).
Proof. intros (_ & _ & _ & _ & _ & _ & _ & _ & H). exact H. Qed.

Lemma schedule_scan_step n : forall i st i' st',
  wf_threads st -> 0 <= i -> i + Z.of_nat n <= kMaxThreads ->
  schedule_scan n i st = Ok (i', st') ->
  step_rel 0 st st' /\ i <= i' <= i + Z.of_nat n
  /\ (i' = i + Z.of_nat n \/ th_done (thread_at st' i') = true).
Proof.
  unfold wf_threads.
  induction n as [| n IH]; intros i st i' st' Hwf Hi Hn H.
  - injection H as <- <-. split; [apply silent_step, silent_refl |].
    split; [lia | left; lia].
  - cbn [schedule_scan] in H.
    set (st0 := if negb (th_created (thread_at st i))
                then thread_create i st else st) in H.
    assert (S0 : silent st st0).
    { subst st0. destruct (negb _);
        [apply thread_create_silent | apply silent_refl]. }
    apply bind_ok in H as ([b st1] & H1 & H).
    apply event_isset_done_silent in H1 as [S1 ->].
    pose proof (silent_trans _ _ _ S0 S1) as S01.
    pose proof (silent_length _ _ S01) as L1.
    destruct (th_done (thread_at st1 i)) eqn:Ed.
    + apply bind_ok in H as (st2 & H2 & H). injection H as <- <-.
      assert (R : step_rel 0 st1 st2 /\ th_done (thread_at st2 i) = true).
      { destruct (negb (th_handled (thread_at st1 i))).
        - split.
          + apply handle_completion_step in H2; [exact H2 |].
            rewrite L1, Hwf. unfold kMaxThreads in *. lia.
          + apply handle_completion_ok in H2;
              [| rewrite L1, Hwf; unfold kMaxThreads in *; lia].
            destruct H2 as (_ & _ & _ & _ & _ & _ & (pos & Ht) & _).
            unfold thread_at at 1. rewrite Ht.
            rewrite list_lookup_total_insert_eq
              by (rewrite L1, Hwf; unfold kMaxThreads in *; lia).
            exact Ed.
        - injection H2 as <-. split; [apply silent_step, silent_refl |].
          exact Ed. }
      destruct R as [R Hd].
      split; [| split; [lia | right; exact Hd]].
      change 0 with (0 + 0).
      eapply step_rel_trans; [apply silent_step, S01 | exact R].
    + apply IH in H; [| unfold wf_threads; lia | lia | lia].
      destruct H as (R & Hr & Hd).
      split; [| split; [lia |]].
      * change 0 with (0 + 0).
        eapply step_rel_trans; [apply silent_step, S01 | exact R].
      * destruct Hd as [-> | Hd]; [left; lia | right; exact Hd].
Qed.

Lemma schedule_call_step call_index call_num copyout_index num_args args
  pos st i st' :
  wf_threads st ->
  schedule_call call_index call_num copyout_index num_args args pos st
  = Ok (i, st') ->
  step_rel 1 st st' /\ 0 <= i < kMaxThreads
  /\ th_handled (thread_at st' i) = false
  /\ th_copyout_pos (thread_at st' i) = pos
  /\ th_call_index (thread_at st' i) = call_index
  /\ (th_ready (thread_at st' i) = true -> th_done (thread_at st' i) = false)
  /\ (flag_threaded (flags st) = false ->
      th_ready (thread_at st' i) = true
      /\ th_done (thread_at st' i) = false).
Proof.
  intros Hwf H. unfold schedule_call in H.
  apply bind_ok in H as ([i0 st1] & H1 & H).
  apply schedule_scan_step in H1; [| exact Hwf | lia | reflexivity].
  destruct H1 as (R & Hr & _).
  destruct (Z.eqb_spec i0 kMaxThreads); [discriminate |].
  destruct (_ || _ || _); [discriminate |].
  cbv zeta in H. apply bind_ok in H as (st2 & H2 & H).
  injection H as <- <-.
  pose proof (step_rel_length _ _ _ R) as L1. unfold wf_threads in Hwf.
  assert (Hi : (Z.to_nat i0 < length (threads st1))%nat).
  { rewrite L1, Hwf. change (Z.of_nat (Z.to_nat kMaxThreads)) with 16 in Hr.
    unfold kMaxThreads in *. lia. }
  set (th1 := mk_thread _ _ _ _ _ _ _ _ _ _ _ _ _ _ _ _) in H2.
  match type of H2 with
  | worker_progress _ _ ?s = _ => set (sa := s) in H2
  end.
  assert (Ta : thread_at sa i0 = th1).
  { subst sa. change (thread_at (set_running ?s _) i0) with (thread_at s i0).
    apply thread_at_set_thread_eq, Hi. }
  assert (La : (Z.to_nat i0 < length (threads sa))%nat).
  { subst sa. unfold set_running, set_thread, set_threads. cbn [threads].
    rewrite length_insert. exact Hi. }
  pose proof (worker_progress_silent _ _ _ _ H2) as S2.
  apply worker_progress_keeps in H2; [| exact La].
  rewrite Ta in H2. cbn [th1 th_created th_handled th_copyout_pos
                           th_copyout_index th_call_index th_call_num
                           th_ready th_done] in H2.
  destruct H2 as (_ & Kh & Kp & _ & Ki & _ & Krd & _).
  pose proof (step_rel_flags _ _ _ R) as Ff1.
  split; [| split; [| split; [| split; [| split; [| split]]]]];
    try assumption.
  - change 1 with (0 + (1 + 0)). eapply step_rel_trans; [exact R |].
    eapply step_rel_trans; [| apply silent_step, S2].
    subst sa. unfold step_rel, set_running, set_thread, set_threads. cbn.
    repeat (split; [reflexivity |]).
    split; [apply length_insert |].
    destruct (collide st1); [auto |].
    intros Hinv. split; [exact Hinv | lia].
  - change (Z.of_nat (Z.to_nat kMaxThreads)) with kMaxThreads in Hr. lia.
  - destruct Krd as [[-> ->] | (_ & _ & _ & ->)]; [auto | discriminate].
  - intros Hnt.
    destruct Krd as [[-> ->] | (Ht & _)]; [auto |].
    change (flags sa) with (flags st1) in Ht. congruence.
Qed.
End Steps.

(** ** Steps of the interpreter, continued *)

Section MoreSteps.
Context {W : Type} {P : Platform W}.
Implicit Types st : state W.

Lemma in_range_threads st i :
  wf_threads st -> 0 <= i < kMaxThreads ->
  (Z.to_nat i < length (threads st))%nat.
Proof. unfold wf_threads, kMaxThreads. intros -> Hi. lia. Qed.

Lemma step_rel_wf d st st' : step_rel d st st' -> wf_threads st -> wf_threads st'.
Proof. unfold wf_threads. intros H Hwf. rewrite (step_rel_length _ _ _ H). exact Hwf. Qed.

Lemma sweep_step n : forall i st st',
  wf_threads st -> 0 <= i -> i + Z.of_nat n <= kMaxThreads ->
  sweep n i st = Ok st' -> step_rel 0 st st'.
Proof.
  induction n as [| n IH]; intros i st st' Hwf Hi Hn H.
  - injection H as <-. apply silent_step, silent_refl.
  - cbn [sweep] in H. apply bind_ok in H as (st1 & H1 & H).
    assert (R : step_rel 0 st st1).
    { destruct (negb (th_handled (thread_at st i))).
      - apply bind_ok in H1 as ([b st2] & H2 & H1).
        apply event_isset_done_silent in H2 as [S2 _].
        destruct b.
        + apply handle_completion_step in H1.
          * change 0 with (0 + 0).
            eapply step_rel_trans; [apply silent_step, S2 | exact H1].
          * rewrite (silent_length _ _ S2). apply in_range_threads; [exact Hwf | lia].
        + injection H1 as <-. apply silent_step, S2.
      - injection H1 as <-. apply silent_step, silent_refl. }
    apply IH in H; [| eapply step_rel_wf; eauto | lia | lia].
    change 0 with (0 + 0). eapply step_rel_trans; eauto.
Qed.

Lemma wait_call_step th input_pos st st' :
  wf_threads st -> 0 <= th < kMaxThreads ->
  wait_call th input_pos st = Ok st' -> step_rel 0 st st'.
Proof.
  intros Hwf Hth H. unfold wait_call in H. cbv zeta in H.
  apply bind_ok in H as ([b st1] & H1 & H).
  apply event_timedwait_done_silent in H1 as [S1 _].
  apply bind_ok in H as (st2 & H2 & H).
  assert (R2 : step_rel 0 st st2).
  { destruct b.
    - apply handle_completion_step in H2.
      + change 0 with (0 + 0).
        eapply step_rel_trans; [apply silent_step, S1 | exact H2].
      + rewrite (silent_length _ _ S1). apply in_range_threads; assumption.
    - injection H2 as <-. apply silent_step, S1. }
  destruct (running st2 <? 0); [discriminate |].
  destruct (0 <? running st2).
  - apply bind_ok in H as ([next p] & _ & H).
    apply sweep_step in H; [| | lia | reflexivity].
    + change 0 with (0 + (0 + 0)).
      eapply step_rel_trans; [exact R2 |].
      eapply step_rel_trans; [apply silent_step, set_world_silent | exact H].
    + eapply step_rel_wf; [apply silent_step, set_world_silent |].
      eapply step_rel_wf; eauto.
  - injection H as <-. exact R2.
Qed.

Lemma execute_direct_step th st st' :
  wf_threads st -> execute_direct th st = Ok st' -> step_rel 0 st st'.
Proof.
  intros Hwf H. unfold execute_direct in H.
  destruct (Z.eqb_spec th 0) as [-> |]; [| discriminate]. cbn [negb] in H.
  apply bind_ok in H as (st1 & H1 & H).
  apply execute_call_silent in H1.
  apply handle_completion_step in H.
  - change 0 with (0 + 0).
    eapply step_rel_trans; [apply silent_step, H1 | exact H].
  - rewrite (silent_length _ _ H1). apply in_range_threads; [exact Hwf |].
    unfold kMaxThreads. lia.
Qed.

(** A copyin changes the guest memory only. *)
Lemma execute_copyin_world input_pos st input_pos' st' :
  execute_copyin input_pos st = Ok (input_pos', st') ->
  exists w, st' = set_world st w.
Proof.
  unfold execute_copyin. intros H.
  apply bind_ok in H as ([addr p1] & _ & H).
  apply bind_ok in H as ([typ p2] & _ & H).
  apply bind_ok in H as ([size p3] & _ & H).
  destruct (typ =? arg_const).
  { apply bind_ok in H as ([a p4] & _ & H).
    apply bind_ok in H as ([b p5] & _ & H).
    apply bind_ok in H as ([c p6] & _ & H).
    apply bind_ok in H as (w & _ & H). injection H as <- <-. eauto. }
  destruct (typ =? arg_result).
  { apply bind_ok in H as ([a p4] & _ & H).
    apply bind_ok in H as (w & _ & H). injection H as <- <-. eauto. }
  destruct (typ =? arg_data).
  { apply bind_ok in H as (p4 & _ & H). injection H as <- <-. eauto. }
  destruct (typ =? arg_csum); [| discriminate].
  unfold copyin_csum in H. cbv zeta in H.
  apply bind_ok in H as ([kind p4] & _ & H).
  destruct (kind =? arg_csum_inet); [| discriminate].
  destruct (negb (size =? 2)); [discriminate |].
  apply bind_ok in H as ([n p5] & _ & H).
  apply bind_ok in H as ([c p6] & _ & H).
  apply bind_ok in H as (w & _ & H). injection H as <- <-. eauto.
Qed.

Lemma execute_syscall_instr_step call_num input_pos call_index st
  input_pos' call_index' st' :
  wf_threads st ->
  execute_syscall_instr call_num input_pos call_index st
  = Ok (input_pos', call_index', st') ->
  step_rel 1 st st' /\ call_index' = call_index + 1.
Proof.
  intros Hwf H. unfold execute_syscall_instr in H.
  destruct (syscall_count <=? call_num); [discriminate |].
  apply bind_ok in H as ([copyout_index p1] & _ & H).
  apply bind_ok in H as ([num_args p2] & _ & H).
  destruct (kMaxArgs <? num_args); [discriminate |].
  apply bind_ok in H as ([vals p3] & _ & H).
  apply bind_ok in H as ([th st1] & H1 & H).
  apply schedule_call_step in H1; [| exact Hwf].
  destruct H1 as (R1 & Hth & _).
  apply bind_ok in H as (st2 & H2 & H). injection H as <- <- <-.
  split; [| reflexivity].
  assert (R2 : step_rel 0 st1 st2).
  { destruct (collide st1 && _).
    - injection H2 as <-. apply silent_step, silent_refl.
    - destruct (flag_threaded (flags st1)).
      + eapply wait_call_step; eauto. eapply step_rel_wf; eauto.
      + eapply execute_direct_step; eauto. eapply step_rel_wf; eauto. }
  change 1 with (1 + 0). eapply step_rel_trans; eauto.
Qed.

Lemma execute_loop_step fuel : forall input_pos call_index st call_index' st',
  wf_threads st ->
  execute_loop fuel input_pos call_index st = Ok (call_index', st') ->
  step_rel (call_index' - call_index) st st'.
Proof.
  induction fuel as [| fuel IH];
    intros input_pos call_index st call_index' st' Hwf H; [discriminate |].
  cbn [execute_loop] in H.
  apply bind_ok in H as ([call_num p1] & _ & H).
  destruct (call_num =? instr_eof).
  { injection H as <- <-. rewrite Z.sub_diag. apply silent_step, silent_refl. }
  destruct (call_num =? instr_copyin).
  { apply bind_ok in H as ([p2 st1] & H1 & H).
    apply execute_copyin_world in H1 as (w & ->).
    pose proof (silent_step _ _ (set_world_silent st w)) as R1.
    apply IH in H; [| eapply step_rel_wf; eauto].
    replace (call_index' - call_index)
      with (0 + (call_index' - call_index)) by lia.
    eapply step_rel_trans; eauto. }
  destruct (call_num =? instr_copyout).
  { apply bind_ok in H as ([a p2] & _ & H).
    apply bind_ok in H as ([b p3] & _ & H).
    apply bind_ok in H as ([c p4] & _ & H).
    eapply IH; eauto. }
  apply bind_ok in H as ([[p2 ci] st1] & H1 & H).
  apply execute_syscall_instr_step in H1 as [R1 ->]; [| exact Hwf].
  apply IH in H; [| eapply step_rel_wf; eauto].
  replace (call_index' - call_index)
    with (1 + (call_index' - (call_index + 1))) by lia.
  eapply step_rel_trans; eauto.
Qed.
End MoreSteps.

(** ** Non-threaded mode: every call is completed before the next *)

Section DirectMode.
Context {W : Type} {P : Platform W}.
Implicit Types st : state W.

Lemma execute_call_ok i st st' :
  execute_call i st = Ok st' ->
  exists th' w,
    st' = set_world (set_thread st i th') w
    /\ th_ready th' = false /\ th_done th' = true
    /\ th_handled th' = th_handled (thread_at st i)
    /\ th_created th' = th_created (thread_at st i).
Proof.
  unfold execute_call. cbv zeta. intros H.
  apply bind_ok in H as ([fd w] & _ & H).
  destruct (execute_syscall _ _ _) as [res w1].
  match type of H with
  | context [let '(_, _) := ?x in _] => destruct x as [inj w2]
  end.
  injection H as <-. eexists _, _. split; [reflexivity |].
  cbn. auto.
Qed.

Lemma thread_at_insert st st' i j th :
  threads st' = <[Z.to_nat i := th]> (threads st) ->
  0 <= i -> 0 <= j -> i <> j -> thread_at st' j = thread_at st j.
Proof.
  intros Ht Hi Hj Hij. unfold thread_at. rewrite Ht.
  apply list_lookup_total_insert_ne. lia.
Qed.

Lemma thread_at_insert_eq st st' i th :
  threads st' = <[Z.to_nat i := th]> (threads st) ->
  (Z.to_nat i < length (threads st))%nat -> thread_at st' i = th.
Proof.
  intros Ht Hi. unfold thread_at. rewrite Ht.
  apply list_lookup_total_insert_eq. exact Hi.
Qed.

Lemma schedule_scan_S n i st :
  schedule_scan (S n) i st
  = (let st := if negb (th_created (thread_at st i))
               then thread_create i st else st in
     '(isset, st) ← event_isset_done i st;
     if isset : bool then
       st ← (if negb (th_handled (thread_at st i))
             then handle_completion i st else Ok st);
       Ok (i, st)
     else schedule_scan n (i + 1) st).
Proof. reflexivity. Qed.

Lemma worker_progress_direct i ms st :
  flag_threaded (flags st) = false -> worker_progress i ms st = Ok st.
Proof.
  intros H. unfold worker_progress. cbv zeta. rewrite H. reflexivity.
Qed.

Lemma event_isset_done_direct i st :
  flag_threaded (flags st) = false ->
  event_isset_done i st = Ok (th_done (thread_at st i), st).
Proof.
  intros H. unfold event_isset_done, worker_progress. cbv zeta.
  rewrite H. reflexivity.
Qed.

(** In non-threaded mode a call instruction leaves no call in flight. *)
Lemma execute_syscall_instr_idle call_num input_pos call_index st
  input_pos' call_index' st' :
  wf_threads st -> flag_threaded (flags st) = false -> collide st = false ->
  idle st ->
  execute_syscall_instr call_num input_pos call_index st
  = Ok (input_pos', call_index', st') ->
  idle st'.
Proof.
  intros Hwf Hft Hc [Hrun Hidle] H. unfold execute_syscall_instr in H.
  destruct (syscall_count <=? call_num); [discriminate |].
  apply bind_ok in H as ([copyout_index p1] & _ & H).
  apply bind_ok in H as ([num_args p2] & _ & H).
  destruct (kMaxArgs <? num_args); [discriminate |].
  apply bind_ok in H as ([vals p3] & _ & H).
  apply bind_ok in H as ([th st1] & H1 & H).
  apply bind_ok in H as (st2 & H2 & H). injection H as _ _ <-.
  (* the scan takes slot 0 *)
  unfold schedule_call in H1.
  change (Z.to_nat kMaxThreads) with (S 15) in H1.
  rewrite schedule_scan_S in H1. cbv zeta in H1.
  set (st0 := if negb (th_created (thread_at st 0))
              then thread_create 0 st else st) in H1.
  assert (Hi0 : (Z.to_nat 0 < length (threads st))%nat)
    by (apply in_range_threads; [exact Hwf | unfold kMaxThreads; lia]).
  assert (F0 : flags st0 = flags st /\ collide st0 = collide st
               /\ running st0 = running st
               /\ length (threads st0) = length (threads st)
               /\ (forall j, 0 <= j -> 0 <> j ->
                             thread_at st0 j = thread_at st j)
               /\ th_created (thread_at st0 0) = true
               /\ th_ready (thread_at st0 0) = false
               /\ th_done (thread_at st0 0) = true
               /\ th_handled (thread_at st0 0) = true).
  { subst st0. destruct (th_created (thread_at st 0)) eqn:Ec; cbn [negb].
    - destruct (Hidle 0 ltac:(unfold kMaxThreads; lia) Ec) as (? & ? & ?).
      repeat split; auto.
    - unfold thread_create. cbv zeta.
      change (flags (set_thread st 0 _)) with (flags st). rewrite Hft.
      split; [reflexivity |]. split; [reflexivity |].
      split; [reflexivity |].
      split; [apply length_insert |].
      split; [intros j Hj Hne; apply thread_at_set_thread_ne; lia |].
      rewrite thread_at_set_thread_eq by exact Hi0. cbn. auto. }
  destruct F0 as (Ff & Fc & Fr & Fl & Fo & Tc & Tr & Td & Th).
  rewrite event_isset_done_direct in H1 by congruence.
  cbn [mbind result_bind] in H1.
  rewrite Td, Th in H1. cbn [negb mbind result_bind] in H1.
  change (0 =? kMaxThreads) with false in H1. cbv iota in H1.
  rewrite Td, Th, Tr in H1. cbn [negb orb] in H1. cbv zeta in H1.
  rewrite worker_progress_direct in H1
    by (change (flag_threaded (flags st0) = false); congruence).
  cbn [mbind result_bind] in H1.
  injection H1 as <- <-.
  set (th1 := mk_thread _ _ _ _ _ _ _ _ _ _ _ _ _ _ _ _) in H2.
  set (st1 := set_running (set_thread st0 0 th1) (running st0 + 1)) in *.
  change (collide st1) with (collide st0) in H2.
  change (flags st1) with (flags st0) in H2.
  rewrite Fc, Hc, Ff, Hft in H2. cbn [andb] in H2.
  unfold execute_direct in H2. cbn [Z.eqb negb] in H2.
  apply bind_ok in H2 as (sa & Ha & H2).
  apply execute_call_ok in Ha as (th2 & w & -> & Rr & Rd & Rh & Rc).
  assert (T1 : thread_at st1 0 = th1).
  { subst st1. change (thread_at (set_running ?s _) 0) with (thread_at s 0).
    apply thread_at_set_thread_eq. rewrite Fl. exact Hi0. }
  rewrite T1 in Rh, Rc. cbn in Rh, Rc.
  set (sa := set_world (set_thread st1 0 th2) w) in *.
  assert (La : length (threads sa) = length (threads st)).
  { subst sa st1. cbn. rewrite !length_insert. exact Fl. }
  apply handle_completion_ok in H2; [| rewrite La; exact Hi0].
  destruct H2 as (_ & _ & _ & _ & _ & Hr2 & (pos & Ht2) & _).
  assert (Ta : thread_at sa 0 = th2).
  { subst sa. change (thread_at (set_world ?s _) 0) with (thread_at s 0).
    apply thread_at_set_thread_eq. subst st1. cbn.
    rewrite length_insert, Fl. exact Hi0. }
  split.
  - rewrite Hr2. subst sa st1. cbn. lia.
  - intros j Hj Hcj.
    destruct (Z.eq_dec j 0) as [-> | Hne].
    + rewrite (thread_at_insert_eq _ _ _ _ Ht2) in * by (rewrite La; exact Hi0).
      rewrite Ta. cbn. auto.
    + rewrite (thread_at_insert _ _ 0 j _ Ht2) in * by lia.
      assert (E : thread_at sa j = thread_at st j).
      { subst sa. change (thread_at (set_world ?s _) j) with (thread_at s j).
        rewrite thread_at_set_thread_ne by lia.
        subst st1. change (thread_at (set_running ?s _) j) with (thread_at s j).
        rewrite thread_at_set_thread_ne by lia. apply Fo; lia. }
      rewrite E in *. apply Hidle; assumption.
Qed.
End DirectMode.

(** ** A pass over the program *)

Section Passes.
Context {W : Type} {P : Platform W}.
Implicit Types st : state W.

Lemma set_world_idle st w : idle st -> idle (set_world st w).
Proof. intros H. exact H. Qed.

Lemma execute_loop_idle fuel : forall input_pos call_index st call_index' st',
  wf_threads st -> flag_threaded (flags st) = false -> collide st = false ->
  idle st ->
  execute_loop fuel input_pos call_index st = Ok (call_index', st') ->
  idle st'.
Proof.
  induction fuel as [| fuel IH];
    intros input_pos call_index st call_index' st' Hwf Hft Hc Hidle H;
    [discriminate |].
  cbn [execute_loop] in H.
  apply bind_ok in H as ([call_num p1] & _ & H).
  destruct (call_num =? instr_eof).
  { injection H as <- <-. exact Hidle. }
  destruct (call_num =? instr_copyin).
  { apply bind_ok in H as ([p2 st1] & H1 & H).
    apply execute_copyin_world in H1 as (w & ->).
    eapply IH; [| | | | exact H]; auto. }
  destruct (call_num =? instr_copyout).
  { apply bind_ok in H as ([a p2] & _ & H).
    apply bind_ok in H as ([b p3] & _ & H).
    apply bind_ok in H as ([c p4] & _ & H).
    eapply IH; eauto. }
  apply bind_ok in H as ([[p2 ci] st1] & H1 & H).
  pose proof (execute_syscall_instr_idle _ _ _ _ _ _ _ Hwf Hft Hc Hidle H1)
    as Hidle1.
  apply execute_syscall_instr_step in H1 as [R1 _]; [| exact Hwf].
  pose proof (step_rel_wf _ _ _ R1 Hwf) as Hwf1.
  destruct R1 as (F1 & F2 & _).
  eapply IH; [| | | | exact H]; auto; congruence.
Qed.

(** The first pass: the output takes its shape, and every scheduled
    call is still running or has been counted as completed. *)
Lemma execute_pass_first st n st1 :
  wf_threads st -> collide st = false -> completed st = 0 ->
  output_data st = [] ->
  execute_pass st = Ok (n, st1) ->
  out_inv st1 /\ completed st1 + running st1 = running st + n
  /\ collide st1 = false /\ flags st1 = flags st /\ wf_threads st1
  /\ (flag_threaded (flags st) = false -> idle st -> idle st1).
Proof.
  intros Hwf Hc Hcomp Hout H. unfold execute_pass in H. cbv zeta in H.
  apply bind_ok in H as ([p st0] & H0 & H).
  apply write_output_ok in H0; [| exact Hc]. injection H0 as _ ->.
  match type of H with
  | context [execute_loop _ _ _ ?s] => set (sa := s) in H
  end.
  assert (Fa : flags sa = flags st /\ collide sa = false
               /\ running sa = running st /\ completed sa = 0
               /\ output_data sa = [0] /\ wf_threads sa
               /\ (idle st -> idle sa)).
  { subst sa. destruct (_ && _); cbn; rewrite Hout; auto 10. }
  destruct Fa as (A1 & A2 & A3 & A4 & A5 & A6 & A7).
  pose proof (execute_loop_step _ _ _ _ _ _ A6 H) as R.
  destruct R as (F1 & F2 & F3 & F4 & F5).
  rewrite A2 in F5.
  assert (Hinv : out_inv sa).
  { exists []. rewrite A5, A4. repeat split; constructor. }
  destruct (F5 Hinv) as [Hinv1 Hacc].
  split; [exact Hinv1 |]. split; [lia |].
  split; [congruence |]. split; [congruence |].
  split; [unfold wf_threads in *; congruence |].
  intros Hft Hidle.
  eapply execute_loop_idle; [exact A6 | congruence | exact A2 | auto | exact H].
Qed.

(** The second pass: nothing is written. *)
Lemma execute_pass_collide st n st1 :
  wf_threads st -> collide st = true ->
  execute_pass st = Ok (n, st1) ->
  output_data st1 = output_data st /\ completed st1 = completed st
  /\ output_log st1 = output_log st /\ collide st1 = true.
Proof.
  intros Hwf Hc H. unfold execute_pass in H. cbv zeta in H.
  unfold write_output in H. rewrite Hc in H. cbn [mbind result_bind] in H.
  rewrite Hc in H. cbn [negb andb] in H.
  apply execute_loop_step in H; [| exact Hwf].
  destruct H as (F1 & F2 & F3 & F4 & F5). rewrite Hc in F5.
  destruct F5 as (G1 & G2 & G3). repeat split; congruence.
Qed.

Lemma execute_one_inv st st' :
  wf_threads st -> collide st = false -> completed st = 0 ->
  output_data st = [] ->
  execute_one st = Ok st' -> out_inv st'.
Proof.
  intros Hwf Hc Hcomp Hout H. unfold execute_one in H.
  cbn [execute_one_retry] in H.
  apply bind_ok in H as ([n st1] & H1 & H).
  apply execute_pass_first in H1; try assumption.
  destruct H1 as (Hinv & _ & Hc1 & _ & Hwf1 & _).
  destruct (_ && _ && _); [| injection H as <-; exact Hinv].
  apply bind_ok in H as ([n2 st2] & H2 & H).
  apply execute_pass_collide in H2; [| exact Hwf1 | reflexivity].
  destruct H2 as (G1 & G2 & _ & G4).
  assert (Hinv2 : out_inv st2).
  { destruct Hinv as (recs & Ho & Hn & Hr). exists recs.
    rewrite G1, G2. cbn. auto. }
  rewrite G4 in H. rewrite andb_false_r in H.
  injection H as <-. exact Hinv2.
Qed.
End Passes.

(** ** C5: the collide pass *)


Section WaitPath.
Context {W : Type} {P : Platform W}.
Implicit Types st : state W.






End WaitPath.



(** ** C9: inet checksum descriptors *)

Section Checksum.
Context {W : Type} {P : Platform W}.
Implicit Types st : state W.

(** The chunks of an accepted checksum. *)
Lemma csum_chunks_ok n st fuel : forall chunk csum pos csum' pos',
  0 <= chunk <= n ->
  csum_chunks fuel chunk n csum pos st = Ok (csum', pos') ->
  pos' = pos + 3 * (n - chunk)
  /\ forall k, chunk <= k < n ->
               chunk_ok (input_data st) (pos + 3 * (k - chunk)).
Proof.
  induction fuel as [| fuel IH]; intros chunk csum pos csum' pos' Hc H.
  - cbn [csum_chunks] in H. destruct (Z.ltb_spec chunk n); [discriminate |].
    injection H as _ <-. split; [lia | intros; lia].
  - cbn [csum_chunks] in H. destruct (Z.ltb_spec chunk n).
    + apply bind_ok in H as ([kind p1] & H1 & H).
      apply read_input_inv in H1 as (_ & -> & ->).
      apply bind_ok in H as ([value p2] & H2 & H).
      apply read_input_inv in H2 as (_ & -> & ->).
      apply bind_ok in H as ([size p3] & H3 & H).
      apply read_input_inv in H3 as (_ & -> & ->).
      assert (Hk : chunk_ok (input_data st) pos
                   /\ exists c, csum_chunks fuel (chunk + 1) n c
                                  (pos + 1 + 1 + 1) st = Ok (csum', pos')).
      { unfold chunk_ok. cbv zeta.
        replace (pos + 2) with (pos + 1 + 1) by lia.
        destruct (Z.eqb_spec (input_word (input_data st) pos)
                    arg_csum_chunk_data); [eauto |].
        destruct (Z.eqb_spec (input_word (input_data st) pos)
                    arg_csum_chunk_const); [| discriminate].
        destruct (Z.eqb_spec (input_word (input_data st) (pos + 1 + 1)) 2);
          [cbn [negb andb] in H; eauto 7 |].
        destruct (Z.eqb_spec (input_word (input_data st) (pos + 1 + 1)) 4);
          [cbn [negb andb] in H; eauto 7 |].
        destruct (Z.eqb_spec (input_word (input_data st) (pos + 1 + 1)) 8);
          [cbn [negb andb] in H; eauto 7 |].
        discriminate. }
      destruct Hk as [Hk (c & Hrec)].
      apply IH in Hrec; [| lia]. destruct Hrec as [-> Hrest].
      split; [lia |]. intros k Hkr.
      destruct (Z.eq_dec k chunk) as [-> | Hne].
      * replace (pos + 3 * (chunk - chunk)) with pos by lia. exact Hk.
      * replace (pos + 3 * (k - chunk))
          with (pos + 1 + 1 + 1 + 3 * (k - (chunk + 1))) by lia.
        apply Hrest. lia.
    + injection H as _ <-. split; [lia | intros; lia].
Qed.

(** With the fuel of the input, the loop over the chunks returns or
    fails. *)
Lemma csum_chunks_total n st fuel : forall chunk csum pos,
  (Z.to_nat (kMaxInput / 8 - pos) < fuel)%nat ->
  ok_or_fail (csum_chunks fuel chunk n csum pos st).
Proof.
  change (kMaxInput / 8) with 262144.
  induction fuel as [| fuel IH]; intros chunk csum pos Hf; [lia |].
  cbn [csum_chunks]. destruct (chunk <? n); [| exact I].
  change kMaxInput with 2097152 in *.
  destruct (Z.le_gt_cases 2097152 (8 * pos));
    [rewrite read_input_overflow by (change kMaxInput with 2097152; lia);
     exact I |].
  rewrite read_input_ok by (change kMaxInput with 2097152; lia).
  cbn [mbind result_bind].
  destruct (Z.le_gt_cases 2097152 (8 * (pos + 1)));
    [rewrite read_input_overflow by (change kMaxInput with 2097152; lia);
     exact I |].
  rewrite read_input_ok by (change kMaxInput with 2097152; lia).
  cbn [mbind result_bind].
  destruct (Z.le_gt_cases 2097152 (8 * (pos + 1 + 1)));
    [rewrite read_input_overflow by (change kMaxInput with 2097152; lia);
     exact I |].
  rewrite read_input_ok by (change kMaxInput with 2097152; lia).
  cbn [mbind result_bind].
  destruct (_ =? arg_csum_chunk_data); [apply IH; lia |].
  destruct (_ =? arg_csum_chunk_const); [| exact I].
  destruct (_ && _ && _); [exact I | apply IH; lia].
Qed.

Lemma copyin_csum_total addr size pos st :
  ok_or_fail (copyin_csum addr size pos st).
Proof.
  unfold copyin_csum. cbv zeta.
  destruct (Z.le_gt_cases kMaxInput (8 * pos));
    [rewrite read_input_overflow by lia; exact I |].
  rewrite read_input_ok by lia. cbn [mbind result_bind].
  destruct (_ =? arg_csum_inet); [| exact I].
  destruct (negb (size =? 2)); [exact I |].
  destruct (Z.le_gt_cases kMaxInput (8 * (pos + 1)));
    [rewrite read_input_overflow by lia; exact I |].
  rewrite read_input_ok by lia. cbn [mbind result_bind].
  pose proof (csum_chunks_total (input_word (input_data st) (pos + 1)) st
                (input_fuel (pos + 1 + 1)) 0 csum_inet_init (pos + 1 + 1)
                ltac:(unfold input_fuel; lia)) as Ht.
  destruct (csum_chunks _ _ _ _ _ _) as [[c p] | | |]; exact Ht.
Qed.
End Checksum.

(** C9. An inet checksum descriptor of a copyin is accepted only when
    its kind is inet, its size is exactly 2 bytes and every one of its
    chunks is a data chunk or a const chunk of 2, 4 or 8 bytes: the
    executor fails when the kind is not inet, when the size is not 2,
    when a chunk is neither data nor const, and when a const chunk has
    another size.  Reading a descriptor always comes to an end, by a
    return or by a failure. *)
Theorem csum_preconditions {W : Type} {P : Platform W}
  (addr size input_pos : Z) (st : state W) :
  let csum_kind := input_word (input_data st) input_pos in
  let chunks_num := input_word (input_data st) (input_pos + 1) in
  let chunk_at k := input_pos + 2 + 3 * k in
  (forall input_pos' st',
      copyin_csum addr size input_pos st = Ok (input_pos', st') ->
      csum_kind = arg_csum_inet /\ size = 2
      /\ (forall k, 0 <= k < chunks_num ->
                    chunk_ok (input_data st) (chunk_at k))
      /\ input_pos' = chunk_at chunks_num)
  /\ (csum_kind <> arg_csum_inet ->
      is_fail (copyin_csum addr size input_pos st))
  /\ (size <> 2 -> is_fail (copyin_csum addr size input_pos st))
  /\ (forall k, 0 <= k < chunks_num ->
                ~ chunk_ok (input_data st) (chunk_at k) ->
                is_fail (copyin_csum addr size input_pos st))
  /\ (forall pos0,
      8 * (pos0 + 2) < kMaxInput ->
      input_word (input_data st) (pos0 + 1) = arg_csum ->
      execute_copyin pos0 st
      = copyin_csum (input_word (input_data st) pos0)
          (input_word (input_data st) (pos0 + 2)) (pos0 + 3) st)
  /\ ok_or_fail (copyin_csum addr size input_pos st).
Proof.
  intros csum_kind chunks_num chunk_at.
  assert (Hok : forall input_pos' st',
             copyin_csum addr size input_pos st = Ok (input_pos', st') ->
             csum_kind = arg_csum_inet /\ size = 2
             /\ (forall k, 0 <= k < chunks_num ->
                           chunk_ok (input_data st) (chunk_at k))
             /\ input_pos' = chunk_at chunks_num).
  { intros input_pos' st' H. unfold copyin_csum in H. cbv zeta in H.
    apply bind_ok in H as ([kind p1] & H1 & H).
    apply read_input_inv in H1 as (_ & -> & ->). fold csum_kind in H.
    destruct (Z.eqb_spec csum_kind arg_csum_inet) as [Ek |]; [| discriminate].
    destruct (Z.eqb_spec size 2) as [Es |]; [| discriminate].
    cbn [negb] in H.
    apply bind_ok in H as ([n p2] & H2 & H).
    apply read_input_inv in H2 as (_ & -> & ->). fold chunks_num in H.
    apply bind_ok in H as ([c p3] & H3 & H).
    apply bind_ok in H as (w & _ & H). injection H as <- _.
    split; [exact Ek |]. split; [exact Es |].
    destruct (Z.le_gt_cases 0 chunks_num) as [Hn | Hn].
    - apply csum_chunks_ok in H3; [| lia]. destruct H3 as [-> Hch].
      split; [| unfold chunk_at; lia].
      intros k Hk. specialize (Hch k Hk).
      replace (chunk_at k) with (input_pos + 1 + 1 + 3 * (k - 0))
        by (unfold chunk_at; lia).
      exact Hch.
    - pose proof (u64_range (default 0 (input_data st !! Z.to_nat (input_pos + 1)))).
      unfold chunks_num, input_word in Hn. lia. }
  assert (Hfail : ~ (exists r, copyin_csum addr size input_pos st = Ok r) ->
                  is_fail (copyin_csum addr size input_pos st)).
  { intros Hno. pose proof (copyin_csum_total addr size input_pos st) as Ht.
    destruct (copyin_csum addr size input_pos st) as [r | m | m |];
      try exact I; try contradiction.
    exfalso. apply Hno. eauto. }
  split; [exact Hok |].
  split; [| split; [| split; [| split]]];
    [| | | | apply copyin_csum_total].
  - intros Hne. apply Hfail. intros [[p' s'] E].
    apply Hok in E as (E & _). contradiction.
  - intros Hne. apply Hfail. intros [[p' s'] E].
    apply Hok in E as (_ & E & _). contradiction.
  - intros k Hk Hbad. apply Hfail. intros [[p' s'] E].
    apply Hok in E as (_ & _ & E & _). apply Hbad, E, Hk.
  - intros pos0 Hpos Htyp. unfold execute_copyin.
    rewrite read_input_ok by lia. cbn [mbind result_bind].
    rewrite read_input_ok by lia. cbn [mbind result_bind].
    rewrite read_input_ok by lia. cbn [mbind result_bind].
    rewrite Htyp. cbn [Z.eqb arg_csum arg_const arg_result arg_data Pos.eqb].
    replace (pos0 + 1 + 1) with (pos0 + 2) by lia.
    replace (pos0 + 2 + 1) with (pos0 + 3) by lia.
    reflexivity.
Qed.

Lemma csum_preconditions_witness :
  (exists st',
      copyin_csum (P := echo_platform true) 0x2000 2 4
        (echo_state flags_plain prog_csum) = Ok (12, st')
      /\ chunk_ok prog_csum 6 /\ chunk_ok prog_csum 9)
  /\ is_fail (copyin_csum (P := echo_platform true) 0x2000 2 5
                (echo_state flags_plain prog_csum))
  /\ is_fail (copyin_csum (P := echo_platform true) 0x2000 4 4
                (echo_state flags_plain prog_csum))
  /\ is_fail (copyin_csum (P := echo_platform true) 0x2000 2 6
                (echo_state flags_plain prog_csum))
  /\ execute_copyin (P := echo_platform true) 1 (echo_state flags_plain prog_csum)
     = copyin_csum (P := echo_platform true) 0x2000 2 4
         (echo_state flags_plain prog_csum).
Proof.
  set (st := echo_state flags_plain prog_csum).
  split; [| split; [| split; [| split]]].
  - set (st' := state_of (copyin_csum (P := echo_platform true) 0x2000 2 4 st)
                  snd st).
    assert (H : copyin_csum (P := echo_platform true) 0x2000 2 4 st
                = Ok (12, st')) by (vm_compute; reflexivity).
    exists st'. split; [exact H |].
    destruct (csum_preconditions (P := echo_platform true) 0x2000 2 4 st)
      as (Hok & _).
    destruct (Hok 12 st' H) as (_ & _ & Hch & _).
    split.
    + apply (Hch 0). vm_compute. split; congruence.
    + apply (Hch 1). vm_compute. split; congruence.
  - destruct (csum_preconditions (P := echo_platform true) 0x2000 2 5 st)
      as (_ & Hkind & _).
    apply Hkind. vm_compute. discriminate.
  - destruct (csum_preconditions (P := echo_platform true) 0x2000 4 4 st)
      as (_ & _ & Hsize & _).
    apply Hsize. discriminate.
  - destruct (csum_preconditions (P := echo_platform true) 0x2000 2 6 st)
      as (_ & _ & _ & Hchunk & _).
    apply (Hchunk 0).
    + vm_compute. split; congruence.
    + unfold chunk_ok. vm_compute. intros [H | [H _]]; discriminate.
  - destruct (csum_preconditions (P := echo_platform true) 0x2000 2 4 st)
      as (_ & _ & _ & _ & Hexec & _).
    apply (Hexec 1); vm_compute; reflexivity.
Defined.

(** ** Termination *)

Lemma terminates_bind {A B} (c : result A) (k : A -> result B) :
  terminates c -> (forall a, c = Ok a -> terminates (k a)) ->
  terminates (mbind k c).
Proof. destruct c; cbn; auto. Qed.

Lemma read_input_terminates input pos peek :
  terminates (read_input input pos peek).
Proof. unfold read_input. destruct (_ <=? _); exact I. Qed.

Section Termination.
Context {W : Type} {P : Platform W}.
Implicit Types st : state W.

Lemma write_output_terminates v st : terminates (write_output v st).
Proof.
  unfold write_output. destruct (collide st); [exact I |].
  destruct (_ <=? _); exact I.
Qed.

Lemma write_words_terminates l : forall st, terminates (write_words l st).
Proof.
  induction l as [| v l IH]; intros st; cbn [write_words]; [exact I |].
  apply terminates_bind; [apply write_output_terminates |].
  intros [p st1] _. apply IH.
Qed.

Lemma signal_loop_terminates n th : forall i prev nsig st,
  terminates (signal_loop n th i prev nsig st).
Proof.
  induction n as [| n IH]; intros i prev nsig st; cbn [signal_loop];
    [exact I |].
  destruct (dedup _ _) as [dup tbl]. destruct dup; [apply IH |].
  apply terminates_bind; [apply write_output_terminates |].
  intros [p st1] _. apply IH.
Qed.

Lemma write_comps_terminates l : forall n st, terminates (write_comps l n st).
Proof.
  induction l as [| c l IH]; intros n st; cbn [write_comps]; [exact I |].
  destruct (cmp_ignore c); [apply IH |].
  apply terminates_bind; [apply write_words_terminates |].
  intros st1 _. apply IH.
Qed.

Lemma write_feedback_terminates th st :
  th_cover_size th < 2 ^ 32 -> terminates (write_feedback th st).
Proof.
  intros Hc. unfold write_feedback.
  destruct (flag_collect_comps (flags st)).
  - destruct (_ <=? _); [exact I |].
    apply terminates_bind; [apply write_comps_terminates |].
    intros [n st1] _. exact I.
  - destruct (Z.leb_spec (2 ^ 32) (th_cover_size th)); [lia |].
    apply terminates_bind; [apply signal_loop_terminates |].
    intros [n st1] _. destruct (flag_collect_cover _); [| exact I].
    apply terminates_bind.
    + unfold write_cover. cbv zeta.
      apply terminates_bind; [apply write_words_terminates |].
      intros st2 _. exact I.
    + intros [c st2] _. exact I.
Qed.

Lemma out_store_terminates pos v st : terminates (out_store pos v st).
Proof. destruct pos; exact I. Qed.

Lemma completion_output_terminates i st :
  th_cover_size (thread_at st i) < 2 ^ 32 ->
  terminates (completion_output i st).
Proof.
  intros Hc. unfold completion_output.
  repeat (apply terminates_bind; [apply write_output_terminates |];
          intros [? ?] _).
  apply terminates_bind; [apply write_feedback_terminates, Hc |].
  intros [[[nsig ncover] ncomps] st1] _.
  repeat (apply terminates_bind; [apply out_store_terminates |]; intros ? _).
  exact I.
Qed.

Lemma read_copyout_pos_cases i st :
  (Z.to_nat i < length (threads st))%nat ->
  match read_copyout_pos i st with
  | Ok (v, st1) =>
      th_copyout_pos (thread_at st1 i) = th_copyout_pos (thread_at st i) + 1
      /\ length (threads st1) = length (threads st)
      /\ 8 * th_copyout_pos (thread_at st i) < kMaxInput
  | Fail _ => True
  | _ => False
  end.
Proof.
  intros Hi. unfold read_copyout_pos, read_input. cbv zeta.
  destruct (Z.leb_spec kMaxInput (8 * th_copyout_pos (thread_at st i)));
    [exact I |].
  cbn [mbind result_bind].
  rewrite thread_at_set_thread_eq by exact Hi.
  split; [reflexivity |]. split; [apply length_insert | assumption].
Qed.

Lemma copyout_terminates addr size (w : W) : terminates (copyout addr size w).
Proof. unfold copyout. destruct (_ || _ || _ || _); exact I. Qed.

Lemma copyin_terminates addr v size bf_off bf_len (w : W) :
  terminates (copyin addr v size bf_off bf_len w).
Proof. unfold copyin. destruct (_ || _ || _ || _); exact I. Qed.

(** With the fuel of the input, the copyout loop comes to an end. *)
Lemma copyout_loop_terminates i fuel : forall st,
  (Z.to_nat i < length (threads st))%nat ->
  (Z.to_nat (kMaxInput / 8 - th_copyout_pos (thread_at st i)) < fuel)%nat ->
  terminates (copyout_loop fuel i st).
Proof.
  change (kMaxInput / 8) with 262144.
  induction fuel as [| fuel IH]; intros st Hi Hf; [lia |].
  cbn [copyout_loop].
  pose proof (read_copyout_pos_cases i st Hi) as Ca.
  destruct (read_copyout_pos i st) as [[instr sa] | | |];
    try exact I; try contradiction.
  destruct Ca as (Pa & La & Ba). cbn [mbind result_bind].
  destruct (instr =? instr_copyout); [| exact I].
  pose proof (read_copyout_pos_cases i sa ltac:(lia)) as Cb.
  destruct (read_copyout_pos i sa) as [[index sb] | | |];
    try exact I; try contradiction.
  destruct Cb as (Pb & Lb & Bb). cbn [mbind result_bind].
  pose proof (read_copyout_pos_cases i sb ltac:(lia)) as Cc.
  destruct (read_copyout_pos i sb) as [[addr sc] | | |];
    try exact I; try contradiction.
  destruct Cc as (Pc & Lc & Bc). cbn [mbind result_bind].
  pose proof (read_copyout_pos_cases i sc ltac:(lia)) as Cd.
  destruct (read_copyout_pos i sc) as [[size sd] | | |];
    try exact I; try contradiction.
  destruct Cd as (Pd & Ld & Bd). cbn [mbind result_bind].
  apply terminates_bind; [apply copyout_terminates |].
  intros v _. destruct (_ <=? _); [exact I |].
  apply IH.
  - cbn [set_result set_results threads]. lia.
  - change (thread_at (set_result sd index v) i) with (thread_at sd i).
    change kMaxInput with 2097152 in *. lia.
Qed.

Lemma handle_completion_terminates i st :
  (Z.to_nat i < length (threads st))%nat ->
  th_cover_size (thread_at st i) < 2 ^ 32 ->
  terminates (handle_completion i st).
Proof.
  intros Hi Hc. unfold handle_completion.
  destruct (_ || _ || _); [exact I |].
  apply terminates_bind.
  - destruct (negb (th_res (thread_at st i) =? -1)); [| exact I].
    apply terminates_bind.
    + destruct (negb _); [| exact I]. destruct (_ <=? _); exact I.
    + intros sa Ha.
      assert (Fa : thread_at sa i = thread_at st i
                   /\ length (threads sa) = length (threads st)).
      { destruct (negb (th_copyout_index (thread_at st i) =? no_copyout)).
        - destruct (_ <=? _); [discriminate |]. injection Ha as <-. auto.
        - injection Ha as <-. auto. }
      destruct Fa as [Ta La].
      apply copyout_loop_terminates; [lia |].
      rewrite Ta. unfold input_fuel. lia.
  - intros st1 H1.
    assert (F : copyout_frame i st st1).
    { destruct (negb (th_res (thread_at st i) =? -1)).
      - apply bind_ok in H1 as (sa & Ha & H1).
        assert (Fa : copyout_frame i st sa).
        { destruct (negb (th_copyout_index (thread_at st i) =? no_copyout)).
          - destruct (_ <=? _); [discriminate |].
            injection Ha as <-. apply set_result_frame, Hi.
          - injection Ha as <-. apply copyout_frame_refl, Hi. }
        pose proof (copyout_frame_length _ _ _ Fa).
        apply copyout_loop_frame in H1; [| lia].
        eapply copyout_frame_trans; eauto.
      - injection H1 as <-. apply copyout_frame_refl, Hi. }
    destruct (copyout_frame_thread _ _ _ Hi F) as (pos & Hth).
    apply terminates_bind; [| intros; exact I].
    destruct (negb (collide st1)); [| exact I].
    apply completion_output_terminates. rewrite Hth. exact Hc.
Qed.
End Termination.


Section TerminationOfExecute.
Context {W : Type} {P : Platform W}.
Hypothesis Hcov : cover_bounded P.
Implicit Types st : state W.

Lemma good_thread_at st i :
  good_threads st -> th_cover_size (thread_at st i) < 2 ^ 32.
Proof.
  intros [_ Hall]. unfold thread_at.
  rewrite list_lookup_total_alt.
  destruct (threads st !! Z.to_nat i) as [th |] eqn:E; cbn.
  - eapply Forall_lookup_1 in Hall; [exact Hall | exact E].
  - reflexivity.
Qed.

Lemma good_set_thread st i th :
  good_threads st -> th_cover_size th < 2 ^ 32 ->
  good_threads (set_thread st i th).
Proof.
  intros [Hwf Hall] Hth. split.
  - unfold wf_threads, set_thread, set_threads. cbn.
    rewrite length_insert. exact Hwf.
  - unfold set_thread, set_threads. cbn. apply Forall_insert; assumption.
Qed.

Lemma good_threads_eq st st' :
  threads st' = threads st -> good_threads st -> good_threads st'.
Proof. unfold good_threads, wf_threads. intros ->. auto. Qed.

Lemma thread_create_good i st : good_threads st -> good_threads (thread_create i st).
Proof.
  intros Hg. unfold thread_create. cbv zeta.
  assert (G : good_threads
                (set_thread st i
                   (mk_thread true i (th_cover_data (thread_at st i)) false
                      true (th_copyout_pos (thread_at st i))
                      (th_copyout_index (thread_at st i)) true
                      (th_call_index (thread_at st i))
                      (th_call_num (thread_at st i))
                      (th_num_args (thread_at st i)) (th_args (thread_at st i))
                      (th_res (thread_at st i)) (th_reserrno (thread_at st i))
                      (th_cover_size (thread_at st i))
                      (th_fault_injected (thread_at st i))))).
  { apply good_set_thread; [exact Hg |]. cbn. apply good_thread_at, Hg. }
  destruct (flag_threaded _); [| exact G].
  eapply good_threads_eq; [| exact G]. reflexivity.
Qed.

Lemma execute_call_total i st :
  good_threads st ->
  terminates (execute_call i st)
  /\ forall st', execute_call i st = Ok st' -> good_threads st'.
Proof.
  intros Hg. split.
  - unfold execute_call. cbv zeta.
    destruct (flag_inject_fault (flags st) && _).
    + destruct (collide st); cbn [mbind result_bind]; [exact I |].
      destruct (inject_fault _ _) as [fd w].
      destruct (execute_syscall _ _ _) as [res w1].
      destruct (fault_injected_fd _ _) as [inj w2]. exact I.
    + cbn [mbind result_bind].
      destruct (execute_syscall _ _ _) as [res w1]. exact I.
  - unfold execute_call. cbv zeta. intros st' H.
    apply bind_ok in H as ([fd w] & _ & H).
    destruct (execute_syscall _ _ _) as [res w1].
    match type of H with
    | context [let '(_, _) := ?x in _] => destruct x as [inj w2]
    end.
    injection H as <-.
    eapply good_threads_eq; [reflexivity |].
    apply good_set_thread; [exact Hg |]. cbn. apply Hcov.
Qed.

Lemma worker_progress_total i ms st :
  good_threads st ->
  terminates (worker_progress i ms st)
  /\ forall st', worker_progress i ms st = Ok st' -> good_threads st'.
Proof.
  intros Hg. unfold worker_progress. cbv zeta.
  destruct (_ && _ && _).
  - destruct (worker_poll i ms (world st)) as [fin w]. destruct fin.
    + split; [exact I |]. intros st' [= <-]. exact Hg.
    + split; [exact I |]. intros st' [= <-].
      apply (good_set_thread (set_world st w)); [exact Hg |].
      cbn. apply good_thread_at, Hg.
    + apply execute_call_total.
      eapply good_threads_eq; [reflexivity | exact Hg].
  - split; [exact I |]. intros st' [= <-]. exact Hg.
Qed.

Lemma event_isset_done_total i st :
  good_threads st ->
  terminates (event_isset_done i st)
  /\ forall b st', event_isset_done i st = Ok (b, st') -> good_threads st'.
Proof.
  intros Hg. unfold event_isset_done.
  destruct (worker_progress_total i 0 st Hg) as [Ht Hgood]. split.
  - apply terminates_bind; [exact Ht | intros; exact I].
  - intros b st' H. apply bind_ok in H as (st1 & H1 & H).
    injection H as _ <-. apply Hgood, H1.
Qed.

Lemma event_timedwait_done_total i ms st :
  good_threads st ->
  terminates (event_timedwait_done i ms st)
  /\ forall b st', event_timedwait_done i ms st = Ok (b, st') -> good_threads st'.
Proof.
  intros Hg. unfold event_timedwait_done.
  destruct (worker_progress_total i ms st Hg) as [Ht Hgood]. split.
  - apply terminates_bind; [exact Ht | intros; exact I].
  - intros b st' H. apply bind_ok in H as (st1 & H1 & H).
    injection H as _ <-. apply Hgood, H1.
Qed.

Lemma handle_completion_total i st :
  good_threads st -> 0 <= i < kMaxThreads ->
  terminates (handle_completion i st)
  /\ forall st', handle_completion i st = Ok st' -> good_threads st'.
Proof.
  intros Hg Hi.
  pose proof (in_range_threads st i (proj1 Hg) Hi) as Hr. split.
  - apply handle_completion_terminates; [exact Hr | apply good_thread_at, Hg].
  - intros st' H. apply handle_completion_ok in H; [| exact Hr].
    destruct H as (_ & _ & _ & _ & _ & _ & (pos & Ht) & _).
    apply (good_threads_eq
             (set_thread st i
                (set_th_handled (set_th_copyout_pos (thread_at st i) pos) true)));
      [exact Ht |].
    apply good_set_thread; [exact Hg |]. cbn. apply good_thread_at, Hg.
Qed.

Lemma schedule_scan_total n : forall i st,
  good_threads st -> 0 <= i -> i + Z.of_nat n <= kMaxThreads ->
  terminates (schedule_scan n i st)
  /\ forall i' st', schedule_scan n i st = Ok (i', st') -> good_threads st'.
Proof.
  induction n as [| n IH]; intros i st Hg Hi Hn.
  - split; [exact I |]. intros i' st' [= <- <-]. exact Hg.
  - rewrite schedule_scan_S. cbv zeta.
    set (st0 := if negb (th_created (thread_at st i))
                then thread_create i st else st).
    assert (G0 : good_threads st0).
    { subst st0. destruct (negb _); [apply thread_create_good |]; exact Hg. }
    clearbody st0.
    destruct (event_isset_done_total i st0 G0) as [T1 G1].
    split.
    + apply terminates_bind; [exact T1 |]. intros [b st1] H1.
      specialize (G1 _ _ H1). destruct b.
      * apply terminates_bind; [| intros; exact I].
        destruct (negb _); [| exact I].
        apply handle_completion_total; [exact G1 | lia].
      * apply IH; [exact G1 | lia | lia].
    + intros i' st' H. apply bind_ok in H as ([b st1] & H1 & H).
      specialize (G1 _ _ H1). destruct b.
      * apply bind_ok in H as (st2 & H2 & H). injection H as _ <-.
        destruct (negb _).
        -- eapply handle_completion_total; [exact G1 | | exact H2]. lia.
        -- injection H2 as <-. exact G1.
      * eapply IH; [exact G1 | | | exact H]; lia.
Qed.

Lemma schedule_call_total call_index call_num copyout_index num_args args pos st :
  good_threads st ->
  terminates (schedule_call call_index call_num copyout_index num_args args
                pos st)
  /\ forall i st',
      schedule_call call_index call_num copyout_index num_args args pos st
      = Ok (i, st') -> good_threads st'.
Proof.
  intros Hg. unfold schedule_call.
  destruct (schedule_scan_total (Z.to_nat kMaxThreads) 0 st Hg
              ltac:(lia) ltac:(reflexivity)) as [T1 G1].
  assert (G2 : forall i st1, good_threads st1 ->
            good_threads
              (set_running
                 (set_thread st1 i
                    (mk_thread (th_created (thread_at st1 i))
                       (th_id (thread_at st1 i))
                       (th_cover_data (thread_at st1 i)) true false pos
                       copyout_index false call_index call_num num_args args
                       (th_res (thread_at st1 i))
                       (th_reserrno (thread_at st1 i))
                       (th_cover_size (thread_at st1 i))
                       (th_fault_injected (thread_at st1 i))))
                 (running st1 + 1))).
  { intros i st1 Hg1. eapply good_threads_eq; [reflexivity |].
    apply good_set_thread; [exact Hg1 |]. cbn. apply good_thread_at, Hg1. }
  split.
  - apply terminates_bind; [exact T1 |]. intros [i st1] H1.
    destruct (_ =? _); [exact I |]. destruct (_ || _ || _); [exact I |].
    cbv zeta. apply terminates_bind; [| intros; exact I].
    apply (proj1 (worker_progress_total _ _ _ (G2 _ _ (G1 _ _ H1)))).
  - intros i st' H. apply bind_ok in H as ([i0 st1] & H1 & H).
    specialize (G1 _ _ H1).
    destruct (_ =? _); [discriminate |].
    destruct (_ || _ || _); [discriminate |]. cbv zeta in H.
    apply bind_ok in H as (st2 & H2 & H). injection H as _ <-.
    exact (proj2 (worker_progress_total _ _ _ (G2 _ _ G1)) _ H2).
Qed.

Lemma sweep_total n : forall i st,
  good_threads st -> 0 <= i -> i + Z.of_nat n <= kMaxThreads ->
  terminates (sweep n i st)
  /\ forall st', sweep n i st = Ok st' -> good_threads st'.
Proof.
  induction n as [| n IH]; intros i st Hg Hi Hn.
  - split; [exact I |]. intros st' [= <-]. exact Hg.
  - cbn [sweep].
    assert (S1 : terminates
                   (if negb (th_handled (thread_at st i))
                    then '(isset, st) ← event_isset_done i st;
                         if isset : bool then handle_completion i st else Ok st
                    else Ok st)
                 /\ forall st1,
                     (if negb (th_handled (thread_at st i))
                      then '(isset, st) ← event_isset_done i st;
                           if isset : bool then handle_completion i st
                           else Ok st
                      else Ok st) = Ok st1 -> good_threads st1).
    { destruct (negb _).
      - destruct (event_isset_done_total i st Hg) as [T1 G1]. split.
        + apply terminates_bind; [exact T1 |]. intros [b st1] H1.
          specialize (G1 _ _ H1). destruct b; [| exact I].
          apply handle_completion_total; [exact G1 | lia].
        + intros st1 H. apply bind_ok in H as ([b st2] & H2 & H).
          specialize (G1 _ _ H2). destruct b.
          * eapply handle_completion_total; [exact G1 | | exact H]. lia.
          * injection H as <-. exact G1.
      - split; [exact I |]. intros st1 [= <-]. exact Hg. }
    destruct S1 as [T1 G1]. split.
    + apply terminates_bind; [exact T1 |]. intros st1 H1.
      apply IH; [apply G1, H1 | lia | lia].
    + intros st' H. apply bind_ok in H as (st1 & H1 & H).
      eapply IH; [apply G1, H1 | | | exact H]; lia.
Qed.

Lemma wait_call_total th input_pos st :
  good_threads st -> 0 <= th < kMaxThreads ->
  terminates (wait_call th input_pos st)
  /\ forall st', wait_call th input_pos st = Ok st' -> good_threads st'.
Proof.
  intros Hg Hth. unfold wait_call. cbv zeta.
  set (ms := if flag_debug (flags st) then 500 else 20).
  destruct (event_timedwait_done_total th ms st Hg) as [T1 G1].
  assert (S2 : forall b st1, good_threads st1 ->
             terminates (if b : bool then handle_completion th st1 else Ok st1)
             /\ forall st2,
                 (if b : bool then handle_completion th st1 else Ok st1)
                 = Ok st2 -> good_threads st2).
  { intros b st1 Hg1. destruct b.
    - apply handle_completion_total; assumption.
    - split; [exact I |]. intros st2 [= <-]. exact Hg1. }
  assert (S3 : forall st2, good_threads st2 ->
             terminates
               (if running st2 <? 0 then Fail "running < 0"
                else if 0 <? running st2 then
                  '(next, _) ← read_input (input_data st2) input_pos true;
                  let last := next =? instr_eof in
                  let st := set_world st2
                              (sleep_ms (if last then 10 else 1) (world st2)) in
                  sweep (Z.to_nat kMaxThreads) 0 st
                else Ok st2)
             /\ forall st',
                 (if running st2 <? 0 then Fail "running < 0"
                  else if 0 <? running st2 then
                    '(next, _) ← read_input (input_data st2) input_pos true;
                    let last := next =? instr_eof in
                    let st := set_world st2
                                (sleep_ms (if last then 10 else 1) (world st2)) in
                    sweep (Z.to_nat kMaxThreads) 0 st
                  else Ok st2) = Ok st' -> good_threads st').
  { intros st2 Hg2. destruct (_ <? 0); [split; [exact I | discriminate] |].
    destruct (0 <? _).
    - split.
      + apply terminates_bind; [apply read_input_terminates |].
        intros [next p] _. cbv zeta.
        apply sweep_total; [exact Hg2 | lia | reflexivity].
      + intros st' H. apply bind_ok in H as ([next p] & _ & H).
        eapply sweep_total; [| | | exact H]; [exact Hg2 | lia | reflexivity].
    - split; [exact I |]. intros st' [= <-]. exact Hg2. }
  split.
  - apply terminates_bind; [exact T1 |]. intros [b st1] H1.
    specialize (G1 _ _ H1). destruct (S2 b st1 G1) as [T2 G2].
    apply terminates_bind; [exact T2 |]. intros st2 H2.
    apply S3, G2, H2.
  - intros st' H. apply bind_ok in H as ([b st1] & H1 & H).
    specialize (G1 _ _ H1). destruct (S2 b st1 G1) as [T2 G2].
    apply bind_ok in H as (st2 & H2 & H).
    eapply S3; [apply G2, H2 | exact H].
Qed.

Lemma execute_direct_total th st :
  good_threads st ->
  terminates (execute_direct th st)
  /\ forall st', execute_direct th st = Ok st' -> good_threads st'.
Proof.
  intros Hg. unfold execute_direct.
  destruct (Z.eqb_spec th 0) as [-> |]; cbn [negb];
    [| split; [exact I | discriminate]].
  destruct (execute_call_total 0 st Hg) as [T1 G1]. split.
  - apply terminates_bind; [exact T1 |]. intros st1 H1.
    apply handle_completion_total; [apply G1, H1 | unfold kMaxThreads; lia].
  - intros st' H. apply bind_ok in H as (st1 & H1 & H).
    eapply handle_completion_total; [apply G1, H1 | | exact H].
    unfold kMaxThreads; lia.
Qed.
End TerminationOfExecute.

(** ** The cursor of the interpreter and the fuel of its loops *)

Lemma read_input_next input pos v pos' :
  read_input input pos false = Ok (v, pos') ->
  pos' = pos + 1 /\ pos < 262144.
Proof.
  intros H. apply read_input_inv in H as (H1 & _ & ->).
  change kMaxInput with 2097152 in H1. lia.
Qed.

Ltac read_steps H :=
  repeat (let R := fresh "R" in
          let Q := fresh "Q" in
          apply bind_ok in H as ([? ?] & R & H);
          apply read_input_next in R as [-> Q]).

Ltac read_terminates :=
  repeat (apply terminates_bind;
          [apply read_input_terminates |
           let R := fresh "R" in intros [? ?] R]).

Lemma read_result_cursor input results pos :
  terminates (read_result input results pos)
  /\ forall v pos', read_result input results pos = Ok (v, pos') ->
                    pos <= pos'.
Proof.
  unfold read_result. split.
  - read_terminates. destruct (_ <=? _); exact I.
  - intros v pos' H. read_steps H.
    destruct (_ <=? _); [discriminate |]. injection H as _ <-. lia.
Qed.

Section Cursor.
Context {W : Type} {P : Platform W}.
Implicit Types st : state W.

Lemma read_arg_cursor pos st :
  terminates (read_arg pos st)
  /\ forall v pos', read_arg pos st = Ok (v, pos') -> pos <= pos'.
Proof.
  unfold read_arg. split.
  - read_terminates. destruct (_ =? arg_const).
    + read_terminates. exact I.
    + destruct (_ =? arg_result); [apply read_result_cursor | exact I].
  - intros v pos' H. read_steps H. destruct (_ =? arg_const).
    + read_steps H. injection H as _ <-. lia.
    + destruct (_ =? arg_result); [| discriminate].
      apply read_result_cursor in H. lia.
Qed.

Lemma read_args_cursor n st : forall pos,
  terminates (read_args n pos st)
  /\ forall l pos', read_args n pos st = Ok (l, pos') -> pos <= pos'.
Proof.
  induction n as [| n IH]; intros pos; cbn [read_args].
  - split; [exact I |]. intros l pos' [= _ <-]. lia.
  - split.
    + apply terminates_bind; [apply read_arg_cursor |]. intros [a p1] _.
      apply terminates_bind; [apply IH |]. intros [l p2] _. exact I.
    + intros l pos' H. apply bind_ok in H as ([a p1] & H1 & H).
      apply bind_ok in H as ([l' p2] & H2 & H). injection H as _ <-.
      apply read_arg_cursor in H1. apply IH in H2. lia.
Qed.

Lemma skip_data_cursor n st fuel : forall i pos,
  (Z.to_nat (262144 - pos) < fuel)%nat ->
  terminates (skip_data fuel i n pos st)
  /\ forall pos', skip_data fuel i n pos st = Ok pos' -> pos <= pos'.
Proof.
  induction fuel as [| fuel IH]; intros i pos Hf; [lia |].
  cbn [skip_data]. destruct (i <? n).
  - split.
    + apply terminates_bind; [apply read_input_terminates |].
      intros [v p1] R. apply read_input_next in R as [-> ?].
      apply IH. lia.
    + intros pos' H. read_steps H. apply IH in H; lia.
  - split; [exact I |]. intros pos' [= <-]. lia.
Qed.

Lemma csum_chunks_cursor n st fuel : forall chunk csum pos,
  (Z.to_nat (262144 - pos) < fuel)%nat ->
  terminates (csum_chunks fuel chunk n csum pos st)
  /\ forall c pos', csum_chunks fuel chunk n csum pos st = Ok (c, pos') ->
                    pos <= pos'.
Proof.
  induction fuel as [| fuel IH]; intros chunk csum pos Hf; [lia |].
  cbn [csum_chunks]. destruct (chunk <? n).
  - split.
    + apply terminates_bind; [apply read_input_terminates |].
      intros [v1 p1] R1. apply read_input_next in R1 as [-> ?].
      apply terminates_bind; [apply read_input_terminates |].
      intros [v2 p2] R2. apply read_input_next in R2 as [-> ?].
      apply terminates_bind; [apply read_input_terminates |].
      intros [v3 p3] R3. apply read_input_next in R3 as [-> ?].
      destruct (_ =? arg_csum_chunk_data); [apply IH; lia |].
      destruct (_ =? arg_csum_chunk_const); [| exact I].
      destruct (_ && _ && _); [exact I | apply IH; lia].
    + intros c pos' H. read_steps H.
      destruct (_ =? arg_csum_chunk_data); [apply IH in H; lia |].
      destruct (_ =? arg_csum_chunk_const); [| discriminate].
      destruct (_ && _ && _); [discriminate | apply IH in H; lia].
  - split; [exact I |]. intros c pos' [= _ <-]. lia.
Qed.

Lemma input_fuel_enough pos :
  (Z.to_nat (262144 - pos) < input_fuel pos)%nat.
Proof. unfold input_fuel. change (kMaxInput / 8) with 262144. lia. Qed.

Lemma copyin_csum_cursor addr size pos st :
  terminates (copyin_csum addr size pos st)
  /\ forall pos' st', copyin_csum addr size pos st = Ok (pos', st') ->
                      pos <= pos'.
Proof.
  unfold copyin_csum. cbv zeta. split.
  - read_terminates. destruct (_ =? arg_csum_inet); [| exact I].
    destruct (negb _); [exact I |]. read_terminates.
    apply terminates_bind; [apply csum_chunks_cursor, input_fuel_enough |].
    intros [c p] _.
    apply terminates_bind; [apply copyin_terminates |]. intros; exact I.
  - intros pos' st' H. read_steps H.
    destruct (_ =? arg_csum_inet); [| discriminate].
    destruct (negb _); [discriminate |]. read_steps H.
    apply bind_ok in H as ([c p] & H1 & H).
    apply csum_chunks_cursor in H1; [| apply input_fuel_enough].
    apply bind_ok in H as (w & _ & H). injection H as <- _. lia.
Qed.

Lemma execute_copyin_cursor pos st :
  terminates (execute_copyin pos st)
  /\ forall pos' st', execute_copyin pos st = Ok (pos', st') -> pos <= pos'.
Proof.
  unfold execute_copyin. split.
  - read_terminates. destruct (_ =? arg_const).
    { read_terminates.
      apply terminates_bind; [apply copyin_terminates |]. intros; exact I. }
    destruct (_ =? arg_result).
    { apply terminates_bind; [apply read_result_cursor |]. intros [v p] _.
      apply terminates_bind; [apply copyin_terminates |]. intros; exact I. }
    destruct (_ =? arg_data).
    { cbv zeta.
      apply terminates_bind; [apply skip_data_cursor, input_fuel_enough |].
      intros; exact I. }
    destruct (_ =? arg_csum); [apply copyin_csum_cursor | exact I].
  - intros pos' st' H. read_steps H. destruct (_ =? arg_const).
    { read_steps H. apply bind_ok in H as (w & _ & H).
      injection H as <- _. lia. }
    destruct (_ =? arg_result).
    { apply bind_ok in H as ([v p] & H1 & H).
      apply read_result_cursor in H1.
      apply bind_ok in H as (w & _ & H). injection H as <- _. lia. }
    destruct (_ =? arg_data).
    { cbv zeta in H. apply bind_ok in H as (p & H1 & H).
      apply skip_data_cursor in H1; [| apply input_fuel_enough].
      injection H as <- _. lia. }
    destruct (_ =? arg_csum); [| discriminate].
    apply copyin_csum_cursor in H. lia.
Qed.

Lemma execute_copyin_good pos st pos' st' :
  execute_copyin pos st = Ok (pos', st') -> good_threads st ->
  good_threads st'.
Proof.
  intros H Hg. apply execute_copyin_world in H as [w ->]. exact Hg.
Qed.
End Cursor.

Section TerminationOfLoop.
Context {W : Type} {P : Platform W}.
Hypothesis Hcov : cover_bounded P.
Implicit Types st : state W.

Lemma execute_syscall_instr_total call_num pos call_index st :
  good_threads st ->
  terminates (execute_syscall_instr call_num pos call_index st)
  /\ forall pos' call_index' st',
      execute_syscall_instr call_num pos call_index st
      = Ok (pos', call_index', st') ->
      pos <= pos' /\ good_threads st'.
Proof.
  intros Hg. unfold execute_syscall_instr.
  destruct (_ <=? _); [split; [exact I | discriminate] |].
  assert (S1 : forall th p st1, good_threads st1 -> 0 <= th < kMaxThreads ->
             terminates
               (if collide st1 && (Z.rem (call_index + 1) 2 =? 0) then Ok st1
                else if flag_threaded (flags st1) then wait_call th p st1
                else execute_direct th st1)
             /\ forall st2,
                 (if collide st1 && (Z.rem (call_index + 1) 2 =? 0)
                  then Ok st1
                  else if flag_threaded (flags st1) then wait_call th p st1
                  else execute_direct th st1) = Ok st2 -> good_threads st2).
  { intros th p st1 Hg1 Hth. destruct (_ && _).
    - split; [exact I |]. intros st2 [= <-]. exact Hg1.
    - destruct (flag_threaded _).
      + apply (wait_call_total Hcov); assumption.
      + apply (execute_direct_total Hcov); assumption. }
  split.
  - read_terminates. destruct (_ <? _); [exact I |].
    apply terminates_bind; [apply read_args_cursor |]. intros [vals p] _.
    cbv zeta.
    destruct (schedule_call_total Hcov call_index call_num z z1
                (args_array vals) p st Hg) as [T1 G1].
    apply terminates_bind; [exact T1 |]. intros [th st1] H1.
    apply terminates_bind; [| intros; exact I].
    apply S1; [eapply G1, H1 |].
    apply schedule_call_step in H1 as (_ & Hth & _); [exact Hth | apply Hg].
  - intros pos' ci' st' H. read_steps H.
    destruct (_ <? _); [discriminate |].
    apply bind_ok in H as ([vals p] & Ha & H). cbv zeta in H.
    apply read_args_cursor in Ha.
    apply bind_ok in H as ([th st1] & H1 & H).
    apply bind_ok in H as (st2 & H2 & H). injection H as <- _ <-.
    split; [lia |].
    eapply S1; [| | exact H2].
    + eapply (schedule_call_total Hcov), H1. exact Hg.
    + apply schedule_call_step in H1 as (_ & Hth & _); [exact Hth | apply Hg].
Qed.

(** The loop of [execute_one] reads at least one word in every
    iteration, so that the fuel of the input is enough for it. *)
Lemma execute_loop_total fuel : forall pos call_index st,
  (Z.to_nat (262144 - pos) < fuel)%nat -> good_threads st ->
  terminates (execute_loop fuel pos call_index st)
  /\ forall n st', execute_loop fuel pos call_index st = Ok (n, st') ->
                   good_threads st'.
Proof.
  induction fuel as [| fuel IH]; intros pos ci st Hf Hg; [lia |].
  cbn [execute_loop]. split.
  - apply terminates_bind; [apply read_input_terminates |].
    intros [call_num p1] R. apply read_input_next in R as [-> Hp].
    destruct (_ =? instr_eof); [exact I |].
    destruct (_ =? instr_copyin).
    { apply terminates_bind; [apply execute_copyin_cursor |].
      intros [p2 st1] H1. pose proof (execute_copyin_good _ _ _ _ H1 Hg).
      apply execute_copyin_cursor in H1. apply IH; [lia | assumption]. }
    destruct (_ =? instr_copyout).
    { apply terminates_bind; [apply read_input_terminates |].
      intros [v2 p2] R2. apply read_input_next in R2 as [-> ?].
      apply terminates_bind; [apply read_input_terminates |].
      intros [v3 p3] R3. apply read_input_next in R3 as [-> ?].
      apply terminates_bind; [apply read_input_terminates |].
      intros [v4 p4] R4. apply read_input_next in R4 as [-> ?].
      apply IH; [lia | assumption]. }
    destruct (execute_syscall_instr_total call_num (pos + 1) ci st Hg)
      as [T1 G1].
    apply terminates_bind; [exact T1 |]. intros [[p2 ci2] st1] H1.
    apply G1 in H1 as [? ?]. apply IH; [lia | assumption].
  - intros n st' H.
    apply bind_ok in H as ([call_num p1] & R & H).
    apply read_input_next in R as [-> Hp].
    destruct (_ =? instr_eof); [injection H as _ <-; exact Hg |].
    destruct (_ =? instr_copyin).
    { apply bind_ok in H as ([p2 st1] & H1 & H).
      pose proof (execute_copyin_good _ _ _ _ H1 Hg).
      apply execute_copyin_cursor in H1.
      eapply IH; [| | exact H]; [lia | assumption]. }
    destruct (_ =? instr_copyout).
    { read_steps H. eapply IH; [| | exact H]; [lia | assumption]. }
    apply bind_ok in H as ([[p2 ci2] st1] & H1 & H).
    apply (execute_syscall_instr_total call_num (pos + 1) ci st Hg) in H1
      as [? ?].
    eapply IH; [| | exact H]; [lia | assumption].
Qed.

Lemma write_output_good v st o st' :
  write_output v st = Ok (o, st') -> good_threads st -> good_threads st'.
Proof.
  unfold write_output. destruct (collide st); [intros [= _ <-]; auto |].
  destruct (_ <=? _); [discriminate |]. intros [= _ <-]. auto.
Qed.

Lemma execute_pass_total st :
  good_threads st ->
  terminates (execute_pass st)
  /\ forall n st', execute_pass st = Ok (n, st') -> good_threads st'.
Proof.
  intros Hg. unfold execute_pass. cbv zeta.
  assert (S1 : forall st1, good_threads st1 ->
             good_threads
               (if negb (collide st1) && negb (flag_threaded (flags st1))
                then set_world st1 (cover_enable 0 (world st1)) else st1)).
  { intros st1 Hg1. destruct (_ && _); exact Hg1. }
  split.
  - apply terminates_bind; [apply write_output_terminates |].
    intros [o st1] H1.
    apply execute_loop_total;
      [apply input_fuel_enough | eapply S1, write_output_good; eauto].
  - intros n st' H. apply bind_ok in H as ([o st1] & H1 & H).
    eapply execute_loop_total; [| | exact H];
      [apply input_fuel_enough | eapply S1, write_output_good; eauto].
Qed.

(** [execute_one] comes to an end: the second pass sets [collide], which
    rules out a third. *)
Lemma execute_one_total st :
  good_threads st -> terminates (execute_one st).
Proof.
  intros Hg. unfold execute_one. cbn [execute_one_retry].
  destruct (execute_pass_total st Hg) as [T1 G1].
  apply terminates_bind; [exact T1 |]. intros [n st1] H1.
  specialize (G1 _ _ H1).
  destruct (_ && _ && _); [| exact I].
  assert (G2 : good_threads (set_collide st1 true)) by exact G1.
  destruct (execute_pass_total _ G2) as [T2 _].
  apply terminates_bind; [exact T2 |]. intros [n2 st2] H2.
  apply execute_pass_collide in H2; [| apply G1 | reflexivity].
  destruct H2 as (_ & _ & _ & G4). rewrite G4, andb_false_r. exact I.
Qed.
End TerminationOfLoop.

(** ** Sorting: the order among equivalent records does not matter *)

Section SortedUnique.
Context {A : Type} (ltb eqb : A -> A -> bool).
Hypothesis ltb_asym : forall a b, ltb a b = true -> ltb b a = false.
Hypothesis ltb_trans :
  forall a b c, ltb a b = true -> ltb b c = true -> ltb a c = true.
Hypothesis ltb_total :
  forall a b, ltb a b = false -> ltb b a = false -> a = b.
Hypothesis eqb_eq : forall a b, eqb a b = true <-> a = b.

Lemma ltb_irrefl a : ltb a a = false.
Proof. destruct (ltb a a) eqn:E; [| reflexivity]. rewrite <- E. auto. Qed.

(** Two strictly increasing lists with the same elements are equal. *)
Lemma strictly_sorted_ext (l1 : list A) : forall l2,
  StronglySorted (fun a b => ltb a b = true) l1 ->
  StronglySorted (fun a b => ltb a b = true) l2 ->
  (forall a, In a l1 <-> In a l2) -> l1 = l2.
Proof.
  induction l1 as [| x l1 IH]; intros l2 S1 S2 Hin.
  - destruct l2 as [| y l2]; [reflexivity |].
    exfalso. apply (Hin y). left. reflexivity.
  - destruct l2 as [| y l2]; [exfalso; apply (Hin x); left; reflexivity |].
    inversion S1 as [| ? ? S1' F1]; subst.
    inversion S2 as [| ? ? S2' F2]; subst.
    rewrite List.Forall_forall in F1, F2.
    assert (E : x = y).
    { destruct (proj1 (Hin x) (or_introl eq_refl)) as [E | Hx]; [auto |].
      destruct (proj2 (Hin y) (or_introl eq_refl)) as [E | Hy]; [auto |].
      specialize (F1 _ Hy). specialize (F2 _ Hx).
      apply ltb_asym in F1. congruence. }
    subst y. f_equal. apply IH; [assumption | assumption |].
    intros a. split; intros Ha.
    + destruct (proj1 (Hin a) (or_intror Ha)) as [E | H]; [| exact H].
      subst a. specialize (F1 _ Ha). rewrite ltb_irrefl in F1. discriminate.
    + destruct (proj2 (Hin a) (or_intror Ha)) as [E | H]; [| exact H].
      subst a. specialize (F2 _ Ha). rewrite ltb_irrefl in F2. discriminate.
Qed.

(** Whatever ascending arrangement [std::sort] leaves, [std::unique]
    gives the same range. *)
Lemma sort_unique_any l s :
  Permutation s l -> Sorted (ascending ltb) s ->
  std_unique eqb s = std_unique eqb (std_sort ltb l).
Proof.
  intros Hp Hs.
  assert (S2 : StronglySorted (fun a b => ltb a b = true)
                 (std_unique eqb (std_sort ltb l))
               /\ forall a, In a (std_unique eqb (std_sort ltb l)) <-> In a l)
    by (apply sort_unique_spec; assumption).
  destruct S2 as [S2 In2].
  apply strictly_sorted_ext; [| exact S2 |].
  - apply Sorted_StronglySorted; [intros a b c; apply ltb_trans |].
    apply std_unique_sorted; assumption.
  - intros a. rewrite In2.
    assert (E : In a (std_unique eqb s) <-> In a s)
      by (apply std_unique_In; assumption).
    rewrite E.
    split; apply Permutation_in; [exact Hp | symmetry; exact Hp].
Qed.
End SortedUnique.

Lemma spec_cmp_words_key a b :
  cmp_key a = cmp_key b -> spec_cmp_words a = spec_cmp_words b.
Proof.
  intros H. apply key_eq_same in H as (Ht & H1 & H2).
  unfold spec_cmp_words, cmp_size. rewrite Ht, H1, H2. reflexivity.
Qed.

Lemma written_words_key (ignore : kcov_comparison_t -> bool) l1 : forall l2,
  (forall a b, cmp_same a b -> ignore a = ignore b) ->
  map cmp_key l1 = map cmp_key l2 ->
  concat (map spec_cmp_words (List.filter (fun c => negb (ignore c)) l1))
  = concat (map spec_cmp_words (List.filter (fun c => negb (ignore c)) l2)).
Proof.
  induction l1 as [| a l1 IH]; intros l2 Hig Hk;
    destruct l2 as [| b l2]; try discriminate; [reflexivity |].
  cbn [map] in Hk.
  assert (Hab : cmp_key a = cmp_key b) by congruence.
  assert (Hk' : map cmp_key l1 = map cmp_key l2) by congruence.
  clear Hk. cbn [List.filter].
  rewrite (Hig a b) by (apply key_eq_same, Hab).
  destruct (negb (ignore b)); cbn [map concat];
    [rewrite (spec_cmp_words_key a b Hab); f_equal |]; apply IH; assumption.
Qed.

Lemma sorted_map_key s :
  Sorted (ascending cmp_ltb) s -> Sorted (ascending key_ltb) (map cmp_key s).
Proof.
  induction 1 as [| a l Hs IH Hhd]; cbn [map]; constructor; [exact IH |].
  destruct Hhd as [| b l Hab]; cbn [map]; constructor. exact Hab.
Qed.

(** The words written for the comparisons are the same for every
    ascending arrangement of the records, when [ignore] does not look at
    [pc]. *)
Lemma sorted_comps_any (ignore : kcov_comparison_t -> bool) th s :
  let recs := cmp_array (th_cover_data th) (Z.to_nat (u32 (th_cover_size th))) in
  Permutation s recs -> Sorted (ascending cmp_ltb) s ->
  (forall a b, cmp_same a b -> ignore a = ignore b) ->
  concat (map spec_cmp_words
            (List.filter (fun c => negb (ignore c)) (std_unique cmp_eqb s)))
  = concat (map spec_cmp_words
              (List.filter (fun c => negb (ignore c)) (sorted_comps th))).
Proof.
  intros recs Hp Hs Hig. apply written_words_key; [exact Hig |].
  unfold sorted_comps. fold recs.
  rewrite (map_std_unique cmp_key cmp_eqb key_eqb cmp_eqb_key).
  rewrite (map_std_unique cmp_key cmp_eqb key_eqb cmp_eqb_key).
  rewrite (map_std_sort cmp_key cmp_ltb key_ltb cmp_ltb_key).
  apply (sort_unique_any key_ltb key_eqb);
    try exact key_ltb_asym; try exact key_ltb_trans;
    try exact key_ltb_total; try exact key_eqb_eq.
  - apply Permutation_map, Hp.
  - apply sorted_map_key, Hs.
Qed.

(** ** The example platform *)

Lemma echo_cover_bounded finishes : cover_bounded (echo_platform finishes).
Proof. intros id w. apply u32_range. Qed.

Lemma echo_state_good fl prog : good_threads (echo_state fl prog).
Proof.
  split; [reflexivity |].
  apply Forall_forall. intros th Hin.
  apply elem_of_replicate in Hin as [-> _]. reflexivity.
Qed.

(** * Completions: signals, comparisons, records and slots *)

(** ** C2: signal extraction *)

(** C2. With [collect_comps] off, a completion emits the signals of the
    coverage words [cover_data[0 .. cover_size)]: [prev] starts at 0; for
    each entry, [sig] is the low 32 bits of the PC XOR [prev] and [prev]
    becomes the hash of the low 32 bits, the hash being the scalar mix of
    the specification; [sig] is appended exactly when [dedup sig] returns
    false, and the count patched into the record is the number of
    signals appended.  The handler comes to an end, by a return or by
    ending the process, when the coverage size fits 32 bits. *)
Theorem signal_extraction_spec {W : Type} {P : Platform W}
  (i : Z) (st st' : state W) :
  (Z.to_nat i < length (threads st))%nat ->
  collide st = false ->
  flag_collect_comps (flags st) = false ->
  let th := thread_at st i in
  let r := spec_signals (cover_words th (th_cover_size th)) 0 (dedup_table st) in
  let cover := if flag_collect_cover (flags st)
               then map u32 (cover_pcs (flag_dedup_cover (flags st)) th)
               else [] in
  (forall a, 0 <= a < 2 ^ 32 -> hash a = spec_hash a)
  /\ (th_cover_size th < 2 ^ 32 -> terminates (handle_completion i st))
  /\ (handle_completion i st = Ok st' ->
      output_data st'
      = <[0%nat := u32 (completed st + 1)]>
          (output_data st
           ++ record_head th
           ++ [Z.of_nat (length (fst r)); Z.of_nat (length cover); 0]
           ++ fst r ++ cover)
      /\ dedup_table st' = snd r).
Proof.
  intros Hi Hc Hf th r cover.
  split; [exact hash_spec |].
  split; [intros Hs; apply handle_completion_terminates; assumption |].
  intros H.
  apply handle_completion_ok in H; [| exact Hi].
  destruct H as (_ & _ & _ & _ & _ & _ & _ & H).
  rewrite Hc in H. cbv zeta in H. fold th in H.
  destruct H as (_ & Hout & _ & Htbl & _).
  unfold completion_payload in Hout, Htbl. rewrite Hf in Hout, Htbl.
  fold r in Hout, Htbl. fold cover in Hout, Htbl.
  destruct r as [sigs tbl']. cbn [fst snd record_words] in *.
  split; assumption.
Qed.

Lemma signal_extraction_spec_witness :
  exists st',
    handle_completion (P := echo_platform true) 0 signals_state = Ok st'
    /\ output_data st'
       = [1; 0; 2; 0; 0; 3; 0; 0; 4096; 20365138; 215385696].
Proof.
  set (st' := state_of (handle_completion (P := echo_platform true) 0
                          signals_state) (fun s => s) signals_state).
  assert (H : handle_completion (P := echo_platform true) 0 signals_state
              = Ok st') by (vm_compute; reflexivity).
  exists st'. split; [exact H |].
  destruct (signal_extraction_spec (P := echo_platform true) 0 signals_state
              st' ltac:(vm_compute; lia) eq_refl eq_refl) as (_ & _ & Hret).
  destruct (Hret H) as [Hout _].
  rewrite Hout. vm_compute. reflexivity.
Defined.

(** ** C6: comparison extraction *)

(** C6. With [collect_comps] set, a completion sorts the [cover_size]
    comparison records and removes adjacent duplicates, under the
    equality that ignores [pc] and the lexicographic order on
    [(type, arg1, arg2)]: the surviving records are strictly increasing
    in that order and are the records of the buffer up to [pc].  Every
    surviving record that is not ignored is written as the words of the
    specification: [type] as a 32-bit word, then [arg1] and [arg2]
    sign-extended by the size class, one 32-bit word each below size 8,
    two little-endian 32-bit words each at size 8.  The words written do
    not depend on the order [std::sort] leaves among equivalent records,
    as long as [ignore] does not look at [pc].  The handler comes to an
    end, by a return or by ending the process, when the coverage size
    fits 32 bits. *)
Theorem comparison_extraction_spec {W : Type} {P : Platform W}
  (i : Z) (st st' : state W) :
  (Z.to_nat i < length (threads st))%nat ->
  collide st = false ->
  flag_collect_comps (flags st) = true ->
  let th := thread_at st i in
  let ncomps := u32 (th_cover_size th) in
  let recs := cmp_array (th_cover_data th) (Z.to_nat ncomps) in
  let survivors := std_unique cmp_eqb (std_sort cmp_ltb recs) in
  let written := List.filter (fun c => negb (cmp_ignore c)) survivors in
  (0 <= th_cover_size th < 2 ^ 32 -> ncomps = th_cover_size th)
  /\ StronglySorted cmp_lex_lt survivors
  /\ (forall c, (exists c', In c' survivors /\ cmp_same c c')
                <-> (exists c', In c' recs /\ cmp_same c c'))
  /\ (forall sorted,
      Permutation sorted recs -> Sorted (ascending cmp_ltb) sorted ->
      (forall a b, cmp_same a b -> cmp_ignore a = cmp_ignore b) ->
      concat (map spec_cmp_words
                (List.filter (fun c => negb (cmp_ignore c))
                   (std_unique cmp_eqb sorted)))
      = concat (map spec_cmp_words written))
  /\ (th_cover_size th < 2 ^ 32 -> terminates (handle_completion i st))
  /\ (handle_completion i st = Ok st' ->
      output_data st'
      = <[0%nat := u32 (completed st + 1)]>
          (output_data st
           ++ record_head th
           ++ [0; 0; Z.of_nat (length written)]
           ++ concat (map spec_cmp_words written))).
Proof.
  intros Hi Hc Hf th ncomps recs survivors written.
  split; [intros Hr; apply u32_id, Hr |].
  destruct (sorted_comps_spec th) as (Hs & Hin & _).
  split; [exact Hs |]. split; [exact Hin |].
  split; [intros s Hp Hsort Hig; apply (sorted_comps_any cmp_ignore th s);
          assumption |].
  split; [intros Hb; apply handle_completion_terminates; assumption |].
  intros H.
  apply handle_completion_ok in H; [| exact Hi].
  destruct H as (_ & _ & _ & _ & _ & _ & _ & H).
  rewrite Hc in H. cbv zeta in H. fold th in H.
  destruct H as (_ & Hout & _).
  unfold completion_payload in Hout. rewrite Hf in Hout.
  cbn [record_words] in Hout. rewrite Hout.
  change (sorted_comps th) with survivors. fold written.
  rewrite (map_ext (fun c => fst (cmp_write c)) spec_cmp_words cmp_write_spec).
  reflexivity.
Qed.

Lemma comparison_extraction_spec_witness :
  exists st',
    handle_completion (P := echo_platform true) 0 comps_state = Ok st'
    /\ output_data st'
       = [1; 0; 2; 0; 0; 0; 0; 3;
          0; 0xffffff80; 0x7f;
          4; 0xffffffff; 5;
          6; 0xffffffff; 0xffffffff; 5; 2].
Proof.
  set (st' := state_of (handle_completion (P := echo_platform true) 0
                          comps_state) (fun s => s) comps_state).
  assert (H : handle_completion (P := echo_platform true) 0 comps_state
              = Ok st') by (vm_compute; reflexivity).
  exists st'. split; [exact H |].
  destruct (comparison_extraction_spec (P := echo_platform true) 0 comps_state
              st' ltac:(vm_compute; lia) eq_refl eq_refl)
    as (_ & _ & _ & _ & _ & Hret).
  rewrite (Hret H). vm_compute. reflexivity.
Defined.


(** ** C4: the cursor of the completion handler *)


(** C4, amended. After a call that did not fail, the completion handler
    runs over the COPYOUT records that follow it and stops at the first
    word that is not COPYOUT, which it reads with the advancing read:
    when the loop stops, the slot's [copyout_pos] is one word beyond the
    word that ended the run.  The interpreter's own cursor is another
    variable: after the iteration for a call it is where reading the
    call's arguments left it.  The handler comes to an end, by a return
    or by ending the process, when the coverage size fits 32 bits. *)
Theorem copyout_cursor_spec {W : Type} {P : Platform W}
  (i : Z) (st st' : state W) (n : nat) :
  (Z.to_nat i < length (threads st))%nat ->
  let th := thread_at st i in
  let p := th_copyout_pos th in
  th_res th <> -1 ->
  (forall k, (k < n)%nat ->
             input_word (input_data st) (p + 4 * Z.of_nat k) = instr_copyout) ->
  input_word (input_data st) (p + 4 * Z.of_nat n) <> instr_copyout ->
  (th_cover_size th < 2 ^ 32 -> terminates (handle_completion i st))
  /\ (handle_completion i st = Ok st' ->
      th_copyout_pos (thread_at st' i) = p + 4 * Z.of_nat n + 1)
  /\ (forall call_num input_pos call_index input_pos' call_index' st0 st0',
      execute_syscall_instr call_num input_pos call_index st0
      = Ok (input_pos', call_index', st0') ->
      exists vals,
        read_args (Z.to_nat (input_word (input_data st0) (input_pos + 1)))
          (input_pos + 2) st0
        = Ok (vals, input_pos')).
Proof.
  intros Hi th p Hres Hrun Hend.
  split; [intros Hb; apply handle_completion_terminates; assumption |].
  split.
  - intros H. unfold handle_completion in H. fold th in H.
    destruct (th_ready th || negb (th_done th) || th_handled th);
      [discriminate |].
    destruct (Z.eqb_spec (th_res th) (-1)) as [| _]; [contradiction |].
    cbn [negb] in H.
    apply bind_ok in H as (st1 & H1 & H).
    apply bind_ok in H1 as (sa & Ha & H1).
    assert (Fa : thread_at sa i = th /\ input_data sa = input_data st
                 /\ length (threads sa) = length (threads st)).
    { destruct (negb (th_copyout_index th =? no_copyout)).
      - destruct (kMaxCommands <=? th_copyout_index th); [discriminate |].
        injection Ha as <-. repeat split.
      - injection Ha as <-. repeat split. }
    destruct Fa as (Ta & Ia & La).
    pose proof H1 as H1'.
    apply (copyout_loop_cursor i n) in H1.
    + rewrite Ta in H1. fold p in H1.
      apply copyout_loop_frame in H1' as F; [| lia].
      pose proof (copyout_frame_length _ _ _ F) as L1.
      apply bind_ok in H as (st2 & H2 & H). injection H as <-.
      assert (T2 : threads st2 = threads st1).
      { destruct (negb (collide st1)) eqn:Ec.
        - apply completion_output_ok in H2 as [-> _];
            [reflexivity | destruct (collide st1); [discriminate | reflexivity]].
        - injection H2 as <-. reflexivity. }
      unfold thread_at at 1. cbn [set_running set_thread set_threads threads].
      rewrite list_lookup_total_insert_eq by (rewrite T2; lia).
      cbn [set_th_handled th_copyout_pos].
      unfold thread_at at 1. rewrite T2. exact H1.
    + lia.
    + rewrite Ta, Ia. exact Hrun.
    + rewrite Ta, Ia. exact Hend.
  - intros call_num input_pos call_index input_pos' call_index' st0 st0' E.
    unfold execute_syscall_instr in E.
    destruct (syscall_count <=? call_num); [discriminate |].
    apply bind_ok in E as ([copyout_index pos1] & E1 & E).
    apply read_input_inv in E1 as (_ & _ & ->).
    apply bind_ok in E as ([num_args pos2] & E2 & E).
    apply read_input_inv in E2 as (_ & -> & ->).
    destruct (kMaxArgs <? _); [discriminate |].
    apply bind_ok in E as ([vals pos3] & E3 & E).
    apply bind_ok in E as ([th0 st1] & E4 & E).
    apply bind_ok in E as (st2 & E5 & E).
    injection E as <- _ _.
    exists vals. replace (input_pos + 2) with (input_pos + 1 + 1) by lia.
    exact E3.
Qed.

Lemma copyout_cursor_spec_witness :
  exists st',
    handle_completion (P := echo_platform true) 0 copyout_state = Ok st'
    /\ th_copyout_pos (thread_at st' 0) = 9.
Proof.
  set (st' := state_of (handle_completion (P := echo_platform true) 0
                          copyout_state) (fun s => s) copyout_state).
  assert (H : handle_completion (P := echo_platform true) 0 copyout_state
              = Ok st') by (vm_compute; reflexivity).
  exists st'. split; [exact H |].
  refine (proj1 (proj2 (copyout_cursor_spec (P := echo_platform true) 0
                          copyout_state st' 2 _ _ _ _)) H).
  - vm_compute. lia.
  - vm_compute. discriminate.
  - intros k Hk.
    destruct k as [| [| k]]; [vm_compute; reflexivity | vm_compute; reflexivity | lia].
  - vm_compute. discriminate.
Defined.

(** C4 as stated fails: the run of COPYOUT records after the call ends
    at word 8, which holds [instr_eof], and the completion leaves the
    slot's cursor at word 9, beyond it. *)
Lemma copyout_cursor_counterexample :
  exists st',
    handle_completion (P := echo_platform true) 0 copyout_state = Ok st'
    /\ th_copyout_pos (thread_at copyout_state 0) = 0
    /\ input_word (input_data copyout_state) 0 = instr_copyout
    /\ input_word (input_data copyout_state) 4 = instr_copyout
    /\ input_word (input_data copyout_state) 8 = instr_eof
    /\ instr_eof <> instr_copyout
    /\ th_copyout_pos (thread_at st' 0) = 9
    /\ th_copyout_pos (thread_at st' 0) <> 8.
Proof.
  set (st' := state_of (handle_completion (P := echo_platform true) 0
                          copyout_state) (fun s => s) copyout_state).
  exists st'.
  split; [vm_compute; reflexivity |].
  split; [vm_compute; reflexivity |].
  split; [vm_compute; reflexivity |].
  split; [vm_compute; reflexivity |].
  split; [vm_compute; reflexivity |].
  split; [vm_compute; discriminate |].
  split; [vm_compute; reflexivity |].
  vm_compute. discriminate.
Qed.


(** ** C8: the state machine of a slot *)




(** ** C7: completion records and the completed counter *)

(** C7, amended. Every completion that is handled appends exactly one
    completion record to the output buffer, except when the internal
    [collide] flag is set, in which case it appends nothing.  The
    completed counter goes up by one with every record, and the store of
    the counter is the last store of the record, after its payload and
    its back-patched counts.  At the end of an execute the buffer is the
    completed counter followed by that many completion records.  At the
    end of the first pass the records and the calls still running add up
    to the calls scheduled: a call whose worker has not finished by then
    has no record; in non-threaded mode no call is left running, and
    there is one record for every scheduled call.  A pass, an execute
    and a completion come to an end, by a return or by ending the
    process, when the coverage sizes fit 32 bits. *)
Theorem completion_records_spec {W : Type} {P : Platform W} :
  (forall i (st st' : state W),
      (Z.to_nat i < length (threads st))%nat ->
      handle_completion i st = Ok st' ->
      (collide st = true ->
       output_data st' = output_data st /\ output_log st' = output_log st
       /\ completed st' = completed st)
      /\ (collide st = false ->
          exists nsig ncover ncomps payload,
            let th := thread_at st i in
            let len := Z.of_nat (length (output_data st)) in
            let rec := record_head th ++ [nsig; ncover; ncomps] ++ payload in
            is_record rec
            /\ completed st' = u32 (completed st + 1)
            /\ output_data st' = <[0%nat := completed st']> (output_data st ++ rec)
            /\ output_log st'
               = output_log st
                 ++ map OutAppend (record_head th ++ [0; 0; 0] ++ payload)
                 ++ [OutPatch (len + 5) ncover; OutPatch (len + 6) ncomps;
                     OutPatch (len + 4) nsig]
                 ++ [OutCompleted (completed st')]))
  /\ (forall (st st' : state W),
      wf_threads st -> collide st = false -> completed st = 0 ->
      output_data st = [] ->
      execute_one st = Ok st' ->
      exists recs,
        output_data st' = completed st' :: concat recs
        /\ completed st' = Z.of_nat (length recs)
        /\ Forall is_record recs)
  /\ (forall (st : state W) n st1,
      wf_threads st -> collide st = false -> completed st = 0 ->
      running st = 0 -> output_data st = [] ->
      execute_pass st = Ok (n, st1) ->
      completed st1 + running st1 = n
      /\ (flag_threaded (flags st) = false -> idle st ->
          running st1 = 0 /\ completed st1 = n))
  /\ (forall (st : state W),
      cover_bounded P -> good_threads st ->
      terminates (execute_pass st) /\ terminates (execute_one st)
      /\ (forall i, 0 <= i < kMaxThreads ->
                    terminates (handle_completion i st))).
Proof.
  split; [| split; [| split]];
    [| | | intros st Hcov Hg;
           split; [apply (execute_pass_total Hcov), Hg |];
           split; [apply (execute_one_total Hcov), Hg |];
           intros i Hi; apply handle_completion_total; assumption].
  - intros i st st' Hi H. apply handle_completion_ok in H; [| exact Hi].
    destruct H as (_ & _ & _ & _ & _ & _ & _ & H). split; intros Hc;
      rewrite Hc in H.
    + destruct H as (H1 & H2 & H3 & _). auto.
    + cbv zeta in H. destruct H as (H1 & H2 & H3 & _ & _).
      pose proof (record_words_is_record (flags st) cmp_ignore
                    (thread_at st i) (dedup_table st)) as Hr.
      destruct (completion_payload (flags st) cmp_ignore (thread_at st i)
                  (dedup_table st)) as [[[[nsig ncover] ncomps] payload] tbl'].
      cbn [record_words record_stores] in *.
      exists nsig, ncover, ncomps, payload. cbv zeta.
      rewrite H1. split; [exact Hr |]. split; [reflexivity |].
      split; [exact H2 |]. rewrite H3. repeat f_equal.
  - intros st st' Hwf Hc Hcomp Hout H.
    exact (execute_one_inv st st' Hwf Hc Hcomp Hout H).
  - intros st n st1 Hwf Hc Hcomp Hrun Hout H.
    apply execute_pass_first in H; try assumption.
    destruct H as (_ & Hacc & _ & _ & _ & Hidle).
    split; [lia |]. intros Hft Hi. destruct (Hidle Hft Hi) as [Hr _].
    split; [exact Hr | lia].
Qed.

Lemma completion_records_spec_witness :
  (exists st',
      execute_one (P := echo_platform true) (echo_state flags_plain prog_two_calls)
      = Ok st'
      /\ exists recs,
          output_data st' = completed st' :: concat recs
          /\ completed st' = Z.of_nat (length recs)
          /\ Forall is_record recs)
  /\ (exists st1,
      execute_pass (P := echo_platform true)
        (echo_state flags_plain prog_two_calls) = Ok (2, st1)
      /\ running st1 = 0 /\ completed st1 = 2)
  /\ (exists st',
      handle_completion (P := echo_platform true) 0 signals_state = Ok st'
      /\ completed st' = 1)
  /\ terminates
       (execute_one (P := echo_platform false)
          (echo_state flags_threaded prog_two_calls)).
Proof.
  destruct (@completion_records_spec (list Z) (echo_platform true))
    as (Hone & Hexec & Hpass & _).
  split; [| split; [| split]];
    [| | | exact (proj1 (proj2 (proj2 (proj2 (proj2
             (@completion_records_spec (list Z) (echo_platform false))))
             (echo_state flags_threaded prog_two_calls)
             (echo_cover_bounded false) (echo_state_good _ _))))].
  - set (st := echo_state flags_plain prog_two_calls).
    set (st' := state_of (execute_one (P := echo_platform true) st)
                  (fun s => s) st).
    assert (H : execute_one (P := echo_platform true) st = Ok st')
      by (vm_compute; reflexivity).
    exists st'. split; [exact H |].
    apply (Hexec st st'); [reflexivity | reflexivity | reflexivity
                          | reflexivity | exact H].
  - set (st := echo_state flags_plain prog_two_calls).
    set (st1 := state_of (execute_pass (P := echo_platform true) st) snd st).
    assert (H : execute_pass (P := echo_platform true) st = Ok (2, st1))
      by (vm_compute; reflexivity).
    exists st1. split; [exact H |].
    refine (proj2 (Hpass st 2 st1 _ _ _ _ _ H) _ _);
      try reflexivity.
    split; [reflexivity |].
    intros j Hj Hcr. exfalso.
    assert (j = 0 \/ j = 1 \/ j = 2 \/ j = 3 \/ j = 4 \/ j = 5 \/ j = 6
            \/ j = 7 \/ j = 8 \/ j = 9 \/ j = 10 \/ j = 11 \/ j = 12
            \/ j = 13 \/ j = 14 \/ j = 15) as Hcases
        by (unfold kMaxThreads in Hj; lia).
    repeat (destruct Hcases as [-> | Hcases]; [vm_compute in Hcr; discriminate |]).
    subst j. vm_compute in Hcr. discriminate.
  - set (st' := state_of (handle_completion (P := echo_platform true) 0
                            signals_state) (fun s => s) signals_state).
    assert (H : handle_completion (P := echo_platform true) 0 signals_state
                = Ok st') by (vm_compute; reflexivity).
    exists st'. split; [exact H |].
    destruct (Hone 0 signals_state st' ltac:(vm_compute; lia) H) as [_ Hc].
    destruct (Hc eq_refl) as (nsig & ncover & ncomps & payload & _ & E & _).
    rewrite E. reflexivity.
Defined.

(** C7 as stated fails: in threaded mode a call whose worker does not
    come to the end of the call before the program ends is scheduled and
    never completed; with [collide] clear throughout, execute ends with
    one call scheduled, no completion record and a completed counter of
    zero. *)
Lemma completion_records_counterexample :
  exists st1 st',
    execute_pass (P := echo_platform false)
      (echo_state flags_threaded prog_one_call) = Ok (1, st1)
    /\ execute_one (P := echo_platform false)
         (echo_state flags_threaded prog_one_call) = Ok st'
    /\ collide st' = false
    /\ output_data st' = [0]
    /\ output_log st' = [OutAppend 0]
    /\ completed st' = 0
    /\ running st' = 1
    /\ th_handled (thread_at st' 0) = false.
Proof.
  set (st := echo_state flags_threaded prog_one_call).
  exists (state_of (execute_pass (P := echo_platform false) st) snd st),
    (state_of (execute_one (P := echo_platform false) st) (fun s => s) st).
  split; [vm_compute; reflexivity |].
  split; [vm_compute; reflexivity |].
  split; [vm_compute; reflexivity |].
  split; [vm_compute; reflexivity |].
  split; [vm_compute; reflexivity |].
  split; [vm_compute; reflexivity |].
  split; [vm_compute; reflexivity |].
  vm_compute. reflexivity.
Qed.

(** * Further properties of the executor *)

(** ** The framing of arguments and instructions *)

Section Framing.
Context {W : Type} {P : Platform W}.
Implicit Types st : state W.

Lemma read_result_next input results pos v pos' :
  read_result input results pos = Ok (v, pos') -> pos' = pos + 3.
Proof.
  unfold read_result. intros H. read_steps H.
  destruct (_ <=? _); [discriminate |]. injection H as _ <-. lia.
Qed.

Lemma read_arg_next pos st v pos' :
  read_arg pos st = Ok (v, pos') -> pos' = pos + 5.
Proof.
  unfold read_arg. intros H. read_steps H. destruct (_ =? arg_const).
  - read_steps H. injection H as _ <-. lia.
  - destruct (_ =? arg_result); [| discriminate].
    apply read_result_next in H. lia.
Qed.

Lemma read_args_next n st : forall pos vals pos',
  read_args n pos st = Ok (vals, pos') ->
  pos' = pos + 5 * Z.of_nat n /\ length vals = n.
Proof.
  induction n as [| n IH]; intros pos vals pos' H; cbn [read_args] in H.
  - injection H as <- <-. split; [lia | reflexivity].
  - apply bind_ok in H as ([a p1] & H1 & H).
    apply bind_ok in H as ([l p2] & H2 & H). injection H as <- <-.
    apply read_arg_next in H1. apply IH in H2 as [-> Hl].
    split; [lia | cbn; lia].
Qed.
End Framing.

(** An argument of a call takes five words of the program, whatever its
    kind: [typ] and [size], then a constant with its two bit-field words
    or the three words of a result descriptor.  So the [n] arguments of a
    call take [5 * n] words, and a call instruction takes [3 + 5 *
    num_args] words with its number, [copyout_index] and [num_args].  Any
    other [typ] than const and result is fatal. *)
Theorem read_arg_framing {W : Type} {P : Platform W} (pos : Z) (st : state W) :
  let word k := input_word (input_data st) (pos + k) in
  (forall v pos', read_arg pos st = Ok (v, pos') -> pos' = pos + 5)
  /\ (forall n vals pos',
      read_args n pos st = Ok (vals, pos') ->
      pos' = pos + 5 * Z.of_nat n /\ length vals = n)
  /\ (forall call_num call_index pos' call_index' st',
      execute_syscall_instr call_num pos call_index st
      = Ok (pos', call_index', st') ->
      pos' = pos + 2 + 5 * word 1 /\ call_index' = call_index + 1)
  /\ (8 * (pos + 4) < kMaxInput -> word 0 = arg_const ->
      read_arg pos st = Ok (word 2, pos + 5))
  /\ (8 * (pos + 1) < kMaxInput ->
      word 0 <> arg_const -> word 0 <> arg_result ->
      is_fail (read_arg pos st)).
Proof.
  intros word. split; [apply read_arg_next |].
  split; [intros n; apply read_args_next |].
  split; [| split].
  - intros call_num ci pos' ci' st' H. unfold execute_syscall_instr in H.
    destruct (_ <=? _); [discriminate |].
    apply bind_ok in H as ([coi p1] & R1 & H).
    apply read_input_inv in R1 as (_ & _ & ->).
    apply bind_ok in H as ([na p2] & R2 & H).
    apply read_input_inv in R2 as (_ & -> & ->).
    destruct (Z.ltb_spec kMaxArgs (input_word (input_data st) (pos + 1)));
      [discriminate |].
    apply bind_ok in H as ([vals p3] & H3 & H).
    apply bind_ok in H as ([th st1] & _ & H).
    apply bind_ok in H as (st2 & _ & H). injection H as <- <- _.
    apply read_args_next in H3 as [-> _].
    pose proof (u64_range (default 0 (input_data st !! Z.to_nat (pos + 1)))).
    unfold word. unfold input_word in *. split; lia.
  - intros Hp Ht. unfold word in Ht. rewrite Z.add_0_r in Ht.
    unfold read_arg.
    rewrite read_input_ok by lia. cbn [mbind result_bind].
    rewrite read_input_ok by lia. cbn [mbind result_bind].
    rewrite Ht. cbn [Z.eqb arg_const].
    rewrite read_input_ok by lia. cbn [mbind result_bind].
    rewrite read_input_ok by lia. cbn [mbind result_bind].
    rewrite read_input_ok by lia. cbn [mbind result_bind].
    unfold word. replace (pos + 1 + 1) with (pos + 2) by lia.
    replace (pos + 2 + 1 + 1 + 1) with (pos + 5) by lia. reflexivity.
  - intros Hp H0 H1. unfold word in H0, H1. rewrite Z.add_0_r in H0, H1.
    unfold read_arg.
    rewrite read_input_ok by lia. cbn [mbind result_bind].
    rewrite read_input_ok by lia. cbn [mbind result_bind].
    destruct (Z.eqb_spec (input_word (input_data st) pos) arg_const);
      [contradiction |].
    destruct (Z.eqb_spec (input_word (input_data st) pos) arg_result);
      [contradiction |]. exact I.
Qed.

(** ** Copyin of data *)

Section DataCopyin.
Context {W : Type} {P : Platform W}.
Implicit Types st : state W.

(** The loop that reads out the data words: [n - i] words from [pos],
    all of them inside the input. *)
Lemma skip_data_exact n st fuel : forall i pos,
  (Z.to_nat (262144 - pos) < fuel)%nat -> i <= n -> pos <= 262144 ->
  skip_data fuel i n pos st
  = if pos + (n - i) <=? 262144 then Ok (pos + (n - i))
    else Fail "input command overflows input".
Proof.
  induction fuel as [| fuel IH]; intros i pos Hf Hi Hp; [lia |].
  cbn [skip_data]. destruct (Z.ltb_spec i n) as [Hlt | Hge].
  - destruct (Z.eq_dec pos 262144) as [-> | Hne].
    + rewrite read_input_overflow by (vm_compute; discriminate).
      cbn [mbind result_bind].
      destruct (Z.leb_spec (262144 + (n - i)) 262144); [lia | reflexivity].
    + rewrite read_input_ok by (change kMaxInput with 2097152; lia).
      cbn [mbind result_bind]. rewrite IH by lia.
      replace (pos + 1 + (n - (i + 1))) with (pos + (n - i)) by lia.
      reflexivity.
  - replace (n - i) with 0 by lia. rewrite Z.add_0_r.
    destruct (Z.leb_spec pos 262144); [reflexivity | lia].
Qed.
End DataCopyin.

(** A copyin of data, [(addr, arg_data, size)] at [pos], copies [size]
    bytes from the words that follow and moves the cursor over
    [(size + 7) / 8] of them, the sum being taken in 64 bits: a [size]
    within 7 of [2^64] moves the cursor over no word at all.  The copyin
    fails when the data words do not end inside the input. *)
Theorem copyin_data_cursor {W : Type} {P : Platform W}
  (pos : Z) (st : state W) :
  let addr := input_word (input_data st) pos in
  let size := input_word (input_data st) (pos + 2) in
  let n := u64 (size + 7) / 8 in
  0 <= pos -> 8 * (pos + 2) < kMaxInput ->
  input_word (input_data st) (pos + 1) = arg_data ->
  (8 * (pos + 3 + n) <= kMaxInput ->
   execute_copyin pos st
   = Ok (pos + 3 + n,
         set_world st
           (memcpy_guest addr (input_data st) (pos + 3) size (world st))))
  /\ (kMaxInput < 8 * (pos + 3 + n) -> is_fail (execute_copyin pos st))
  /\ (size < 2 ^ 64 - 7 -> 8 * n < size + 8 /\ size <= 8 * n)
  /\ (2 ^ 64 - 7 <= size -> n = 0).
Proof.
  intros addr size n Hpos Hhdr Htyp.
  assert (Hsz : 0 <= size < 2 ^ 64) by apply u64_range.
  assert (Hn : 0 <= n).
  { unfold n. apply Z.div_pos; [apply u64_range | lia]. }
  assert (E : execute_copyin pos st
              = (input_pos ← skip_data (input_fuel (pos + 3)) 0 n (pos + 3) st;
                 Ok (input_pos,
                     set_world st
                       (memcpy_guest addr (input_data st) (pos + 3) size
                          (world st))))).
  { unfold execute_copyin.
    rewrite read_input_ok by lia. cbn [mbind result_bind].
    rewrite read_input_ok by lia. cbn [mbind result_bind].
    rewrite read_input_ok by lia. cbn [mbind result_bind].
    rewrite Htyp. cbn [Z.eqb arg_data arg_const arg_result Pos.eqb].
    replace (pos + 1 + 1) with (pos + 2) by lia.
    replace (pos + 2 + 1) with (pos + 3) by lia. reflexivity. }
  change kMaxInput with 2097152 in *.
  rewrite E, skip_data_exact by (try apply input_fuel_enough; lia).
  rewrite Z.sub_0_r.
  split; [| split; [| split]].
  - intros Hfit. destruct (Z.leb_spec (pos + 3 + n) 262144); [| lia].
    reflexivity.
  - intros Hout. destruct (Z.leb_spec (pos + 3 + n) 262144); [lia |].
    exact I.
  - intros Hs. unfold n, u64. rewrite Z.mod_small by lia.
    pose proof (Z.div_mod (size + 7) 8 ltac:(lia)).
    pose proof (Z.mod_pos_bound (size + 7) 8 ltac:(lia)). lia.
  - intros Hs. unfold n, u64.
    replace (size + 7) with (size + 7 - 2 ^ 64 + 1 * 2 ^ 64) by lia.
    rewrite Z.mod_add by lia. rewrite Z.mod_small by lia.
    apply Z.div_small. lia.
Qed.

Lemma copyin_data_cursor_witness :
  execute_copyin (P := echo_platform true) 0
    (echo_state flags_plain [0x2000; arg_data; 12; 1; 2; instr_eof])
  = Ok (5, echo_state flags_plain [0x2000; arg_data; 12; 1; 2; instr_eof]).
Proof.
  apply (proj1 (copyin_data_cursor (P := echo_platform true) 0
                  (echo_state flags_plain
                     [0x2000; arg_data; 12; 1; 2; instr_eof])
                  ltac:(lia) ltac:(vm_compute; reflexivity) eq_refl)).
  vm_compute. discriminate.
Defined.

(** ** Comparison records: order and writing *)

Lemma sign_extend_low n x :
  0 < n <= 64 -> sign_extend n x mod 2 ^ n = x mod 2 ^ n.
Proof.
  intros Hn. unfold sign_extend. cbv zeta.
  assert (Hp : 0 < 2 ^ n) by (apply Z.pow_pos_nonneg; lia).
  pose proof (Z.mod_pos_bound x (2 ^ n) Hp) as Hl.
  destruct (Z.testbit _ _); [| apply Z.mod_mod; lia].
  assert (H64 : 2 ^ 64 = 2 ^ (64 - n) * 2 ^ n).
  { rewrite <- Z.pow_add_r by lia. f_equal. lia. }
  assert (Hle : 2 ^ n <= 2 ^ 64) by (apply Z.pow_le_mono_r; lia).
  unfold u64.
  rewrite <- (Z.mod_add (x mod 2 ^ n - 2 ^ n) 1 (2 ^ 64)) by lia.
  rewrite (Z.mod_small (_ + 1 * 2 ^ 64)) by lia.
  rewrite H64.
  replace (x mod 2 ^ n - 2 ^ n + 1 * (2 ^ (64 - n) * 2 ^ n))
    with (x mod 2 ^ n + (2 ^ (64 - n) - 1) * 2 ^ n) by lia.
  rewrite Z.mod_add by lia. apply Z.mod_mod. lia.
Qed.

Lemma sign_extend_idem n x :
  0 < n <= 64 -> sign_extend n (sign_extend n x) = sign_extend n x.
Proof.
  intros Hn. unfold sign_extend at 1. cbv zeta.
  rewrite sign_extend_low by exact Hn. reflexivity.
Qed.

(** [operator<] is a strict order that is total up to [operator==], the
    equality on [(type, arg1, arg2)]: what [std::sort] followed by
    [std::unique] needs to leave one record of every such triple. *)
Theorem cmp_order_spec (a b c : kcov_comparison_t) :
  cmp_ltb a a = false
  /\ (cmp_ltb a b = true -> cmp_ltb b a = false)
  /\ (cmp_ltb a b = true -> cmp_ltb b c = true -> cmp_ltb a c = true)
  /\ (cmp_eqb a b = true <-> cmp_ltb a b = false /\ cmp_ltb b a = false)
  /\ (cmp_eqb a b = true <-> cmp_same a b)
  /\ (cmp_eqb a b = true -> cmp_ltb a c = cmp_ltb b c /\ cmp_ltb c a = cmp_ltb c b).
Proof.
  rewrite !cmp_ltb_key, !cmp_eqb_key.
  split; [| split; [| split; [| split; [| split]]]].
  - destruct (key_ltb (cmp_key a) (cmp_key a)) eqn:E; [| reflexivity].
    pose proof (key_ltb_asym _ _ E). congruence.
  - apply key_ltb_asym.
  - apply key_ltb_trans.
  - rewrite key_eqb_eq. split.
    + intros ->. split;
        (destruct (key_ltb (cmp_key b) (cmp_key b)) eqn:E; [| reflexivity];
         pose proof (key_ltb_asym _ _ E); congruence).
    + intros [H1 H2]. apply key_ltb_total; assumption.
  - rewrite key_eqb_eq. apply key_eq_same.
  - rewrite key_eqb_eq. intros ->. split; reflexivity.
Qed.

(** [write] emits three words, or five for 8-byte operands, each a
    32-bit value, and leaves the record with its arguments sign-extended:
    writing the record again emits the same words. *)
Theorem cmp_write_again (c : kcov_comparison_t) :
  let '(ws, c') := cmp_write c in
  (length ws = if Z.land (cmp_type c) KCOV_CMP_SIZE_MASK =? KCOV_CMP_SIZE8
               then 5%nat else 3%nat)
  /\ Forall (fun w => 0 <= w < 2 ^ 32) ws
  /\ cmp_type c' = cmp_type c /\ cmp_pc c' = cmp_pc c
  /\ cmp_write c' = (ws, c').
Proof.
  unfold cmp_write. cbv zeta.
  destruct (size_mask_cases (cmp_type c)) as [E | [E | [E | E]]];
    rewrite E; cbn [Z.eqb KCOV_CMP_SIZE1 KCOV_CMP_SIZE2 KCOV_CMP_SIZE4
                      KCOV_CMP_SIZE8 Pos.eqb negb cmp_type cmp_arg1 cmp_arg2
                      cmp_pc];
    rewrite ?E;
    cbn [Z.eqb KCOV_CMP_SIZE1 KCOV_CMP_SIZE2 KCOV_CMP_SIZE4
           KCOV_CMP_SIZE8 Pos.eqb negb];
    rewrite ?sign_extend_idem by lia;
    (split; [reflexivity |]);
    (split; [repeat constructor; apply u32_range |]);
    repeat split.
Qed.

(** ** Coverage with [flag_dedup_cover] *)

(** With [flag_dedup_cover] the PCs written out are the 64-bit words of
    the coverage buffer in strictly increasing order, every value once:
    the sorting and the uniquing come before the truncation to 32 bits.
    Without the flag they are the words as the buffer has them. *)
Theorem cover_dedup_spec (th : thread_t) :
  let pcs := cover_words th (u32 (th_cover_size th)) in
  StronglySorted Z.lt (cover_pcs true th)
  /\ (forall pc, In pc (cover_pcs true th) <-> In pc pcs)
  /\ (length (cover_pcs true th) <= length pcs)%nat
  /\ length pcs = Z.to_nat (u32 (th_cover_size th))
  /\ cover_pcs false th = pcs.
Proof.
  intros pcs. unfold cover_pcs. cbv zeta. fold pcs.
  assert (S : StronglySorted (fun a b => Z.ltb a b = true)
                (std_unique Z.eqb (std_sort Z.ltb pcs))
              /\ forall a, In a (std_unique Z.eqb (std_sort Z.ltb pcs))
                           <-> In a pcs).
  { apply sort_unique_spec.
    - intros a b H. apply Z.ltb_lt in H. apply Z.ltb_ge. lia.
    - intros a b c H1 H2. apply Z.ltb_lt in H1, H2. apply Z.ltb_lt. lia.
    - intros a b H1 H2. apply Z.ltb_ge in H1, H2. lia.
    - intros a b. apply Z.eqb_eq. }
  destruct S as [S1 S2].
  split; [| split; [exact S2 | split; [| split; [| reflexivity]]]].
  - clear S2. induction S1 as [| a l S1 IH Hall]; constructor; [exact IH |].
    eapply List.Forall_impl; [| exact Hall]. intros b Hb.
    apply Z.ltb_lt, Hb.
  - etransitivity; [apply std_unique_length |].
    rewrite std_sort_length. reflexivity.
  - unfold pcs, cover_words. rewrite length_map, length_seq. reflexivity.
Qed.

(** ** Signals are emitted once *)

Lemma dedup_emits_nonzero sig tbl tbl1 :
  dedup sig tbl = (false, tbl1) -> dedup_overwrites sig tbl = false ->
  sig <> 0.
Proof.
  intros H Hno ->. revert H Hno. unfold dedup_overwrites. cbn [forallb].
  dedup_cases; cbn [negb andb]; intros H Hno;
    try discriminate; congruence.
Qed.

Lemma spec_signals_table pcs : forall prev tbl,
  snd (spec_signals pcs prev tbl) = dedup_all (edge_signals pcs prev) tbl.
Proof.
  induction pcs as [| pc pcs IH]; intros prev tbl; [reflexivity |].
  cbn [spec_signals edge_signals dedup_all fold_left]. cbv zeta.
  change (pc mod 2 ^ 32) with (u32 pc).
  destruct (dedup (Z.lxor (u32 pc) prev) tbl) as [dup tbl1] eqn:E.
  rewrite <- hash_spec by apply u32_range.
  specialize (IH (hash (u32 pc)) tbl1).
  destruct (spec_signals pcs (hash (u32 pc)) tbl1) as [sigs tbl2].
  cbn [snd] in *. exact IH.
Qed.

Lemma spec_signals_fst_in pcs : forall prev tbl s,
  In s (fst (spec_signals pcs prev tbl)) -> In s (edge_signals pcs prev).
Proof.
  induction pcs as [| pc pcs IH]; intros prev tbl s; [cbn; tauto |].
  cbn [spec_signals edge_signals]. cbv zeta.
  change (pc mod 2 ^ 32) with (u32 pc).
  destruct (dedup (Z.lxor (u32 pc) prev) tbl) as [dup tbl1].
  rewrite <- hash_spec by apply u32_range.
  specialize (IH (hash (u32 pc)) tbl1 s).
  destruct (spec_signals pcs (hash (u32 pc)) tbl1) as [sigs tbl2].
  cbn [fst] in *. destruct dup; cbn [In]; tauto.
Qed.

(** While no call of [dedup] overwrites, a signal that the table holds
    is not emitted, the signals emitted are different from one another
    and from 0, and the table holds every one of them. *)
Lemma spec_signals_nodup pcs : forall prev tbl,
  length tbl = Z.to_nat dedup_table_size ->
  no_overwrite (edge_signals pcs prev) tbl = true ->
  let r := spec_signals pcs prev tbl in
  List.NoDup (fst r) /\ ~ In 0 (fst r)
  /\ (forall s, In s (fst r) -> dedup_finds (snd r) s)
  /\ (forall s, s <> 0 -> dedup_finds tbl s -> ~ In s (fst r)).
Proof.
  induction pcs as [| pc pcs IH]; intros prev tbl Hlen Hno.
  - cbn. split; [constructor |]. split; [tauto |]. split; [tauto |].
    intros s _ _ [].
  - pose proof (spec_signals_table (pc :: pcs) prev tbl) as Htbl.
    cbn [spec_signals edge_signals no_overwrite dedup_all fold_left] in *.
    cbv zeta in *. change (pc mod 2 ^ 32) with (u32 pc) in *.
    set (sig := Z.lxor (u32 pc) prev) in *.
    apply andb_true_iff in Hno as [Hov Hno].
    apply negb_true_iff in Hov.
    destruct (dedup sig tbl) as [dup tbl1] eqn:E. cbn [snd] in *.
    rewrite <- hash_spec in * by apply u32_range.
    assert (Hlen1 : length tbl1 = Z.to_nat dedup_table_size).
    { rewrite <- Hlen. change tbl1 with (snd (dup, tbl1)). rewrite <- E.
      apply dedup_length. }
    specialize (IH (hash (u32 pc)) tbl1 Hlen1 Hno).
    pose proof (spec_signals_table pcs (hash (u32 pc)) tbl1) as Htbl1.
    destruct (spec_signals pcs (hash (u32 pc)) tbl1) as [sigs tbl2].
    cbn [fst snd] in *. destruct IH as (Hnd & Hz & Hfin & Hnot).
    assert (Hpres : forall s, s <> 0 -> dedup_finds tbl s ->
                              dedup_finds tbl1 s).
    { intros s Hs Hf. change tbl1 with (snd (dup, tbl1)). rewrite <- E.
      apply dedup_finds_preserved; assumption. }
    destruct dup.
    + split; [exact Hnd |]. split; [exact Hz |]. split; [exact Hfin |].
      intros s Hs Hf. apply Hnot; auto.
    + pose proof (dedup_emits_nonzero _ _ _ E Hov) as Hsig.
      pose proof (dedup_false_finds _ _ _ Hlen E) as Hf1.
      split; [constructor; [apply Hnot; assumption | exact Hnd] |].
      split; [intros [H | H]; [congruence | contradiction] |].
      split.
      * intros s [<- | Hin]; [| apply Hfin, Hin].
        rewrite Htbl1. apply dedup_all_finds; assumption.
      * intros s Hs Hf [<- | Hin]; [| apply (Hnot s); auto].
        apply dedup_finds_true in Hf. congruence.
Qed.

(** The signal loop of a completion, on a table in which no probe
    sequence runs out of room, appends signals that are different from
    one another and from 0, each one an edge of the coverage buffer that
    the table did not hold, and leaves the table holding them all. *)
Theorem signals_emitted_once {W : Type}
  (th : thread_t) (st st' : state W) (nsig : Z) :
  let sigs_all := edge_signals (cover_words th (th_cover_size th)) 0 in
  collide st = false ->
  length (dedup_table st) = Z.to_nat dedup_table_size ->
  0 <= th_cover_size th < 2 ^ 32 ->
  no_overwrite sigs_all (dedup_table st) = true ->
  signal_loop (Z.to_nat (th_cover_size th)) th 0 0 0 st = Ok (nsig, st') ->
  exists sigs,
    output_data st' = output_data st ++ sigs
    /\ nsig = Z.of_nat (length sigs)
    /\ List.NoDup sigs /\ ~ In 0 sigs
    /\ (forall s, In s sigs ->
                  In s sigs_all /\ ~ dedup_finds (dedup_table st) s
                  /\ dedup_finds (dedup_table st') s).
Proof.
  intros sigs_all Hc Hlen Hsz Hno H.
  apply signal_loop_ok in H; try assumption; try lia.
  cbv zeta in H.
  assert (Ew : map (fun k => cover_word th (0 + Z.of_nat k))
                 (seq 0 (Z.to_nat (th_cover_size th)))
               = cover_words th (th_cover_size th)).
  { unfold cover_words. apply map_ext. intros k. f_equal. }
  rewrite Ew in H. clear Ew.
  pose proof (spec_signals_nodup (cover_words th (th_cover_size th)) 0
                (dedup_table st) Hlen Hno) as Hs.
  pose proof (spec_signals_fst_in (cover_words th (th_cover_size th)) 0
                (dedup_table st)) as Hin.
  cbv zeta in Hs.
  destruct (spec_signals _ _ _) as [sigs tbl']. cbn [fst snd] in *.
  destruct H as (-> & -> & Hle). destruct Hs as (Hnd & Hz & Hfin & Hnot).
  exists sigs. cbn. split; [reflexivity |].
  split; [rewrite Z.add_0_l; apply u32_id; lia |].
  split; [exact Hnd |]. split; [exact Hz |].
  intros s Hs. split; [apply Hin, Hs |]. split; [| apply Hfin, Hs].
  intros Hf. apply (Hnot s); [congruence | exact Hf | exact Hs].
Qed.

Lemma signals_emitted_once_witness :
  exists st' sigs,
    signal_loop 5 (thread_at signals_state 0) 0 0 0 signals_state
    = Ok (3, st')
    /\ output_data st' = [0] ++ sigs
    /\ List.NoDup sigs /\ ~ In 0 sigs.
Proof.
  set (th := thread_at signals_state 0).
  set (st' := state_of (signal_loop 5 th 0 0 0 signals_state) snd
                signals_state).
  assert (H : signal_loop 5 th 0 0 0 signals_state = Ok (3, st'))
    by (vm_compute; reflexivity).
  destruct (signals_emitted_once th signals_state
              st' 3 eq_refl ltac:(vm_compute; reflexivity)
              ltac:(vm_compute; split; [discriminate | reflexivity])
              ltac:(vm_compute; reflexivity) H)
    as (sigs & Hout & _ & Hnd & Hz & _).
  exists st', sigs. auto.
Defined.

(** ** The result table after a completion *)

Section CopyoutResults.
Context {W : Type} {P : Platform W}.
Implicit Types st : state W.

Lemma copyout_ok addr size (w : W) v :
  copyout addr size w = Ok v ->
  v = default default_value (load_guest size addr w).
Proof.
  unfold copyout. cbv zeta. destruct (_ || _ || _ || _); [| discriminate].
  intros [= <-]. reflexivity.
Qed.

Lemma after_copyouts_S input (w : W) p n results :
  after_copyouts input w p (S n) results
  = after_copyouts input w (p + 4) n
      (copyout_record_store input w p results 0).
Proof.
  unfold after_copyouts. cbn [seq fold_left].
  rewrite <- seq_shift.
  generalize (copyout_record_store input w p results 0) as rs.
  generalize (seq 0 n) as l.
  induction l as [| k l IH]; intros rs; [reflexivity |].
  cbn [List.map fold_left]. rewrite IH. f_equal.
  unfold copyout_record_store. cbv zeta.
  replace (p + 4 + 4 * Z.of_nat k) with (p + 4 * Z.of_nat (S k)) by lia.
  reflexivity.
Qed.

(** The loop over a run of [n] COPYOUT records stores, record after
    record, the value read from guest memory under the index of the
    record. *)
Lemma copyout_loop_results i (n : nat) : forall fuel st st1,
  (Z.to_nat i < length (threads st))%nat ->
  let p := th_copyout_pos (thread_at st i) in
  (forall k, (k < n)%nat ->
             input_word (input_data st) (p + 4 * Z.of_nat k) = instr_copyout) ->
  input_word (input_data st) (p + 4 * Z.of_nat n) <> instr_copyout ->
  copyout_loop fuel i st = Ok st1 ->
  results st1
  = after_copyouts (input_data st) (world st) p n (results st).
Proof.
  induction n as [| n IH]; intros fuel st st1 Hi p Hrun Hend H;
    (destruct fuel as [| fuel]; [discriminate |]);
    cbn [copyout_loop] in H;
    apply bind_ok in H as ([instr sa] & Ha & H);
    pose proof Ha as Ha';
    apply read_copyout_pos_ok in Ha' as (_ & _ & Sa);
    apply read_copyout_pos_step in Ha as (-> & Pa & Ia & La);
      try exact Hi; fold p in Pa, H |- *.
  - replace (p + 4 * Z.of_nat 0) with p in Hend by lia.
    rewrite (proj2 (Z.eqb_neq _ _) Hend) in H.
    injection H as <-. rewrite Sa. reflexivity.
  - pose proof (Hrun O ltac:(lia)) as H0.
    replace (p + 4 * Z.of_nat 0) with p in H0 by lia.
    rewrite H0, Z.eqb_refl in H.
    apply bind_ok in H as ([index sb] & Hb & H). pose proof Hb as Hb'.
    apply read_copyout_pos_ok in Hb' as (_ & _ & Sb).
    apply read_copyout_pos_step in Hb as (-> & Pb & Ib & Lb); [| lia].
    apply bind_ok in H as ([addr sc] & Hc & H). pose proof Hc as Hc'.
    apply read_copyout_pos_ok in Hc' as (_ & _ & Sc).
    apply read_copyout_pos_step in Hc as (-> & Pc & Ic & Lc); [| lia].
    apply bind_ok in H as ([size sd] & Hd & H). pose proof Hd as Hd'.
    apply read_copyout_pos_ok in Hd' as (_ & _ & Sd).
    apply read_copyout_pos_step in Hd as (-> & Pd & Id & Ld); [| lia].
    apply bind_ok in H as (v & Hv & H). apply copyout_ok in Hv.
    destruct (kMaxCommands <=? _); [discriminate |].
    assert (Rd : results sd = results st /\ world sd = world st).
    { rewrite Sd, Sc, Sb, Sa. split; reflexivity. }
    destruct Rd as [Rd Wd].
    match type of H with
    | copyout_loop _ _ ?s = _ => set (se := s) in *
    end.
    assert (Pe : th_copyout_pos (thread_at se i) = p + 4)
      by (change (thread_at se i) with (thread_at sd i); lia).
    apply IH in H.
    + rewrite H, Pe. rewrite after_copyouts_S.
      subst se. cbn [set_result set_results input_data world results].
      rewrite Id, Ic, Ib, Ia, Wd, Rd.
      f_equal. unfold copyout_record_store. cbv zeta.
      replace (p + 4 * Z.of_nat 0 + 1) with (p + 1) by lia.
      replace (p + 4 * Z.of_nat 0 + 2) with (p + 2) by lia.
      replace (p + 4 * Z.of_nat 0 + 3) with (p + 3) by lia.
      rewrite Hv, Wd, Ic, Ib, Ia, Pc, Pb, Pa.
      replace (p + 1 + 1) with (p + 2) by lia.
      replace (p + 2 + 1) with (p + 3) by lia. reflexivity.
    + subst se. cbn [set_result set_results threads]. lia.
    + rewrite Pe. intros k Hk. subst se.
      cbn [set_result set_results input_data].
      rewrite Id, Ic, Ib, Ia.
      replace (p + 4 + 4 * Z.of_nat k) with (p + 4 * Z.of_nat (S k)) by lia.
      apply Hrun. lia.
    + rewrite Pe. subst se. cbn [set_result set_results input_data].
      rewrite Id, Ic, Ib, Ia.
      replace (p + 4 + 4 * Z.of_nat n) with (p + 4 * Z.of_nat (S n)) by lia.
      exact Hend.
Qed.
End CopyoutResults.

(** A completion of a call that failed ([res] is -1) leaves the result
    table and the cursor of the slot as they are.  A completion of a
    call that did not fail stores [res] under [copyout_index], unless
    that is [no_copyout], and then, for every COPYOUT record that follows
    the call, in order, the value read from guest memory under the index
    of the record: of two stores under one index the later one stays. *)
Theorem completion_results {W : Type} {P : Platform W}
  (i : Z) (st st' : state W) (n : nat) :
  (Z.to_nat i < length (threads st))%nat ->
  handle_completion i st = Ok st' ->
  let th := thread_at st i in
  let p := th_copyout_pos th in
  let idx := th_copyout_index th in
  (th_res th = -1 ->
   results st' = results st /\ th_copyout_pos (thread_at st' i) = p)
  /\ (th_res th <> -1 ->
      (forall k, (k < n)%nat ->
                 input_word (input_data st) (p + 4 * Z.of_nat k)
                 = instr_copyout) ->
      input_word (input_data st) (p + 4 * Z.of_nat n) <> instr_copyout ->
      results st'
      = after_copyouts (input_data st) (world st) p n
          (if idx =? no_copyout then results st
           else <[Z.to_nat idx := mk_res true (u64 (th_res th))]> (results st))
      /\ (idx <> no_copyout -> idx < kMaxCommands)).
Proof.
  intros Hi H th p idx.
  unfold handle_completion in H. fold th in H.
  destruct (th_ready th || negb (th_done th) || th_handled th);
    [discriminate |].
  apply bind_ok in H as (st1 & H1 & H).
  apply bind_ok in H as (st2 & H2 & H). injection H as <-.
  assert (R2 : results st2 = results st1 /\ threads st2 = threads st1).
  { destruct (negb (collide st1)) eqn:Ec.
    - apply completion_output_ok in H2 as [-> _];
        [split; reflexivity
        | destruct (collide st1); [discriminate | reflexivity]].
    - injection H2 as <-. split; reflexivity. }
  destruct R2 as [R2 T2].
  cbn [set_running set_thread set_threads results].
  split.
  - intros Hres. rewrite Hres in H1. cbn [Z.eqb Pos.eqb negb] in H1.
    injection H1 as <-. split; [exact R2 |].
    unfold thread_at at 1. cbn [set_running set_thread set_threads threads].
    rewrite list_lookup_total_insert_eq by (rewrite T2; exact Hi).
    cbn [set_th_handled th_copyout_pos].
    unfold thread_at at 1. rewrite T2. reflexivity.
  - intros Hres Hrun Hend.
    destruct (Z.eqb_spec (th_res th) (-1)) as [| _]; [contradiction |].
    cbn [negb] in H1.
    apply bind_ok in H1 as (sa & Ha & H1).
    assert (Fa : thread_at sa i = th /\ input_data sa = input_data st
                 /\ length (threads sa) = length (threads st)
                 /\ world sa = world st
                 /\ results sa
                    = (if idx =? no_copyout then results st
                       else <[Z.to_nat idx := mk_res true (u64 (th_res th))]>
                              (results st))
                 /\ (idx <> no_copyout -> idx < kMaxCommands)).
    { fold idx in Ha. destruct (Z.eqb_spec idx no_copyout) as [E | E];
        cbn [negb] in Ha.
      - injection Ha as <-. repeat split. contradiction.
      - destruct (Z.leb_spec kMaxCommands idx); [discriminate |].
        injection Ha as <-. repeat split. intros _. assumption. }
    destruct Fa as (Ta & Ia & La & Wa & Ra & Hidx).
    apply (copyout_loop_results i n) in H1.
    + rewrite R2, H1, Ta, Ia, Wa, Ra. fold p. split; [reflexivity | exact Hidx].
    + lia.
    + rewrite Ta, Ia. exact Hrun.
    + rewrite Ta, Ia. exact Hend.
Qed.

Lemma completion_results_witness :
  exists st',
    handle_completion (P := echo_platform true) 0 roundtrip_state = Ok st'
    /\ res_at (results st') 5 = mk_res true 7
    /\ res_at (results st') 6 = mk_res true 0x2000
    /\ read_result (input_data st') (results st') 4 = Ok (4, 7).
Proof.
  set (st' := state_of (handle_completion (P := echo_platform true) 0
                          roundtrip_state) (fun s => s) roundtrip_state).
  assert (H : handle_completion (P := echo_platform true) 0 roundtrip_state
              = Ok st') by (vm_compute; reflexivity).
  exists st'. split; [exact H |].
  destruct (completion_results (P := echo_platform true) 0 roundtrip_state
              st' 1 ltac:(vm_compute; lia) H) as [_ Hr].
  destruct Hr as [Hr _].
  - vm_compute. discriminate.
  - intros k Hk. destruct k as [| k]; [vm_compute; reflexivity | lia].
  - vm_compute. discriminate.
  - rewrite Hr. split; [vm_compute; reflexivity |].
    split; [vm_compute; reflexivity |].
    assert (E : input_data st' = input_data roundtrip_state)
      by (vm_compute; reflexivity).
    rewrite E. vm_compute. reflexivity.
Defined.

(** ** The states of the slots *)

Lemma clean_bind {A B} (c : result A) (k : A -> result B) :
  clean c -> (forall a, c = Ok a -> clean (k a)) -> clean (mbind k c).
Proof. destruct c; cbn; auto. Qed.

Create HintDb clean.

Ltac clean_step :=
  first
    [ exact I
    | reflexivity
    | solve [auto with clean]
    | apply clean_bind;
      [| let a := fresh "a" in
         let Ha := fresh "Ha" in
         intros a Ha;
         repeat match goal with
                | x : (_ * _)%type |- _ => destruct x
                end ]
    | match goal with
      | |- clean (if ?b then _ else _) => destruct b
      | |- clean (match ?e with _ => _ end) => destruct e
      | |- clean (let _ := _ in _) => cbv zeta
      end ].

Ltac clean_tac := repeat clean_step.

Lemma active_count_nonneg l : 0 <= active_count l.
Proof.
  induction l as [| th l IH]; cbn [active_count]; [lia |].
  destruct (slot_active th); cbn [Z.b2z]; lia.
Qed.

Lemma active_count_insert l : forall (i : nat) th',
  (i < length l)%nat ->
  active_count (<[i := th']> l)
  = active_count l - Z.b2z (slot_active (l !!! i)) + Z.b2z (slot_active th').
Proof.
  induction l as [| th l IH]; intros i th' Hi; [cbn in Hi; lia |].
  destruct i as [| i]; cbn [active_count].
  - cbn. lia.
  - change (<[S i := th']> (th :: l)) with (th :: <[i := th']> l).
    cbn [active_count]. rewrite IH by (cbn in Hi; lia).
    change ((th :: l) !!! S i) with (l !!! i). lia.
Qed.

Lemma slot_ok_at {W : Type} (st : state W) i :
  Forall (fun th => slot_state_ok th = true) (threads st) ->
  (Z.to_nat i < length (threads st))%nat ->
  slot_state_ok (thread_at st i) = true.
Proof.
  intros Hall Hi. unfold thread_at.
  destruct (lookup_lt_is_Some_2 _ _ Hi) as [th E].
  rewrite (list_lookup_total_correct _ _ _ E).
  eapply Forall_lookup_1 in Hall; [exact Hall | exact E].
Qed.

(** A step that replaces one slot. *)
Lemma slots_inv_update {W : Type} (st st' : state W) i th' :
  slots_inv st -> (Z.to_nat i < length (threads st))%nat ->
  threads st' = <[Z.to_nat i := th']> (threads st) ->
  slot_state_ok th' = true ->
  running st' = running st - Z.b2z (slot_active (thread_at st i))
                + Z.b2z (slot_active th') ->
  flags st' = flags st -> collide st' = collide st ->
  slots_inv st'.
Proof.
  intros (Hwf & Hall & Hrun & Hcf & Hnt) Hi Ht Hok Hr Hf Hc.
  unfold slots_inv, wf_threads in *. rewrite Ht, Hf, Hc.
  split; [rewrite length_insert; exact Hwf |].
  split; [apply Forall_insert; assumption |].
  split; [| auto].
  rewrite Hr, Hrun, active_count_insert by exact Hi. reflexivity.
Qed.

(** A step that leaves the states of the slots and the counters. *)
Lemma slots_inv_same {W : Type} (st st' : state W) :
  slots_inv st -> threads st' = threads st -> running st' = running st ->
  flags st' = flags st -> collide st' = collide st -> slots_inv st'.
Proof.
  intros (Hwf & Hall & Hrun & Hcf & Hnt) Ht Hr Hf Hc.
  unfold slots_inv, wf_threads in *. rewrite Ht, Hr, Hf, Hc. auto.
Qed.

Lemma slot_ok_finished th :
  slot_state_ok th = true -> th_done th = true -> th_handled th = false ->
  th_created th = true /\ th_ready th = false.
Proof.
  unfold slot_state_ok.
  destruct (th_created th), (th_ready th), (th_done th), (th_handled th);
    intros; try discriminate; auto.
Qed.

Lemma slot_ok_idle th :
  slot_state_ok th = true -> th_done th = true -> th_handled th = true ->
  th_created th = true /\ th_ready th = false.
Proof.
  unfold slot_state_ok.
  destruct (th_created th), (th_ready th), (th_done th), (th_handled th);
    intros; try discriminate; auto.
Qed.

Lemma slot_ok_scheduled th :
  slot_state_ok th = true -> th_created th = true -> th_ready th = true ->
  th_done th = false /\ th_handled th = false.
Proof.
  unfold slot_state_ok.
  destruct (th_created th), (th_ready th), (th_done th), (th_handled th);
    intros; try discriminate; auto.
Qed.

Lemma slot_ok_busy th :
  slot_state_ok th = true -> th_created th = true -> th_done th = false ->
  th_handled th = false.
Proof.
  unfold slot_state_ok.
  destruct (th_created th), (th_ready th), (th_done th), (th_handled th);
    intros; try discriminate; auto.
Qed.

Lemma slot_ok_fresh th :
  slot_state_ok th = true -> th_created th = false ->
  th_ready th = false /\ th_done th = false /\ th_handled th = false.
Proof.
  unfold slot_state_ok.
  destruct (th_created th), (th_ready th), (th_done th), (th_handled th);
    intros; try discriminate; auto.
Qed.

Section Clean.
Context {W : Type} {P : Platform W}.
Implicit Types st : state W.

Lemma read_input_clean input pos peek : clean (read_input input pos peek).
Proof. unfold read_input. clean_tac. Qed.
Hint Resolve read_input_clean : clean.

Lemma read_result_clean input results pos :
  clean (read_result input results pos).
Proof. unfold read_result. clean_tac. Qed.
Hint Resolve read_result_clean : clean.

Lemma read_arg_clean pos st : clean (read_arg pos st).
Proof. unfold read_arg. clean_tac. Qed.
Hint Resolve read_arg_clean : clean.

Lemma read_args_clean n st : forall pos, clean (read_args n pos st).
Proof. induction n; intros pos; cbn [read_args]; clean_tac. Qed.
Hint Resolve read_args_clean : clean.

Lemma skip_data_clean fuel st : forall i n pos,
  clean (skip_data fuel i n pos st).
Proof. induction fuel; intros i n pos; cbn [skip_data]; clean_tac. Qed.
Hint Resolve skip_data_clean : clean.

Lemma csum_chunks_clean fuel st : forall chunk n csum pos,
  clean (csum_chunks fuel chunk n csum pos st).
Proof.
  induction fuel; intros chunk n csum pos; cbn [csum_chunks]; clean_tac.
Qed.
Hint Resolve csum_chunks_clean : clean.

Lemma copyin_clean addr v size bf_off bf_len (w : W) :
  clean (copyin addr v size bf_off bf_len w).
Proof. unfold copyin. clean_tac. Qed.
Hint Resolve copyin_clean : clean.

Lemma copyin_csum_clean addr size pos st :
  clean (copyin_csum addr size pos st).
Proof. unfold copyin_csum. clean_tac. Qed.
Hint Resolve copyin_csum_clean : clean.

Lemma execute_copyin_clean pos st : clean (execute_copyin pos st).
Proof. unfold execute_copyin. clean_tac. Qed.
Hint Resolve execute_copyin_clean : clean.

Lemma write_output_clean v st : clean (write_output v st).
Proof. unfold write_output. clean_tac. Qed.
Hint Resolve write_output_clean : clean.

Lemma write_words_clean l : forall st, clean (write_words l st).
Proof. induction l; intros st; cbn [write_words]; clean_tac. Qed.
Hint Resolve write_words_clean : clean.

Lemma signal_loop_clean n th : forall i prev nsig st,
  clean (signal_loop n th i prev nsig st).
Proof.
  induction n; intros i prev nsig st; cbn [signal_loop]; clean_tac.
Qed.
Hint Resolve signal_loop_clean : clean.

Lemma write_cover_clean th st : clean (write_cover th st).
Proof. unfold write_cover. clean_tac. Qed.
Hint Resolve write_cover_clean : clean.

Lemma write_comps_clean l : forall n st, clean (write_comps l n st).
Proof. induction l; intros n st; cbn [write_comps]; clean_tac. Qed.
Hint Resolve write_comps_clean : clean.

Lemma write_feedback_clean th st : clean (write_feedback th st).
Proof. unfold write_feedback. clean_tac. Qed.
Hint Resolve write_feedback_clean : clean.

Lemma out_store_clean pos v st : clean (out_store pos v st).
Proof. unfold out_store. clean_tac. Qed.
Hint Resolve out_store_clean : clean.

Lemma completion_output_clean i st : clean (completion_output i st).
Proof. unfold completion_output. clean_tac. Qed.
Hint Resolve completion_output_clean : clean.

Lemma copyout_clean addr size (w : W) : clean (copyout addr size w).
Proof. unfold copyout. clean_tac. Qed.
Hint Resolve copyout_clean : clean.

Lemma read_copyout_pos_clean i st : clean (read_copyout_pos i st).
Proof. unfold read_copyout_pos. clean_tac. Qed.
Hint Resolve read_copyout_pos_clean : clean.

Lemma copyout_loop_clean fuel i : forall st, clean (copyout_loop fuel i st).
Proof. induction fuel; intros st; cbn [copyout_loop]; clean_tac. Qed.
Hint Resolve copyout_loop_clean : clean.

(** *** The steps on a slot *)

Lemma copyout_loop_inv fuel i st st1 :
  slots_inv st -> (Z.to_nat i < length (threads st))%nat ->
  copyout_loop fuel i st = Ok st1 -> slots_inv st1.
Proof.
  intros Hinv Hi H. apply copyout_loop_frame in H; [| exact Hi].
  destruct H as (Ff & Fr & _ & Fc & _ & _ & _ & _ & _ & pos & Ht).
  pose proof Hinv as (_ & Hall & _).
  eapply (slots_inv_update st st1 i); try eassumption.
  - change (slot_state_ok (set_th_copyout_pos (thread_at st i) pos))
      with (slot_state_ok (thread_at st i)).
    apply slot_ok_at; assumption.
  - change (slot_active (set_th_copyout_pos (thread_at st i) pos))
      with (slot_active (thread_at st i)). lia.
Qed.

Lemma handle_completion_inv i st :
  slots_inv st -> 0 <= i < kMaxThreads ->
  th_done (thread_at st i) = true -> th_handled (thread_at st i) = false ->
  clean (handle_completion i st)
  /\ forall st', handle_completion i st = Ok st' ->
       slots_inv st'
       /\ th_created (thread_at st' i) = true
       /\ th_ready (thread_at st' i) = false
       /\ th_done (thread_at st' i) = true
       /\ th_handled (thread_at st' i) = true
       /\ (forall j, 0 <= j -> j <> i -> thread_at st' j = thread_at st j).
Proof.
  intros Hinv Hi Hd Hh.
  pose proof Hinv as (Hwf & Hall & _).
  pose proof (in_range_threads st i Hwf Hi) as Hr.
  pose proof (slot_ok_at st i Hall Hr) as Hok.
  destruct (slot_ok_finished _ Hok Hd Hh) as [Hc Hrd].
  split.
  - unfold handle_completion. rewrite Hrd, Hd, Hh. cbn [negb orb].
    clean_tac.
  - intros st' H. apply handle_completion_ok in H; [| exact Hr].
    destruct H as (_ & Ff & Fc & _ & _ & Frun & (pos & Ht) & _).
    split; [| split; [| split; [| split; [| split]]]].
    + eapply (slots_inv_update st st' i); try eassumption; [| ].
      * unfold slot_state_ok. cbn. rewrite Hc, Hrd, Hd. reflexivity.
      * unfold slot_active. cbn. rewrite Hc, Hh. cbn. lia.
    + rewrite (thread_at_insert_eq _ _ _ _ Ht) by exact Hr. exact Hc.
    + rewrite (thread_at_insert_eq _ _ _ _ Ht) by exact Hr. exact Hrd.
    + rewrite (thread_at_insert_eq _ _ _ _ Ht) by exact Hr. exact Hd.
    + rewrite (thread_at_insert_eq _ _ _ _ Ht) by exact Hr. reflexivity.
    + intros j Hj Hne. apply (thread_at_insert _ _ i j _ Ht); lia.
Qed.

Lemma execute_call_inv i st :
  slots_inv st -> 0 <= i < kMaxThreads ->
  th_created (thread_at st i) = true -> th_done (thread_at st i) = false ->
  clean (execute_call i st)
  /\ forall st', execute_call i st = Ok st' ->
       slots_inv st'
       /\ th_created (thread_at st' i) = true
       /\ th_ready (thread_at st' i) = false
       /\ th_done (thread_at st' i) = true
       /\ th_handled (thread_at st' i) = false
       /\ (forall j, 0 <= j -> j <> i -> thread_at st' j = thread_at st j).
Proof.
  intros Hinv Hi Hc Hd.
  pose proof Hinv as (Hwf & Hall & _ & Hcf & _).
  pose proof (in_range_threads st i Hwf Hi) as Hr.
  pose proof (slot_ok_at st i Hall Hr) as Hok.
  pose proof (slot_ok_busy _ Hok Hc Hd) as Hh.
  split.
  - unfold execute_call. cbv zeta.
    destruct (flag_inject_fault (flags st)) eqn:Ef; cbn [andb].
    + destruct (collide st) eqn:Ec; [specialize (Hcf eq_refl); congruence |].
      destruct (_ =? _); cbn [mbind result_bind]; clean_tac.
    + cbn [mbind result_bind]. clean_tac.
  - intros st' H. apply execute_call_ok in H.
    destruct H as (th' & w & -> & Rr & Rd & Rh & Rc).
    assert (T : thread_at (set_world (set_thread st i th') w) i = th').
    { change (thread_at (set_world ?s _) i) with (thread_at s i).
      apply thread_at_set_thread_eq, Hr. }
    rewrite T.
    split; [| split; [congruence | split; [exact Rr | split; [exact Rd |
            split; [congruence |]]]]].
    + eapply (slots_inv_update st _ i th'); try eassumption;
        try reflexivity.
      * unfold slot_state_ok. rewrite Rc, Rr, Rd, Rh, Hc, Hh. reflexivity.
      * unfold slot_active. rewrite Rc, Rh. cbn [running set_world set_thread
          set_threads]. lia.
    + intros j Hj Hne.
      change (thread_at (set_world ?s _) j) with (thread_at s j).
      apply thread_at_set_thread_ne. lia.
Qed.

Lemma worker_progress_inv i ms st :
  slots_inv st -> 0 <= i < kMaxThreads ->
  clean (worker_progress i ms st)
  /\ forall st', worker_progress i ms st = Ok st' ->
       slots_inv st'
       /\ th_created (thread_at st' i) = th_created (thread_at st i)
       /\ th_handled (thread_at st' i) = th_handled (thread_at st i).
Proof.
  intros Hinv Hi. unfold worker_progress. cbv zeta.
  destruct (flag_threaded (flags st) && th_created (thread_at st i)
            && negb (th_done (thread_at st i))) eqn:Econd.
  - apply andb_true_iff in Econd as [Econd Hd].
    apply andb_true_iff in Econd as [_ Hc]. apply negb_true_iff in Hd.
    destruct (worker_poll i ms (world st)) as [p w].
    assert (Hinv' : slots_inv (set_world st w))
      by (eapply slots_inv_same; [exact Hinv | reflexivity ..]).
    pose proof Hinv as (Hwf & Hall & _).
    pose proof (in_range_threads st i Hwf Hi) as Hr.
    pose proof (slot_ok_busy _ (slot_ok_at st i Hall Hr) Hc Hd) as Hh.
    destruct p.
    + split; [exact I |]. intros st' [= <-]. auto.
    + split; [exact I |]. intros st' [= <-].
      change (thread_at (set_thread (set_world st w) i ?t))
        with (thread_at (set_thread st i t)).
      rewrite thread_at_set_thread_eq by exact Hr.
      split; [| split; reflexivity].
      eapply (slots_inv_update (set_world st w) _ i
                (set_th_ready (thread_at st i) false));
        try exact Hinv'; try reflexivity; try exact Hr.
      * unfold slot_state_ok. cbn. rewrite Hc, Hd, Hh. reflexivity.
      * change (slot_active (set_th_ready (thread_at st i) false))
          with (slot_active (thread_at st i)).
        change (thread_at (set_world st w) i) with (thread_at st i).
        cbn [running set_thread set_threads set_world]. lia.
    + destruct (execute_call_inv i (set_world st w) Hinv' Hi Hc Hd)
        as [Cl Ok'].
      split; [exact Cl |]. intros st' H.
      destruct (Ok' st' H) as (I' & C' & _ & _ & H' & _).
      split; [exact I' |]. split; congruence.
  - split; [exact I |]. intros st' [= <-]. auto.
Qed.

Lemma event_isset_done_inv i st :
  slots_inv st -> 0 <= i < kMaxThreads ->
  clean (event_isset_done i st)
  /\ forall b st', event_isset_done i st = Ok (b, st') ->
       slots_inv st' /\ b = th_done (thread_at st' i)
       /\ th_created (thread_at st' i) = th_created (thread_at st i)
       /\ th_handled (thread_at st' i) = th_handled (thread_at st i).
Proof.
  intros Hinv Hi. unfold event_isset_done.
  destruct (worker_progress_inv i 0 st Hinv Hi) as [Cl Ok'].
  split; [apply clean_bind; [exact Cl | intros; exact I] |].
  intros b st' H. apply bind_ok in H as (st1 & H1 & H).
  injection H as <- <-. destruct (Ok' _ H1) as (? & ? & ?). auto.
Qed.

Lemma event_timedwait_done_inv i ms st :
  slots_inv st -> 0 <= i < kMaxThreads ->
  clean (event_timedwait_done i ms st)
  /\ forall b st', event_timedwait_done i ms st = Ok (b, st') ->
       slots_inv st' /\ b = th_done (thread_at st' i)
       /\ th_created (thread_at st' i) = th_created (thread_at st i)
       /\ th_handled (thread_at st' i) = th_handled (thread_at st i).
Proof.
  intros Hinv Hi. unfold event_timedwait_done.
  destruct (worker_progress_inv i ms st Hinv Hi) as [Cl Ok'].
  split; [apply clean_bind; [exact Cl | intros; exact I] |].
  intros b st' H. apply bind_ok in H as (st1 & H1 & H).
  injection H as <- <-. destruct (Ok' _ H1) as (? & ? & ?). auto.
Qed.

Lemma thread_create_inv i st :
  slots_inv st -> 0 <= i < kMaxThreads ->
  th_created (thread_at st i) = false ->
  slots_inv (thread_create i st)
  /\ th_created (thread_at (thread_create i st) i) = true
  /\ th_handled (thread_at (thread_create i st) i) = true.
Proof.
  intros Hinv Hi Hc.
  pose proof Hinv as (Hwf & Hall & _).
  pose proof (in_range_threads st i Hwf Hi) as Hr.
  pose proof (slot_ok_at st i Hall Hr) as Hok.
  destruct (slot_ok_fresh _ Hok Hc) as (_ & _ & Hh).
  unfold thread_create. cbv zeta.
  set (th' := mk_thread _ _ _ _ _ _ _ _ _ _ _ _ _ _ _ _).
  assert (I1 : slots_inv (set_thread st i th')).
  { eapply (slots_inv_update st _ i th'); try eassumption; try reflexivity.
    unfold slot_active. rewrite Hc. cbn. lia. }
  assert (T : thread_at (set_thread st i th') i = th')
    by (apply thread_at_set_thread_eq, Hr).
  change (flags (set_thread st i th')) with (flags st).
  destruct (flag_threaded (flags st)).
  - change (thread_at (set_world ?s _) i) with (thread_at s i). rewrite T.
    split; [| split; reflexivity].
    eapply slots_inv_same; [exact I1 | reflexivity ..].
  - rewrite T. split; [exact I1 | split; reflexivity].
Qed.

(** The scan stops at a slot that is idle, or goes over all the slots. *)
Lemma schedule_scan_inv n : forall i st,
  slots_inv st -> 0 <= i -> i + Z.of_nat n <= kMaxThreads ->
  clean (schedule_scan n i st)
  /\ forall i' st', schedule_scan n i st = Ok (i', st') ->
       slots_inv st' /\ i <= i' <= i + Z.of_nat n
       /\ (i' = i + Z.of_nat n
           \/ (th_created (thread_at st' i') = true
               /\ th_ready (thread_at st' i') = false
               /\ th_done (thread_at st' i') = true
               /\ th_handled (thread_at st' i') = true)).
Proof.
  induction n as [| n IH]; intros i st Hinv Hi Hn.
  - split; [exact I |]. intros i' st' [= <- <-].
    split; [exact Hinv |]. split; [lia | left; lia].
  - rewrite schedule_scan_S. cbv zeta.
    assert (Hir : 0 <= i < kMaxThreads) by lia.
    set (st0 := if negb (th_created (thread_at st i))
                then thread_create i st else st).
    assert (I0 : slots_inv st0).
    { subst st0. destruct (th_created (thread_at st i)) eqn:Ec; cbn [negb];
        [exact Hinv | apply thread_create_inv; assumption]. }
    clearbody st0.
    destruct (event_isset_done_inv i st0 I0 Hir) as [Cl1 Ok1].
    assert (S2 : forall st1, slots_inv st1 ->
               th_done (thread_at st1 i) = true ->
               clean (if negb (th_handled (thread_at st1 i))
                      then handle_completion i st1 else Ok st1)
               /\ forall st2,
                   (if negb (th_handled (thread_at st1 i))
                    then handle_completion i st1 else Ok st1) = Ok st2 ->
                   slots_inv st2
                   /\ th_created (thread_at st2 i) = true
                   /\ th_ready (thread_at st2 i) = false
                   /\ th_done (thread_at st2 i) = true
                   /\ th_handled (thread_at st2 i) = true).
    { intros st1 I1 Hd.
      destruct (th_handled (thread_at st1 i)) eqn:Eh; cbn [negb].
      - split; [exact I |]. intros st2 [= <-].
        pose proof I1 as (Hwf1 & Hall1 & _).
        destruct (slot_ok_idle (thread_at st1 i)) as [? ?];
          [apply slot_ok_at; [exact Hall1 | apply in_range_threads;
                                             assumption]
          | assumption | assumption |].
        auto.
      - destruct (handle_completion_inv i st1 I1 Hir Hd Eh) as [Cl2 Ok2].
        split; [exact Cl2 |]. intros st2 H2.
        destruct (Ok2 _ H2) as (? & ? & ? & ? & ? & _). auto. }
    split.
    + apply clean_bind; [exact Cl1 |]. intros [b st1] H1.
      destruct (Ok1 _ _ H1) as (I1 & -> & _).
      destruct (th_done (thread_at st1 i)) eqn:Ed.
      * apply clean_bind; [apply S2; assumption | intros; exact I].
      * apply IH; [exact I1 | lia | lia].
    + intros i' st' H. apply bind_ok in H as ([b st1] & H1 & H).
      destruct (Ok1 _ _ H1) as (I1 & -> & _).
      destruct (th_done (thread_at st1 i)) eqn:Ed.
      * apply bind_ok in H as (st2 & H2 & H). injection H as <- <-.
        destruct (S2 st1 I1 Ed) as [_ Ok2].
        destruct (Ok2 _ H2) as (? & ? & ? & ? & ?).
        split; [assumption |]. split; [lia |]. right. auto.
      * destruct (IH (i + 1) st1 I1 ltac:(lia) ltac:(lia)) as [_ Ok3].
        destruct (Ok3 _ _ H) as (? & ? & Hor).
        split; [assumption |]. split; [lia |].
        destruct Hor as [-> | Hor]; [left; lia | right; exact Hor].
Qed.

Lemma schedule_call_inv call_index call_num copyout_index num_args args pos
  st :
  slots_inv st ->
  clean (schedule_call call_index call_num copyout_index num_args args pos st)
  /\ forall i st',
      schedule_call call_index call_num copyout_index num_args args pos st
      = Ok (i, st') ->
      slots_inv st' /\ 0 <= i < kMaxThreads
      /\ th_created (thread_at st' i) = true
      /\ th_handled (thread_at st' i) = false
      /\ (flag_threaded (flags st') = false ->
          th_ready (thread_at st' i) = true).
Proof.
  intros Hinv. unfold schedule_call.
  destruct (schedule_scan_inv (Z.to_nat kMaxThreads) 0 st Hinv ltac:(lia)
              ltac:(reflexivity)) as [Cl1 Ok1].
  assert (S2 : forall i st1, schedule_scan (Z.to_nat kMaxThreads) 0 st
                             = Ok (i, st1) ->
               i <> kMaxThreads ->
               slots_inv st1 /\ 0 <= i < kMaxThreads
               /\ th_created (thread_at st1 i) = true
               /\ th_ready (thread_at st1 i) = false
               /\ th_done (thread_at st1 i) = true
               /\ th_handled (thread_at st1 i) = true).
  { intros i st1 H1 Hne. destruct (Ok1 _ _ H1) as (I1 & Hr & Hor).
    change (Z.of_nat (Z.to_nat kMaxThreads)) with kMaxThreads in *.
    destruct Hor as [-> | Hor]; [lia |].
    split; [exact I1 |]. split; [lia | exact Hor]. }
  assert (S3 : forall i st1,
             slots_inv st1 -> 0 <= i < kMaxThreads ->
             th_created (thread_at st1 i) = true ->
             th_handled (thread_at st1 i) = true ->
             let sa :=
               set_running
                 (set_thread st1 i
                    (mk_thread (th_created (thread_at st1 i))
                       (th_id (thread_at st1 i))
                       (th_cover_data (thread_at st1 i)) true false pos
                       copyout_index false call_index call_num num_args args
                       (th_res (thread_at st1 i))
                       (th_reserrno (thread_at st1 i))
                       (th_cover_size (thread_at st1 i))
                       (th_fault_injected (thread_at st1 i))))
                 (running (set_thread st1 i
                    (mk_thread (th_created (thread_at st1 i))
                       (th_id (thread_at st1 i))
                       (th_cover_data (thread_at st1 i)) true false pos
                       copyout_index false call_index call_num num_args args
                       (th_res (thread_at st1 i))
                       (th_reserrno (thread_at st1 i))
                       (th_cover_size (thread_at st1 i))
                       (th_fault_injected (thread_at st1 i)))) + 1) in
             slots_inv sa /\ th_created (thread_at sa i) = true
             /\ th_ready (thread_at sa i) = true
             /\ th_handled (thread_at sa i) = false).
  { intros i st1 I1 Hr Hc Hh sa.
    pose proof I1 as (Hwf1 & _).
    pose proof (in_range_threads st1 i Hwf1 Hr) as Hlt.
    subst sa. set (th' := mk_thread _ _ _ _ _ _ _ _ _ _ _ _ _ _ _ _).
    change (thread_at (set_running ?s _) i) with (thread_at s i).
    rewrite thread_at_set_thread_eq by exact Hlt.
    split; [| split; [exact Hc | split; reflexivity]].
    eapply (slots_inv_update st1 _ i th'); try eassumption;
      try reflexivity.
    + unfold slot_state_ok. cbn. rewrite Hc. reflexivity.
    + unfold slot_active. cbn. rewrite Hc, Hh. cbn. lia. }
  split.
  - apply clean_bind; [exact Cl1 |]. intros [i st1] H1.
    destruct (Z.eqb_spec i kMaxThreads) as [| Hne]; [exact I |].
    destruct (S2 _ _ H1 Hne) as (I1 & Hr & Hc & Hrd & Hd & Hh).
    rewrite Hrd, Hd, Hh. cbn [negb orb]. cbv zeta.
    apply clean_bind; [| intros; exact I].
    apply worker_progress_inv; [| exact Hr].
    apply (S3 i st1 I1 Hr Hc Hh).
  - intros i st' H. apply bind_ok in H as ([i0 st1] & H1 & H).
    destruct (Z.eqb_spec i0 kMaxThreads) as [| Hne]; [discriminate |].
    destruct (S2 _ _ H1 Hne) as (I1 & Hr & Hc & Hrd & Hd & Hh).
    rewrite Hrd, Hd, Hh in H. cbn [negb orb] in H. cbv zeta in H.
    apply bind_ok in H as (st2 & H2 & H). injection H as <- <-.
    destruct (S3 i0 st1 I1 Hr Hc Hh) as (Ia & Ca & Ra & Ha).
    match type of H2 with
    | worker_progress _ _ ?s = _ => set (sa := s) in *
    end.
    destruct (proj2 (worker_progress_inv i0 0 sa Ia Hr) _ H2)
      as (I2 & C2 & H2').
    split; [exact I2 |]. split; [exact Hr |].
    split; [congruence |]. split; [congruence |].
    intros Hnt. pose proof (worker_progress_silent _ _ _ _ H2) as (Ff & _).
    rewrite Ff in Hnt. rewrite worker_progress_direct in H2 by exact Hnt.
    injection H2 as <-. exact Ra.
Qed.

Lemma sweep_inv n : forall i st,
  slots_inv st -> 0 <= i -> i + Z.of_nat n <= kMaxThreads ->
  clean (sweep n i st)
  /\ forall st', sweep n i st = Ok st' -> slots_inv st'.
Proof.
  induction n as [| n IH]; intros i st Hinv Hi Hn.
  - split; [exact I |]. intros st' [= <-]. exact Hinv.
  - cbn [sweep]. assert (Hir : 0 <= i < kMaxThreads) by lia.
    assert (S1 : clean
                   (if negb (th_handled (thread_at st i))
                    then '(isset, st) ← event_isset_done i st;
                         if isset : bool then handle_completion i st else Ok st
                    else Ok st)
                 /\ forall st1,
                     (if negb (th_handled (thread_at st i))
                      then '(isset, st) ← event_isset_done i st;
                           if isset : bool then handle_completion i st
                           else Ok st
                      else Ok st) = Ok st1 -> slots_inv st1).
    { destruct (th_handled (thread_at st i)) eqn:Eh; cbn [negb].
      - split; [exact I |]. intros st1 [= <-]. exact Hinv.
      - destruct (event_isset_done_inv i st Hinv Hir) as [Cl1 Ok1]. split.
        + apply clean_bind; [exact Cl1 |]. intros [b st1] H1.
          destruct (Ok1 _ _ H1) as (I1 & -> & _ & Hh).
          destruct (th_done (thread_at st1 i)) eqn:Ed; [| exact I].
          apply handle_completion_inv; try assumption. congruence.
        + intros st2 H. apply bind_ok in H as ([b st1] & H1 & H).
          destruct (Ok1 _ _ H1) as (I1 & -> & _ & Hh).
          destruct (th_done (thread_at st1 i)) eqn:Ed.
          * eapply handle_completion_inv; [exact I1 | exact Hir | exact Ed
                                          | congruence | exact H].
          * injection H as <-. exact I1. }
    destruct S1 as [Cl1 Ok1]. split.
    + apply clean_bind; [exact Cl1 |]. intros st1 H1.
      apply IH; [apply Ok1, H1 | lia | lia].
    + intros st' H. apply bind_ok in H as (st1 & H1 & H).
      eapply IH; [apply Ok1, H1 | | | exact H]; lia.
Qed.

Lemma wait_call_inv th input_pos st :
  slots_inv st -> 0 <= th < kMaxThreads ->
  th_handled (thread_at st th) = false ->
  clean (wait_call th input_pos st)
  /\ forall st', wait_call th input_pos st = Ok st' -> slots_inv st'.
Proof.
  intros Hinv Hth Hh. unfold wait_call. cbv zeta.
  set (ms := if flag_debug (flags st) then 500 else 20).
  destruct (event_timedwait_done_inv th ms st Hinv Hth) as [Cl1 Ok1].
  assert (S2 : forall b st1, event_timedwait_done th ms st = Ok (b, st1) ->
               clean (if b : bool then handle_completion th st1 else Ok st1)
               /\ forall st2,
                   (if b : bool then handle_completion th st1 else Ok st1)
                   = Ok st2 -> slots_inv st2).
  { intros b st1 H1. destruct (Ok1 _ _ H1) as (I1 & -> & _ & Hh1).
    destruct (th_done (thread_at st1 th)) eqn:Ed.
    - destruct (handle_completion_inv th st1 I1 Hth Ed ltac:(congruence))
        as [Cl2 Ok2].
      split; [exact Cl2 |]. intros st2 H2. apply Ok2, H2.
    - split; [exact I |]. intros st2 [= <-]. exact I1. }
  assert (S3 : forall st2, slots_inv st2 ->
             clean
               (if running st2 <? 0 then Fail "running < 0"
                else if 0 <? running st2 then
                  '(next, _) ← read_input (input_data st2) input_pos true;
                  let last := next =? instr_eof in
                  let st := set_world st2
                              (sleep_ms (if last then 10 else 1) (world st2)) in
                  sweep (Z.to_nat kMaxThreads) 0 st
                else Ok st2)
             /\ forall st',
                 (if running st2 <? 0 then Fail "running < 0"
                  else if 0 <? running st2 then
                    '(next, _) ← read_input (input_data st2) input_pos true;
                    let last := next =? instr_eof in
                    let st := set_world st2
                                (sleep_ms (if last then 10 else 1) (world st2)) in
                    sweep (Z.to_nat kMaxThreads) 0 st
                  else Ok st2) = Ok st' -> slots_inv st').
  { intros st2 I2.
    assert (Hnn : 0 <= running st2).
    { destruct I2 as (_ & _ & -> & _). apply active_count_nonneg. }
    destruct (Z.ltb_spec (running st2) 0); [lia |].
    destruct (0 <? running st2).
    - assert (Isw : forall w, slots_inv (set_world st2 w))
        by (intros w; eapply slots_inv_same; [exact I2 | reflexivity ..]).
      split.
      + apply clean_bind; [apply read_input_clean |].
        intros [next p] _. cbv zeta.
        apply sweep_inv; [apply Isw | lia | reflexivity].
      + intros st' Hs. apply bind_ok in Hs as ([next p] & _ & Hs).
        eapply sweep_inv; [| | | exact Hs]; [apply Isw | lia | reflexivity].
    - split; [exact I |]. intros st' [= <-]. exact I2. }
  split.
  - apply clean_bind; [exact Cl1 |]. intros [b st1] H1.
    destruct (S2 _ _ H1) as [Cl2 Ok2].
    apply clean_bind; [exact Cl2 |]. intros st2 H2.
    apply S3, Ok2, H2.
  - intros st' H. apply bind_ok in H as ([b st1] & H1 & H).
    destruct (S2 _ _ H1) as [_ Ok2].
    apply bind_ok in H as (st2 & H2 & H).
    eapply S3; [apply Ok2, H2 | exact H].
Qed.

Lemma execute_direct_inv st :
  slots_inv st ->
  th_created (thread_at st 0) = true -> th_ready (thread_at st 0) = true ->
  clean (execute_direct 0 st)
  /\ forall st', execute_direct 0 st = Ok st' -> slots_inv st'.
Proof.
  intros Hinv Hc Hrd. unfold execute_direct. cbn [Z.eqb negb].
  assert (H0 : 0 <= 0 < kMaxThreads) by (unfold kMaxThreads; lia).
  assert (Hd0 : th_done (thread_at st 0) = false).
  { destruct (slot_ok_scheduled (thread_at st 0)) as [Hd _];
      [apply slot_ok_at; [apply Hinv | apply in_range_threads;
                                        [apply Hinv | exact H0]]
      | exact Hc | exact Hrd | exact Hd]. }
  destruct (execute_call_inv 0 st Hinv H0 Hc Hd0) as [Cl1 Ok1].
  split.
  - apply clean_bind; [exact Cl1 |]. intros st1 H1.
    destruct (Ok1 _ H1) as (I1 & _ & _ & Hd & Hh & _).
    apply handle_completion_inv; assumption.
  - intros st' H. apply bind_ok in H as (st1 & H1 & H).
    destruct (Ok1 _ H1) as (I1 & _ & _ & Hd & Hh & _).
    eapply handle_completion_inv; [exact I1 | exact H0 | exact Hd | exact Hh
                                  | exact H].
Qed.

(** *** The steps of the interpreter *)

(** In non-threaded mode, with no call in flight, the scan of
    [schedule_call] stops at slot 0. *)
Lemma schedule_call_direct_slot call_index call_num copyout_index num_args
  args pos st i st' :
  wf_threads st -> flag_threaded (flags st) = false -> idle st ->
  schedule_call call_index call_num copyout_index num_args args pos st
  = Ok (i, st') ->
  i = 0.
Proof.
  intros Hwf Hft [Hrun Hidle] H1. unfold schedule_call in H1.
  change (Z.to_nat kMaxThreads) with (S 15) in H1.
  rewrite schedule_scan_S in H1. cbv zeta in H1.
  set (st0 := if negb (th_created (thread_at st 0))
              then thread_create 0 st else st) in H1.
  assert (Hi0 : (Z.to_nat 0 < length (threads st))%nat)
    by (apply in_range_threads; [exact Hwf | unfold kMaxThreads; lia]).
  assert (F0 : flags st0 = flags st
               /\ th_done (thread_at st0 0) = true
               /\ th_handled (thread_at st0 0) = true).
  { subst st0. destruct (th_created (thread_at st 0)) eqn:Ec; cbn [negb].
    - destruct (Hidle 0 ltac:(unfold kMaxThreads; lia) Ec) as (? & ? & ?).
      auto.
    - unfold thread_create. cbv zeta.
      change (flags (set_thread st 0 _)) with (flags st). rewrite Hft.
      split; [reflexivity |].
      rewrite thread_at_set_thread_eq by exact Hi0. cbn. auto. }
  destruct F0 as (Ff & Td & Th).
  rewrite event_isset_done_direct in H1 by congruence.
  cbn [mbind result_bind] in H1.
  rewrite Td, Th in H1. cbn [negb mbind result_bind] in H1.
  change (0 =? kMaxThreads) with false in H1. cbv iota in H1.
  destruct (_ || _ || _); [discriminate |]. cbv zeta in H1.
  apply bind_ok in H1 as (st2 & _ & H1). injection H1 as <- _.
  reflexivity.
Qed.

Lemma exec_inv_world st w : exec_inv st -> exec_inv (set_world st w).
Proof.
  intros [Hinv Hidle]. split; [| exact Hidle].
  eapply slots_inv_same; [exact Hinv | reflexivity ..].
Qed.

Lemma execute_syscall_instr_inv call_num pos call_index st :
  exec_inv st ->
  clean (execute_syscall_instr call_num pos call_index st)
  /\ forall pos' call_index' st',
      execute_syscall_instr call_num pos call_index st
      = Ok (pos', call_index', st') -> exec_inv st'.
Proof.
  intros [Hinv Hidle]. pose proof Hinv as (Hwf & _ & _ & _ & Hnt).
  assert (S1 : forall copyout_index num_args args p th st1,
             schedule_call call_index call_num copyout_index num_args args p
               st = Ok (th, st1) ->
             clean
               (if collide st1 && (Z.rem (call_index + 1) 2 =? 0) then Ok st1
                else if flag_threaded (flags st1) then wait_call th p st1
                else execute_direct th st1)
             /\ forall st2,
                 (if collide st1 && (Z.rem (call_index + 1) 2 =? 0)
                  then Ok st1
                  else if flag_threaded (flags st1) then wait_call th p st1
                  else execute_direct th st1) = Ok st2 -> slots_inv st2).
  { intros copyout_index num_args args p th st1 H1.
    pose proof (schedule_call_step _ _ _ _ _ _ _ _ _ Hwf H1)
      as ((Ff & _) & _).
    destruct (schedule_call_inv call_index call_num copyout_index num_args
                args p st Hinv) as [_ Ok1].
    destruct (Ok1 _ _ H1) as (I1 & Hr & Hc & Hh & Hrd).
    destruct (collide st1 && _).
    - split; [exact I |]. intros st2 [= <-]. exact I1.
    - destruct (flag_threaded (flags st1)) eqn:Et.
      + apply wait_call_inv; assumption.
      + specialize (Hrd eq_refl). rewrite Ff in Et.
        pose proof (schedule_call_direct_slot _ _ _ _ _ _ _ _ _ Hwf Et
                      (Hidle Et) H1) as ->.
        apply execute_direct_inv; assumption. }
  split.
  - unfold execute_syscall_instr.
    destruct (_ <=? _); [reflexivity |].
    apply clean_bind; [apply read_input_clean |]. intros [coi p1] _.
    apply clean_bind; [apply read_input_clean |]. intros [na p2] _.
    destruct (_ <? _); [reflexivity |].
    apply clean_bind; [apply read_args_clean |]. intros [vals p3] _.
    cbv zeta.
    apply clean_bind;
      [apply (proj1 (schedule_call_inv _ _ _ _ _ _ _ Hinv)) |].
    intros [th st1] H1.
    apply clean_bind; [| intros; exact I].
    eapply S1, H1.
  - intros pos' ci' st' H. pose proof H as H'.
    apply execute_syscall_instr_step in H' as ((Ff & Fc & _) & _);
      [| exact Hwf].
    split.
    + unfold execute_syscall_instr in H.
      destruct (_ <=? _); [discriminate |].
      apply bind_ok in H as ([coi p1] & _ & H).
      apply bind_ok in H as ([na p2] & _ & H).
      destruct (_ <? _); [discriminate |].
      apply bind_ok in H as ([vals p3] & _ & H).
      apply bind_ok in H as ([th st1] & H1 & H).
      apply bind_ok in H as (st2 & H2 & H). injection H as _ _ <-.
      eapply S1; eassumption.
    + rewrite Ff. intros Et. destruct (Hnt Et) as [Hc _].
      eapply execute_syscall_instr_idle; [exact Hwf | exact Et | exact Hc
                                          | exact (Hidle Et) | exact H].
Qed.

Lemma execute_loop_inv fuel : forall pos call_index st,
  exec_inv st ->
  clean (execute_loop fuel pos call_index st)
  /\ forall n st', execute_loop fuel pos call_index st = Ok (n, st') ->
                   exec_inv st'.
Proof.
  induction fuel as [| fuel IH]; intros pos ci st Hinv;
    [split; [exact I | discriminate] |].
  cbn [execute_loop]. split.
  - apply clean_bind; [apply read_input_clean |]. intros [call_num p1] _.
    destruct (_ =? instr_eof); [exact I |].
    destruct (_ =? instr_copyin).
    { apply clean_bind; [apply execute_copyin_clean |].
      intros [p2 st1] H1. apply execute_copyin_world in H1 as [w ->].
      apply IH, exec_inv_world, Hinv. }
    destruct (_ =? instr_copyout).
    { apply clean_bind; [apply read_input_clean |]. intros [v2 p2] _.
      apply clean_bind; [apply read_input_clean |]. intros [v3 p3] _.
      apply clean_bind; [apply read_input_clean |]. intros [v4 p4] _.
      apply IH, Hinv. }
    destruct (execute_syscall_instr_inv call_num p1 ci st Hinv) as [Cl1 Ok1].
    apply clean_bind; [exact Cl1 |]. intros [[p2 ci2] st1] H1.
    apply IH. eapply Ok1, H1.
  - intros n st' H. apply bind_ok in H as ([call_num p1] & _ & H).
    destruct (_ =? instr_eof); [injection H as _ <-; exact Hinv |].
    destruct (_ =? instr_copyin).
    { apply bind_ok in H as ([p2 st1] & H1 & H).
      apply execute_copyin_world in H1 as [w ->].
      eapply IH; [| exact H]. apply exec_inv_world, Hinv. }
    destruct (_ =? instr_copyout).
    { apply bind_ok in H as ([v2 p2] & _ & H).
      apply bind_ok in H as ([v3 p3] & _ & H).
      apply bind_ok in H as ([v4 p4] & _ & H).
      eapply IH; [exact Hinv | exact H]. }
    apply bind_ok in H as ([[p2 ci2] st1] & H1 & H).
    eapply IH; [| exact H].
    eapply (execute_syscall_instr_inv call_num p1 ci st Hinv), H1.
Qed.

Lemma write_output_exec_inv v st o st' :
  write_output v st = Ok (o, st') -> exec_inv st -> exec_inv st'.
Proof.
  unfold write_output. destruct (collide st); [intros [= _ <-]; auto |].
  destruct (_ <=? _); [discriminate |]. intros [= _ <-]. intros [Hinv Hidle].
  split; [| exact Hidle].
  eapply slots_inv_same; [exact Hinv | reflexivity ..].
Qed.

Lemma execute_pass_inv st :
  exec_inv st ->
  clean (execute_pass st)
  /\ forall n st', execute_pass st = Ok (n, st') -> exec_inv st'.
Proof.
  intros Hinv. unfold execute_pass. cbv zeta.
  assert (S1 : forall st1, exec_inv st1 ->
             exec_inv
               (if negb (collide st1) && negb (flag_threaded (flags st1))
                then set_world st1 (cover_enable 0 (world st1)) else st1)).
  { intros st1 I1. destruct (_ && _); [apply exec_inv_world |]; exact I1. }
  split.
  - apply clean_bind; [apply write_output_clean |]. intros [o st1] H1.
    apply execute_loop_inv, S1. eapply write_output_exec_inv; eassumption.
  - intros n st' H. apply bind_ok in H as ([o st1] & H1 & H).
    eapply execute_loop_inv; [| exact H].
    apply S1. eapply write_output_exec_inv; eassumption.
Qed.

Lemma execute_one_exec_inv st :
  exec_inv st ->
  clean (execute_one st)
  /\ forall st', execute_one st = Ok st' -> exec_inv st'.
Proof.
  intros Hinv. unfold execute_one. cbn [execute_one_retry].
  destruct (execute_pass_inv st Hinv) as [Cl1 Ok1].
  assert (S2 : forall st1, exec_inv st1 ->
             flag_collide (flags st1) && negb (flag_inject_fault (flags st1))
             && negb (collide st1) = true ->
             exec_inv (set_collide st1 true)).
  { intros st1 [(Hwf & Hall & Hrun & Hcf & Hnt) Hidle] Hcond.
    apply andb_true_iff in Hcond as [Hcond _].
    apply andb_true_iff in Hcond as [Hfc Hfi].
    apply negb_true_iff in Hfi.
    assert (Ht : flag_threaded (flags st1) = true).
    { destruct (flag_threaded (flags st1)) eqn:Et; [reflexivity |].
      destruct (Hnt eq_refl) as [_ Hx]. congruence. }
    split.
    - unfold slots_inv. cbn [set_collide threads running flags collide].
      split; [exact Hwf |]. split; [exact Hall |]. split; [exact Hrun |].
      split; [intros _; exact Hfi |]. intros Hx. congruence.
    - cbn [set_collide flags]. intros Hx. congruence. }
  split.
  - apply clean_bind; [exact Cl1 |]. intros [n st1] H1.
    pose proof (Ok1 _ _ H1) as I1.
    destruct (_ && _ && _) eqn:Econd; [| exact I].
    destruct (execute_pass_inv _ (S2 st1 I1 Econd)) as [Cl2 _].
    apply clean_bind; [exact Cl2 |]. intros [n2 st2] H2. clean_tac.
  - intros st' H. apply bind_ok in H as ([n st1] & H1 & H).
    pose proof (Ok1 _ _ H1) as I1.
    destruct (flag_collide (flags st1) && negb (flag_inject_fault (flags st1))
              && negb (collide st1)) eqn:Econd;
      [| injection H as <-; exact I1].
    apply bind_ok in H as ([n2 st2] & H2 & H).
    pose proof (proj2 (execute_pass_inv _ (S2 st1 I1 Econd)) _ _ H2) as I2.
    destruct (flag_collide (flags st2) && negb (flag_inject_fault (flags st2))
              && negb (collide st2)).
    + discriminate.
    + injection H as <-. exact I2.
Qed.

(** The state in which the process starts satisfies all this. *)
Lemma init_state_exec_inv fl prog (w : W) :
  (flag_collide fl = true -> flag_threaded fl = true) ->
  exec_inv (init_state fl prog w).
Proof.
  intros Hfl. split; [split; [reflexivity |] |].
  - split; [vm_compute; repeat constructor |].
    split; [reflexivity |]. cbn [init_state collide flags].
    split; [discriminate |]. intros Ht. split; [reflexivity |].
    destruct (flag_collide fl); [specialize (Hfl eq_refl); congruence |].
    reflexivity.
  - intros _. split; [reflexivity |]. intros j Hj Hc. exfalso.
    unfold init_state, thread_at in Hc. cbn [threads] in Hc.
    rewrite lookup_total_replicate_2 in Hc by (unfold kMaxThreads in *; lia).
    discriminate.
Qed.
End Clean.

Lemma receive_execute_flags_collide req :
  flag_collide (receive_execute_flags req) = true ->
  flag_threaded (receive_execute_flags req) = true.
Proof.
  unfold receive_execute_flags. cbv zeta. cbn [flag_collide flag_threaded].
  destruct (negb (Z.land (req_exec_flags req) (Z.shiftl 1 4) =? 0));
    cbn [negb]; [reflexivity | discriminate].
Qed.

Lemma slot_failure_false msg :
  slot_failure msg = false ->
  msg <> "bad thread state in schedule"%string
  /\ msg <> "bad thread state in completion"%string
  /\ msg <> "running < 0"%string
  /\ msg <> "both collide and fault injection are enabled"%string
  /\ msg <> "using non-main thread in non-thread mode"%string.
Proof.
  intros H. repeat split; intros ->; vm_compute in H; discriminate.
Qed.

Lemma clean_fail {A} (r : result A) msg :
  clean r -> r = Fail msg -> slot_failure msg = false.
Proof. intros H ->. exact H. Qed.

Lemma active_count_le_length l : active_count l <= Z.of_nat (length l).
Proof.
  induction l as [| th l IH]; cbn [active_count length]; [lia |].
  destruct (slot_active th); cbn [Z.b2z]; lia.
Qed.

(** Every slot is in one of five states: not created, idle, given a
    call that its worker has not taken yet, with its worker inside
    [execute_call] ([ready] and [done] both clear), finished.  From a
    state in which that holds, with the counters and flags as
    [receive_execute] and a fresh process leave them, [execute_one] does
    not fail on the slot checks of [schedule_call] and
    [handle_completion], and when it returns all of it holds again,
    wherever the workers have come to by then. *)
Theorem slot_checks_never_fail {W : Type} {P : Platform W} :
  (forall req prog (w : W),
      exec_inv (init_state (receive_execute_flags req) prog w))
  /\ (forall st : state W,
      exec_inv st ->
      (forall msg, execute_one st = Fail msg ->
                   msg <> "bad thread state in schedule"%string
                   /\ msg <> "bad thread state in completion"%string)
      /\ (forall st', execute_one st = Ok st' ->
                      exec_inv st'
                      /\ Forall (fun th => slot_state_ok th = true)
                           (threads st'))).
Proof.
  split.
  - intros req prog w. apply init_state_exec_inv.
    apply receive_execute_flags_collide.
  - intros st Hinv. destruct (execute_one_exec_inv st Hinv) as [Cl Hok].
    split.
    + intros msg H. pose proof (clean_fail _ _ Cl H) as Hm.
      apply slot_failure_false in Hm as (? & ? & _). auto.
    + intros st' H. pose proof (Hok _ H) as I'. split; [exact I' |].
      apply I'.
Qed.

Lemma slot_checks_never_fail_witness :
  exists st',
    execute_one (P := echo_platform false)
      (echo_state flags_threaded prog_two_calls) = Ok st'
    /\ exec_inv st'
    /\ th_created (thread_at st' 0) = true
    /\ th_ready (thread_at st' 0) = false
    /\ th_done (thread_at st' 0) = false
    /\ th_handled (thread_at st' 0) = false
    /\ th_ready (thread_at st' 1) = false
    /\ th_done (thread_at st' 1) = false.
Proof.
  set (st := echo_state flags_threaded prog_two_calls).
  set (st' := state_of (execute_one (P := echo_platform false) st)
                (fun s => s) st).
  assert (H : execute_one (P := echo_platform false) st = Ok st')
    by (vm_compute; reflexivity).
  exists st'. split; [exact H |].
  destruct (@slot_checks_never_fail (list Z) (echo_platform false))
    as [Hinit Hrun].
  assert (I0 : exec_inv st).
  { apply (Hinit (mk_req 0 0 16 0 0 0 0) prog_two_calls []). }
  destruct (Hrun st I0) as [_ Hok].
  split; [apply (Hok st' H) |].
  repeat split; vm_compute; reflexivity.
Defined.

(** [running] is the number of slots with a call that has been
    scheduled and not handled: it is never negative, the check of it
    after a timed wait never fails, and it is at most the number of
    slots. *)
Theorem running_counts_calls {W : Type} {P : Platform W} (st : state W) :
  exec_inv st ->
  (forall msg, execute_one st = Fail msg -> msg <> "running < 0"%string)
  /\ (forall st', execute_one st = Ok st' ->
                  running st' = active_count (threads st')
                  /\ 0 <= running st' <= kMaxThreads).
Proof.
  intros Hinv. destruct (execute_one_exec_inv st Hinv) as [Cl Hok].
  split.
  - intros msg H. pose proof (clean_fail _ _ Cl H) as Hm.
    apply slot_failure_false in Hm as (_ & _ & ? & _). assumption.
  - intros st' H. destruct (Hok _ H) as [(Hwf & _ & Hrun & _) _].
    split; [exact Hrun |]. rewrite Hrun.
    pose proof (active_count_nonneg (threads st')).
    pose proof (active_count_le_length (threads st')).
    unfold wf_threads in Hwf. rewrite Hwf in *.
    change (Z.of_nat (Z.to_nat kMaxThreads)) with kMaxThreads in *. lia.
Qed.

Lemma running_counts_calls_witness :
  exists st',
    execute_one (P := echo_platform false)
      (echo_state flags_threaded prog_two_calls) = Ok st'
    /\ running st' = 2 /\ active_count (threads st') = 2.
Proof.
  set (st := echo_state flags_threaded prog_two_calls).
  set (st' := state_of (execute_one (P := echo_platform false) st)
                (fun s => s) st).
  assert (H : execute_one (P := echo_platform false) st = Ok st')
    by (vm_compute; reflexivity).
  exists st'. split; [exact H |].
  assert (I0 : exec_inv st).
  { apply (init_state_exec_inv flags_threaded prog_two_calls []).
    discriminate. }
  destruct (running_counts_calls (P := echo_platform false) st I0)
    as [_ Hok].
  destruct (Hok st' H) as [Hr _].
  split; [| rewrite <- Hr]; vm_compute; reflexivity.
Defined.

Lemma execute_pass_frame {W : Type} {P : Platform W} (st : state W) n st1 :
  wf_threads st -> execute_pass st = Ok (n, st1) ->
  flags st1 = flags st /\ collide st1 = collide st /\ wf_threads st1.
Proof.
  intros Hwf H. unfold execute_pass in H. cbv zeta in H.
  apply bind_ok in H as ([o sa] & Ha & H).
  assert (Fa : flags sa = flags st /\ collide sa = collide st
               /\ threads sa = threads st).
  { unfold write_output in Ha. destruct (collide st) eqn:Ec.
    - injection Ha as _ <-. auto.
    - destruct (_ <=? _); [discriminate |]. injection Ha as _ <-. auto. }
  destruct Fa as (Ff & Fc & Ft).
  apply execute_loop_step in H.
  - destruct H as (Gf & Gc & _ & Gl & _).
    destruct (negb (collide sa) && negb (flag_threaded (flags sa)));
      cbn [set_world flags collide threads] in *;
      (split; [congruence |]; split; [congruence |]);
      unfold wf_threads in *; rewrite Gl, Ft; exact Hwf.
  - destruct (negb (collide sa) && negb (flag_threaded (flags sa)));
      unfold wf_threads in *; cbn [set_world threads]; rewrite Ft; exact Hwf.
Qed.

(** The [collide] pass and fault injection exclude each other:
    [execute_one] enters the pass only without [flag_inject_fault], so
    that [execute_call] never fails on finding both. *)
Theorem collide_excludes_fault {W : Type} {P : Platform W} (st : state W) :
  exec_inv st ->
  (forall msg, execute_one st = Fail msg ->
               msg <> "both collide and fault injection are enabled"%string)
  /\ (forall st', execute_one st = Ok st' ->
                  (collide st' = true ->
                   flag_inject_fault (flags st') = false)
                  /\ (collide st = false ->
                      collide st'
                      = flag_collide (flags st)
                        && negb (flag_inject_fault (flags st)))).
Proof.
  intros Hinv. destruct (execute_one_exec_inv st Hinv) as [Cl Hok].
  split.
  - intros msg H. pose proof (clean_fail _ _ Cl H) as Hm.
    apply slot_failure_false in Hm as (_ & _ & _ & ? & _). assumption.
  - intros st' H. destruct (Hok _ H) as [(_ & _ & _ & Hcf & _) _].
    split; [exact Hcf |]. intros Hc.
    pose proof Hinv as [(Hwf & _) _].
    unfold execute_one in H. cbn [execute_one_retry] in H.
    apply bind_ok in H as ([n st1] & H1 & H).
    pose proof H1 as H1'.
    apply execute_pass_frame in H1' as (Ff & Fc & Fw); [| exact Hwf].
    rewrite Ff, Fc, Hc in H. cbn [negb] in H. rewrite andb_true_r in H.
    destruct (flag_collide (flags st) && negb (flag_inject_fault (flags st)))
      eqn:E.
    + apply bind_ok in H as ([n2 st2] & H2 & H).
      apply execute_pass_frame in H2 as (Ff2 & Fc2 & _); [| exact Fw].
      cbn [set_collide collide flags] in Ff2, Fc2.
      rewrite Ff2, Fc2, Ff in H. cbn [negb] in H.
      rewrite andb_false_r in H. injection H as <-. exact Fc2.
    + injection H as <-. rewrite Fc. exact Hc.
Qed.

Lemma collide_excludes_fault_witness :
  exists st',
    execute_one (P := echo_platform true)
      (echo_state flags_collide prog_one_call) = Ok st'
    /\ collide st' = true /\ flag_inject_fault (flags st') = false.
Proof.
  set (st := echo_state flags_collide prog_one_call).
  set (st' := state_of (execute_one (P := echo_platform true) st)
                (fun s => s) st).
  assert (H : execute_one (P := echo_platform true) st = Ok st')
    by (vm_compute; reflexivity).
  exists st'. split; [exact H |].
  assert (I0 : exec_inv st).
  { apply (init_state_exec_inv flags_collide prog_one_call []).
    reflexivity. }
  destruct (collide_excludes_fault (P := echo_platform true) st I0)
    as [_ Hok].
  destruct (Hok st' H) as [Hcf Hc].
  assert (Ec : collide st' = true) by (rewrite Hc; reflexivity).
  split; [exact Ec | exact (Hcf Ec)].
Defined.

Lemma execute_one_flags {W : Type} {P : Platform W} (st st' : state W) :
  wf_threads st -> execute_one st = Ok st' -> flags st' = flags st.
Proof.
  intros Hwf H. unfold execute_one in H. cbn [execute_one_retry] in H.
  apply bind_ok in H as ([n st1] & H1 & H).
  apply execute_pass_frame in H1 as (Ff & Fc & Fw); [| exact Hwf].
  destruct (flag_collide (flags st1) && negb (flag_inject_fault (flags st1))
            && negb (collide st1)).
  - apply bind_ok in H as ([n2 st2] & H2 & H).
    apply execute_pass_frame in H2 as (Ff2 & Fc2 & _); [| exact Fw].
    destruct (flag_collide (flags st2) && negb (flag_inject_fault (flags st2))
              && negb (collide st2)); [discriminate |].
    injection H as <-. rewrite Ff2. exact Ff.
  - injection H as <-. exact Ff.
Qed.

(** In non-threaded mode every call is given to slot 0 and has been
    handled before the next instruction: [execute_one] does not fail on
    finding another slot, and leaves no call in flight. *)
Theorem direct_mode_main_slot {W : Type} {P : Platform W} (st : state W) :
  exec_inv st -> flag_threaded (flags st) = false ->
  (forall msg, execute_one st = Fail msg ->
               msg <> "using non-main thread in non-thread mode"%string)
  /\ (forall call_index call_num copyout_index num_args args pos i st',
      schedule_call call_index call_num copyout_index num_args args pos st
      = Ok (i, st') -> i = 0)
  /\ (forall st', execute_one st = Ok st' ->
                  idle st' /\ collide st' = false).
Proof.
  intros Hinv Ht. destruct (execute_one_exec_inv st Hinv) as [Cl Hok].
  pose proof Hinv as [(Hwf & _) Hidle].
  split; [| split].
  - intros msg H. pose proof (clean_fail _ _ Cl H) as Hm.
    apply slot_failure_false in Hm as (_ & _ & _ & _ & ?). assumption.
  - intros ci cn coi na args pos i st' H.
    eapply schedule_call_direct_slot; [exact Hwf | exact Ht | exact (Hidle Ht)
                                      | exact H].
  - intros st' H. pose proof (execute_one_flags _ _ Hwf H) as Ff.
    destruct (Hok _ H) as [(_ & _ & _ & _ & Hnt) Hidle'].
    rewrite Ff in *. split; [exact (Hidle' Ht) | apply (Hnt Ht)].
Qed.

Lemma direct_mode_main_slot_witness :
  exists st',
    execute_one (P := echo_platform true)
      (echo_state flags_plain prog_two_calls) = Ok st'
    /\ idle st' /\ collide st' = false
    /\ th_created (thread_at st' 0) = true
    /\ th_created (thread_at st' 1) = false.
Proof.
  set (st := echo_state flags_plain prog_two_calls).
  set (st' := state_of (execute_one (P := echo_platform true) st)
                (fun s => s) st).
  assert (H : execute_one (P := echo_platform true) st = Ok st')
    by (vm_compute; reflexivity).
  exists st'. split; [exact H |].
  assert (I0 : exec_inv st).
  { apply (init_state_exec_inv flags_plain prog_two_calls []).
    discriminate. }
  destruct (direct_mode_main_slot (P := echo_platform true) st I0 eq_refl)
    as (_ & _ & Hok).
  destruct (Hok st' H) as [Hi Hc].
  split; [exact Hi |]. split; [exact Hc |].
  split; vm_compute; reflexivity.
Defined.

(** ** The scan for a slot *)

Section Scan.
Context {W : Type} {P : Platform W}.
Implicit Types st : state W.

Lemma set_world_id st : set_world st (world st) = st.
Proof. destruct st. reflexivity. Qed.

Lemma thread_at_set_world st w j :
  thread_at (set_world st w) j = thread_at st j.
Proof. reflexivity. Qed.

Lemma thread_at_set_running st r j :
  thread_at (set_running st r) j = thread_at st j.
Proof. reflexivity. Qed.

Lemma worker_progress_none i ms st :
  no_progress st -> exists w, worker_progress i ms st = Ok (set_world st w).
Proof.
  intros Hnp. unfold worker_progress. cbv zeta.
  destruct Hnp as [Ht | Hpoll].
  - rewrite Ht. cbn [andb]. exists (world st). rewrite set_world_id.
    reflexivity.
  - destruct (_ && _ && _).
    + specialize (Hpoll i ms (world st)).
      destruct (worker_poll i ms (world st)) as [b w]. cbn [fst] in Hpoll.
      subst b. exists w. reflexivity.
    + exists (world st). rewrite set_world_id. reflexivity.
Qed.

Lemma event_isset_done_none i st :
  no_progress st ->
  exists w, event_isset_done i st
            = Ok (th_done (thread_at st i), set_world st w).
Proof.
  intros Hnp. unfold event_isset_done.
  destruct (worker_progress_none i 0 st Hnp) as [w ->].
  exists w. reflexivity.
Qed.

(** The scan goes over slots that are busy. *)
Lemma schedule_scan_busy n : forall i st,
  no_progress st ->
  (forall j, i <= j < i + Z.of_nat n -> slot_busy (thread_at st j)) ->
  forall m, exists w,
    schedule_scan (n + m) i st
    = schedule_scan m (i + Z.of_nat n) (set_world st w).
Proof.
  induction n as [| n IH]; intros i st Hnp Hbusy m.
  - exists (world st). rewrite set_world_id, Z.add_0_r. reflexivity.
  - change (S n + m)%nat with (S (n + m)). rewrite schedule_scan_S.
    cbv zeta. destruct (Hbusy i ltac:(lia)) as [Hc Hd].
    rewrite Hc. cbn [negb].
    destruct (event_isset_done_none i st Hnp) as [w ->].
    cbn [mbind result_bind]. rewrite Hd.
    destruct (IH (i + 1) (set_world st w)) with (m := m) as [w' E].
    + exact Hnp.
    + intros j Hj. apply (Hbusy j). lia.
    + exists w'. rewrite E. f_equal. lia.
Qed.
End Scan.

(** While no worker moves, [schedule_call] gives the call to the lowest
    slot whose call is not in progress and leaves the other slots
    alone: a slot that is free, which it creates if it has not been
    created, or a slot that is finished and not handled, whose
    completion it handles first; when all sixteen slots are busy it
    ends the process with [exitf]. *)
Theorem schedule_takes_lowest_free {W : Type} {P : Platform W}
  (call_index call_num copyout_index num_args : Z) (args : list Z) (pos : Z)
  (st : state W) (i : Z) :
  wf_threads st -> no_progress st -> 0 <= i <= kMaxThreads ->
  (forall j, 0 <= j < i -> slot_busy (thread_at st j)) ->
  (i = kMaxThreads ->
   schedule_call call_index call_num copyout_index num_args args pos st
   = Exitf "out of threads")
  /\ (i < kMaxThreads -> slot_free (thread_at st i) ->
      exists st',
        schedule_call call_index call_num copyout_index num_args args pos st
        = Ok (i, st')
        /\ running st' = running st + 1
        /\ output_data st' = output_data st
        /\ th_created (thread_at st' i) = true
        /\ th_ready (thread_at st' i) = true
        /\ th_done (thread_at st' i) = false
        /\ th_handled (thread_at st' i) = false
        /\ th_call_index (thread_at st' i) = call_index
        /\ th_call_num (thread_at st' i) = call_num
        /\ th_args (thread_at st' i) = args
        /\ th_copyout_pos (thread_at st' i) = pos
        /\ th_copyout_index (thread_at st' i) = copyout_index
        /\ (forall j, 0 <= j -> j <> i -> thread_at st' j = thread_at st j))
  /\ (i < kMaxThreads ->
      th_created (thread_at st i) = true ->
      th_done (thread_at st i) = true ->
      th_handled (thread_at st i) = false ->
      exists w,
        (forall r,
            schedule_call call_index call_num copyout_index num_args args
              pos st = Ok r ->
            exists st1, handle_completion i (set_world st w) = Ok st1)
        /\ forall st1,
            handle_completion i (set_world st w) = Ok st1 ->
            exists st',
              schedule_call call_index call_num copyout_index num_args args
                pos st = Ok (i, st')
              /\ running st1 = running st - 1
              /\ running st' = running st
              /\ output_data st' = output_data st1
              /\ completed st' = completed st1
              /\ results st' = results st1
              /\ th_created (thread_at st' i) = true
              /\ th_ready (thread_at st' i) = true
              /\ th_done (thread_at st' i) = false
              /\ th_handled (thread_at st' i) = false
              /\ th_call_index (thread_at st' i) = call_index
              /\ th_call_num (thread_at st' i) = call_num
              /\ th_args (thread_at st' i) = args
              /\ th_copyout_pos (thread_at st' i) = pos
              /\ th_copyout_index (thread_at st' i) = copyout_index
              /\ (forall j, 0 <= j -> j <> i ->
                            thread_at st' j = thread_at st j)).
Proof.
  intros Hwf Hnp Hi Hbusy.
  destruct (schedule_scan_busy (Z.to_nat i) 0 st Hnp) with
    (m := Z.to_nat (kMaxThreads - i)) as [w E].
  { intros j Hj. apply Hbusy. lia. }
  replace (Z.to_nat i + Z.to_nat (kMaxThreads - i))%nat
    with (Z.to_nat kMaxThreads) in E by lia.
  rewrite Z2Nat.id, Z.add_0_l in E by lia.
  unfold schedule_call. rewrite E. clear E.
  set (sw := set_world st w).
  assert (Hir : i < kMaxThreads -> (Z.to_nat i < length (threads sw))%nat).
  { intros Hlt. apply (in_range_threads st i Hwf). lia. }
  split; [| split].
  - intros ->. rewrite Z.sub_diag. cbn [Z.to_nat schedule_scan].
    cbn [mbind result_bind]. reflexivity.
  - intros Hlt (Hrd & Hh & Hd). specialize (Hir Hlt).
    replace (Z.to_nat (kMaxThreads - i))
      with (S (Z.to_nat (kMaxThreads - i - 1))) by lia.
    rewrite schedule_scan_S. cbv zeta.
    change (thread_at sw i) with (thread_at st i).
    set (s0 := if negb (th_created (thread_at st i))
               then thread_create i sw else sw).
    assert (F0 : exists w0 th0,
               s0 = set_world (set_thread st i th0) w0
               /\ th_created th0 = true /\ th_ready th0 = false
               /\ th_done th0 = true /\ th_handled th0 = true
               /\ th_id th0 = (if th_created (thread_at st i)
                               then th_id (thread_at st i) else i)
               /\ th_cover_data th0 = th_cover_data (thread_at st i)
               /\ th_res th0 = th_res (thread_at st i)
               /\ th_reserrno th0 = th_reserrno (thread_at st i)
               /\ th_cover_size th0 = th_cover_size (thread_at st i)
               /\ th_fault_injected th0
                  = th_fault_injected (thread_at st i)).
    { subst s0. destruct (th_created (thread_at st i)) eqn:Ec; cbn [negb].
      - exists w, (thread_at st i). split.
        + subst sw. unfold set_thread, thread_at.
          rewrite list_insert_id; [destruct st; reflexivity |].
          apply list_lookup_lookup_total_lt. exact Hir.
        + rewrite Hrd, Hh, Hd, Ec. repeat split.
      - unfold thread_create. cbv zeta.
        change (thread_at sw i) with (thread_at st i).
        change (flags (set_thread sw i _)) with (flags st).
        destruct (flag_threaded (flags st));
          eexists _, _; (split; [reflexivity |]); cbn; repeat split. }
    destruct F0 as (w0 & th0 & -> & Tc & Tr & Td & Th & _).
    assert (Hnp0 : no_progress (set_world (set_thread st i th0) w0))
      by exact Hnp.
    destruct (event_isset_done_none i _ Hnp0) as [w1 ->].
    cbn [mbind result_bind].
    rewrite !thread_at_set_world.
    rewrite !thread_at_set_thread_eq by exact Hir.
    rewrite Td, Th. cbn [negb mbind result_bind].
    destruct (Z.eqb_spec i kMaxThreads) as [| _]; [lia |].
    rewrite !thread_at_set_world.
    rewrite !thread_at_set_thread_eq by exact Hir.
    rewrite Tr, Td, Th. cbn [negb orb]. cbv zeta.
    match goal with
    | |- context [worker_progress i 0 ?s] =>
        destruct (worker_progress_none i 0 s Hnp) as [w2 ->]
    end.
    cbn [mbind result_bind].
    eexists. split; [reflexivity |].
    rewrite !thread_at_set_world, !thread_at_set_running.
    assert (Hlen : (Z.to_nat i
                    < length (threads (set_world
                                         (set_world (set_thread st i th0) w0)
                                         w1)))%nat).
    { cbn [set_world set_thread set_threads threads].
      rewrite length_insert. exact Hir. }
    rewrite !thread_at_set_thread_eq by exact Hlen.
    cbn [running output_data set_running set_world set_thread set_threads
           th_created th_ready th_done th_handled th_call_index th_call_num
           th_args th_copyout_pos th_copyout_index].
    repeat (split; [first [reflexivity | exact Tc] |]).
    intros j Hj Hne. rewrite thread_at_set_world, thread_at_set_running.
    rewrite thread_at_set_thread_ne by lia.
    rewrite !thread_at_set_world.
    apply thread_at_set_thread_ne. lia.
  - intros Hlt Hc Hd Hh. specialize (Hir Hlt).
    replace (Z.to_nat (kMaxThreads - i))
      with (S (Z.to_nat (kMaxThreads - i - 1))) by lia.
    rewrite schedule_scan_S. cbv zeta.
    change (thread_at sw i) with (thread_at st i).
    rewrite Hc. cbn [negb].
    assert (Hnpw : no_progress sw) by exact Hnp.
    destruct (event_isset_done_none i sw Hnpw) as [w1 ->].
    cbn [mbind result_bind].
    change (thread_at sw i) with (thread_at st i).
    change (set_world sw w1) with (set_world st w1).
    rewrite thread_at_set_world, Hd, Hh. cbn [negb].
    exists w1.
    destruct (handle_completion i (set_world st w1)) as [st1 | | |] eqn:Eh;
      cbn [mbind result_bind];
      [| split; [intros r Hr; discriminate | intros st1 Hs; discriminate] ..].
    split; [intros r _; eauto |]. intros st1' Hs. injection Hs as <-.
    apply handle_completion_ok in Eh; [| exact Hir].
    rewrite thread_at_set_world in Eh. cbv zeta in Eh.
    destruct Eh as ((Er & _) & Ff & _ & _ & _ & Fr & (pos1 & Ht) & _).
    assert (Hl1 : (Z.to_nat i < length (threads st1))%nat).
    { rewrite Ht, length_insert. exact Hir. }
    assert (T1 : thread_at st1 i
                 = set_th_handled (set_th_copyout_pos (thread_at st i) pos1)
                     true).
    { apply (thread_at_insert_eq (set_world st w1) st1 i). exact Ht. exact Hir. }
    destruct (Z.eqb_spec i kMaxThreads) as [| _]; [lia |].
    rewrite T1. cbn [set_th_handled set_th_copyout_pos th_ready th_done
                       th_handled]. rewrite Er, Hd. cbn [negb orb]. cbv zeta.
    assert (Hnp1 : no_progress st1).
    { destruct Hnp as [Hnt | Hp];
        [left; rewrite Ff; exact Hnt | right; exact Hp]. }
    match goal with
    | |- context [worker_progress i 0 ?s] =>
        destruct (worker_progress_none i 0 s) as [w2 ->];
          [exact Hnp1 |]
    end.
    cbn [mbind result_bind].
    eexists. split; [reflexivity |].
    rewrite !thread_at_set_world, !thread_at_set_running.
    rewrite !thread_at_set_thread_eq by exact Hl1.
    cbn [running output_data completed results set_running set_world
           set_thread set_threads th_created th_ready th_done th_handled
           th_call_index th_call_num th_args th_copyout_pos
           th_copyout_index] in *.
    split; [exact Fr |]. split; [lia |].
    repeat (split; [first [reflexivity | exact Hc] |]).
    intros j Hj Hne. rewrite thread_at_set_world, thread_at_set_running.
    rewrite thread_at_set_thread_ne by lia.
    rewrite (thread_at_insert _ _ i j _ Ht) by lia.
    apply thread_at_set_world.
Qed.

Lemma schedule_takes_lowest_free_witness :
  schedule_call (P := echo_platform_with (fun _ _ => Asleep)) 5 2 no_copyout
    0 (args_array []) 3 (busy_state prog_one_call) = Exitf "out of threads"
  /\ (exists st',
        schedule_call (P := echo_platform_with (fun _ _ => Asleep)) 5 2
          no_copyout 0 (args_array []) 3 (scan_state thread_zero 1)
        = Ok (1, st')
        /\ running st' = 2 /\ th_ready (thread_at st' 1) = true
        /\ th_done (thread_at st' 1) = false
        /\ thread_at st' 0 = thread_at (scan_state thread_zero 1) 0)
  /\ (exists st',
        schedule_call (P := echo_platform_with (fun _ _ => Asleep)) 5 2
          no_copyout 0 (args_array []) 3
          (scan_state (slot_done [] 0 0 3) 2)
        = Ok (1, st')
        /\ running st' = 2 /\ output_data st' = [1; 0; 2; 0; 0; 0; 0; 0]
        /\ th_ready (thread_at st' 1) = true
        /\ th_handled (thread_at st' 1) = false).
Proof.
  assert (Hnp : forall st : state (list Z),
             no_progress (P := echo_platform_with (fun _ _ => Asleep)) st)
    by (intros st; right; intros i ms w; reflexivity).
  assert (Hb1 : forall th r j, 0 <= j < 1 ->
             slot_busy (thread_at (scan_state th r) j)).
  { intros th r j Hj. assert (j = 0) as -> by lia. split; reflexivity. }
  split; [| split].
  - apply (proj1 (schedule_takes_lowest_free
                    (P := echo_platform_with (fun _ _ => Asleep))
                    5 2 no_copyout 0 (args_array []) 3
                    (busy_state prog_one_call) 16
                    eq_refl (Hnp _)
                    ltac:(unfold kMaxThreads; lia)
                    ltac:(intros j Hj;
                          assert (j = 0 \/ j = 1 \/ j = 2 \/ j = 3 \/ j = 4
                                  \/ j = 5 \/ j = 6 \/ j = 7 \/ j = 8 \/ j = 9
                                  \/ j = 10 \/ j = 11 \/ j = 12 \/ j = 13
                                  \/ j = 14 \/ j = 15) as Hc by lia;
                          repeat (destruct Hc as [-> | Hc];
                                  [split; reflexivity |]);
                          subst j; split; reflexivity))).
    reflexivity.
  - destruct (proj1 (proj2 (schedule_takes_lowest_free
                    (P := echo_platform_with (fun _ _ => Asleep))
                    5 2 no_copyout 0 (args_array []) 3
                    (scan_state thread_zero 1) 1
                    eq_refl (Hnp _) ltac:(unfold kMaxThreads; lia)
                    (Hb1 _ _))))
      as (st' & E & Hr & _ & _ & Hrd & Hd & _ & _ & _ & _ & _ & _ & Hj).
    + unfold kMaxThreads. lia.
    + repeat split.
    + exists st'. split; [exact E |]. split; [exact Hr |].
      split; [exact Hrd |]. split; [exact Hd |]. apply Hj; lia.
  - destruct (proj2 (proj2 (schedule_takes_lowest_free
                    (P := echo_platform_with (fun _ _ => Asleep))
                    5 2 no_copyout 0 (args_array []) 3
                    (scan_state (slot_done [] 0 0 3) 2) 1
                    eq_refl (Hnp _) ltac:(unfold kMaxThreads; lia)
                    (Hb1 _ _))))
      as (w & _ & Hok); [unfold kMaxThreads; lia | reflexivity ..|].
    set (sw := set_world (scan_state (slot_done [] 0 0 3) 2) w) in Hok.
    set (st1 := state_of
                  (handle_completion
                     (P := echo_platform_with (fun _ _ => Asleep)) 1 sw)
                  (fun s => s) sw).
    assert (E1 : handle_completion
                   (P := echo_platform_with (fun _ _ => Asleep)) 1 sw
                 = Ok st1).
    { subst st1 sw. unfold scan_state, set_world. cbn [flags running
        completed collide input_data threads results dedup_table output_data
        output_log world]. vm_compute. reflexivity. }
    destruct (Hok st1 E1)
      as (st' & E & _ & Hr & Ho & _ & _ & _ & Hrd & _ & Hh & _).
    exists st'. split; [exact E |]. split; [exact Hr |].
    split; [rewrite Ho; subst st1 sw; vm_compute; reflexivity |].
    split; [exact Hrd | exact Hh].
Defined.

(** ** The second pass *)

(** [execute_one] goes over the program a second time, with [collide]
    set, exactly when [flag_collide] is set and [flag_inject_fault] is
    not.  The second pass stores nothing in the output region: the
    output and the completed counter are those of the first pass.  The
    result table is not reset in between. *)
Theorem collide_pass_silent {W : Type} {P : Platform W} (st st' : state W) :
  wf_threads st -> collide st = false ->
  execute_one st = Ok st' ->
  exists n st1,
    execute_pass st = Ok (n, st1)
    /\ output_data st' = output_data st1
    /\ output_log st' = output_log st1
    /\ completed st' = completed st1
    /\ (if flag_collide (flags st) && negb (flag_inject_fault (flags st))
        then exists n2,
            execute_pass (set_collide st1 true) = Ok (n2, st')
            /\ results (set_collide st1 true) = results st1
        else st' = st1).
Proof.
  intros Hwf Hc H. unfold execute_one in H. cbn [execute_one_retry] in H.
  apply bind_ok in H as ([n st1] & H1 & H). exists n, st1.
  split; [exact H1 |].
  pose proof H1 as H1'.
  apply execute_pass_frame in H1' as (Ff & Fc & Fw); [| exact Hwf].
  rewrite Ff, Fc, Hc in H. cbn [negb] in H. rewrite andb_true_r in H.
  destruct (flag_collide (flags st) && negb (flag_inject_fault (flags st))).
  - apply bind_ok in H as ([n2 st2] & H2 & H). pose proof H2 as H2'.
    apply execute_pass_collide in H2' as (G1 & G2 & G3 & G4);
      [| exact Fw | reflexivity].
    rewrite G4 in H. rewrite andb_false_r in H. injection H as <-.
    split; [exact G1 |]. split; [exact G3 |]. split; [exact G2 |].
    exists n2. split; [exact H2 | reflexivity].
  - injection H as <-. auto.
Qed.

Lemma Ok_pair_inj {A B} (a c : A) (b d : B) :
  @Ok (A * B) (a, b) = Ok (c, d) -> a = c /\ b = d.
Proof. intros [= -> ->]. auto. Qed.

Lemma collide_pass_silent_witness :
  exists st' st1,
    execute_one (P := echo_platform true)
      (echo_state flags_collide prog_two_calls) = Ok st'
    /\ execute_pass (P := echo_platform true)
         (echo_state flags_collide prog_two_calls) = Ok (2, st1)
    /\ collide st' = true
    /\ output_data st' = output_data st1
    /\ completed st' = 2.
Proof.
  set (st := echo_state flags_collide prog_two_calls).
  set (st' := state_of (execute_one (P := echo_platform true) st)
                (fun s => s) st).
  assert (H : execute_one (P := echo_platform true) st = Ok st')
    by (vm_compute; reflexivity).
  destruct (collide_pass_silent (P := echo_platform true) st st' eq_refl
              eq_refl H) as (n & st1 & H1 & Ho & _ & Hcm & _).
  exists st', st1. split; [exact H |].
  assert (E : execute_pass (P := echo_platform true) st
              = Ok (2, state_of (execute_pass (P := echo_platform true) st)
                         snd st)) by (vm_compute; reflexivity).
  destruct (Ok_pair_inj _ _ _ _ (eq_trans (eq_sym H1) E)) as [-> ->].
  split; [exact E |]. split; [vm_compute; reflexivity |].
  split; [exact Ho |]. vm_compute. reflexivity.
Defined.

(** ** Receiving a request *)

Lemma store_bytes_app buf pos bs s :
  0 <= pos ->
  store_bytes (store_bytes buf pos bs) (pos + Z.of_nat (length bs)) s
  = store_bytes buf pos (bs ++ s).
Proof.
  intros Hp. unfold store_bytes.
  set (a := take (Z.to_nat pos) (buf ++ replicate (Z.to_nat pos) 0)).
  assert (La : length a = Z.to_nat pos).
  { subst a. rewrite length_take, length_app, length_replicate. lia. }
  replace (Z.to_nat (pos + Z.of_nat (length bs)))
    with (length a + length bs)%nat by lia.
  rewrite <- La.
  replace (take (length a + length bs)
             ((a ++ bs ++ drop (length a + length bs) buf)
              ++ replicate (length a + length bs) 0))
    with (a ++ bs).
  - rewrite <- !app_assoc. f_equal. f_equal. f_equal.
    rewrite length_app.
    replace (a ++ bs ++ drop (length a + length bs) buf)
      with ((a ++ bs) ++ drop (length a + length bs) buf)
      by (rewrite <- app_assoc; reflexivity).
    rewrite drop_app_ge by (rewrite length_app; lia).
    rewrite length_app, drop_drop. f_equal. lia.
  - rewrite <- !app_assoc.
    rewrite (app_assoc a bs).
    rewrite take_app_le by (rewrite length_app; lia).
    rewrite take_ge by (rewrite length_app; lia). reflexivity.
Qed.

Section ReceiveProg.
Variable pipe : pipe_t.
Variable prog_size : Z.
Hypothesis Hpipe : pipe_ok pipe.
Hypothesis Hsize : prog_size <= kMaxInput.

Lemma receive_prog_terminates fuel : forall k pos buf,
  0 <= pos < prog_size -> (Z.to_nat (prog_size - pos) <= fuel)%nat ->
  terminates (receive_prog fuel pipe k prog_size pos buf).
Proof.
  change kMaxInput with 2097152 in *.
  induction fuel as [| fuel IH]; intros k pos buf Hpos Hf; [lia |].
  cbn [receive_prog]. change kMaxInput with 2097152.
  assert (Ec : u64 (2097152 - pos) = 2097152 - pos)
    by (unfold u64; apply Z.mod_small; lia).
  destruct (pipe k (u64 (2097152 - pos))) as [| bs] eqn:E; [exact I |].
  cbv zeta. apply Hpipe in E; [| rewrite Ec; lia]. rewrite Ec in E.
  assert (Eu : u64 (pos + Z.of_nat (length bs)) = pos + Z.of_nat (length bs))
    by (unfold u64; apply Z.mod_small; lia).
  rewrite Eu. destruct (Z.eqb_spec (Z.of_nat (length bs)) 0); [exact I |].
  destruct (Z.leb_spec prog_size (pos + Z.of_nat (length bs))); [exact I |].
  cbn [orb]. apply IH; lia.
Qed.

Lemma receive_prog_ok fuel : forall k pos buf pos' buf',
  0 <= pos < prog_size ->
  receive_prog fuel pipe k prog_size pos buf = Ok (pos', buf') ->
  exists n, (n <= fuel)%nat
    /\ pos' = pos + Z.of_nat (length (pipe_stream pipe n k pos))
    /\ buf' = store_bytes buf pos (pipe_stream pipe n k pos)
    /\ pos' <= kMaxInput.
Proof.
  change kMaxInput with 2097152 in *.
  induction fuel as [| fuel IH]; intros k pos buf pos' buf' Hpos H;
    [discriminate |].
  cbn [receive_prog] in H. change kMaxInput with 2097152 in H.
  assert (Ec : u64 (2097152 - pos) = 2097152 - pos)
    by (unfold u64; apply Z.mod_small; lia).
  destruct (pipe k (u64 (2097152 - pos))) as [| bs] eqn:E; [discriminate |].
  cbv zeta in H. pose proof E as E'.
  apply Hpipe in E'; [| rewrite Ec; lia]. rewrite Ec in E'.
  assert (Eu : u64 (pos + Z.of_nat (length bs)) = pos + Z.of_nat (length bs))
    by (unfold u64; apply Z.mod_small; lia).
  rewrite Eu in H.
  destruct ((Z.of_nat (length bs) =? 0)
            || (prog_size <=? pos + Z.of_nat (length bs))) eqn:Eb.
  - injection H as <- <-. exists 1%nat. cbn [pipe_stream].
    change kMaxInput with 2097152. rewrite E, app_nil_r.
    split; [lia |]. split; [reflexivity |]. split; [reflexivity | lia].
  - apply orb_false_iff in Eb as [Eb1 Eb2].
    apply Z.eqb_neq in Eb1. apply Z.leb_gt in Eb2.
    apply IH in H; [| lia]. destruct H as (n & Hn & -> & -> & Hle).
    exists (S n). cbn [pipe_stream]. change kMaxInput with 2097152.
    rewrite E, length_app. split; [lia |]. split; [lia |].
    split; [apply store_bytes_app; lia | exact Hle].
Qed.
End ReceiveProg.

(** [receive_execute] fails unless the request has come in whole, with
    the magic number and a program of at most [kMaxInput] bytes.  With a
    program to read, it reads until [prog_size] bytes have come in or the
    stream is at its end, in at most [prog_size] calls of [read], and
    fails unless exactly [prog_size] bytes have come in by then: when it
    returns, [input_data] starts with those bytes and is otherwise as it
    was.  It leaves [flag_collide] set only with [flag_threaded]. *)
Theorem receive_execute_spec (need_prog : bool) (n : Z) (req : execute_req)
  (pipe : pipe_t) (input_bytes : list Z) :
  pipe_ok pipe -> 0 <= req_prog_size req ->
  let r := receive_execute need_prog n req pipe input_bytes in
  terminates r
  /\ (n <> 56 \/ req_magic req <> kInMagic
      \/ kMaxInput < req_prog_size req -> is_fail r)
  /\ (forall fl env pid input_bytes',
      r = Ok (fl, env, pid, input_bytes') ->
      n = 56 /\ req_magic req = kInMagic /\ req_prog_size req <= kMaxInput
      /\ fl = receive_execute_flags req
      /\ env = parse_env_flags (req_env_flags req)
      /\ pid = to_int (req_pid req)
      /\ (flag_collide fl = true -> flag_threaded fl = true)
      /\ (req_prog_size req = 0 ->
          need_prog = false /\ input_bytes' = input_bytes)
      /\ (0 < req_prog_size req ->
          exists m, (m <= Z.to_nat (req_prog_size req))%nat
            /\ Z.of_nat (length (pipe_stream pipe m 0 0)) = req_prog_size req
            /\ input_bytes'
               = pipe_stream pipe m 0 0
                 ++ drop (Z.to_nat (req_prog_size req)) input_bytes)).
Proof.
  intros Hpipe Hnn r. subst r. unfold receive_execute. cbv zeta.
  destruct (Z.eqb_spec n 56) as [Hn | Hn]; cbn [negb];
    [| split; [exact I |]; split; [intros; exact I | discriminate]].
  destruct (Z.eqb_spec (req_magic req) kInMagic) as [Hm | Hm]; cbn [negb];
    [| split; [exact I |]; split; [intros; exact I | discriminate]].
  destruct (Z.ltb_spec kMaxInput (req_prog_size req)) as [Hs | Hs];
    [split; [exact I |]; split; [intros; exact I | discriminate] |].
  destruct (Z.eqb_spec (req_prog_size req) 0) as [Hz | Hz].
  - destruct need_prog.
    + split; [exact I |]. split; [intros [? | [? | ?]]; [contradiction ..
                                                         | lia] |].
      discriminate.
    + split; [exact I |]. split; [intros [? | [? | ?]]; [contradiction ..
                                                         | lia] |].
      intros fl env pid buf' [= <- <- <- <-].
      repeat (split; [first [assumption | reflexivity
                            | apply receive_execute_flags_collide] |]).
      split; [auto | lia].
  - assert (Hpos : 0 <= 0 < req_prog_size req) by lia.
    pose proof (receive_prog_terminates pipe (req_prog_size req) Hpipe Hs
                  (Z.to_nat (req_prog_size req)) 0%nat 0 input_bytes Hpos
                  ltac:(lia)) as Ht.
    pose proof (receive_prog_ok pipe (req_prog_size req) Hpipe Hs
                  (Z.to_nat (req_prog_size req)) 0%nat 0 input_bytes) as Hok.
    destruct (receive_prog _ _ _ _ _ _) as [[pos buf1] | | |];
      cbn [mbind result_bind]; try contradiction.
    + destruct (Z.eqb_spec pos (req_prog_size req)) as [Ep | Ep];
        cbn [negb].
      * split; [exact I |].
        split; [intros [? | [? | ?]]; [contradiction .. | lia] |].
        intros fl env pid buf' [= <- <- <- <-].
        repeat (split; [first [assumption | reflexivity
                              | apply receive_execute_flags_collide] |]).
        split; [intros; lia |]. intros _.
        destruct (Hok pos buf1 Hpos eq_refl) as (m & Hm' & Hp & Hb & _).
        exists m. split; [exact Hm' |]. split; [lia |].
        rewrite Hb. unfold store_bytes.
        change (Z.to_nat 0) with 0%nat. rewrite take_0. cbn [app Nat.add].
        f_equal. f_equal. lia.
      * split; [exact I |].
        split; [intros [? | [? | ?]]; [contradiction .. | lia] |].
        discriminate.
    + split; [exact I |].
      split; [intros [? | [? | ?]]; [contradiction .. | lia] |].
      discriminate.
    + split; [exact I |].
      split; [intros [? | [? | ?]]; [contradiction .. | lia] |].
      discriminate.
Qed.

Lemma chunk_pipe_ok chunks : pipe_ok (chunk_pipe chunks).
Proof.
  intros k count bs Hc [= <-]. rewrite length_take. lia.
Qed.

Lemma receive_execute_spec_witness :
  exists fl env,
    receive_execute false 56 (mk_req kInMagic 1 48 7 0 0 5)
      (chunk_pipe [[1; 2; 3]; [4; 5]]) [9; 9; 9; 9; 9; 9; 9; 9]
    = Ok (fl, env, 7, [1; 2; 3; 4; 5; 9; 9; 9])
    /\ flag_collide fl = true /\ flag_threaded fl = true.
Proof.
  set (req := mk_req kInMagic 1 48 7 0 0 5).
  exists (receive_execute_flags req), (parse_env_flags 1).
  assert (H : receive_execute false 56 req (chunk_pipe [[1; 2; 3]; [4; 5]])
                [9; 9; 9; 9; 9; 9; 9; 9]
              = Ok (receive_execute_flags req, parse_env_flags 1, 7,
                    [1; 2; 3; 4; 5; 9; 9; 9]))
    by (vm_compute; reflexivity).
  split; [exact H |].
  destruct (receive_execute_spec false 56 req (chunk_pipe [[1; 2; 3]; [4; 5]])
              [9; 9; 9; 9; 9; 9; 9; 9] (chunk_pipe_ok _)
              ltac:(vm_compute; discriminate)) as (_ & _ & Hok).
  destruct (Hok _ _ _ _ H) as (_ & _ & _ & _ & _ & _ & Hc & _).
  assert (Ec : flag_collide (receive_execute_flags req) = true)
    by (vm_compute; reflexivity).
  split; [exact Ec | exact (Hc Ec)].
Defined.

(** ** The hash is a permutation *)

Lemma testbit_high a i : 0 <= a < 2 ^ 32 -> 32 <= i -> Z.testbit a i = false.
Proof.
  intros Ha Hi. destruct (Z.eq_dec a 0) as [-> | Hne];
    [apply Z.testbit_0_l |].
  apply Z.bits_above_log2; [lia |].
  assert (Z.log2 a < 32) by (apply Z.log2_lt_pow2; lia). lia.
Qed.

Lemma shiftr_range a k : 0 <= k -> 0 <= a < 2 ^ 32 -> 0 <= Z.shiftr a k < 2 ^ 32.
Proof.
  intros Hk Ha. rewrite Z.shiftr_div_pow2 by exact Hk.
  assert (0 < 2 ^ k) by (apply Z.pow_pos_nonneg; lia).
  split; [apply Z.div_pos; lia |].
  apply Z.le_lt_trans with a; [| lia].
  apply Z.div_le_upper_bound; [lia |]. nia.
Qed.

(** [a ^ (a >> k)] can be undone from the top bit down. *)
Lemma xorshift_inj k a b :
  0 < k -> 0 <= a < 2 ^ 32 -> 0 <= b < 2 ^ 32 ->
  Z.lxor a (Z.shiftr a k) = Z.lxor b (Z.shiftr b k) -> a = b.
Proof.
  intros Hk Ha Hb E.
  assert (Hbits : forall n : nat, forall i,
             32 - Z.of_nat n <= i -> Z.testbit a i = Z.testbit b i).
  { induction n as [| n IH]; intros i Hi.
    - rewrite !testbit_high by lia. reflexivity.
    - destruct (Z.le_gt_cases (32 - Z.of_nat n) i) as [Hge | Hlt];
        [apply IH; exact Hge |].
      destruct (Z.lt_ge_cases i 0) as [Hneg | Hnn];
        [rewrite !Z.testbit_neg_r by exact Hneg; reflexivity |].
      assert (Ei : Z.testbit (Z.lxor a (Z.shiftr a k)) i
                   = Z.testbit (Z.lxor b (Z.shiftr b k)) i) by (rewrite E; reflexivity).
      rewrite !Z.lxor_spec, !Z.shiftr_spec in Ei by exact Hnn.
      rewrite (IH (i + k)) in Ei by lia.
      destruct (Z.testbit a i), (Z.testbit b i), (Z.testbit b (i + k));
        cbn in Ei; congruence. }
  apply Z.bits_inj'. intros i Hi. apply (Hbits 32%nat). lia.
Qed.

(** A multiplication by an odd constant can be undone. *)
Lemma mul_inj c inv a b :
  (c * inv) mod 2 ^ 32 = 1 -> 0 <= a < 2 ^ 32 -> 0 <= b < 2 ^ 32 ->
  (a * c) mod 2 ^ 32 = (b * c) mod 2 ^ 32 -> a = b.
Proof.
  intros Hinv Ha Hb E.
  assert (R : forall x, 0 <= x < 2 ^ 32 ->
                        ((x * c) mod 2 ^ 32 * inv) mod 2 ^ 32 = x).
  { intros x Hx. rewrite Z.mul_mod_idemp_l by lia.
    rewrite <- Z.mul_assoc, <- Z.mul_mod_idemp_r, Hinv by lia.
    rewrite Z.mul_1_r. apply Z.mod_small. exact Hx. }
  rewrite <- (R a Ha), <- (R b Hb), E. reflexivity.
Qed.

Lemma lxor_swap x c y : Z.lxor (Z.lxor x c) y = Z.lxor (Z.lxor x y) c.
Proof. rewrite !Z.lxor_assoc, (Z.lxor_comm c y). reflexivity. Qed.

Lemma lxor_cancel_r u v c : Z.lxor u c = Z.lxor v c -> u = v.
Proof.
  intros E. rewrite <- (Z.lxor_0_r u), <- (Z.lxor_0_r v).
  rewrite <- (Z.lxor_nilpotent c), <- !Z.lxor_assoc, E. reflexivity.
Qed.

Lemma lxor_cancel_l u v c : Z.lxor c u = Z.lxor c v -> u = v.
Proof. rewrite !(Z.lxor_comm c). apply lxor_cancel_r. Qed.

(** [hash] is a permutation of the 32-bit values: two PCs with the same
    hash are the same, so that for one PC the signal [pc ^ prev] tells
    the previous PCs apart. *)
Theorem hash_injective (a b : Z) :
  0 <= a < 2 ^ 32 -> 0 <= b < 2 ^ 32 ->
  (hash a = hash b -> a = b)
  /\ (forall pc, Z.lxor pc (hash a) = Z.lxor pc (hash b) -> a = b)
  /\ 0 <= hash a < 2 ^ 32.
Proof.
  intros Ha Hb.
  assert (Hinj : hash a = hash b -> a = b).
  { unfold hash. cbv zeta.
    set (f1 := fun x => Z.lxor (Z.lxor x 61) (Z.shiftr x 16)).
    set (f2 := fun x => u32 (x + u32 (Z.shiftl x 3))).
    set (f3 := fun x => Z.lxor x (Z.shiftr x 4)).
    set (f4 := fun x => u32 (x * 668265261)).
    change (Z.lxor (f4 (f3 (f2 (f1 a)))) (Z.shiftr (f4 (f3 (f2 (f1 a)))) 15)
            = Z.lxor (f4 (f3 (f2 (f1 b)))) (Z.shiftr (f4 (f3 (f2 (f1 b)))) 15)
            -> a = b).
    assert (R1 : forall x, 0 <= x < 2 ^ 32 -> 0 <= f1 x < 2 ^ 32).
    { intros x Hx. unfold f1. apply lxor_range; [lia | |].
      - apply lxor_range; lia.
      - apply shiftr_range; lia. }
    assert (R2 : forall x, 0 <= f2 x < 2 ^ 32) by (intros; apply u32_range).
    assert (R3 : forall x, 0 <= x < 2 ^ 32 -> 0 <= f3 x < 2 ^ 32).
    { intros x Hx. unfold f3. apply lxor_range; [lia | lia |].
      apply shiftr_range; lia. }
    assert (R4 : forall x, 0 <= f4 x < 2 ^ 32) by (intros; apply u32_range).
    intros E5.
    apply xorshift_inj in E5; [| lia | apply R4 | apply R4].
    unfold f4, u32 in E5.
    apply (mul_inj 668265261 4218002597) in E5;
      [| reflexivity | apply R3, R2 | apply R3, R2].
    unfold f3 in E5.
    apply xorshift_inj in E5; [| lia | apply R2 | apply R2].
    assert (E2 : forall x, f2 x = (x * 9) mod 2 ^ 32).
    { intros x. unfold f2, u32. rewrite Z.shiftl_mul_pow2 by lia.
      rewrite Zplus_mod_idemp_r. f_equal. lia. }
    rewrite !E2 in E5.
    apply (mul_inj 9 954437177) in E5;
      [| reflexivity | apply R1, Ha | apply R1, Hb].
    unfold f1 in E5. rewrite !(lxor_swap _ 61) in E5.
    pose proof (lxor_cancel_r _ _ _ E5) as E1.
    apply xorshift_inj in E1; [exact E1 | lia | exact Ha | exact Hb]. }
  split; [exact Hinj |]. split; [| apply hash_range, Ha].
  intros pc E. apply Hinj. eapply lxor_cancel_l, E.
Qed.

Lemma hash_injective_witness :
  hash 0x1000 <> hash 0x1004 /\ hash 0x1000 = 20361046.
Proof.
  split; [| vm_compute; reflexivity].
  intros E.
  pose proof (proj1 (hash_injective 0x1000 0x1004 ltac:(lia) ltac:(lia)) E).
  discriminate.
Defined.

(** ** Reading the output as records *)

Lemma cmp_entries_prefix (comps : list (list Z)) :
  forall comps' x x',
    Forall is_cmp_entry comps -> Forall is_cmp_entry comps' ->
    length comps = length comps' ->
    concat comps ++ x = concat comps' ++ x' ->
    comps = comps' /\ x = x'.
Proof.
  induction comps as [| e comps IH]; intros comps' x x' Hc Hc' Hl E;
    destruct comps' as [| e' comps']; try discriminate.
  - auto.
  - inversion Hc as [| ? ? He Hcs]; subst.
    inversion Hc' as [| ? ? He' Hcs']; subst.
    destruct He as (t & rest & -> & Hr).
    destruct He' as (t' & rest' & -> & Hr').
    cbn [concat app] in E. rewrite <- !app_assoc in E.
    injection E as <- E. rewrite <- Hr' in Hr.
    apply app_inj_1 in E as [<- E]; [| exact Hr].
    apply IH in E as [<- <-]; auto.
Qed.

(** A record tells its own length: no record is a proper prefix of a
    sequence of words that starts with another. *)
Lemma record_prefix r r' x x' :
  is_record r -> is_record r' -> r ++ x = r' ++ x' -> r = r' /\ x = x'.
Proof.
  intros (a & b & c & d & sigs & cover & comps & -> & Hc)
         (a' & b' & c' & d' & sigs' & cover' & comps' & -> & Hc') E.
  cbn [app] in E. injection E as <- <- <- <- Hs Hv Hm E.
  apply Nat2Z.inj in Hs, Hv, Hm.
  rewrite <- !app_assoc in E.
  apply app_inj_1 in E as [<- E]; [| exact Hs].
  apply app_inj_1 in E as [<- E]; [| exact Hv].
  apply cmp_entries_prefix in E as [<- <-]; auto.
Qed.

(** The words of a sequence of records can be read as records in one
    way only. *)
Lemma records_unique (recs : list (list Z)) :
  Forall is_record recs -> only_split recs.
Proof.
  induction recs as [| r recs IH]; intros Hr recs' Hr' E.
  - destruct recs' as [| r' recs']; [reflexivity |].
    inversion Hr' as [| ? ? H1 _]; subst.
    destruct H1 as (a & b & c & d & e & f & g & -> & _).
    cbn in E. discriminate E.
  - inversion Hr as [| ? ? H1 H2]; subst.
    destruct recs' as [| r' recs'].
    + destruct H1 as (a & b & c & d & e & f & g & -> & _).
      cbn in E. discriminate E.
    + inversion Hr' as [| ? ? H1' H2']; subst.
      cbn [concat] in E.
      apply record_prefix in E as [-> E]; [| assumption ..].
      f_equal. apply IH; assumption.
Qed.

(** ** The records of a run without timeouts *)

Section OrderedRecords.
Context {W : Type} {P : Platform W}.
Implicit Types st : state W.

Lemma execute_call_fields i st st' :
  (Z.to_nat i < length (threads st))%nat ->
  execute_call i st = Ok st' ->
  th_call_index (thread_at st' i) = th_call_index (thread_at st i)
  /\ th_call_num (thread_at st' i) = th_call_num (thread_at st i).
Proof.
  intros Hi H. apply execute_call_keeps in H; [| exact Hi].
  destruct H as (_ & _ & _ & _ & ? & ? & _). auto.
Qed.

(** No worker moves on a slot that has no call. *)
Lemma worker_progress_settled i ms st :
  (th_created (thread_at st i) = true -> th_done (thread_at st i) = true) ->
  worker_progress i ms st = Ok st.
Proof.
  intros H. unfold worker_progress. cbv zeta.
  destruct (th_created (thread_at st i));
    [rewrite (H eq_refl) |]; rewrite ?andb_false_r; reflexivity.
Qed.

Lemma event_isset_done_settled i st :
  (th_created (thread_at st i) = true -> th_done (thread_at st i) = true) ->
  event_isset_done i st = Ok (th_done (thread_at st i), st).
Proof.
  intros H. unfold event_isset_done.
  rewrite worker_progress_settled by exact H. reflexivity.
Qed.

(** With no call in flight [schedule_call] gives the call to slot 0,
    leaves the output and the other slots alone, and lets the worker of
    slot 0 run. *)
Lemma schedule_call_idle call_index call_num copyout_index num_args
  args pos st i st' :
  wf_threads st -> idle st ->
  schedule_call call_index call_num copyout_index num_args args pos st
  = Ok (i, st') ->
  i = 0
  /\ exists sa,
      worker_progress 0 0 sa = Ok st'
      /\ output_data sa = output_data st /\ completed sa = completed st
      /\ flags sa = flags st /\ collide sa = collide st /\ wf_threads sa
      /\ running sa = 1
      /\ th_call_index (thread_at sa 0) = call_index
      /\ th_created (thread_at sa 0) = true
      /\ th_ready (thread_at sa 0) = true
      /\ th_done (thread_at sa 0) = false
      /\ (forall j, 0 <= j < kMaxThreads -> j <> 0 ->
            thread_at sa j = thread_at st j).
Proof.
  intros Hwf [Hrun Hidle] H1. unfold schedule_call in H1.
  change (Z.to_nat kMaxThreads) with (S 15) in H1.
  rewrite schedule_scan_S in H1. cbv zeta in H1.
  set (st0 := if negb (th_created (thread_at st 0))
              then thread_create 0 st else st) in H1.
  assert (Hi0 : (Z.to_nat 0 < length (threads st))%nat)
    by (apply in_range_threads; [exact Hwf | unfold kMaxThreads; lia]).
  assert (F0 : flags st0 = flags st
               /\ output_data st0 = output_data st
               /\ completed st0 = completed st
               /\ collide st0 = collide st
               /\ running st0 = running st
               /\ length (threads st0) = length (threads st)
               /\ (forall j, 0 <= j -> j <> 0 ->
                     thread_at st0 j = thread_at st j)
               /\ th_created (thread_at st0 0) = true
               /\ th_ready (thread_at st0 0) = false
               /\ th_done (thread_at st0 0) = true
               /\ th_handled (thread_at st0 0) = true).
  { subst st0. destruct (th_created (thread_at st 0)) eqn:Ec; cbn [negb].
    - destruct (Hidle 0 ltac:(unfold kMaxThreads; lia) Ec) as (? & ? & ?).
      auto 15.
    - assert (S0 : silent st (thread_create 0 st))
        by apply thread_create_silent.
      destruct S0 as (Sf & Sr & Sc & Scl & _ & So & _ & _ & Sl).
      do 6 (split; [assumption |]).
      unfold thread_create. cbv zeta.
      set (th' := mk_thread _ _ _ _ _ _ _ _ _ _ _ _ _ _ _ _).
      assert (T : forall j,
                thread_at (if flag_threaded (flags (set_thread st 0 th'))
                           then set_world (set_thread st 0 th')
                                  (thread_start 0
                                     (world (set_thread st 0 th')))
                           else set_thread st 0 th') j
                = thread_at (set_thread st 0 th') j)
        by (intros j; destruct (flag_threaded _); reflexivity).
      split; [intros j Hj Hne; rewrite T;
              apply thread_at_set_thread_ne; lia |].
      rewrite T, thread_at_set_thread_eq by exact Hi0. cbn. auto. }
  destruct F0 as (Ff & Fo & Fc & Fcl & Fr & Fl & Fj & Tc & Tr & Td & Th).
  rewrite event_isset_done_settled in H1 by (intros _; exact Td).
  cbn [mbind result_bind] in H1.
  rewrite Td, Th in H1. cbn [negb mbind result_bind] in H1.
  change (0 =? kMaxThreads) with false in H1. cbv iota in H1.
  rewrite Td, Th, Tr in H1. cbn [negb orb] in H1. cbv zeta in H1.
  apply bind_ok in H1 as (st2 & H2 & H1). injection H1 as <- <-.
  split; [reflexivity |].
  match type of H2 with
  | worker_progress _ _ ?s = _ => exists s
  end.
  split; [exact H2 |]. rewrite thread_at_set_running.
  rewrite thread_at_set_thread_eq by (rewrite Fl; exact Hi0).
  cbn [set_running set_thread set_threads output_data completed flags
         collide running th_call_index th_created th_ready th_done].
  do 4 (split; [assumption |]).
  split; [unfold wf_threads, set_running, set_thread, set_threads;
          cbn [threads]; rewrite length_insert, Fl; exact Hwf |].
  split; [lia |]. do 4 (split; [auto |]).
  intros j Hj Hne. rewrite thread_at_set_running.
  rewrite thread_at_set_thread_ne by lia. apply Fj; lia.
Qed.

(** A step of the worker: nothing, the start of the call, or the whole
    of what is left of it. *)
Lemma worker_progress_cases i ms st st' :
  worker_progress i ms st = Ok st' ->
  (exists w, st' = set_world st w)
  \/ (exists w,
        th_done (thread_at st i) = false
        /\ st' = set_thread (set_world st w) i
                   (set_th_ready (thread_at st i) false))
  \/ (exists w, execute_call i (set_world st w) = Ok st').
Proof.
  unfold worker_progress. cbv zeta.
  destruct (flag_threaded (flags st) && th_created (thread_at st i)) eqn:E1;
    cbn [andb];
    [| intros [= <-]; left; exists (world st); symmetry;
       apply set_world_id].
  destruct (th_done (thread_at st i)) eqn:Ed; cbn [negb];
    [intros [= <-]; left; exists (world st); symmetry; apply set_world_id |].
  destruct (worker_poll i ms (world st)) as [p w]. destruct p.
  - intros [= <-]. left. exists w. reflexivity.
  - intros [= <-]. right. left. exists w. auto.
  - intros H. right. right. exists w. exact H.
Qed.

(** A worker that finishes in time has run the call by the end of a
    timed wait. *)
Lemma wait_call_prompt th pos st st' :
  prompt_workers -> wf_threads st -> 0 <= th < kMaxThreads ->
  flag_threaded (flags st) = true ->
  th_created (thread_at st th) = true -> th_done (thread_at st th) = false ->
  running st = 1 ->
  wait_call th pos st = Ok st' ->
  exists w sa,
    execute_call th (set_world st w) = Ok sa
    /\ handle_completion th sa = Ok st'.
Proof.
  intros Hp Hwf Hth Hft Hcr Hd Hrun H.
  unfold wait_call in H. cbv zeta in H.
  apply bind_ok in H as ([b st1] & H1 & H).
  unfold event_timedwait_done, worker_progress in H1. cbv zeta in H1.
  rewrite Hft, Hcr, Hd in H1. cbn [andb negb] in H1.
  match type of H1 with
  | context [worker_poll ?i ?ms ?w] =>
      pose proof (Hp i ms w) as Hfin;
      destruct (worker_poll i ms w) as [p w1]
  end.
  cbn [fst] in Hfin. rewrite Hfin in H1 by (destruct (flag_debug _); lia).
  apply bind_ok in H1 as (sa & Ha & H1). injection H1 as <- <-.
  exists w1, sa. split; [exact Ha |].
  pose proof (execute_call_silent _ _ _ Ha) as (_ & Sr & _ & _ & _ & _ & _
                                               & _ & Sl).
  assert (Hr : (Z.to_nat th < length (threads st))%nat)
    by (apply in_range_threads; assumption).
  apply execute_call_keeps in Ha; [| exact Hr].
  destruct Ha as (_ & _ & _ & _ & _ & _ & _ & Ta & _).
  rewrite Ta in H. apply bind_ok in H as (st2 & H2 & H).
  pose proof H2 as H2'.
  apply handle_completion_ok in H2'; [| rewrite Sl; exact Hr].
  destruct H2' as (_ & _ & _ & _ & _ & Fr & _).
  assert (E0 : running st2 = 0)
    by (rewrite Fr, Sr; cbn [set_world running]; lia).
  rewrite E0 in H. cbn in H. injection H as <-. exact H2.
Qed.

(** The wait for a call that is done is its completion. *)
Lemma wait_call_done th pos st st' :
  wf_threads st -> 0 <= th < kMaxThreads ->
  th_done (thread_at st th) = true -> running st = 1 ->
  wait_call th pos st = Ok st' ->
  handle_completion th st = Ok st'.
Proof.
  intros Hwf Hth Hd Hrun H.
  unfold wait_call in H. cbv zeta in H.
  unfold event_timedwait_done in H.
  rewrite worker_progress_settled in H by (intros _; exact Hd).
  cbn [mbind result_bind] in H. rewrite Hd in H.
  apply bind_ok in H as (st2 & H2 & H).
  pose proof H2 as H2'.
  apply handle_completion_ok in H2';
    [| apply in_range_threads; assumption].
  destruct H2' as (_ & _ & _ & _ & _ & Fr & _).
  assert (E0 : running st2 = 0) by lia.
  rewrite E0 in H. cbn in H. injection H as <-. exact H2.
Qed.

(** A call run on slot 0 and completed at once appends its record and
    leaves no call in flight. *)
Lemma slot0_call_record st w sa st' :
  wf_threads st -> collide st = false -> running st = 1 ->
  (forall j, 0 <= j < kMaxThreads -> j <> 0 ->
     th_created (thread_at st j) = true ->
     th_ready (thread_at st j) = false /\ th_done (thread_at st j) = true
     /\ th_handled (thread_at st j) = true) ->
  execute_call 0 (set_world st w) = Ok sa ->
  handle_completion 0 sa = Ok st' ->
  (exists tl,
     is_record (u32 (th_call_index (thread_at st 0)) :: tl)
     /\ output_data st'
        = <[0%nat := u32 (completed st + 1)]>
            (output_data st ++ u32 (th_call_index (thread_at st 0)) :: tl))
  /\ completed st' = u32 (completed st + 1)
  /\ 4 * Z.of_nat (length (output_data st)) < kMaxOutput
  /\ idle st' /\ wf_threads st' /\ flags st' = flags st
  /\ collide st' = false.
Proof.
  intros Hwf Hc Hrun Hoth Ha H2.
  assert (Hi0 : (Z.to_nat 0 < length (threads st))%nat)
    by (apply in_range_threads; [exact Hwf | unfold kMaxThreads; lia]).
  pose proof (execute_call_fields 0 (set_world st w) sa Hi0 Ha) as [Gi _].
  rewrite thread_at_set_world in Gi.
  pose proof (execute_call_silent _ _ _ Ha)
    as (Sf & Sr & Sc & Scl & _ & So & _ & _ & Sl).
  cbn [set_world flags running completed collide output_data threads]
    in Sf, Sr, Sc, Scl, So, Sl.
  apply execute_call_ok in Ha as (th2 & w2 & Ea & Rr & Rd & _ & _).
  assert (Ta : thread_at sa 0 = th2).
  { rewrite Ea, thread_at_set_world. apply thread_at_set_thread_eq.
    exact Hi0. }
  assert (Tj : forall j, 0 <= j -> j <> 0 -> thread_at sa j = thread_at st j).
  { intros j Hj Hne. rewrite Ea, thread_at_set_world.
    rewrite thread_at_set_thread_ne by lia. reflexivity. }
  apply handle_completion_ok in H2; [| rewrite Sl; exact Hi0].
  destruct H2 as (_ & Ff & Fc & _ & _ & Fr & (pos & Ht) & H2).
  rewrite Scl, Hc in H2. cbv zeta in H2.
  destruct H2 as (G1 & G2 & _ & _ & G5).
  pose proof (record_words_is_record (flags sa) cmp_ignore (thread_at sa 0)
                (dedup_table sa)) as Hr.
  destruct (completion_payload (flags sa) cmp_ignore (thread_at sa 0)
              (dedup_table sa)) as [[[[nsig ncover] ncomps] payload] tbl'].
  cbn [record_words record_head app] in *.
  rewrite Gi in *. rewrite So, Sc in *.
  split; [eexists; split; [exact Hr | exact G2] |].
  split; [exact G1 |]. split; [exact G5 |].
  split; [| split; [| split; congruence]].
  - split; [lia |]. intros j Hj Hcj.
    destruct (Z.eq_dec j 0) as [-> | Hne].
    + rewrite (thread_at_insert_eq _ _ _ _ Ht) in * by (rewrite Sl; exact Hi0).
      rewrite Ta. cbn. auto.
    + rewrite (thread_at_insert _ _ 0 j _ Ht) in * by lia.
      rewrite Tj in * by lia. apply Hoth; [exact Hj | exact Hne | exact Hcj].
  - unfold wf_threads in *. rewrite Ht, length_insert, Sl. exact Hwf.
Qed.

(** A call instruction, without timeouts, appends the record of the
    call. *)
Lemma prompt_instr_record call_num pos ci st pos' ci' st' :
  flag_threaded (flags st) = false \/ prompt_workers ->
  wf_threads st -> collide st = false -> idle st ->
  execute_syscall_instr call_num pos ci st = Ok (pos', ci', st') ->
  (exists tl,
     is_record (u32 ci :: tl)
     /\ output_data st'
        = <[0%nat := u32 (completed st + 1)]>
            (output_data st ++ u32 ci :: tl))
  /\ completed st' = u32 (completed st + 1)
  /\ 4 * Z.of_nat (length (output_data st)) < kMaxOutput
  /\ idle st' /\ wf_threads st' /\ flags st' = flags st
  /\ collide st' = false /\ ci' = ci + 1.
Proof.
  intros Hmode Hwf Hc Hidle H. unfold execute_syscall_instr in H.
  destruct (syscall_count <=? call_num); [discriminate |].
  apply bind_ok in H as ([copyout_index p1] & _ & H).
  apply bind_ok in H as ([num_args p2] & _ & H).
  destruct (kMaxArgs <? num_args); [discriminate |].
  apply bind_ok in H as ([vals p3] & _ & H).
  apply bind_ok in H as ([th st1] & H1 & H).
  apply bind_ok in H as (st2 & H2 & H). injection H as _ <- <-.
  pose proof (schedule_call_idle _ _ _ _ _ _ _ _ _ Hwf Hidle H1)
    as (-> & sa & Hw & Fo & Fc & Ff & Fcl & Hwfa & Fr & Fi & Fcr & Frd & Fd
        & Fj).
  assert (H0 : 0 <= 0 < kMaxThreads) by (unfold kMaxThreads; lia).
  assert (Hoth : forall j, 0 <= j < kMaxThreads -> j <> 0 ->
            th_created (thread_at sa j) = true ->
            th_ready (thread_at sa j) = false
            /\ th_done (thread_at sa j) = true
            /\ th_handled (thread_at sa j) = true).
  { intros j Hj Hne. rewrite (Fj j Hj Hne). apply Hidle, Hj. }
  pose proof (worker_progress_silent _ _ _ _ Hw)
    as (Wf & Wr & _ & Wc & _ & _ & _ & _ & Wl).
  rewrite Wc, Fcl, Hc in H2. cbn [andb] in H2.
  assert (Hwf1 : wf_threads st1)
    by (unfold wf_threads in *; congruence).
  assert (Hi0 : (Z.to_nat 0 < length (threads sa))%nat)
    by (apply in_range_threads; assumption).
  assert (Hrun : exists sx w sa',
             execute_call 0 (set_world sx w) = Ok sa'
             /\ handle_completion 0 sa' = Ok st2
             /\ wf_threads sx /\ collide sx = collide sa
             /\ flags sx = flags sa /\ running sx = running sa
             /\ output_data sx = output_data sa
             /\ completed sx = completed sa
             /\ th_call_index (thread_at sx 0) = th_call_index (thread_at sa 0)
             /\ (forall j, 0 <= j -> j <> 0 ->
                   thread_at sx j = thread_at sa j)).
  { destruct (flag_threaded (flags st1)) eqn:Et.
    - destruct Hmode as [Hm | Hp]; [congruence |].
      pose proof (worker_progress_keeps _ _ _ _ Hi0 Hw)
        as (Kc & _ & _ & _ & Ki & _ & _ & Kj).
      destruct (worker_progress_cases _ _ _ _ Hw)
        as [[w E] | [(w & _ & E) | [w E]]].
      + assert (Hd1 : th_done (thread_at st1 0) = false)
          by (rewrite E, thread_at_set_world; exact Fd).
        apply wait_call_prompt in H2 as (w' & sa' & Ha & Hh);
          [| exact Hp | exact Hwf1 | exact H0 | exact Et | congruence
           | exact Hd1 | congruence].
        exists st1, w', sa'. split; [exact Ha |]. split; [exact Hh |].
        split; [exact Hwf1 |]. rewrite E. do 6 (split; [reflexivity |]).
        intros j Hj Hne. reflexivity.
      + assert (T1 : thread_at st1 0 = set_th_ready (thread_at sa 0) false).
        { rewrite E.
          change (thread_at (set_thread (set_world sa w) 0 ?t))
            with (thread_at (set_thread sa 0 t)).
          apply thread_at_set_thread_eq, Hi0. }
        apply wait_call_prompt in H2 as (w' & sa' & Ha & Hh);
          [| exact Hp | exact Hwf1 | exact H0 | exact Et | congruence
           | rewrite T1; exact Fd | congruence].
        exists st1, w', sa'. split; [exact Ha |]. split; [exact Hh |].
        split; [exact Hwf1 |]. split; [congruence |]. split; [congruence |].
        split; [congruence |].
        split; [rewrite E; reflexivity |]. split; [rewrite E; reflexivity |].
        split; [exact Ki |]. intros j Hj Hne. apply Kj. lia.
      + exists sa, w, st1. split; [exact E |].
        apply execute_call_keeps in E; [| exact Hi0].
        destruct E as (_ & _ & _ & _ & _ & _ & _ & Kd & _).
        split; [| split; [exact Hwfa |]; do 6 (split; [reflexivity |]);
                  intros; reflexivity].
        eapply wait_call_done; [exact Hwf1 | exact H0 | exact Kd | | exact H2].
        congruence.
    - rewrite worker_progress_direct in Hw by congruence.
      injection Hw as <-.
      unfold execute_direct in H2. cbn [Z.eqb negb] in H2.
      apply bind_ok in H2 as (sa' & Ha & H2).
      exists sa, (world sa), sa'. rewrite set_world_id.
      split; [exact Ha |]. split; [exact H2 |]. split; [exact Hwfa |].
      do 6 (split; [reflexivity |]). intros; reflexivity. }
  destruct Hrun as (sx & w & sa' & Ha & Hh & Xw & Xc & Xf & Xr & Xo & Xm & Xi
                    & Xj).
  assert (Hothx : forall j, 0 <= j < kMaxThreads -> j <> 0 ->
            th_created (thread_at sx j) = true ->
            th_ready (thread_at sx j) = false
            /\ th_done (thread_at sx j) = true
            /\ th_handled (thread_at sx j) = true).
  { intros j Hj Hne. rewrite Xj by lia. apply Hoth; assumption. }
  pose proof (slot0_call_record sx w sa' st2 Xw ltac:(congruence)
                ltac:(congruence) Hothx Ha Hh)
    as (Hrec & G1 & G5 & Gi & Gw & Gf & Gc).
  rewrite Xi, Xo, Xm, Fi, Fo, Fc in *.
  split; [exact Hrec |]. split; [exact G1 |]. split; [exact G5 |].
  split; [exact Gi |]. split; [exact Gw |]. split; [congruence |].
  split; [exact Gc | reflexivity].
Qed.

Lemma ordered_records_step st st' n tl :
  ordered_records st n -> is_record (u32 n :: tl) ->
  output_data st'
  = <[0%nat := u32 (completed st + 1)]> (output_data st ++ u32 n :: tl) ->
  completed st' = u32 (completed st + 1) ->
  4 * Z.of_nat (length (output_data st)) < kMaxOutput ->
  ordered_records st' (n + 1).
Proof.
  intros (recs & Ho & Hc & Hl & Hr & Hk & _) Hrec Ho' Hc' Hlen.
  pose proof (records_length recs Hr) as Hrl.
  assert (Hk' : kMaxOutput = 2 ^ 24) by reflexivity.
  assert (Hu : u32 (completed st + 1) = n + 1).
  { rewrite Ho in Hlen. cbn [length] in Hlen. rewrite Hc.
    apply u32_id. lia. }
  assert (Hr' : Forall is_record (recs ++ [u32 n :: tl])).
  { apply Forall_app. split; [exact Hr |]. constructor; [exact Hrec |].
    constructor. }
  exists (recs ++ [u32 n :: tl]). rewrite Ho', Hc', Hu, Ho.
  split; [| split; [reflexivity | split; [| split; [exact Hr' | split]]]].
  - cbn [app insert list_insert]. rewrite concat_app. cbn [concat].
    rewrite app_nil_r. reflexivity.
  - rewrite length_app. cbn [length]. lia.
  - intros k r Hkr. destruct (Nat.lt_ge_cases k (length recs)) as [Hlt | Hge].
    + rewrite lookup_app_l in Hkr by exact Hlt. apply Hk, Hkr.
    + rewrite lookup_app_r in Hkr by exact Hge.
      destruct (k - length recs)%nat as [| j] eqn:Ej; [| discriminate].
      injection Hkr as <-. exists tl.
      replace (Z.of_nat k) with n by lia. reflexivity.
  - apply records_unique, Hr'.
Qed.

Lemma execute_loop_records fuel : forall pos ci st n st',
  flag_threaded (flags st) = false \/ prompt_workers ->
  wf_threads st -> collide st = false -> idle st -> ordered_records st ci ->
  execute_loop fuel pos ci st = Ok (n, st') ->
  ordered_records st' n /\ idle st'.
Proof.
  induction fuel as [| fuel IH];
    intros pos ci st n st' Hmode Hwf Hc Hidle Hrec H; [discriminate |].
  cbn [execute_loop] in H.
  apply bind_ok in H as ([call_num p1] & _ & H).
  destruct (call_num =? instr_eof).
  { injection H as <- <-. auto. }
  destruct (call_num =? instr_copyin).
  { apply bind_ok in H as ([p2 st1] & H1 & H).
    apply execute_copyin_world in H1 as (w & ->).
    eapply IH; [| | | | | exact H]; auto. }
  destruct (call_num =? instr_copyout).
  { apply bind_ok in H as ([a p2] & _ & H).
    apply bind_ok in H as ([b p3] & _ & H).
    apply bind_ok in H as ([c p4] & _ & H).
    eapply IH; eauto. }
  apply bind_ok in H as ([[p2 ci2] st1] & H1 & H).
  pose proof (prompt_instr_record _ _ _ _ _ _ _ Hmode Hwf Hc Hidle H1)
    as ((tl & Hr & Ho) & Hcm & Hlen & Hidle1 & Hwf1 & Hf1 & Hc1 & ->).
  eapply IH; [| exact Hwf1 | exact Hc1 | exact Hidle1 | | exact H].
  - rewrite Hf1. exact Hmode.
  - eapply ordered_records_step; eassumption.
Qed.
End OrderedRecords.

(** Without timeouts, that is in non-threaded mode, or in threaded mode
    when every worker finishes its call within the time the interpreter
    waits for it, a pass over the program leaves, after the completed counter, one
    completion record for every call of the program, in the order of
    the calls: record [k] is that of the call with [call_index] [k], the
    counter is the number of calls and no call is left in flight.  The
    output can be read as a sequence of records in this way only. *)
Theorem records_in_call_order {W : Type} {P : Platform W}
  (st st1 : state W) (n : Z) :
  flag_threaded (flags st) = false \/ prompt_workers ->
  wf_threads st -> collide st = false ->
  idle st -> completed st = 0 -> output_data st = [] ->
  execute_pass st = Ok (n, st1) ->
  ordered_records st1 n /\ idle st1.
Proof.
  intros Hmode Hwf Hc Hidle Hcomp Hout H.
  unfold execute_pass in H. cbv zeta in H.
  apply bind_ok in H as ([p st0] & H0 & H).
  apply write_output_ok in H0; [| exact Hc]. injection H0 as _ ->.
  match type of H with
  | context [execute_loop _ _ _ ?s] => set (sa := s) in H
  end.
  assert (Fa : flags sa = flags st /\ collide sa = false
               /\ completed sa = 0 /\ output_data sa = [0]
               /\ wf_threads sa /\ idle sa).
  { subst sa. destruct (_ && _); cbn; rewrite Hout; auto 10. }
  destruct Fa as (A1 & A2 & A4 & A5 & A6 & A7).
  eapply execute_loop_records; [| exact A6 | exact A2 | exact A7 | | exact H].
  - rewrite A1. exact Hmode.
  - exists []. rewrite A5, A4.
    split; [reflexivity |]. split; [reflexivity |]. split; [reflexivity |].
    split; [constructor |]. split; [intros k r Hk; discriminate |].
    apply records_unique. constructor.
Qed.

Lemma records_in_call_order_witness :
  let P := echo_platform_with (fun _ ms => if 0 <? ms then Finished else InCall)
  in
  exists st1,
    execute_pass (P := P) (echo_state flags_threaded prog_two_calls)
    = Ok (2, st1)
    /\ ordered_records st1 2 /\ idle st1
    /\ output_data st1
       = [2; 0; 1; 0; 0; 2; 0; 0; 4096; 20365138;
          1; 2; 0; 0; 0; 0; 0].
Proof.
  intros P.
  set (st := echo_state flags_threaded prog_two_calls).
  set (st1 := state_of (execute_pass (P := P) st) snd st).
  assert (H : execute_pass (P := P) st = Ok (2, st1))
    by (vm_compute; reflexivity).
  assert (Hidle : idle st).
  { split; [reflexivity |]. intros j Hj Hcr. exfalso.
    unfold st, echo_state, thread_at in Hcr. cbn [threads] in Hcr.
    rewrite lookup_total_replicate_2 in Hcr
      by (unfold kMaxThreads in *; lia).
    discriminate. }
  assert (Hp : prompt_workers (P := P)).
  { intros i ms w Hms. cbn. destruct (Z.ltb_spec 0 ms); [reflexivity | lia]. }
  exists st1. split; [exact H |].
  destruct (records_in_call_order (P := P) st st1 2
              (or_intror Hp) eq_refl eq_refl Hidle eq_refl eq_refl H)
    as [Hord Hid].
  split; [exact Hord |]. split; [exact Hid |].
  vm_compute. reflexivity.
Defined.

(** ** The calls and their records, in every mode *)

Lemma ListNoDup_snoc {A : Type} (l : list A) (x : A) :
  List.NoDup l -> ~ List.In x l -> List.NoDup (l ++ [x]).
Proof.
  induction 1 as [| a l Ha Hl IH]; intros Hx; cbn [app].
  - constructor; [intros [] | constructor].
  - constructor.
    + intros Hin. apply in_app_or in Hin as [Hin | [<- | []]];
        [exact (Ha Hin) | apply Hx; left; reflexivity].
    + apply IH. intros Hin. apply Hx. right. exact Hin.
Qed.

Lemma lookup_ListIn {A : Type} (l : list A) : forall (i : nat) y,
  l !! i = Some y -> List.In y l.
Proof.
  induction l as [| a l IH]; intros i y H; [discriminate |].
  destruct i as [| i]; cbn in H.
  - injection H as <-. left. reflexivity.
  - right. eapply IH, H.
Qed.

Lemma ListNoDup_map_lookup {A B : Type} (f : A -> B) (l : list A) :
  List.NoDup (map f l) ->
  forall (k k' : nat) x x',
    l !! k = Some x -> l !! k' = Some x' -> f x = f x' -> k = k'.
Proof.
  induction l as [| a l IH]; intros Hnd k k' x x' Hk Hk' Hf;
    [discriminate |].
  cbn [map] in Hnd. inversion Hnd as [| b m Hnin Hnd']; subst.
  assert (Hin : forall (i : nat) y,
            l !! i = Some y -> List.In (f y) (map f l)).
  { intros i y Hy. apply in_map. eapply lookup_ListIn, Hy. }
  destruct k as [| k], k' as [| k']; cbn in Hk, Hk'.
  - reflexivity.
  - injection Hk as <-. exfalso. apply Hnin. rewrite Hf. eapply Hin, Hk'.
  - injection Hk' as <-. exfalso. apply Hnin. rewrite <- Hf. eapply Hin, Hk.
  - f_equal. eapply IH; eassumption.
Qed.

Section CallsTracked.
Context {W : Type} {P : Platform W}.
Implicit Types st : state W.

Lemma same_calls_refl st : same_calls st st.
Proof. unfold same_calls. do 5 (split; [reflexivity |]). auto. Qed.

Lemma same_calls_trans st1 st2 st3 :
  same_calls st1 st2 -> same_calls st2 st3 -> same_calls st1 st3.
Proof.
  intros (A1 & A2 & A3 & A4 & A5 & A6) (B1 & B2 & B3 & B4 & B5 & B6).
  unfold same_calls. rewrite B1, B2, B3, B4, B5.
  do 5 (split; [assumption |]). intros j Hj.
  destruct (A6 j Hj) as (Ea & Ei & Ef).
  destruct (B6 j Hj) as (Ea' & Ei' & Ef'). rewrite A5 in Ef'.
  split; [congruence |]. split; [congruence | auto].
Qed.

Lemma tracking_same ci st st' :
  collide st = false ->
  (exists recs,
      calls_tracked_by recs ci st
      /\ Forall (record_fault_ok (flags st)) recs
      /\ forall j, 0 <= j < kMaxThreads ->
           slot_fault_ok (flags st) (thread_at st j)) ->
  slots_inv st' -> same_calls st st' ->
  tracking_inv ci st'.
Proof.
  intros Hc (recs & Hcalls & Hfr & Hfs) Hinv
         (A1 & A2 & A3 & A4 & A5 & A6).
  split; [exact Hinv |]. split; [congruence |]. exists recs.
  rewrite A5. split; [| split; [exact Hfr |]].
  - destruct Hcalls as (Ho & Hcm & Hrec & Hci & Hnd & Hb & Hth & Hinj).
    unfold calls_tracked_by. rewrite A1, A2, A3.
    do 6 (split; [assumption |]). split.
    + intros j Hj. destruct (A6 j Hj) as (-> & -> & _). apply Hth, Hj.
    + intros j j' Hj Hj'. destruct (A6 j Hj) as (-> & -> & _).
      destruct (A6 j' Hj') as (-> & -> & _). apply Hinj; assumption.
  - intros j Hj. apply A6; [exact Hj |]. apply Hfs, Hj.
Qed.

Lemma tracking_inv_same ci st st' :
  tracking_inv ci st -> slots_inv st' -> same_calls st st' ->
  tracking_inv ci st'.
Proof. intros (_ & Hc & H). apply tracking_same; assumption. Qed.

Lemma set_world_same st w : same_calls st (set_world st w).
Proof.
  unfold same_calls. do 5 (split; [reflexivity |]). intros j _.
  rewrite thread_at_set_world. auto.
Qed.

Lemma set_thread_same st i th' :
  (Z.to_nat i < length (threads st))%nat -> 0 <= i ->
  slot_active th' = slot_active (thread_at st i) ->
  th_call_index th' = th_call_index (thread_at st i) ->
  (slot_fault_ok (flags st) (thread_at st i) ->
   slot_fault_ok (flags st) th') ->
  same_calls st (set_thread st i th').
Proof.
  intros Hr Hi Ha Hx Hf. unfold same_calls.
  do 5 (split; [reflexivity |]). intros j Hj.
  destruct (Z.eq_dec i j) as [<- | Hne].
  - rewrite thread_at_set_thread_eq by exact Hr. auto.
  - rewrite thread_at_set_thread_ne by lia. auto.
Qed.

Lemma thread_create_same i st :
  (Z.to_nat i < length (threads st))%nat -> 0 <= i ->
  th_created (thread_at st i) = false ->
  same_calls st (thread_create i st).
Proof.
  intros Hr Hi Hc. unfold thread_create. cbv zeta.
  set (th' := mk_thread _ _ _ _ _ _ _ _ _ _ _ _ _ _ _ _).
  assert (S1 : same_calls st (set_thread st i th')).
  { apply set_thread_same; [exact Hr | exact Hi | | reflexivity |].
    - unfold slot_active. rewrite Hc. reflexivity.
    - intros _ _ Hh. discriminate Hh. }
  destruct (flag_threaded _); [| exact S1].
  eapply same_calls_trans; [exact S1 | apply set_world_same].
Qed.

(** [execute_call] leaves [fault_injected] set only if the fault was
    armed for the call. *)
Lemma execute_call_fault i st st' :
  (Z.to_nat i < length (threads st))%nat ->
  execute_call i st = Ok st' ->
  th_fault_injected (thread_at st' i) = true ->
  fault_armed (flags st) (thread_at st i) = true.
Proof.
  intros Hi. unfold execute_call. cbv zeta.
  fold (fault_armed (flags st) (thread_at st i)). intros H.
  apply bind_ok in H as ([fd w] & _ & H).
  destruct (execute_syscall _ _ _) as [res w1].
  destruct (fault_armed (flags st) (thread_at st i)); [reflexivity |].
  injection H as <-. rewrite thread_at_set_world.
  rewrite thread_at_set_thread_eq by exact Hi. cbn. intros Hx.
  discriminate Hx.
Qed.

Lemma execute_call_same i st st' :
  (Z.to_nat i < length (threads st))%nat -> 0 <= i ->
  execute_call i st = Ok st' -> same_calls st st'.
Proof.
  intros Hr Hi H.
  pose proof (execute_call_fields i st st' Hr H) as [Fi _].
  pose proof (execute_call_fault i st st' Hr H) as Ff.
  apply execute_call_ok in H as (th' & w & -> & _ & _ & Rh & Rc).
  rewrite thread_at_set_world, thread_at_set_thread_eq in Fi, Ff by exact Hr.
  eapply same_calls_trans; [| apply set_world_same].
  apply set_thread_same; [exact Hr | exact Hi | | exact Fi |].
  - unfold slot_active. rewrite Rh, Rc. reflexivity.
  - intros _ _ _ Hinj. specialize (Ff Hinj).
    unfold fault_armed in *. rewrite Fi. exact Ff.
Qed.

Lemma worker_progress_same i ms st st' :
  (Z.to_nat i < length (threads st))%nat -> 0 <= i ->
  worker_progress i ms st = Ok st' -> same_calls st st'.
Proof.
  intros Hr Hi. unfold worker_progress. cbv zeta.
  destruct (_ && _ && _); [| intros [= <-]; apply same_calls_refl].
  destruct (worker_poll i ms (world st)) as [p w].
  destruct p.
  - intros [= <-]. apply set_world_same.
  - intros [= <-].
    eapply same_calls_trans; [apply (set_world_same st w) |].
    apply set_thread_same; [exact Hr | exact Hi | reflexivity ..|].
    intros H. exact H.
  - intros H. eapply same_calls_trans; [apply (set_world_same st w) |].
    eapply execute_call_same; [| exact Hi | exact H]. exact Hr.
Qed.

Lemma event_isset_done_same i st b st' :
  (Z.to_nat i < length (threads st))%nat -> 0 <= i ->
  event_isset_done i st = Ok (b, st') -> same_calls st st'.
Proof.
  intros Hr Hi H. unfold event_isset_done in H.
  apply bind_ok in H as (st1 & H1 & H). injection H as _ <-.
  eapply worker_progress_same; eassumption.
Qed.

Lemma event_timedwait_done_same i ms st b st' :
  (Z.to_nat i < length (threads st))%nat -> 0 <= i ->
  event_timedwait_done i ms st = Ok (b, st') -> same_calls st st'.
Proof.
  intros Hr Hi H. unfold event_timedwait_done in H.
  apply bind_ok in H as (st1 & H1 & H). injection H as _ <-.
  eapply worker_progress_same; eassumption.
Qed.

Lemma record_call_words th p :
  record_call (record_words th p) = u32 (th_call_index th).
Proof. destruct p as [[[[nsig ncover] ncomps] payload] tbl]. reflexivity. Qed.

Lemma record_fault_words th p :
  record_fault (record_words th p) = Z.b2z (th_fault_injected th).
Proof. destruct p as [[[[nsig ncover] ncomps] payload] tbl]. reflexivity. Qed.

(** A completion reports the call of its slot, once. *)
Lemma handle_completion_calls ci i st st' :
  tracking_inv ci st -> 0 <= i < kMaxThreads ->
  handle_completion i st = Ok st' -> tracking_inv ci st'.
Proof.
  intros (Hinv & Hc & Hcalls) Hi H.
  pose proof Hinv as (Hwf & Hall & Hrun & _).
  pose proof (in_range_threads st i Hwf Hi) as Hr.
  pose proof (slot_ok_at st i Hall Hr) as Hok.
  pose proof H as H0. apply handle_completion_ok in H; [| exact Hr].
  cbv zeta in H.
  destruct H as ((Erd & Ed & Eh) & Ffl & Fc & _ & _ & Frun & (pos & Ht) & H).
  destruct (handle_completion_inv i st Hinv Hi Ed Eh) as [_ Hok'].
  destruct (Hok' _ H0) as (Hinv' & _). clear Hok' H0.
  split; [exact Hinv' |]. split; [congruence |].
  rewrite Hc in H. destruct H as (G1 & G2 & _ & _ & G5).
  destruct (slot_ok_finished _ Hok Ed Eh) as [Ecr _].
  assert (Hact : slot_active (thread_at st i) = true)
    by (unfold slot_active; rewrite Ecr, Eh; reflexivity).
  destruct Hcalls as (recs & (Ho & Hcm & Hrec & Hci & Hnd & Hb & Hth & Hinj)
                      & Hfr & Hfs).
  destruct (Hth i Hi Hact) as [Hidx Hnin].
  pose proof (Hfs i Hi Ed Eh) as Hfi.
  set (th := thread_at st i) in *.
  set (p := completion_payload (flags st) cmp_ignore th (dedup_table st))
    in *.
  pose proof (record_words_is_record (flags st) cmp_ignore th
                (dedup_table st)) as Hrw. fold p in Hrw.
  pose proof (record_call_words th p) as Hhd.
  pose proof (record_fault_words th p) as Hfw.
  pose proof (records_length recs Hrec) as Hrl.
  pose proof (active_count_le_length (threads st)) as Hac.
  pose proof (active_count_nonneg (threads st)) as Han.
  assert (Hk : kMaxOutput = 2 ^ 24) by reflexivity.
  unfold wf_threads in Hwf. change (Z.to_nat kMaxThreads) with 16%nat in Hwf.
  rewrite Ho in G5. cbn [length] in G5.
  assert (Hu1 : u32 (completed st + 1) = completed st + 1)
    by (apply u32_id; lia).
  assert (Hu2 : u32 (th_call_index th) = th_call_index th)
    by (apply u32_id; lia).
  rewrite Hu2 in Hhd. rewrite Hu1 in G1, G2. clearbody p.
  assert (Hsame : forall j, 0 <= j < kMaxThreads ->
            (j = i /\ th_handled (thread_at st' j) = true)
            \/ (j <> i /\ thread_at st' j = thread_at st j)).
  { intros j Hj. destruct (Z.eq_dec j i) as [-> | Hne].
    - left. split; [reflexivity |].
      rewrite (thread_at_insert_eq _ _ _ _ Ht) by exact Hr. reflexivity.
    - right. split; [exact Hne |].
      apply (thread_at_insert _ _ i j _ Ht); lia. }
  assert (Hact' : forall j, 0 <= j < kMaxThreads ->
            slot_active (thread_at st' j) = true ->
            j <> i /\ thread_at st' j = thread_at st j).
  { intros j Hj Ha. destruct (Hsame j Hj) as [[_ Hh] | ?]; [| assumption].
    unfold slot_active in Ha. rewrite Hh, andb_false_r in Ha.
    discriminate. }
  exists (recs ++ [record_words th p]). rewrite Ffl.
  split; [| split].
  - unfold calls_tracked_by.
    rewrite G2, G1, Frun, Ho, map_app, length_app. cbn [map length].
    rewrite Hhd.
    split; [| split; [lia | split; [| split; [lia | split; [| split;
            [| split]]]]]].
    + cbn [app insert list_insert]. rewrite concat_app. cbn [concat].
      rewrite app_nil_r. reflexivity.
    + apply Forall_app. split; [exact Hrec |]. constructor; [exact Hrw |].
      constructor.
    + apply ListNoDup_snoc; assumption.
    + intros h Hh. apply in_app_or in Hh as [Hh | [<- | []]]; [| lia].
      apply Hb, Hh.
    + intros j Hj Ha. destruct (Hact' j Hj Ha) as [Hne Hj'].
      rewrite Hj' in *. destruct (Hth j Hj Ha) as [? Hn]. split; [lia |].
      intros Hin. apply in_app_or in Hin as [Hin | [Hin | []]];
        [exact (Hn Hin) |].
      apply Hne. apply Hinj; try assumption. symmetry. exact Hin.
    + intros j j' Hj Hj' Ha Ha'.
      destruct (Hact' j Hj Ha) as [_ E].
      destruct (Hact' j' Hj' Ha') as [_ E'].
      rewrite E, E' in *. apply Hinj; assumption.
  - apply Forall_app. split; [exact Hfr |]. constructor; [| constructor].
    unfold record_fault_ok. rewrite Hfw, Hhd.
    destruct (th_fault_injected th); [right | left; reflexivity].
    specialize (Hfi eq_refl). unfold fault_armed in Hfi.
    apply andb_true_iff in Hfi as [Hfi1 Hfi2].
    split; [reflexivity |]. split; [exact Hfi1 |]. lia.
  - intros j Hj. destruct (Hsame j Hj) as [[_ Hh] | [_ E]].
    + intros _ Hx. congruence.
    + rewrite E. apply Hfs, Hj.
Qed.

Lemma event_isset_done_tracking ci i st b st' :
  tracking_inv ci st -> 0 <= i < kMaxThreads ->
  event_isset_done i st = Ok (b, st') ->
  tracking_inv ci st' /\ b = th_done (thread_at st' i)
  /\ th_handled (thread_at st' i) = th_handled (thread_at st i).
Proof.
  intros Hinv Hi H. pose proof Hinv as (Hs & _).
  destruct (proj2 (event_isset_done_inv i st Hs Hi) _ _ H)
    as (Hs' & Hb & _ & Hh).
  split; [| auto]. eapply tracking_inv_same; [exact Hinv | exact Hs' |].
  eapply event_isset_done_same; [| | exact H]; [| lia].
  apply in_range_threads; [apply Hs | exact Hi].
Qed.

Lemma event_timedwait_done_tracking ci i ms st b st' :
  tracking_inv ci st -> 0 <= i < kMaxThreads ->
  event_timedwait_done i ms st = Ok (b, st') ->
  tracking_inv ci st' /\ b = th_done (thread_at st' i)
  /\ th_handled (thread_at st' i) = th_handled (thread_at st i).
Proof.
  intros Hinv Hi H. pose proof Hinv as (Hs & _).
  destruct (proj2 (event_timedwait_done_inv i ms st Hs Hi) _ _ H)
    as (Hs' & Hb & _ & Hh).
  split; [| auto]. eapply tracking_inv_same; [exact Hinv | exact Hs' |].
  eapply event_timedwait_done_same; [| | exact H]; [| lia].
  apply in_range_threads; [apply Hs | exact Hi].
Qed.

Lemma tracking_inv_world ci st w :
  tracking_inv ci st -> tracking_inv ci (set_world st w).
Proof.
  intros Hinv. eapply tracking_inv_same; [exact Hinv | | apply set_world_same].
  eapply slots_inv_same; [apply Hinv | reflexivity ..].
Qed.

Lemma schedule_scan_calls ci n : forall i st i' st',
  tracking_inv ci st -> 0 <= i -> i + Z.of_nat n <= kMaxThreads ->
  schedule_scan n i st = Ok (i', st') -> tracking_inv ci st'.
Proof.
  induction n as [| n IH]; intros i st i' st' Hinv Hi Hn H.
  - injection H as _ <-. exact Hinv.
  - rewrite schedule_scan_S in H. cbv zeta in H.
    assert (Hir : 0 <= i < kMaxThreads) by lia.
    set (st0 := if negb (th_created (thread_at st i))
                then thread_create i st else st) in H.
    assert (I0 : tracking_inv ci st0).
    { subst st0. destruct (th_created (thread_at st i)) eqn:Ec; cbn [negb];
        [exact Hinv |].
      pose proof Hinv as (Hs & _).
      eapply tracking_inv_same; [exact Hinv | |].
      - apply thread_create_inv; assumption.
      - apply thread_create_same; [| lia | exact Ec].
        apply in_range_threads; [apply Hs | exact Hir]. }
    clearbody st0.
    apply bind_ok in H as ([b st1] & H1 & H).
    destruct (event_isset_done_tracking ci i st0 b st1 I0 Hir H1)
      as (I1 & _ & _).
    destruct b.
    + apply bind_ok in H as (st2 & H2 & H). injection H as _ <-.
      destruct (th_handled (thread_at st1 i)); cbn [negb] in H2.
      * injection H2 as <-. exact I1.
      * eapply handle_completion_calls; eassumption.
    + eapply IH; [exact I1 | | | exact H]; lia.
Qed.

(** [schedule_call] gives the call with index [ci] to a slot that holds
    no call. *)
Lemma schedule_call_calls ci call_num copyout_index num_args args pos st
  i st' :
  tracking_inv ci st ->
  schedule_call ci call_num copyout_index num_args args pos st
  = Ok (i, st') ->
  tracking_inv (ci + 1) st' /\ 0 <= i < kMaxThreads
  /\ th_created (thread_at st' i) = true
  /\ th_handled (thread_at st' i) = false
  /\ (flag_threaded (flags st') = false ->
      th_ready (thread_at st' i) = true).
Proof.
  intros Hinv H. pose proof Hinv as (Hs & Hc & _).
  destruct (proj2 (schedule_call_inv ci call_num copyout_index num_args
                     args pos st Hs) _ _ H) as (Hs' & Hi & Hcr & Hh & Hrd).
  split; [| auto].
  unfold schedule_call in H.
  apply bind_ok in H as ([i0 st1] & H1 & H).
  apply schedule_scan_calls with (ci := ci) in H1;
    [| exact Hinv | lia | reflexivity].
  destruct H1 as (Hs1 & Hc1 & recs
                  & (Ho & Hcm & Hrec & Hci & Hnd & Hb & Hth & Hinj)
                  & Hfr & Hfs).
  destruct (i0 =? kMaxThreads); [discriminate |].
  destruct (th_ready (thread_at st1 i0)); [discriminate |].
  destruct (th_done (thread_at st1 i0)); [| discriminate].
  destruct (th_handled (thread_at st1 i0)) eqn:Eh; [| discriminate].
  cbn [negb orb] in H. cbv zeta in H.
  apply bind_ok in H as (st2 & H2 & H). injection H as -> <-.
  pose proof Hs1 as (Hwf1 & _ & Hrun1 & _).
  pose proof (in_range_threads st1 i Hwf1 Hi) as Hr.
  pose proof (active_count_nonneg (threads st1)) as Han.
  set (th' := mk_thread _ _ _ _ _ _ _ _ _ _ _ _ _ _ _ _) in *.
  assert (Hina : slot_active (thread_at st1 i) = false)
    by (unfold slot_active; rewrite Eh; apply andb_false_r).
  assert (Hsame : forall j, 0 <= j < kMaxThreads -> j <> i ->
            thread_at (set_running (set_thread st1 i th') (running st1 + 1)) j
            = thread_at st1 j).
  { intros j Hj Hne. rewrite thread_at_set_running.
    apply thread_at_set_thread_ne. lia. }
  assert (Hnew : thread_at (set_running (set_thread st1 i th')
                              (running st1 + 1)) i = th').
  { rewrite thread_at_set_running. apply thread_at_set_thread_eq, Hr. }
  change (running (set_thread st1 i th') + 1) with (running st1 + 1) in H2.
  apply (tracking_same (ci + 1)
           (set_running (set_thread st1 i th') (running st1 + 1)) st2);
    [exact Hc1 | | exact Hs' |
     eapply worker_progress_same; [| | exact H2];
     [unfold set_running, set_thread, set_threads; cbn [threads];
      rewrite length_insert; exact Hr | lia]].
  exists recs.
  change (flags (set_running (set_thread st1 i th') (running st1 + 1)))
    with (flags st1).
  split; [| split; [exact Hfr |]].
  - unfold calls_tracked_by.
    cbn [set_running set_thread set_threads output_data completed running].
    split; [exact Ho |]. split; [exact Hcm |]. split; [exact Hrec |].
    split; [lia |]. split; [exact Hnd |].
    split; [intros h Hin; specialize (Hb h Hin); lia |]. split.
    + intros j Hj Ha. destruct (Z.eq_dec j i) as [-> | Hne].
      * rewrite Hnew. change (th_call_index th') with ci.
        split; [lia |]. intros Hin. specialize (Hb _ Hin). lia.
      * rewrite (Hsame j Hj Hne) in *. destruct (Hth j Hj Ha).
        split; [lia |]. assumption.
    + intros j j' Hj Hj' Ha Ha'.
      destruct (Z.eq_dec j i) as [-> | Hne];
        destruct (Z.eq_dec j' i) as [-> | Hne']; [reflexivity | | |].
      * rewrite Hnew. change (th_call_index th') with ci.
        rewrite (Hsame j' Hj' Hne') in *. destruct (Hth j' Hj' Ha'). lia.
      * rewrite Hnew. change (th_call_index th') with ci.
        rewrite (Hsame j Hj Hne) in *. destruct (Hth j Hj Ha). lia.
      * rewrite (Hsame j Hj Hne), (Hsame j' Hj' Hne') in *.
        apply Hinj; assumption.
  - intros j Hj. destruct (Z.eq_dec j i) as [-> | Hne].
    + rewrite Hnew. intros Hx. discriminate Hx.
    + rewrite (Hsame j Hj Hne). apply Hfs, Hj.
Qed.

Lemma sweep_calls ci n : forall i st st',
  tracking_inv ci st -> 0 <= i -> i + Z.of_nat n <= kMaxThreads ->
  sweep n i st = Ok st' -> tracking_inv ci st'.
Proof.
  induction n as [| n IH]; intros i st st' Hinv Hi Hn H.
  - injection H as <-. exact Hinv.
  - cbn [sweep] in H. assert (Hir : 0 <= i < kMaxThreads) by lia.
    apply bind_ok in H as (st1 & H1 & H).
    assert (I1 : tracking_inv ci st1).
    { destruct (th_handled (thread_at st i)); cbn [negb] in H1;
        [injection H1 as <-; exact Hinv |].
      apply bind_ok in H1 as ([b sa] & Ha & H1).
      destruct (event_isset_done_tracking ci i st b sa Hinv Hir Ha)
        as (Ia & _ & _).
      destruct b; [| injection H1 as <-; exact Ia].
      eapply handle_completion_calls; eassumption. }
    eapply IH; [exact I1 | | | exact H]; lia.
Qed.

Lemma wait_call_calls ci th input_pos st st' :
  tracking_inv ci st -> 0 <= th < kMaxThreads ->
  wait_call th input_pos st = Ok st' -> tracking_inv ci st'.
Proof.
  intros Hinv Hth H. unfold wait_call in H. cbv zeta in H.
  apply bind_ok in H as ([b st1] & H1 & H).
  destruct (event_timedwait_done_tracking ci th _ st b st1 Hinv Hth H1)
    as (I1 & _ & _).
  apply bind_ok in H as (st2 & H2 & H).
  assert (I2 : tracking_inv ci st2).
  { destruct b; [| injection H2 as <-; exact I1].
    eapply handle_completion_calls; eassumption. }
  destruct (running st2 <? 0); [discriminate |].
  destruct (0 <? running st2); [| injection H as <-; exact I2].
  apply bind_ok in H as ([next p] & _ & H). cbv zeta in H.
  eapply sweep_calls; [| | | exact H]; [| lia | reflexivity].
  apply tracking_inv_world, I2.
Qed.

Lemma execute_direct_calls ci th st st' :
  tracking_inv ci st -> 0 <= th < kMaxThreads ->
  th_created (thread_at st th) = true -> th_ready (thread_at st th) = true ->
  execute_direct th st = Ok st' -> tracking_inv ci st'.
Proof.
  intros Hinv Hth Hcr Hrd H. unfold execute_direct in H.
  destruct (negb (th =? 0)); [discriminate |].
  apply bind_ok in H as (sa & Ha & H).
  pose proof Hinv as (Hs & _).
  assert (Hd : th_done (thread_at st th) = false).
  { destruct (slot_ok_scheduled (thread_at st th)) as [Hd _];
      [apply slot_ok_at; [apply Hs | apply in_range_threads;
                                       [apply Hs | exact Hth]]
      | exact Hcr | exact Hrd | exact Hd]. }
  destruct (proj2 (execute_call_inv th st Hs Hth Hcr Hd) _ Ha) as (Hsa & _).
  eapply handle_completion_calls; [| exact Hth | exact H].
  eapply tracking_inv_same; [exact Hinv | exact Hsa |].
  eapply execute_call_same; [| | exact Ha]; [| lia].
  apply in_range_threads; [apply Hs | exact Hth].
Qed.

Lemma execute_syscall_instr_calls call_num pos ci st pos' ci' st' :
  tracking_inv ci st ->
  execute_syscall_instr call_num pos ci st = Ok (pos', ci', st') ->
  tracking_inv (ci + 1) st' /\ ci' = ci + 1.
Proof.
  intros Hinv H. unfold execute_syscall_instr in H.
  destruct (syscall_count <=? call_num); [discriminate |].
  apply bind_ok in H as ([copyout_index p1] & _ & H).
  apply bind_ok in H as ([num_args p2] & _ & H).
  destruct (kMaxArgs <? num_args); [discriminate |].
  apply bind_ok in H as ([vals p3] & _ & H).
  apply bind_ok in H as ([th st1] & H1 & H).
  apply bind_ok in H as (st2 & H2 & H). injection H as _ <- <-.
  split; [| reflexivity].
  apply schedule_call_calls in H1 as (I1 & Hth & Hcr & _ & Hrd);
    [| exact Hinv].
  pose proof I1 as (_ & Hc1 & _). rewrite Hc1 in H2. cbn [andb] in H2.
  destruct (flag_threaded (flags st1)).
  - eapply wait_call_calls; eassumption.
  - specialize (Hrd eq_refl). eapply execute_direct_calls; eassumption.
Qed.

Lemma execute_loop_calls fuel : forall pos ci st n st',
  tracking_inv ci st ->
  execute_loop fuel pos ci st = Ok (n, st') -> tracking_inv n st'.
Proof.
  induction fuel as [| fuel IH]; intros pos ci st n st' Hinv H;
    [discriminate |].
  cbn [execute_loop] in H.
  apply bind_ok in H as ([call_num p1] & _ & H).
  destruct (call_num =? instr_eof); [injection H as <- <-; exact Hinv |].
  destruct (call_num =? instr_copyin).
  { apply bind_ok in H as ([p2 st1] & H1 & H).
    apply execute_copyin_world in H1 as [w ->].
    eapply IH; [| exact H]. apply tracking_inv_world, Hinv. }
  destruct (call_num =? instr_copyout).
  { apply bind_ok in H as ([v2 p2] & _ & H).
    apply bind_ok in H as ([v3 p3] & _ & H).
    apply bind_ok in H as ([v4 p4] & _ & H).
    eapply IH; [exact Hinv | exact H]. }
  apply bind_ok in H as ([[p2 ci2] st1] & H1 & H).
  apply execute_syscall_instr_calls in H1 as [I1 ->]; [| exact Hinv].
  eapply IH; [exact I1 | exact H].
Qed.

Lemma active_count_zero l : forall i : nat,
  active_count l = 0 -> (i < length l)%nat -> slot_active (l !!! i) = false.
Proof.
  induction l as [| th l IH]; intros i H0 Hi; [cbn in Hi; lia |].
  cbn [active_count] in H0. pose proof (active_count_nonneg l) as Hn.
  destruct (slot_active th) eqn:Ea; cbn [Z.b2z] in H0; [lia |].
  destruct i as [| i]; [exact Ea |].
  change ((th :: l) !!! S i) with (l !!! i).
  apply IH; [lia | cbn in Hi; lia].
Qed.

Lemma execute_pass_calls st n st1 :
  slots_inv st -> collide st = false -> running st = 0 ->
  completed st = 0 -> output_data st = [] ->
  execute_pass st = Ok (n, st1) -> tracking_inv n st1.
Proof.
  intros Hs Hc Hrun Hcm Hout H. unfold execute_pass in H. cbv zeta in H.
  apply bind_ok in H as ([o st0] & H0 & H).
  apply write_output_ok in H0; [| exact Hc]. injection H0 as _ ->.
  match type of H with
  | context [execute_loop _ _ _ ?s] => set (sa := s) in H
  end.
  eapply execute_loop_calls; [| exact H].
  assert (I0 : tracking_inv 0 (appended st [u32 0])).
  { split; [eapply slots_inv_same; [exact Hs | reflexivity ..] |].
    split; [exact Hc |]. exists [].
    pose proof Hs as (Hwf & Hall & Hac & _).
    assert (Hno : forall j, 0 <= j < kMaxThreads ->
              slot_active (thread_at st j) = false).
    { intros j Hj. unfold thread_at. apply active_count_zero; [congruence |].
      apply in_range_threads; assumption. }
    split; [| split; [constructor |]].
    - unfold calls_tracked_by.
      cbn [appended set_output output_data completed running].
      rewrite Hout, Hcm, Hrun.
      split; [reflexivity |]. split; [reflexivity |].
      split; [constructor |]. split; [reflexivity |].
      split; [constructor |]. split; [intros h [] |].
      split.
      + intros j Hj Ha.
        change (thread_at (appended st [u32 0]) j) with (thread_at st j)
          in Ha.
        rewrite Hno in Ha by exact Hj. discriminate.
      + intros j j' Hj _ Ha.
        change (thread_at (appended st [u32 0]) j) with (thread_at st j)
          in Ha.
        rewrite Hno in Ha by exact Hj. discriminate.
    - intros j Hj Hd Hh.
      change (thread_at (appended st [u32 0]) j) with (thread_at st j) in *.
      pose proof (slot_ok_at st j Hall (in_range_threads st j Hwf Hj)) as Hok.
      destruct (slot_ok_finished _ Hok Hd Hh) as [Ecr _].
      specialize (Hno j Hj). unfold slot_active in Hno.
      rewrite Ecr, Hh in Hno. discriminate. }
  subst sa. destruct (_ && _); [apply tracking_inv_world |]; exact I0.
Qed.

(** The output at the end of [execute_one] is that of the first
    pass. *)
Lemma execute_one_output st n st1 st' :
  wf_threads st1 -> collide st1 = false ->
  execute_pass st = Ok (n, st1) -> execute_one st = Ok st' ->
  output_data st' = output_data st1 /\ completed st' = completed st1.
Proof.
  intros Hwf Hc1 H1 H.
  unfold execute_one in H. cbn [execute_one_retry] in H.
  rewrite H1 in H. cbn [mbind result_bind] in H.
  destruct (flag_collide (flags st1) && negb (flag_inject_fault (flags st1))
            && negb (collide st1));
    [| injection H as <-; auto].
  apply bind_ok in H as ([n2 st2] & H2 & H).
  apply execute_pass_collide in H2; [| exact Hwf | reflexivity].
  destruct H2 as (Fo & Fc & _ & Fcl).
  rewrite Fcl, andb_false_r in H. injection H as <-. auto.
Qed.
End CallsTracked.

(** In every mode, from a state with no call in flight and an empty
    output, a pass without [collide] over a program reports no call
    twice: the records are of different calls among the [n] calls of the
    program, the calls without a record are the [running] ones, which
    are in different slots, and [n = completed + running].  The second
    pass, when there is one, leaves this output as it is.  The output
    can be read as a sequence of records in this way only. *)
Theorem calls_reported_once {W : Type} {P : Platform W} (st : state W) :
  slots_inv st -> collide st = false -> running st = 0 ->
  completed st = 0 -> output_data st = [] ->
  forall n st1, execute_pass st = Ok (n, st1) ->
    calls_tracked n st1
    /\ forall st', execute_one st = Ok st' -> records_distinct n st'.
Proof.
  intros Hs Hc Hrun Hcm Hout n st1 H1.
  pose proof (execute_pass_calls st n st1 Hs Hc Hrun Hcm Hout H1)
    as (Hs1 & Hc1 & recs & Hcalls & _).
  assert (Hu : only_split recs) by (apply records_unique, Hcalls).
  split; [exists recs; split; [exact Hcalls | exact Hu] |]. intros st' H.
  destruct (execute_one_output st n st1 st' (proj1 Hs1) Hc1 H1 H) as [Fo Fc].
  destruct Hcalls as (Ho & Hk & Hrec & _ & Hnd & Hb & _).
  exists recs. rewrite Fo, Fc. auto 10.
Qed.

Lemma calls_reported_once_witness :
  (exists st1 st',
     execute_pass (P := echo_platform true)
       (echo_state flags_collide prog_two_calls) = Ok (2, st1)
     /\ execute_one (P := echo_platform true)
          (echo_state flags_collide prog_two_calls) = Ok st'
     /\ calls_tracked 2 st1 /\ records_distinct 2 st'
     /\ output_data st'
        = [2; 0; 1; 0; 0; 2; 0; 0; 4096; 20365138; 1; 2; 0; 0; 0; 0; 0])
  /\ (exists st1 st',
        execute_pass (P := echo_platform true)
          (echo_state flags_collide_comps prog_cmp) = Ok (2, st1)
        /\ execute_one (P := echo_platform true)
             (echo_state flags_collide_comps prog_cmp) = Ok st'
        /\ calls_tracked 2 st1 /\ records_distinct 2 st'
        /\ output_data st'
           = [2; 0; 1; 0; 0; 0; 0; 1; 6; 5; 0; 9; 0; 1; 2; 0; 0; 0; 0; 0]).
Proof.
  split.
  2: {
    set (st := echo_state flags_collide_comps prog_cmp).
    set (st1 := state_of (execute_pass (P := echo_platform true) st) snd st).
    set (st' := state_of (execute_one (P := echo_platform true) st)
                  (fun s => s) st).
    assert (H1 : execute_pass (P := echo_platform true) st = Ok (2, st1))
      by (vm_compute; reflexivity).
    assert (H : execute_one (P := echo_platform true) st = Ok st')
      by (vm_compute; reflexivity).
    assert (Hs : slots_inv st).
    { apply (init_state_exec_inv flags_collide_comps prog_cmp []).
      reflexivity. }
    exists st1, st'. split; [exact H1 |]. split; [exact H |].
    destruct (calls_reported_once (P := echo_platform true) st Hs eq_refl
                eq_refl eq_refl eq_refl 2 st1 H1) as [Hc Hd].
    split; [exact Hc |]. split; [exact (Hd st' H) |].
    vm_compute. reflexivity. }
  set (st := echo_state flags_collide prog_two_calls).
  set (st1 := state_of (execute_pass (P := echo_platform true) st) snd st).
  set (st' := state_of (execute_one (P := echo_platform true) st)
                (fun s => s) st).
  assert (H1 : execute_pass (P := echo_platform true) st = Ok (2, st1))
    by (vm_compute; reflexivity).
  assert (H : execute_one (P := echo_platform true) st = Ok st')
    by (vm_compute; reflexivity).
  assert (Hs : slots_inv st).
  { apply (init_state_exec_inv flags_collide prog_two_calls []).
    reflexivity. }
  exists st1, st'. split; [exact H1 |]. split; [exact H |].
  destruct (calls_reported_once (P := echo_platform true) st Hs eq_refl
              eq_refl eq_refl eq_refl 2 st1 H1) as [Hc Hd].
  split; [exact Hc |]. split; [exact (Hd st' H) |].
  vm_compute. reflexivity.
Defined.

(** In every mode, from a state with no call in flight and an empty
    output, the [fault_injected] word of every record that
    [execute_one] leaves is 0 or 1, and it is 1 only under
    [flag_inject_fault] and in the record of the call
    [flag_fault_call]: no fault is reported for another call, nor
    twice.  The output is the completed counter and that many records,
    and can be read as a sequence of records in this way only. *)
Theorem fault_reported_for_chosen_call {W : Type} {P : Platform W}
  (st st' : state W) :
  slots_inv st -> collide st = false -> running st = 0 ->
  completed st = 0 -> output_data st = [] ->
  execute_one st = Ok st' -> faults_reported (flags st) st'.
Proof.
  intros Hs Hc Hrun Hcm Hout H.
  assert (H1 : exists n st1, execute_pass st = Ok (n, st1)).
  { unfold execute_one in H. cbn [execute_one_retry] in H.
    apply bind_ok in H as ([n st1] & H1 & _). eauto. }
  destruct H1 as (n & st1 & H1).
  pose proof (execute_pass_calls st n st1 Hs Hc Hrun Hcm Hout H1)
    as (Hs1 & Hc1 & recs & Hcalls & Hfr & _).
  destruct (execute_one_output st n st1 st' (proj1 Hs1) Hc1 H1 H) as [Fo Fc].
  apply execute_pass_frame in H1 as (Ffl & _); [| apply Hs].
  destruct Hcalls as (Ho & Hk & Hrec & _ & Hnd & Hb & _).
  exists recs. rewrite Fo, Fc, <- Ffl.
  split; [exact Ho |]. split; [exact Hk |]. split; [exact Hrec |].
  split; [exact Hfr |]. split; [| apply records_unique, Hrec].
  intros k k' r r' Hr Hr' Hf Hf'.
  eapply (ListNoDup_map_lookup record_call recs Hnd); [exact Hr | exact Hr' |].
  eapply Forall_lookup_1 in Hr; [| exact Hfr].
  eapply Forall_lookup_1 in Hr'; [| exact Hfr].
  destruct Hr as [Hr | (_ & _ & Hr)]; [lia |].
  destruct Hr' as [Hr' | (_ & _ & Hr')]; [lia |]. congruence.
Qed.

Lemma fault_reported_for_chosen_call_witness :
  (exists st',
     execute_one (P := echo_platform true)
       (echo_state flags_fault prog_two_calls) = Ok st'
     /\ faults_reported flags_fault st'
     /\ output_data st'
        = [2; 0; 1; 0; 0; 2; 0; 0; 4096; 20365138; 1; 2; 0; 1; 0; 0; 0])
  /\ (exists st',
        execute_one (P := echo_platform true)
          (echo_state flags_fault_comps prog_cmp) = Ok st'
        /\ faults_reported flags_fault_comps st'
        /\ output_data st'
           = [2; 0; 1; 0; 0; 0; 0; 1; 6; 5; 0; 9; 0; 1; 2; 0; 1; 0; 0; 0]).
Proof.
  split.
  2: {
    set (st := echo_state flags_fault_comps prog_cmp).
    set (st' := state_of (execute_one (P := echo_platform true) st)
                  (fun s => s) st).
    assert (H : execute_one (P := echo_platform true) st = Ok st')
      by (vm_compute; reflexivity).
    assert (Hs : slots_inv st).
    { apply (init_state_exec_inv flags_fault_comps prog_cmp []).
      discriminate. }
    exists st'. split; [exact H |].
    split; [| vm_compute; reflexivity].
    exact (fault_reported_for_chosen_call (P := echo_platform true) st st'
             Hs eq_refl eq_refl eq_refl eq_refl H). }
  set (st := echo_state flags_fault prog_two_calls).
  set (st' := state_of (execute_one (P := echo_platform true) st)
                (fun s => s) st).
  assert (H : execute_one (P := echo_platform true) st = Ok st')
    by (vm_compute; reflexivity).
  assert (Hs : slots_inv st).
  { apply (init_state_exec_inv flags_fault prog_two_calls []).
    discriminate. }
  exists st'. split; [exact H |].
  split; [| vm_compute; reflexivity].
  exact (fault_reported_for_chosen_call (P := echo_platform true) st st'
           Hs eq_refl eq_refl eq_refl eq_refl H).
Defined.

